(** * xmlParser: a shallow embedding of the tag reader, the tree builder and
    the path resolver (attribute.c, tag.c, node.c, xml.c).

    Conventions of the embedding.
    - A [FILE*] opened for reading is the list of bytes that remain to be
      read; [fgetc] returns an [int], the byte or [EOF] (-1), as a [Z].
    - A [char buf[XML_BUFFER_LENGTH]] is a list of that length updated by
      index; a store outside it is undefined behaviour in C and is an
      explicit outcome here ([Undefined OutOfBoundsWrite]).
    - [char*] strings are [string]s, a pointer that may be [NULL] is an
      [option]; reading a C string out of a buffer stops at the first
      NUL byte ([cstr]).
    - Nodes live in an arena (the list of allocated nodes); a [XML_Node*]
      is an index in it.  The [next] chain of attributes is exclusively
      owned by its tag or node and is a list, head first.
    - [malloc] is assumed to succeed; [free] and the [logMem] bookkeeping
      are not observable by any function modelled here and are left out.
      [logError] is kept as the diagnostic attached to a [NULL] result.
    - A loop whose end is not structural runs on a bound computed from its
      input, [OutOfFuel] when the bound is passed.  The parser never
      passes it ([parseXMLFile_bounded]); a sibling scan gets one turn more
      than the arena has nodes, enough for every sibling list that ends
      ([chain_length]).
    - Loop counters ([int i], [iPath], ...) start at 0 and only count up
      to a buffer or path length, so they are [nat]; [cc] is a [Z]. *)

From Stdlib Require Import ZArith Ascii String List Lia Bool.
From stdpp Require Import base tactics option list relations strings.

Open Scope Z_scope.

(** ** Outcomes of a C execution *)

Inductive ub : Type :=
| OutOfBoundsWrite   (* store past the end of a stack buffer *)
| OutOfBoundsRead    (* read past the terminator of a C string *)
| UninitialisedRead  (* use of a local that was never assigned *)
| InvalidPointer.    (* dereference of NULL or of a dangling node pointer *)

Inductive outcome (A : Type) : Type :=
| Ok (a : A)
| Undefined (u : ub)
| OutOfFuel.
Arguments Ok {A} a.
Arguments Undefined {A} u.
Arguments OutOfFuel {A}.

#[global] Instance outcome_bind : MBind outcome := fun A B f m =>
  match m with
  | Ok a => f a
  | Undefined u => Undefined u
  | OutOfFuel => OutOfFuel
  end.

(** The messages handed to [logError] on the paths that return [NULL]. *)
Inductive diag : Type :=
| BadlyParsed           (* "Badly parsed XML file." *)
| StrBufferFull         (* "XML reading buffer strBuffer is full" *)
| ClosingUniqueTag      (* "XML parser found a closing unique tag !" *)
| EOFInTag              (* "Reached EOF while reading XML tag" *)
| UnknownCharAfterName  (* "Unknown character after tag's name." *)
| NothingToParse        (* "Nothing to parse" *)
| FirstTagClosing       (* "First tag is a closing tag" *)
| TreeNotFinished       (* "No tag remaining, and tree isn't finished" *)
| LastClosedNotRoot     (* "Last closed node isn't root node" *)
| PathWithoutSelector   (* "Reached end of path without ':' or '$'." *)
| NoChildWithName       (* "Didn't find a child with this name" *)
| NoAttributeWithName   (* "Didn't find an attribute with this name" *)
| AttrNameWithoutValue. (* "Attribute's name is not followed by a value." *)

(** Modelled from the spec: [logError] is declared in [../log.h], which is
    not among the sources; the specification (section 7) sorts the
    failures it reports into these kinds. *)
Inductive ErrorKind : Type :=
| MalformedTag | UnexpectedEndOfInput | UnbalancedTags | BufferOverflow
| NotFound.

(** Modelled from the spec: the kind each diagnostic falls under
    (sections 4 and 7). *)
Definition kind_of (d : diag) : ErrorKind :=
  match d with
  | BadlyParsed | ClosingUniqueTag | UnknownCharAfterName => MalformedTag
  | StrBufferFull => BufferOverflow
  | EOFInTag | NothingToParse => UnexpectedEndOfInput
  | FirstTagClosing | TreeNotFinished | LastClosedNotRoot => UnbalancedTags
  | PathWithoutSelector | NoChildWithName | NoAttributeWithName
  | AttrNameWithoutValue => NotFound
  end.

(** A returned pointer: the object, or [NULL] with the diagnostic that was
    logged on the way out (none when the function returns [NULL] silently). *)
Inductive nullable (A : Type) : Type :=
| Ptr (a : A)
| NULL (d : option diag).
Arguments Ptr {A} a.
Arguments NULL {A} d.

Definition to_option {A} (r : nullable A) : option A :=
  match r with Ptr a => Some a | NULL _ => None end.

(** ** Characters, streams and scratch buffers *)

Definition EOF : Z := -1.

(** [(int)'c'] *)
Definition chr (a : ascii) : Z := Z.of_N (N_of_ascii a).
(** [(char)c] *)
Definition to_char (c : Z) : ascii := ascii_of_N (Z.to_N (c mod 256)).

Definition NUL : ascii := "000"%char.
Definition dquote : ascii := "034"%char.

Abbreviation FILE := (list ascii) (only parsing).

Definition fgetc (file : FILE) : Z * FILE :=
  match file with
  | [] => (EOF, [])
  | a :: file' => (chr a, file')
  end.

Definition XML_BUFFER_LENGTH : nat := 200.

Abbreviation strbuf := (list ascii) (only parsing).

(** A buffer as declared: its contents are indeterminate in C; no function
    below reads a cell before the terminator it has itself stored. *)
Definition new_buffer : strbuf := replicate XML_BUFFER_LENGTH NUL.

(** [buf[i] = c] *)
Definition poke (buf : strbuf) (i : nat) (c : ascii) : outcome strbuf :=
  if (i <? XML_BUFFER_LENGTH)%nat then Ok (<[i:=c]> buf)
  else Undefined OutOfBoundsWrite.

(** The C string that starts at [buf[0]]. *)
Fixpoint cstr (buf : list ascii) : string :=
  match buf with
  | [] => EmptyString
  | c :: buf' => if decide (c = NUL) then EmptyString else String c (cstr buf')
  end.

(** ** attribute.c *)

Record XML_Attribute : Type := mkAttr {
  attr_name : option string;
  attr_value : option string
}.

#[global] Instance XML_Attribute_eq_dec : EqDecision XML_Attribute.
Proof. solve_decision. Defined.

(** [createXMLAttribute]: both members [NULL]. *)
Definition createXMLAttribute : XML_Attribute :=
  {| attr_name := None; attr_value := None |}.

Definition setXMLAttributeName (name : string) (attr : XML_Attribute)
  : XML_Attribute :=
  {| attr_name := Some name; attr_value := attr_value attr |}.

Definition setXMLAttributeValue (value : string) (attr : XML_Attribute)
  : XML_Attribute :=
  {| attr_name := attr_name attr; attr_value := Some value |}.

(** The two accumulation loops of [readXMLAttribute]:
    [while(charBuffer != stop) { strBuffer[i] = (char)charBuffer; i++;
       charBuffer = fgetc(file); }].
    Neither tests [EOF] nor the capacity. *)
Fixpoint readXMLAttribute_loop (fuel : nat) (stop : Z) (file : FILE)
    (charBuffer : Z) (strBuffer : strbuf) (i : nat)
  : outcome (strbuf * nat * FILE) :=
  match fuel with
  | O => OutOfFuel
  | S fuel =>
    if charBuffer =? stop then Ok (strBuffer, i, file)
    else
      strBuffer ← poke strBuffer i (to_char charBuffer);
      let i := S i in
      let '(charBuffer, file) := fgetc file in
      readXMLAttribute_loop fuel stop file charBuffer strBuffer i
  end.

(** Every iteration stores one more cell, so the loop is over (found the
    stop character, or stored out of bounds) within
    [XML_BUFFER_LENGTH + 1] iterations. *)
Definition attr_fuel : nat := S (S XML_BUFFER_LENGTH).

Definition readXMLAttribute (file : FILE)
  : outcome (nullable XML_Attribute * FILE) :=
  let attr := createXMLAttribute in
  let strBuffer := new_buffer in
  (* read attribute's name *)
  let '(charBuffer, file) := fgetc file in
  '(strBuffer, i, file) ←
     readXMLAttribute_loop attr_fuel (chr "=") file charBuffer strBuffer 0;
  strBuffer ← poke strBuffer i NUL;
  (* check implied following double quote *)
  let '(charBuffer, file) := fgetc file in
  if negb (charBuffer =? chr dquote) then
    Ok (NULL (Some BadlyParsed), file)
  else
    let attr := setXMLAttributeName (cstr strBuffer) attr in
    (* read attribute's value *)
    let '(charBuffer, file) := fgetc file in
    '(strBuffer, i, file) ←
       readXMLAttribute_loop attr_fuel (chr dquote) file charBuffer strBuffer 0;
    strBuffer ← poke strBuffer i NUL;
    let attr := setXMLAttributeValue (cstr strBuffer) attr in
    Ok (Ptr attr, file).

(** ** tag.c *)

Inductive XML_TagType : Type := OPENING | CLOSING | UNIQUE | UNKNOWN.

#[global] Instance XML_TagType_eq_dec : EqDecision XML_TagType.
Proof. solve_decision. Defined.

Record XML_Tag : Type := mkTag {
  tag_name : option string;
  tag_attr : list XML_Attribute;   (* head = last added attribute *)
  tag_type : XML_TagType
}.

(** [createXMLTag] *)
Definition createXMLTag : XML_Tag :=
  {| tag_name := None; tag_attr := []; tag_type := UNKNOWN |}.

Definition setXMLTagName (name : string) (tag : XML_Tag) : XML_Tag :=
  {| tag_name := Some name; tag_attr := tag_attr tag;
     tag_type := tag_type tag |}.

Definition setXMLTagType (type : XML_TagType) (tag : XML_Tag) : XML_Tag :=
  {| tag_name := tag_name tag; tag_attr := tag_attr tag; tag_type := type |}.

(** [addAttributeToXMLTag]: a [NULL] attribute is reported and ignored;
    otherwise the attribute (whose own [next] is [NULL]) becomes the head. *)
Definition addAttributeToXMLTag (attr : option XML_Attribute) (tag : XML_Tag)
  : XML_Tag :=
  match attr with
  | None => tag
  | Some a =>
    match tag_attr tag with
    | [] => {| tag_name := tag_name tag; tag_attr := [a];
               tag_type := tag_type tag |}
    | rest => {| tag_name := tag_name tag; tag_attr := a :: rest;
                 tag_type := tag_type tag |}
    end
  end.

(** [deleteAttributeFromXMLTag]: unlinks and returns the head. *)
Definition deleteAttributeFromXMLTag (tag : XML_Tag)
  : option XML_Attribute * XML_Tag :=
  match tag_attr tag with
  | [] => (None, tag)
  | deleted :: rest =>
    (Some deleted,
     {| tag_name := tag_name tag; tag_attr := rest; tag_type := tag_type tag |})
  end.

(** The name loop of [readXMLTag].  [None]: the buffer is full, the
    function returns [NULL]. *)
Fixpoint readXMLTag_name (fuel : nat) (file : FILE) (charBuffer : Z)
    (strBuffer : strbuf) (i : nat)
  : outcome (option (Z * strbuf * nat) * FILE) :=
  match fuel with
  | O => OutOfFuel
  | S fuel =>
    if negb (charBuffer =? chr " ") && negb (charBuffer =? chr ">")
       && negb (charBuffer =? chr "/") && negb (charBuffer =? EOF)
    then
      strBuffer ← poke strBuffer i (to_char charBuffer);
      let '(charBuffer, file) := fgetc file in
      let i := S i in
      if (XML_BUFFER_LENGTH <=? i)%nat then Ok (None, file)
      else readXMLTag_name fuel file charBuffer strBuffer i
    else Ok (Some (charBuffer, strBuffer, i), file)
  end.

(** [while(charBuffer == ' ') { addAttributeToXMLTag(readXMLAttribute(file),
    tag); charBuffer = fgetc(file); }] *)
Fixpoint readXMLTag_attrs (fuel : nat) (file : FILE) (charBuffer : Z)
    (tag : XML_Tag) : outcome (Z * XML_Tag * FILE) :=
  match fuel with
  | O => OutOfFuel
  | S fuel =>
    if charBuffer =? chr " " then
      '(attr, file) ← readXMLAttribute file;
      let tag := addAttributeToXMLTag (to_option attr) tag in
      let '(charBuffer, file) := fgetc file in
      readXMLTag_attrs fuel file charBuffer tag
    else Ok (charBuffer, tag, file)
  end.

Definition readXMLTag (file : FILE) : outcome (nullable XML_Tag * FILE) :=
  let tag := createXMLTag in
  let strBuffer := new_buffer in
  (* pre name parsing, check the closing tag character '/' *)
  let i := 0%nat in
  let '(charBuffer, file) := fgetc file in
  let '(charBuffer, file) :=
    if charBuffer =? chr "<" then fgetc file else (charBuffer, file) in
  '(tag, strBuffer, i) ←
    (if charBuffer =? chr "/" then Ok (setXMLTagType CLOSING tag, strBuffer, i)
     else strBuffer ← poke strBuffer 0 (to_char charBuffer);
          Ok (tag, strBuffer, S i));
  (* get tag's name *)
  let '(charBuffer, file) := fgetc file in
  '(r, file) ← readXMLTag_name (S XML_BUFFER_LENGTH) file charBuffer strBuffer i;
  match r with
  | None => Ok (NULL (Some StrBufferFull), file)
  | Some (charBuffer, strBuffer, i) =>
    strBuffer ← poke strBuffer i NUL;
    let tag := setXMLTagName (cstr strBuffer) tag in
    (* check character after name *)
    let after_name : nullable (Z * XML_Tag) * FILE :=
      if charBuffer =? chr ">" then
        (Ptr (charBuffer,
              if decide (tag_type tag = UNKNOWN) then setXMLTagType OPENING tag
              else tag), file)
      else if charBuffer =? chr "/" then
        if decide (tag_type tag = UNKNOWN) then
          let tag := setXMLTagType UNIQUE tag in
          let '(charBuffer, file) := fgetc file in
          if negb (charBuffer =? chr ">") then (NULL (Some BadlyParsed), file)
          else (Ptr (charBuffer, tag), file)
        else (NULL (Some ClosingUniqueTag), file)
      else if charBuffer =? chr " " then (Ptr (charBuffer, tag), file)
      else if charBuffer =? EOF then (NULL (Some EOFInTag), file)
      else (NULL (Some UnknownCharAfterName), file) in
    match after_name with
    | (NULL d, file) => Ok (NULL d, file)
    | (Ptr (charBuffer, tag), file) =>
      (* try reading attribute if tag isn't a closing one or a closed
         unique one *)
      '(charBuffer, tag, file) ←
        (if decide (tag_type tag = UNKNOWN) then
           '(charBuffer, tag, file) ←
              readXMLTag_attrs (S (length file)) file charBuffer tag;
           if charBuffer =? chr ">" then
             Ok (charBuffer, setXMLTagType OPENING tag, file)
           else if charBuffer =? chr "/" then
             let tag := setXMLTagType UNIQUE tag in
             let '(charBuffer, file) := fgetc file in
             Ok (charBuffer, tag, file)
           else Ok (charBuffer, tag, file)
         else Ok (charBuffer, tag, file));
      (* check tag closing character '>' *)
      if negb (charBuffer =? chr ">") then Ok (NULL (Some BadlyParsed), file)
      else Ok (Ptr tag, file)
    end
  end.

(** ** node.c *)

Abbreviation addr := nat (only parsing).

Record XML_Node : Type := mkNode {
  node_name : option string;
  node_value : option string;
  node_attr : list XML_Attribute;   (* head = first attribute *)
  node_parent : option addr;
  node_previous : option addr;
  node_next : option addr;
  node_first : option addr;
  node_current : option addr;
  node_last : option addr;
  node_cc : Z
}.

Abbreviation heap := (list XML_Node) (only parsing).

Definition set_name (v : option string) (n : XML_Node) : XML_Node :=
  mkNode v (node_value n) (node_attr n) (node_parent n) (node_previous n)
         (node_next n) (node_first n) (node_current n) (node_last n) (node_cc n).
Definition set_value (v : option string) (n : XML_Node) : XML_Node :=
  mkNode (node_name n) v (node_attr n) (node_parent n) (node_previous n)
         (node_next n) (node_first n) (node_current n) (node_last n) (node_cc n).
Definition set_attr (v : list XML_Attribute) (n : XML_Node) : XML_Node :=
  mkNode (node_name n) (node_value n) v (node_parent n) (node_previous n)
         (node_next n) (node_first n) (node_current n) (node_last n) (node_cc n).
Definition set_parent (v : option addr) (n : XML_Node) : XML_Node :=
  mkNode (node_name n) (node_value n) (node_attr n) v (node_previous n)
         (node_next n) (node_first n) (node_current n) (node_last n) (node_cc n).
Definition set_previous (v : option addr) (n : XML_Node) : XML_Node :=
  mkNode (node_name n) (node_value n) (node_attr n) (node_parent n) v
         (node_next n) (node_first n) (node_current n) (node_last n) (node_cc n).
Definition set_next (v : option addr) (n : XML_Node) : XML_Node :=
  mkNode (node_name n) (node_value n) (node_attr n) (node_parent n)
         (node_previous n) v (node_first n) (node_current n) (node_last n)
         (node_cc n).
Definition set_first (v : option addr) (n : XML_Node) : XML_Node :=
  mkNode (node_name n) (node_value n) (node_attr n) (node_parent n)
         (node_previous n) (node_next n) v (node_current n) (node_last n)
         (node_cc n).
Definition set_current (v : option addr) (n : XML_Node) : XML_Node :=
  mkNode (node_name n) (node_value n) (node_attr n) (node_parent n)
         (node_previous n) (node_next n) (node_first n) v (node_last n)
         (node_cc n).
Definition set_last (v : option addr) (n : XML_Node) : XML_Node :=
  mkNode (node_name n) (node_value n) (node_attr n) (node_parent n)
         (node_previous n) (node_next n) (node_first n) (node_current n) v
         (node_cc n).
Definition set_cc (v : Z) (n : XML_Node) : XML_Node :=
  mkNode (node_name n) (node_value n) (node_attr n) (node_parent n)
         (node_previous n) (node_next n) (node_first n) (node_current n)
         (node_last n) v.

(** [*p] and [p->field = ...] on the arena. *)
Definition load (h : heap) (p : addr) : outcome XML_Node :=
  match h !! p with
  | Some n => Ok n
  | None => Undefined InvalidPointer
  end.

Definition store (p : addr) (f : XML_Node → XML_Node) (h : heap)
  : outcome heap :=
  n ← load h p; Ok (<[p := f n]> h).

(** [initXMLNode]: pointers [NULL], children count 0. *)
Definition initXMLNode : XML_Node :=
  mkNode None None [] None None None None None None 0.

(** [createXMLNode]: a new cell at the end of the arena, initialised. *)
Definition createXMLNode (h : heap) : heap * addr :=
  (h ++ [initXMLNode], length h).

(** [setXMLNodeName]: the second test of the source repeats [n == NULL], so
    a [NULL] name reaches [strlen]. *)
Definition setXMLNodeName (name : option string) (n : XML_Node)
  : outcome XML_Node :=
  match name with
  | None => Undefined InvalidPointer
  | Some s => Ok (set_name (Some s) n)
  end.

Definition setXMLNodeValue (value : string) (n : XML_Node) : XML_Node :=
  set_value (Some value) n.

(** [addAttributeToXMLNode]: the test meant for a [NULL] attribute repeats
    [n == NULL]; a [NULL] attribute is stored when the list is empty and
    dereferenced otherwise. *)
Definition addAttributeToXMLNode (attr : option XML_Attribute) (n : XML_Node)
  : outcome XML_Node :=
  match node_attr n, attr with
  | [], None => Ok n
  | [], Some a => Ok (set_attr [a] n)
  | _ :: _, None => Undefined InvalidPointer
  | rest, Some a => Ok (set_attr (a :: rest) n)
  end.

(** [while(tag->attr != NULL) addAttributeToXMLNode(
       deleteAttributeFromXMLTag(tag), n);]
    one iteration for each attribute still linked to the tag. *)
Fixpoint initXMLNodeFromXMLTag_loop (pending : list XML_Attribute)
    (tag : XML_Tag) (n : XML_Node) : outcome XML_Node :=
  match pending with
  | [] => Ok n
  | _ :: pending =>
    let '(deleted, tag) := deleteAttributeFromXMLTag tag in
    n ← addAttributeToXMLNode deleted n;
    initXMLNodeFromXMLTag_loop pending tag n
  end.

Definition initXMLNodeFromXMLTag (n : addr) (tag : XML_Tag) (h : heap)
  : outcome heap :=
  _ ← load h n;
  let nd := initXMLNode in
  nd ← setXMLNodeName (tag_name tag) nd;
  nd ← initXMLNodeFromXMLTag_loop (tag_attr tag) tag nd;
  store n (fun _ => nd) h.

(** [addXMLNodeToParent]: every assignment is applied to the arena in the
    order of the source, so that aliased arguments behave as in C. *)
Definition addXMLNodeToParent (parent child : option addr) (h : heap)
  : outcome heap :=
  match parent, child with
  | None, _ => Ok h
  | Some _, None => Ok h
  | Some p, Some c =>
    nc ← load h c;
    if decide (node_parent nc ≠ None) then Ok h
    else if decide (node_previous nc ≠ None ∨ node_next nc ≠ None) then Ok h
    else
      h ← store c (set_parent (Some p)) h;
      h ← store p (fun n => set_cc (node_cc n + 1) n) h;
      np ← load h p;
      match node_last np with
      | None =>
        (* no child in parent node *)
        h ← store p (set_first (Some c)) h;
        h ← store p (set_current (Some c)) h;
        store p (set_last (Some c)) h
      | Some l =>
        (* other children in parent node *)
        h ← store l (set_next (Some c)) h;
        np ← load h p;
        h ← store c (set_previous (node_last np)) h;
        store p (set_last (Some c)) h
      end
  end.

(** [(char)charBuffer >= lo && (char)charBuffer <= '~'], with [lo] one of
    '!' and ' '.  A byte above 127 fails the test whether [char] is signed
    (it is negative) or not (it is above '~'). *)
Definition in_range (lo : ascii) (charBuffer : Z) : bool :=
  (chr lo <=? chr (to_char charBuffer))
  && (chr (to_char charBuffer) <=? chr "~").

(** First loop of [readXMLNodeValue]: reach the first useful character.
    [None]: the function returns ([EOF] or a tag was found). *)
Fixpoint readXMLNodeValue_skip (fuel : nat) (file : FILE) (strBuffer : strbuf)
  : outcome (option (strbuf * nat) * FILE) :=
  match fuel with
  | O => OutOfFuel
  | S fuel =>
    let '(charBuffer, file) := fgetc file in
    if charBuffer =? EOF then Ok (None, file)
    else if decide (to_char charBuffer = "<"%char) then Ok (None, file)
    else if in_range "!" charBuffer then
      strBuffer ← poke strBuffer 0 (to_char charBuffer);
      Ok (Some (strBuffer, 1%nat), file)
    else readXMLNodeValue_skip fuel file strBuffer
  end.

(** Second loop: spaces are read as well.  [None]: [EOF], the function
    returns without storing a value. *)
Fixpoint readXMLNodeValue_read (fuel : nat) (file : FILE) (strBuffer : strbuf)
    (i : nat) : outcome (option (strbuf * nat) * FILE) :=
  match fuel with
  | O => OutOfFuel
  | S fuel =>
    let '(charBuffer, file) := fgetc file in
    if charBuffer =? EOF then Ok (None, file)
    else if decide (to_char charBuffer = "<"%char
                    ∨ to_char charBuffer = "010"%char
                    ∨ to_char charBuffer = "013"%char)
    then Ok (Some (strBuffer, i), file)
    else if in_range " " charBuffer then
      strBuffer ← poke strBuffer i (to_char charBuffer);
      readXMLNodeValue_read fuel file strBuffer (S i)
    else readXMLNodeValue_read fuel file strBuffer i
  end.

Definition readXMLNodeValue (n : addr) (file : FILE) (h : heap)
  : outcome (heap * FILE) :=
  let strBuffer := new_buffer in
  '(r, file) ← readXMLNodeValue_skip (S (length file)) file strBuffer;
  match r with
  | None => Ok (h, file)
  | Some (strBuffer, i) =>
    '(r, file) ← readXMLNodeValue_read (S (length file)) file strBuffer i;
    match r with
    | None => Ok (h, file)
    | Some (strBuffer, i) =>
      strBuffer ← poke strBuffer i NUL;
      h ← store n (setXMLNodeValue (cstr strBuffer)) h;
      Ok (h, file)
    end
  end.

(** ** xml.c: the tree builder *)

(** The [while(endOfParsing == 0)] loop.  [Ptr (current, h)]: the loop was
    left through [endOfParsing = 1]; [NULL]: the function returned from
    inside the loop. *)
Fixpoint parseXMLFile_loop (fuel : nat) (file : FILE) (h : heap)
    (root current : addr) : outcome (nullable (addr * heap) * FILE) :=
  match fuel with
  | O => OutOfFuel
  | S fuel =>
    '(h, file) ← readXMLNodeValue current file h;
    '(tag, file) ← readXMLTag file;
    match tag with
    | NULL _ => Ok (NULL (Some TreeNotFinished), file)
    | Ptr tag =>
      match tag_type tag with
      | OPENING =>
        (* Tag opens a child node for current node *)
        let '(h, child) := createXMLNode h in
        h ← initXMLNodeFromXMLTag child tag h;
        h ← addXMLNodeToParent (Some current) (Some child) h;
        parseXMLFile_loop fuel file h root child
      | UNIQUE =>
        let '(h, child) := createXMLNode h in
        h ← initXMLNodeFromXMLTag child tag h;
        h ← addXMLNodeToParent (Some current) (Some child) h;
        parseXMLFile_loop fuel file h root current
      | CLOSING =>
        (* Tag close current node *)
        n ← load h current;
        match node_parent n with
        | Some p => parseXMLFile_loop fuel file h root p
        | None => Ok (Ptr (current, h), file)
        end
      | UNKNOWN => parseXMLFile_loop fuel file h root current
      end
    end
  end.

(** [parseXMLFile]: the root and the arena that holds the tree, or [NULL];
    with what is left of the stream. *)
Definition parseXMLFile (file : FILE)
  : outcome (nullable (addr * heap) * FILE) :=
  '(tag, file) ← readXMLTag file;
  match tag with
  | NULL _ => Ok (NULL (Some NothingToParse), file)
  | Ptr tag =>
    if decide (tag_type tag = CLOSING) then
      Ok (NULL (Some FirstTagClosing), file)
    else if decide (tag_type tag = UNIQUE) then
      let '(h, root) := createXMLNode [] in
      h ← initXMLNodeFromXMLTag root tag h;
      Ok (Ptr (root, h), file)
    else
      let '(h, root) := createXMLNode [] in
      h ← initXMLNodeFromXMLTag root tag h;
      '(r, file) ← parseXMLFile_loop (S (length file)) file h root root;
      match r with
      | NULL d => Ok (NULL d, file)
      | Ptr (current, h) =>
        if decide (root ≠ current) then
          Ok (NULL (Some LastClosedNotRoot), file)
        else Ok (Ptr (root, h), file)
      end
  end.

(** ** xml.c: the path resolver *)

(** A path is the characters of a C string, without its terminator (and
    so without any NUL).  [path[i]]: the terminator is read at
    [i = strlen(path)]; anything further is outside the string. *)
Definition path_at (path : list ascii) (i : nat) : outcome ascii :=
  match path !! i with
  | Some c => Ok c
  | None => if decide (i = length path) then Ok NUL
            else Undefined OutOfBoundsRead
  end.

(** [strcmp(s, p) != 0] where [p] may be [NULL]. *)
Definition strcmp_ne (s : string) (p : option string) : outcome bool :=
  match p with
  | None => Undefined InvalidPointer
  | Some t => Ok (bool_decide (s ≠ t))
  end.

Definition path_fuel : nat := S (S XML_BUFFER_LENGTH).

(** Segment loop of [getXMLValue]: copies up to '/', ':', '$' or the
    terminator; no capacity test. *)
Fixpoint getXMLValue_segment (fuel : nat) (path : list ascii) (iPath : nat)
    (charBuffer : ascii) (strBuffer : strbuf) (iBuf : nat)
  : outcome (strbuf * nat * nat * ascii) :=
  match fuel with
  | O => OutOfFuel
  | S fuel =>
    if bool_decide (charBuffer ≠ "/"%char) && bool_decide (charBuffer ≠ ":"%char)
       && bool_decide (charBuffer ≠ "$"%char) && bool_decide (charBuffer ≠ NUL)
    then
      strBuffer ← poke strBuffer iBuf charBuffer;
      let iBuf := S iBuf in
      let iPath := S iPath in
      charBuffer ← path_at path iPath;
      getXMLValue_segment fuel path iPath charBuffer strBuffer iBuf
    else Ok (strBuffer, iBuf, iPath, charBuffer)
  end.

(** [while((n != NULL) && (strcmp(strBuffer, n->name) != 0)) n = n->next;] *)
Fixpoint getXMLValue_find (fuel : nat) (h : heap) (name : string)
    (n : option addr) : outcome (option addr) :=
  match fuel with
  | O => OutOfFuel
  | S fuel =>
    match n with
    | None => Ok None
    | Some a =>
      nd ← load h a;
      differs ← strcmp_ne name (node_name nd);
      if (differs : bool) then getXMLValue_find fuel h name (node_next nd)
      else Ok (Some a)
    end
  end.

(** [while(path[iPath] != '\0') { strBuffer[iBuf] = path[iPath]; ... }] *)
Fixpoint getXMLValue_attrname (fuel : nat) (path : list ascii) (iPath : nat)
    (strBuffer : strbuf) (iBuf : nat) : outcome (strbuf * nat * nat) :=
  match fuel with
  | O => OutOfFuel
  | S fuel =>
    c ← path_at path iPath;
    if bool_decide (c ≠ NUL) then
      strBuffer ← poke strBuffer iBuf c;
      getXMLValue_attrname fuel path (S iPath) strBuffer (S iBuf)
    else Ok (strBuffer, iBuf, iPath)
  end.

(** [while((attr != NULL) && (strcmp(strBuffer, attr->name) != 0))
       attr = attr->next;] *)
Fixpoint getXMLValue_findattr (name : string) (attr : list XML_Attribute)
  : outcome (option XML_Attribute) :=
  match attr with
  | [] => Ok None
  | a :: rest =>
    differs ← strcmp_ne name (attr_name a);
    if (differs : bool) then getXMLValue_findattr name rest else Ok (Some a)
  end.

(** The [while(value == NULL)] loop of [getXMLValue]. *)
Fixpoint getXMLValue_loop (fuel : nat) (h : heap) (path : list ascii)
    (iPath : nat) (n : option addr) : outcome (nullable string) :=
  match fuel with
  | O => OutOfFuel
  | S fuel =>
    let strBuffer := new_buffer in
    charBuffer ← path_at path iPath;
    '(strBuffer, iBuf, iPath, charBuffer) ←
      getXMLValue_segment path_fuel path iPath charBuffer strBuffer 0;
    strBuffer ← poke strBuffer iBuf NUL;
    let iPath := S iPath in
    (* found end of path *)
    if decide (charBuffer = NUL) then Ok (NULL (Some PathWithoutSelector))
    else
      (* find child with this name *)
      n ← getXMLValue_find (S (length h)) h (cstr strBuffer) n;
      match n with
      | None => Ok (NULL (Some NoChildWithName))
      | Some a =>
        nd ← load h a;
        if decide (charBuffer = "/"%char) then
          getXMLValue_loop fuel h path iPath (node_first nd)
        else if decide (charBuffer = "$"%char) then
          match node_value nd with
          | Some value => Ok (Ptr value)
          | None => getXMLValue_loop fuel h path iPath n
          end
        else if decide (charBuffer = ":"%char) then
          '(strBuffer, iBuf, iPath) ←
            getXMLValue_attrname path_fuel path iPath strBuffer 0;
          strBuffer ← poke strBuffer iBuf NUL;
          attr ← getXMLValue_findattr (cstr strBuffer) (node_attr nd);
          match attr with
          | None => Ok (NULL (Some NoAttributeWithName))
          | Some attr =>
            match attr_value attr with
            | Some value => Ok (Ptr value)
            | None => getXMLValue_loop fuel h path iPath n
            end
          end
        else getXMLValue_loop fuel h path iPath n
      end
  end.

(** [getXMLValue(path, xml)] with [xml->root = root]; both arguments are
    non-[NULL]. *)
Definition getXMLValue (path : list ascii) (h : heap) (root : option addr)
  : outcome (nullable string) :=
  getXMLValue_loop (S (length path)) h path 0 root.

(** Name loop of [getXMLNode]. *)
Fixpoint getXMLNode_name (fuel : nat) (path : list ascii) (iPath : nat)
    (charBuffer : ascii) (nameBuffer : strbuf) (iNaBuf : nat)
  : outcome (strbuf * nat * nat * ascii) :=
  match fuel with
  | O => OutOfFuel
  | S fuel =>
    if bool_decide (charBuffer ≠ "/"%char) && bool_decide (charBuffer ≠ "?"%char)
       && bool_decide (charBuffer ≠ NUL) && (iNaBuf <? XML_BUFFER_LENGTH)%nat
    then
      nameBuffer ← poke nameBuffer iNaBuf charBuffer;
      let iNaBuf := S iNaBuf in
      let iPath := S iPath in
      charBuffer ← path_at path iPath;
      getXMLNode_name fuel path iPath charBuffer nameBuffer iNaBuf
    else Ok (nameBuffer, iNaBuf, iPath, charBuffer)
  end.

(** The two [do { charBuffer = path[iPath]; buf[iBuf] = charBuffer; iBuf++;
    iPath++; } while(charBuffer != stop && charBuffer != '\0' && bound)]
    loops of [getXMLNode]; [bound] is [iNaBuf < XML_BUFFER_LENGTH] for the
    attribute name and [iVaBuf < XML_BUFFER_LENGTH] for the value. *)
Fixpoint getXMLNode_copy (fuel : nat) (stop : ascii) (bound : nat → bool)
    (path : list ascii) (iPath : nat) (buf : strbuf) (iBuf : nat)
  : outcome (strbuf * nat * nat * ascii) :=
  match fuel with
  | O => OutOfFuel
  | S fuel =>
    charBuffer ← path_at path iPath;
    buf ← poke buf iBuf charBuffer;
    let iBuf := S iBuf in
    let iPath := S iPath in
    if bool_decide (charBuffer ≠ stop) && bool_decide (charBuffer ≠ NUL)
       && bound iBuf
    then getXMLNode_copy fuel stop bound path iPath buf iBuf
    else Ok (buf, iBuf, iPath, charBuffer)
  end.

(** [while((attr != NULL) && (nodeFound == 0)) { if(...) nodeFound = 1;
    attr = attr->next; }]: the flag and the value of [attr] at the exit. *)
Fixpoint getXMLNode_attrs (attr : list XML_Attribute)
    (attrBuffer valueBuffer : string) (nodeFound : bool)
  : outcome (bool * list XML_Attribute) :=
  match attr with
  | [] => Ok (nodeFound, [])
  | a :: rest =>
    if nodeFound then Ok (nodeFound, attr)
    else
      differs ← strcmp_ne attrBuffer (attr_name a);
      hit ← (if (differs : bool) then Ok false
             else differs ← strcmp_ne valueBuffer (attr_value a); Ok (negb differs));
      getXMLNode_attrs rest attrBuffer valueBuffer
                       (if (hit : bool) then true else nodeFound)
  end.

(** The [do ... while((!nodeFound) && (n != NULL))] loop; [iAtBuf] is
    [None] when the path has no '?', the local is then never assigned. *)
Fixpoint getXMLNode_match (fuel : nat) (h : heap)
    (nameBuffer attrBuffer valueBuffer : string) (iAtBuf : option nat)
    (n : addr) : outcome (bool * option addr) :=
  match fuel with
  | O => OutOfFuel
  | S fuel =>
    nd ← load h n;
    differs ← strcmp_ne nameBuffer (node_name nd);
    '(nodeFound, n') ←
      (if (differs : bool) then Ok (false, node_next nd)
       else
         match iAtBuf with
         | None => Undefined UninitialisedRead
         | Some O => Ok (true, Some n)
         | Some (S _) =>
           '(nodeFound, attr) ←
             getXMLNode_attrs (node_attr nd) attrBuffer valueBuffer false;
           match attr with
           | [] => Ok (nodeFound, node_next nd)
           | _ :: _ => Ok (nodeFound, Some n)
           end
         end);
    match nodeFound, n' with
    | false, Some n => getXMLNode_match fuel h nameBuffer attrBuffer
                                        valueBuffer iAtBuf n
    | _, _ => Ok (nodeFound, n')
    end
  end.

(** [getXMLNode(path + base, root)]: the indices into [path] are kept
    absolute, [iPath] starts at [base]. *)
Fixpoint getXMLNode_from (fuel : nat) (h : heap) (path : list ascii)
    (base : nat) (root : option addr) : outcome (option addr) :=
  match fuel with
  | O => OutOfFuel
  | S fuel =>
    match root with
    | None => Ok None
    | Some n =>
      (* reads node's name in path *)
      charBuffer ← path_at path base;
      '(nameBuffer, iNaBuf, iPath, charBuffer) ←
        getXMLNode_name path_fuel path base charBuffer new_buffer 0;
      nameBuffer ← poke nameBuffer iNaBuf NUL;
      let iPath := S iPath in
      (* reads attribute's name and value if necessary *)
      r ← (if decide (charBuffer = "?"%char) then
             '(attrBuffer, iAtBuf, iPath, charBuffer) ←
               getXMLNode_copy path_fuel "="
                 (fun _ => (iNaBuf <? XML_BUFFER_LENGTH)%nat)
                 path iPath new_buffer 0;
             attrBuffer ← poke attrBuffer iAtBuf NUL;
             let iPath := S iPath in
             if decide (charBuffer ≠ "="%char) then Ok None
             else
               '(valueBuffer, iVaBuf, iPath, charBuffer) ←
                 getXMLNode_copy path_fuel "/"
                   (fun iVaBuf => (iVaBuf <? XML_BUFFER_LENGTH)%nat)
                   path iPath new_buffer 0;
               valueBuffer ← poke valueBuffer iVaBuf NUL;
               let iPath := S iPath in
               Ok (Some (cstr attrBuffer, cstr valueBuffer, Some iAtBuf,
                         iPath, charBuffer))
           else Ok (Some (EmptyString, EmptyString, @None nat, iPath,
                          charBuffer))
           : outcome (option (string * string * option nat * nat * ascii)));
      match r with
      | None => Ok None
      | Some (attrBuffer, valueBuffer, iAtBuf, iPath, charBuffer) =>
        (* finds a matching node *)
        '(nodeFound, n) ← getXMLNode_match (S (length h)) h (cstr nameBuffer)
                            attrBuffer valueBuffer iAtBuf n;
        if negb nodeFound then Ok None
        else if decide (charBuffer = "/"%char) then
          match n with
          | None => Undefined InvalidPointer
          | Some n =>
            nd ← load h n;
            getXMLNode_from fuel h path iPath (node_first nd)
          end
        else if decide (charBuffer ≠ NUL) then Ok None
        else Ok n
      end
    end
  end.

Definition getXMLNode (path : list ascii) (h : heap) (root : option addr)
  : outcome (option addr) :=
  getXMLNode_from (S (S (length path))) h path 0 root.

(** ** Predicates used in the statements *)

(** A character that does not end a tag name. *)
Definition name_char (a : ascii) : Prop :=
  a ≠ " "%char ∧ a ≠ ">"%char ∧ a ≠ "/"%char.

(** [chain h o l]: walking [next] from the pointer [o] visits exactly the
    nodes [l] and then reaches [NULL]. *)
Inductive chain (h : heap) : option addr → list addr → Prop :=
| chain_nil : chain h None []
| chain_cons a n l :
    h !! a = Some n → chain h (node_next n) l → chain h (Some a) (a :: l).

(** The consistency of [first], [last] and [cc] with that walk. *)
Definition children_consistent (h : heap) (n : XML_Node) : Prop :=
  ∃ l, chain h (node_first n) l
       ∧ node_cc n = Z.of_nat (length l)
       ∧ node_first n = head l
       ∧ node_last n = last l.

(** What the builder maintains for the node at [p]: its children are
    distinct and each points back to [p]. *)
Definition node_ok (h : heap) (p : addr) (n : XML_Node) : Prop :=
  ∃ l, chain h (node_first n) l
       ∧ node_cc n = Z.of_nat (length l)
       ∧ node_last n = last l
       ∧ NoDup l
       ∧ ∀ c, c ∈ l → node_parent <$> h !! c = Some (Some p).

Definition tree_inv (h : heap) : Prop :=
  ∀ p n, h !! p = Some n → node_ok h p n.

(** Two nodes with the same links. *)
Definition same_links (n n' : XML_Node) : Prop :=
  node_parent n = node_parent n' ∧ node_next n = node_next n'
  ∧ node_first n = node_first n' ∧ node_last n = node_last n'
  ∧ node_cc n = node_cc n'.

(** The effect of a successful [addXMLNodeToParent(p, c)] on the node at
    [x], [l0] being [p->last] on entry: the assignments of the source, in
    order, each applied when [x] is the node it targets. *)
Definition link (p c : addr) (l0 : option addr) (x : addr) (n : XML_Node)
  : XML_Node :=
  let n := if decide (x = c) then set_parent (Some p) n else n in
  let n := if decide (x = p) then set_cc (node_cc n + 1) n else n in
  match l0 with
  | None =>
    if decide (x = p)
    then set_last (Some c) (set_current (Some c) (set_first (Some c) n))
    else n
  | Some l =>
    let n := if decide (x = l) then set_next (Some c) n else n in
    let n := if decide (x = c) then set_previous (Some l) n else n in
    if decide (x = p) then set_last (Some c) n else n
  end.
Arguments link : simpl never.

(** Parents are allocated before their children. *)
Definition parents_below (h : heap) : Prop :=
  ∀ x n q, h !! x = Some n → node_parent n = Some q → (q < x)%nat.

Definition all_named (h : heap) : Prop :=
  ∀ x n, h !! x = Some n → is_Some (node_name n).

(** The first node is the only one without a parent. *)
Definition single_root (h : heap) : Prop :=
  ∀ x n, h !! x = Some n → node_parent n = None → x = 0%nat.

Definition built (h : heap) : Prop :=
  tree_inv h ∧ parents_below h ∧ all_named h ∧ single_root h.

(** A node as [initXMLNodeFromXMLTag] leaves it: named, not linked. *)
Definition unlinked (n : XML_Node) : Prop :=
  is_Some (node_name n) ∧ node_parent n = None ∧ node_previous n = None
  ∧ node_next n = None ∧ node_first n = None ∧ node_last n = None
  ∧ node_cc n = 0.

(** Two named nodes, not linked to anything. *)
Definition two_unlinked : heap :=
  [set_name (Some "a"%string) initXMLNode;
   set_name (Some "b"%string) initXMLNode].

(** [parent_of h x q]: the node at [x] has [q] as its parent. *)
Definition parent_of (h : heap) (x q : addr) : Prop :=
  node_parent <$> h !! x = Some (Some q).

(** [ancestor h a x]: [a] is reached from [x] by following [parent] at
    least once. *)
Definition ancestor (h : heap) (a x : addr) : Prop := tc (parent_of h) x a.

Definition acyclic (h : heap) : Prop := ∀ x, ¬ ancestor h x x.

(** A character allowed inside a path segment. *)
Definition segment_char (a : ascii) : Prop :=
  a ≠ "/"%char ∧ a ≠ ":"%char ∧ a ≠ "$"%char ∧ a ≠ NUL.

(** A segment: no delimiter in it, and it fits the scratch buffer with its
    terminator. *)
Definition segment_ok (seg : list ascii) : Prop :=
  Forall segment_char seg ∧ (length seg < XML_BUFFER_LENGTH)%nat.

(** The first node of the sibling list [l] whose name is exactly [s]. *)
Definition first_named (h : heap) (s : string) (l : list addr)
  : option addr :=
  List.find (λ a, bool_decide (node_name <$> h !! a = Some (Some s))) l.

(** The text of a path: its segments separated by '/'. *)
Fixpoint path_of (segs : list (list ascii)) : list ascii :=
  match segs with
  | [] => []
  | [seg] => seg
  | seg :: segs => seg ++ "/"%char :: path_of segs
  end.

(** Resolution of a chain of segments as the specification words it: at
    each level the sibling list is scanned for the first node with the
    segment's name, and the next segment is looked up among the children
    of that node. *)
Inductive resolves (h : heap)
  : list (list ascii) → option addr → addr → Prop :=
| resolves_last seg n l a :
    chain h n l →
    first_named h (string_of_list_ascii seg) l = Some a →
    resolves h [seg] n a
| resolves_step seg segs n l a nd b :
    chain h n l →
    first_named h (string_of_list_ascii seg) l = Some a →
    h !! a = Some nd →
    segs ≠ [] →
    resolves h segs (node_first nd) b →
    resolves h (seg :: segs) n b.

(** [bounded n m]: the run [m] of a reader did not run out of fuel and, if
    it returned, left at most [n] bytes in the stream. *)
Definition bounded {A} (n : nat) (m : outcome (A * FILE)) : Prop :=
  match m with
  | Ok (_, file) => (length file ≤ n)%nat
  | Undefined _ => True
  | OutOfFuel => False
  end.

(** The functions above are unfolded by hand in the proofs. *)
Arguments new_buffer : simpl never.
Arguments poke : simpl never.
Arguments readXMLAttribute : simpl never.
Arguments readXMLTag : simpl never.
Arguments readXMLNodeValue : simpl never.
Arguments initXMLNodeFromXMLTag : simpl never.
Arguments addXMLNodeToParent : simpl never.
Arguments parseXMLFile_loop : simpl never.
Arguments parseXMLFile : simpl never.
Arguments getXMLValue_loop : simpl never.
Arguments getXMLValue : simpl never.
Arguments getXMLNode_from : simpl never.
Arguments getXMLNode : simpl never.
#[global] Opaque new_buffer XML_BUFFER_LENGTH.

(** ** Sample documents *)

Definition str (s : string) : list ascii := list_ascii_of_string s.
Definition quoted (s : string) : list ascii := dquote :: str s ++ [dquote].

(** [<a x="1" y="2"/>] *)
Definition doc_two_attributes : FILE :=
  str "<a x=" ++ quoted "1" ++ str " y=" ++ quoted "2" ++ str "/>".

(** [<a k="v"/>] *)
Definition doc_unique : FILE := str "<a k=" ++ quoted "v" ++ str "/>".

(** [<a><b></a>] *)
Definition doc_unbalanced : FILE := str "<a><b></a>".

(** [<root><foo><bar baz="1">hi</bar></foo></root>] *)
Definition doc_values : FILE :=
  str "<root><foo><bar baz=" ++ quoted "1" ++ str ">hi</bar></foo></root>".

(** [<r><item id="1"/><item id="2"/></r>] *)
Definition doc_items : FILE :=
  str "<r><item id=" ++ quoted "1" ++ str "/><item id=" ++ quoted "2"
  ++ str "/></r>".

Definition attribute (name value : string) : XML_Attribute :=
  {| attr_name := Some name; attr_value := Some value |}.

(** The arena of a parsed document (empty when the parse fails). *)
Definition tree_of (file : FILE) : heap :=
  match parseXMLFile file with
  | Ok (Ptr (_, h), _) => h
  | _ => []
  end.

(** ** Further functions of the sources *)

(** [reachNextXMLTag]: [do { charBuffer = fgetc(file); } while((charBuffer
    != '<') && (charBuffer != EOF));].  The flag tells whether the end of the
    file was reached (and reported). *)
Fixpoint reachNextXMLTag_loop (fuel : nat) (file : FILE)
  : outcome (bool * FILE) :=
  match fuel with
  | O => OutOfFuel
  | S fuel =>
    let '(charBuffer, file) := fgetc file in
    if negb (charBuffer =? chr "<") && negb (charBuffer =? EOF)
    then reachNextXMLTag_loop fuel file
    else Ok (charBuffer =? EOF, file)
  end.

Definition reachNextXMLTag (file : FILE) : outcome (bool * FILE) :=
  reachNextXMLTag_loop (S (length file)) file.

(** ** Documents as text *)

(** An attribute as a document has it, and as [printXMLNode] prints it: a
    space, the name, '=', the value between double quotes. *)
Definition attr_text (a : list ascii * list ascii) : list ascii :=
  " "%char :: a.1 ++ "="%char :: dquote :: a.2 ++ [dquote].

Definition attrs_text (l : list (list ascii * list ascii)) : list ascii :=
  concat (attr_text <$> l).

(** The attribute read from such a text. *)
Definition attr_of (a : list ascii * list ascii) : XML_Attribute :=
  attribute (string_of_list_ascii a.1) (string_of_list_ascii a.2).

(** A tag name the reader takes whole: not empty, made of characters that
    do not end a name, short enough for the scratch buffer. *)
Definition wf_tag_name (name : list ascii) : Prop :=
  name ≠ [] ∧ Forall (λ a, name_char a ∧ a ≠ NUL) name
  ∧ (length name < XML_BUFFER_LENGTH)%nat.

Definition wf_attr_name (name : list ascii) : Prop :=
  Forall (λ a, a ≠ "="%char ∧ a ≠ NUL) name
  ∧ (length name < XML_BUFFER_LENGTH)%nat.

Definition wf_attr_value (value : list ascii) : Prop :=
  Forall (λ a, a ≠ dquote ∧ a ≠ NUL) value
  ∧ (length value < XML_BUFFER_LENGTH)%nat.

Definition wf_attr (a : list ascii * list ascii) : Prop :=
  wf_attr_name a.1 ∧ wf_attr_value a.2.

(** A tag as a document has it: the name, the attributes, and '>' or,
    for a unique tag, '/' and '>'.  The leading '<' is absent when
    [readXMLNodeValue] has consumed it. *)
Definition tag_text (lead : bool) (name : list ascii)
    (attrs : list (list ascii * list ascii)) (unique : bool) : list ascii :=
  (if lead then ["<"%char] else []) ++ name ++ attrs_text attrs
  ++ (if unique then ["/"%char; ">"%char] else [">"%char]).

Definition closing_text (lead : bool) (name : list ascii) : list ascii :=
  (if lead then ["<"%char] else []) ++ "/"%char :: name ++ [">"%char].

(** The tag read from such a text. *)
Definition tag_of (name : list ascii) (attrs : list (list ascii * list ascii))
    (type : XML_TagType) : XML_Tag :=
  {| tag_name := Some (string_of_list_ascii name);
     tag_attr := rev (attr_of <$> attrs);
     tag_type := type |}.

(** The characters of a node's value, as [readXMLNodeValue] sorts them:
    the value starts at the first character from '!' to '~', keeps the
    characters from ' ' to '~', and ends at '<', a line feed or a carriage
    return. *)
Definition value_first (a : ascii) : bool := in_range "!" (chr a).
Definition value_char (a : ascii) : bool := in_range " " (chr a).
Definition value_end (a : ascii) : Prop :=
  a = "<"%char ∨ a = "010"%char ∨ a = "013"%char.

(** The node [initXMLNodeFromXMLTag] makes of a tag read from a text, with
    the value read after it, if any. *)
Definition leaf (name : list ascii) (attrs : list (list ascii * list ascii))
    (value : option (list ascii)) : XML_Node :=
  mkNode (Some (string_of_list_ascii name)) (string_of_list_ascii <$> value)
         (attr_of <$> attrs) None None None None None None 0.

(** A value the reader takes whole: it starts with a character from '!' to
    '~' other than '<', goes on with characters from ' ' to '~' other than
    '<', and fits the scratch buffer. *)
Definition wf_value (v : list ascii) : Prop :=
  match v with
  | [] => False
  | c0 :: body =>
    value_first c0 = true ∧ c0 ≠ "<"%char
    ∧ Forall (λ a, value_char a = true ∧ a ≠ "<"%char) body
    ∧ (S (length body) < XML_BUFFER_LENGTH)%nat
  end.

Definition wf_closing_name (name : list ascii) : Prop :=
  Forall (λ a, name_char a ∧ a ≠ NUL) name
  ∧ (length name < XML_BUFFER_LENGTH)%nat.

(** The text of an optional value. *)
Definition value_text (value : option (list ascii)) : list ascii :=
  default [] value.

(** The first attribute of a list that has a given name. *)
Definition find_attr (name : string) (attrs : list XML_Attribute)
  : option XML_Attribute :=
  List.find (λ a, bool_decide (attr_name a = Some name)) attrs.

(** What an attribute query returns once its node is found. *)
Definition attr_result (name : string) (attrs : list XML_Attribute)
  : nullable string :=
  match find_attr name attrs with
  | None => NULL (Some NoAttributeWithName)
  | Some attr =>
    match attr_value attr with
    | Some value => Ptr value
    | None => NULL (Some PathWithoutSelector)
    end
  end.

(** An attribute name inside a path: it runs to the end of the path. *)
Definition wf_path_attr (an : list ascii) : Prop :=
  Forall (λ a, a ≠ NUL) an ∧ (length an < XML_BUFFER_LENGTH)%nat.

(** Attributes that have a name. *)
Definition attrs_named (attrs : list XML_Attribute) : Prop :=
  Forall (λ a, is_Some (attr_name a)) attrs.

(** An attribute as [readXMLAttribute] makes it: its name has no '='. *)
Definition plain_name (a : XML_Attribute) : Prop :=
  ∃ s, attr_name a = Some s ∧ "="%char ∉ list_ascii_of_string s.

Definition attrs_plain (h : heap) : Prop :=
  ∀ x n, h !! x = Some n → Forall plain_name (node_attr n).

(** [deleteXMLNodeFromParent]: as for [addXMLNodeToParent], every
    assignment is applied to the arena in the order of the source, and
    every operand is read from the arena when the source reads it.
    [child->parent] is read once, at the head: no assignment before
    [child->parent = NULL] writes a [parent] member. *)
Definition deleteXMLNodeFromParent (child : option addr) (h : heap)
  : outcome heap :=
  match child with
  | None => Ok h
  | Some c =>
    nc ← load h c;
    match node_parent nc with
    | None => Ok h
    | Some p =>
      (* decrement parent's child count *)
      h ← store p (fun n => set_cc (node_cc n - 1) n) h;
      (* remove reference from parent first node *)
      np ← load h p; nc ← load h c;
      h ← (if decide (node_first np = Some c)
           then store p (set_first (node_next nc)) h else Ok h);
      (* remove reference from parent last node *)
      np ← load h p; nc ← load h c;
      h ← (if decide (node_last np = Some c)
           then store p (set_last (node_previous nc)) h else Ok h);
      (* remove reference from parent current node *)
      np ← load h p; nc ← load h c;
      h ← (if decide (node_current np = Some c) then
             match node_next nc with
             | None => store p (set_current (node_previous nc)) h
             | Some _ => store p (set_current (node_next nc)) h
             end
           else Ok h);
      (* remove reference to parent *)
      h ← store c (set_parent None) h;
      (* remove reference from previous node *)
      nc ← load h c;
      h ← match node_previous nc with
          | Some previous => store previous (set_next (node_next nc)) h
          | None => Ok h
          end;
      (* remove reference from next node *)
      nc ← load h c;
      h ← match node_next nc with
          | Some next => store next (set_previous (node_previous nc)) h
          | None => Ok h
          end;
      (* remove references to siblings *)
      h ← store c (set_previous None) h;
      store c (set_next None) h
    end
  end.

(** ** xml.c: loading a file *)

(** [fgets(s, n, file)]: at most [n - 1] characters, up to and including
    the first line feed; [NULL] when the stream is at its end. *)
Fixpoint fgets_loop (n : nat) (file : FILE) : list ascii * FILE :=
  match n, file with
  | S n, a :: file =>
    if decide (a = "010"%char) then ([a], file)
    else let '(s, file) := fgets_loop n file in (a :: s, file)
  | _, _ => ([], file)
  end.

Definition fgets (n : nat) (file : FILE) : option (list ascii) * FILE :=
  match file with
  | [] => (None, [])
  | _ :: _ => let '(s, file) := fgets_loop (n - 1) file in (Some s, file)
  end.

(** [XML_FIRST_LINE], the XML declaration followed by a line feed. *)
Definition XML_FIRST_LINE : list ascii :=
  str "<?xml version=" ++ quoted "1.0" ++ str " encoding=" ++ quoted "UTF-8"
  ++ str "?>" ++ ["010"%char].

(** [checkFirstLineXMLFile(xml)] for a non-[NULL] [xml], [file] being
    [xml->file] ([None] when [NULL]): the value returned, and the stream.
    [strcmp] reads the line as a C string, up to its first NUL. *)
Definition checkFirstLineXMLFile (file : option FILE) : Z * option FILE :=
  match file with
  | None => (0, None)
  | Some file =>
    match fgets XML_BUFFER_LENGTH file with
    | (None, file) => (0, Some file)
    | (Some firstLine, file) =>
      (if decide (cstr (firstLine ++ [NUL])
                  = string_of_list_ascii XML_FIRST_LINE) then 1 else 0,
       Some file)
    end
  end.

(** [loadXMLFile(path)], [opened] being what [fopen] gives for the path:
    the value of [checkFirstLineXMLFile] is not used, and [xml->file] goes
    to [parseXMLFile] as it is. *)
Definition loadXMLFile (opened : option FILE)
  : outcome (nullable (addr * heap) * FILE) :=
  let '(_, file) := checkFirstLineXMLFile opened in
  match file with
  | None => Undefined InvalidPointer    (* fgetc on a NULL stream *)
  | Some file => parseXMLFile file
  end.

(** ** node.c: printing *)

(** [printf("%s", s)]: the characters of [s]; a [NULL] argument is
    undefined. *)
Definition printf_s (s : option string) : outcome (list ascii) :=
  match s with
  | Some s => Ok (list_ascii_of_string s)
  | None => Undefined InvalidPointer
  end.

(** [while(current != NULL) { printf(" %s=\"%s\"", current->name,
    current->value); current = current->next; }] *)
Fixpoint printXMLNode_attrs (current : list XML_Attribute)
  : outcome (list ascii) :=
  match current with
  | [] => Ok []
  | a :: current =>
    name ← printf_s (attr_name a);
    value ← printf_s (attr_value a);
    out ← printXMLNode_attrs current;
    Ok (" "%char :: name ++ "="%char :: dquote :: value ++ dquote :: out)
  end.

(** [printXMLNode(n, mode)]: what is written to the standard output.  The
    loop over the children, [while(child != NULL) { printXMLNode(child, 2);
    child = child->next; }], is [printXMLNode_children]. *)
Fixpoint printXMLNode (fuel : nat) (h : heap) (n : option addr) (mode : Z)
  : outcome (list ascii) :=
  match fuel with
  | O => OutOfFuel
  | S fuel =>
    match n with
    | None => Ok []
    | Some n =>
      nd ← load h n;
      name ← printf_s (node_name nd);
      attrs ← printXMLNode_attrs (node_attr nd);
      let out := "<"%char :: name ++ attrs in
      if decide (mode ≠ 2) then
        (* normal display mode, without descendants *)
        match node_value nd with
        | Some value =>
          Ok (out ++ list_ascii_of_string value
              ++ "<"%char :: "/"%char :: name ++ [">"%char])
        | None => Ok (out ++ ["/"%char; ">"%char])
        end
      else
        (* complete display mode, with descendants *)
        let out :=
          match node_value nd with
          | Some value =>
            out ++ ">"%char :: list_ascii_of_string value ++ ["010"%char]
          | None => out ++ [">"%char; "010"%char]
          end in
        children ← printXMLNode_children fuel h (node_first nd);
        Ok (out ++ children
            ++ "<"%char :: "/"%char :: name ++ [">"%char; "010"%char])
    end
  end
with printXMLNode_children (fuel : nat) (h : heap) (child : option addr)
  : outcome (list ascii) :=
  match fuel with
  | O => OutOfFuel
  | S fuel =>
    match child with
    | None => Ok []
    | Some c =>
      out ← printXMLNode fuel h (Some c) 2;
      nd ← load h c;
      rest ← printXMLNode_children fuel h (node_next nd);
      Ok (out ++ rest)
    end
  end.

(** ** Documents as trees *)

(** An element: its name, its attributes in the order of the text, its
    value if it has one, its children.  (The induction principles of the
    nested types are stated by hand, with the lemmas.) *)
#[local] Unset Elimination Schemes.

Inductive xml : Type :=
| Elem (name : list ascii) (attrs : list (list ascii * list ascii))
       (value : option (list ascii)) (children : list xml).

Fixpoint size (t : xml) : nat :=
  match t with
  | Elem _ _ _ children => S (list_sum (size <$> children))
  end.

(** The text of an element in the layout of [printXMLNode]'s complete
    mode: the opening tag, the value, a line feed, the children, the
    closing tag, a line feed. *)
Fixpoint text_of (t : xml) : list ascii :=
  match t with
  | Elem name attrs value children =>
    tag_text true name attrs false ++ value_text value ++ "010"%char
    :: concat (text_of <$> children) ++ closing_text true name
    ++ ["010"%char]
  end.

(** Elements whose text is read back as it was written. *)
Inductive wf_xml : xml → Prop :=
| wf_Elem name attrs value children :
    wf_tag_name name → head name ≠ Some "<"%char →
    Forall wf_attr attrs → from_option wf_value True value →
    Forall wf_xml children →
    wf_xml (Elem name attrs value children).

(** The nodes of a tree are allocated in the order of the text: the
    children of the node at [p] start at [p + 1], each after the subtree of
    the one before. *)
Fixpoint layout (a : addr) (children : list xml) : list addr :=
  match children with
  | [] => []
  | c :: children => a :: layout (a + size c) children
  end.

(** [repr h t p]: the node at [p] and its descendants hold the element
    [t]. *)
Inductive repr (h : heap) : xml → addr → Prop :=
| repr_Elem name attrs value children p n :
    h !! p = Some n →
    node_name n = Some (string_of_list_ascii name) →
    node_value n = string_of_list_ascii <$> value →
    node_attr n = attr_of <$> attrs →
    chain h (node_first n) (layout (S p) children) →
    Forall2 (repr h) children (layout (S p) children) →
    repr h (Elem name attrs value children) p.

#[local] Set Elimination Schemes.

(** What the tree builder does for an element whose opening tag it has
    read, the open node being [cur]: a new node is made of the tag and
    added to [cur], it receives the value, then the children one by one. *)
Fixpoint graft (t : xml) (cur : addr) (h : heap) : outcome heap :=
  match t with
  | Elem name attrs value children =>
    let '(h, child) := createXMLNode h in
    h ← initXMLNodeFromXMLTag child (tag_of name attrs OPENING) h;
    h ← addXMLNodeToParent (Some cur) (Some child) h;
    h ← match value with
        | Some v => store child (setXMLNodeValue (string_of_list_ascii v)) h
        | None => Ok h
        end;
    (fix grafts (children : list xml) (h : heap) : outcome heap :=
       match children with
       | [] => Ok h
       | c :: children => h ← graft c child h; grafts children h
       end) children h
  end.

Fixpoint grafts (children : list xml) (cur : addr) (h : heap)
  : outcome heap :=
  match children with
  | [] => Ok h
  | c :: children => h ← graft c cur h; grafts children cur h
  end.

(** [grafted t cur h h']: the arena [h'] is [h] with the element [t] added
    as the last child of [cur].  The nodes of [h] are as
    [addXMLNodeToParent] left them, the new nodes follow and hold [t]. *)
Definition grafted (t : xml) (cur : addr) (h h' : heap) : Prop :=
  built h' ∧ length h' = (length h + size t)%nat ∧ repr h' t (length h)
  ∧ ∃ np nc,
      h !! cur = Some np
      ∧ (∀ x, (x < length h)%nat →
              h' !! x = link cur (length h) (node_last np) x <$> h !! x)
      ∧ h' !! length h = Some nc
      ∧ node_parent nc = Some cur ∧ node_next nc = None.

Definition graft_ok (t : xml) : Prop :=
  ∀ cur h, built h → (cur < length h)%nat →
           ∃ h', graft t cur h = Ok h' ∧ grafted t cur h h'.

(** Two nodes that differ at most by their children. *)
Definition same_but_children (n n' : XML_Node) : Prop :=
  node_name n' = node_name n ∧ node_value n' = node_value n
  ∧ node_attr n' = node_attr n ∧ node_parent n' = node_parent n
  ∧ node_previous n' = node_previous n ∧ node_next n' = node_next n.

(** What follows the opening tag in the text of an element. *)
Definition inner (value : option (list ascii)) (children : list xml)
    (name : list ascii) : list ascii :=
  value_text value ++ "010"%char :: concat (text_of <$> children)
  ++ closing_text true name ++ ["010"%char].

(** The store [readXMLNodeValue] makes for a value, if there is one. *)
Definition value_step (value : option (list ascii)) (c : addr) (h : heap)
  : outcome heap :=
  match value with
  | Some v => store c (setXMLNodeValue (string_of_list_ascii v)) h
  | None => Ok h
  end.

(** How the loop of [parseXMLFile] goes on after a closing tag, the open
    node being [c]. *)
Definition after_closing (fuel : nat) (file : FILE) (h : heap)
    (root c : addr) : outcome (nullable (addr * heap) * FILE) :=
  n ← load h c;
  match node_parent n with
  | Some p => parseXMLFile_loop fuel file h root p
  | None => Ok (Ptr (c, h), file)
  end.

(** [loop_ok children]: on the text of [children] followed by a closing
    tag, the loop does what [grafts] does and then closes the open node. *)
Definition loop_ok (children : list xml) : Prop :=
  ∀ value name c h root K,
    from_option wf_value True value → wf_closing_name name →
    built h → (c < length h)%nat →
    ∃ n, ∀ fuel,
      parseXMLFile_loop (n + fuel) (inner value children name ++ K) h root c
      = (h3 ← value_step value c h;
         h' ← grafts children c h3;
         after_closing fuel ("010"%char :: K) h' root c).

(** [<a k="v">], a child [<b>] with the value [x y], an empty child [<c>]:
    as a tree, and as the arena the tree builder makes of it. *)
Definition doc_nested : xml :=
  Elem (str "a") [(str "k", str "v")] None
       [Elem (str "b") [] (Some (str "x y")) []; Elem (str "c") [] None []].

Definition arena_nested : heap :=
  [mkNode (Some "a"%string) None [attribute "k" "v"] None None None
          (Some 1%nat) (Some 1%nat) (Some 2%nat) 2;
   mkNode (Some "b"%string) (Some "x y"%string) [] (Some 0%nat) None
          (Some 2%nat) None None None 0;
   mkNode (Some "c"%string) None [] (Some 0%nat) (Some 1%nat) None
          None None None 0].

(** ** Documents as trees: queries *)

Definition name_of (t : xml) : list ascii :=
  match t with Elem name _ _ _ => name end.

Definition attrs_of (t : xml) : list (list ascii * list ascii) :=
  match t with Elem _ attrs _ _ => attrs end.

Definition value_of (t : xml) : option (list ascii) :=
  match t with Elem _ _ value _ => value end.

Definition children_of (t : xml) : list xml :=
  match t with Elem _ _ _ children => children end.

(** The element a list of segments selects among the elements [ts]: the
    first one that has the name of the first segment, then, for the
    segments that follow, among its children in the same way. *)
Fixpoint select (segs : list (list ascii)) (ts : list xml) : option xml :=
  match segs with
  | [] => None
  | seg :: segs =>
    match List.find (λ t, bool_decide (name_of t = seg)) ts with
    | None => None
    | Some t =>
      match segs with
      | [] => Some t
      | _ :: _ => select segs (children_of t)
      end
    end
  end.

(** The value of the first attribute of a list that has a given name. *)
Definition attribute_of (an : list ascii)
    (attrs : list (list ascii * list ascii)) : option (list ascii) :=
  snd <$> List.find (λ a, bool_decide (a.1 = an)) attrs.

(** ** xml.c: typed queries *)

(** [getXMLString(path, xml, defaultValue)]: the value found, or the
    default, which may be [NULL]. *)
Definition getXMLString (path : list ascii) (h : heap) (root : option addr)
    (defaultValue : option string) : outcome (option string) :=
  value ← getXMLValue path h root;
  match value with
  | NULL _ => Ok defaultValue
  | Ptr value => Ok (Some value)
  end.

(** [getXMLBool(path, xml, defaultValue)]; [strcmp(temp, s) == 0] is the
    equality of the strings. *)
Definition getXMLBool (path : list ascii) (h : heap) (root : option addr)
    (defaultValue : Z) : outcome Z :=
  temp ← getXMLValue path h root;
  match temp with
  | NULL _ => Ok defaultValue
  | Ptr temp =>
    if decide (temp = "true"%string) then Ok 1
    else if decide (temp = "false"%string) then Ok 0
    else Ok defaultValue
  end.

(** What a query finds in the elements [ts]: the value of the selected
    element for a path that ends in '$', its attribute [an] for a path that
    ends in ':' and [an]. *)
Definition found_value (segs : list (list ascii)) (ts : list xml)
  : option (list ascii) :=
  u ← select segs ts; value_of u.

Definition found_attribute (segs : list (list ascii)) (an : list ascii)
    (ts : list xml) : option (list ascii) :=
  u ← select segs ts; attribute_of an (attrs_of u).

(** The two forms of a path, with what each finds. *)
Inductive query_finds (segs : list (list ascii)) (ts : list xml)
  : list ascii → option (list ascii) → Prop :=
| finds_value :
    query_finds segs ts (path_of segs ++ ["$"%char]) (found_value segs ts)
| finds_attribute an :
    wf_path_attr an →
    query_finds segs ts (path_of segs ++ ":"%char :: an)
                (found_attribute segs an ts).

(** [<opt on="true">false], closed by [</opt>]. *)
Definition doc_flag : xml :=
  Elem (str "opt") [(str "on", str "true")] (Some (str "false")) [].

(** The sibling lists are linked both ways: [previous] is the inverse of
    [next], the first child of a node has no previous sibling, and
    [current] is [first]. *)
Definition back_linked (h : heap) : Prop :=
  ∀ x n, h !! x = Some n →
    node_current n = node_first n
    ∧ (∀ y, node_next n = Some y →
            node_previous <$> h !! y = Some (Some x))
    ∧ (∀ y, node_previous n = Some y →
            node_next <$> h !! y = Some (Some x))
    ∧ (∀ f, node_first n = Some f → node_previous <$> h !! f = Some None).

(** The effect of a successful [deleteXMLNodeFromParent(c)] on the node at
    [x], [p], [prev] and [next] being [c->parent], [c->previous] and
    [c->next] on entry: the assignments of the source, in order, each
    applied when [x] is the node it targets. *)
Definition unlink (p c : addr) (prev next : option addr) (x : addr)
    (n : XML_Node) : XML_Node :=
  let n :=
    if decide (x = p) then
      let n := set_cc (node_cc n - 1) n in
      let n := if decide (node_first n = Some c) then set_first next n
               else n in
      let n := if decide (node_last n = Some c) then set_last prev n
               else n in
      if decide (node_current n = Some c) then
        match next with
        | None => set_current prev n
        | Some _ => set_current next n
        end
      else n
    else n in
  let n := if decide (x = c) then set_parent None n else n in
  let n := if decide (prev = Some x) then set_next next n else n in
  let n := if decide (next = Some x) then set_previous prev n else n in
  if decide (x = c) then set_next None (set_previous None n) else n.
Arguments unlink : simpl never.

(** A sequence of calls of [addXMLNodeToParent], each with its parent and
    its child, made one after the other on the arena. *)
Fixpoint add_calls (calls : list (option addr * option addr)) (h : heap)
  : outcome heap :=
  match calls with
  | [] => Ok h
  | (parent, child) :: calls =>
    h ← addXMLNodeToParent parent child h; add_calls calls h
  end.

(** Three named nodes, not linked to anything. *)
Definition three_unlinked : heap :=
  [set_name (Some "a"%string) initXMLNode;
   set_name (Some "b"%string) initXMLNode;
   set_name (Some "c"%string) initXMLNode].

(** ** xml.c: the tags read by the tree builder *)

(** [parseXMLFile_loop] with a log: the same loop, which returns besides
    its result the types of the tags it has read, in order. *)
Fixpoint parseXMLFile_loop_tags (fuel : nat) (file : FILE) (h : heap)
    (root current : addr)
  : outcome (nullable (addr * heap) * FILE * list XML_TagType) :=
  match fuel with
  | O => OutOfFuel
  | S fuel =>
    '(h, file) ← readXMLNodeValue current file h;
    '(tag, file) ← readXMLTag file;
    match tag with
    | NULL _ => Ok (NULL (Some TreeNotFinished), file, [])
    | Ptr tag =>
      '(r, file, tags) ←
        match tag_type tag with
        | OPENING =>
          let '(h, child) := createXMLNode h in
          h ← initXMLNodeFromXMLTag child tag h;
          h ← addXMLNodeToParent (Some current) (Some child) h;
          parseXMLFile_loop_tags fuel file h root child
        | UNIQUE =>
          let '(h, child) := createXMLNode h in
          h ← initXMLNodeFromXMLTag child tag h;
          h ← addXMLNodeToParent (Some current) (Some child) h;
          parseXMLFile_loop_tags fuel file h root current
        | CLOSING =>
          n ← load h current;
          match node_parent n with
          | Some p => parseXMLFile_loop_tags fuel file h root p
          | None => Ok (Ptr (current, h), file, [])
          end
        | UNKNOWN => parseXMLFile_loop_tags fuel file h root current
        end;
      Ok (r, file, tag_type tag :: tags)
    end
  end.

(** [parseXMLFile] with the same log, the first tag at its head. *)
Definition parseXMLFile_tags (file : FILE)
  : outcome (nullable (addr * heap) * FILE * list XML_TagType) :=
  '(tag, file) ← readXMLTag file;
  match tag with
  | NULL _ => Ok (NULL (Some NothingToParse), file, [])
  | Ptr tag =>
    if decide (tag_type tag = CLOSING) then
      Ok (NULL (Some FirstTagClosing), file, [tag_type tag])
    else if decide (tag_type tag = UNIQUE) then
      let '(h, root) := createXMLNode [] in
      h ← initXMLNodeFromXMLTag root tag h;
      Ok (Ptr (root, h), file, [tag_type tag])
    else
      let '(h, root) := createXMLNode [] in
      h ← initXMLNodeFromXMLTag root tag h;
      '(r, file, tags) ←
        parseXMLFile_loop_tags (S (length file)) file h root root;
      match r with
      | NULL d => Ok (NULL d, file, tag_type tag :: tags)
      | Ptr (current, h) =>
        if decide (root ≠ current) then
          Ok (NULL (Some LastClosedNotRoot), file, tag_type tag :: tags)
        else Ok (Ptr (root, h), file, tag_type tag :: tags)
      end
  end.

(** [balanced d tags]: read while [d] elements are open inside the root,
    the tags close no more elements than were opened before them, and the
    last tag is the one that closes the root. *)
Fixpoint balanced (d : nat) (tags : list XML_TagType) : Prop :=
  match tags with
  | [] => False
  | OPENING :: tags => balanced (S d) tags
  | CLOSING :: tags =>
    match d with
    | O => tags = []
    | S d => balanced d tags
    end
  | UNIQUE :: tags | UNKNOWN :: tags => balanced d tags
  end.

(** [up h x l]: [l] lists the ancestors of the node at [x], its parent
    first, the node without parent last. *)
Inductive up (h : heap) : addr → list addr → Prop :=
| up_root x n : h !! x = Some n → node_parent n = None → up h x []
| up_step x n p l :
    h !! x = Some n → node_parent n = Some p → up h p l → up h x (p :: l).

(** * The scratch capacity *)

Lemma XML_BUFFER_LENGTH_eq : XML_BUFFER_LENGTH = 200%nat.
Proof. reflexivity. Qed.

(** * Attribute order (tag.c, node.c) *)

Lemma addAttributeToXMLTag_head a tag :
  tag_attr (addAttributeToXMLTag (Some a) tag) = a :: tag_attr tag.
Proof. unfold addAttributeToXMLTag. by destruct (tag_attr tag). Qed.

Lemma addAttributeToXMLNode_head a n :
  addAttributeToXMLNode (Some a) n = Ok (set_attr (a :: node_attr n) n).
Proof. unfold addAttributeToXMLNode. by destruct (node_attr n). Qed.

Lemma initXMLNodeFromXMLTag_loop_rev pending tag n :
  tag_attr tag = pending →
  initXMLNodeFromXMLTag_loop pending tag n
  = Ok (set_attr (rev pending ++ node_attr n) n).
Proof.
  revert tag n. induction pending as [|a pending IH]; intros tag n Htag.
  - by destruct n.
  - cbn [initXMLNodeFromXMLTag_loop]. unfold deleteAttributeFromXMLTag.
    rewrite Htag, addAttributeToXMLNode_head. cbn.
    rewrite IH by done. cbn. by rewrite <- app_assoc.
Qed.

(** C1, as the code has it.  A tag keeps its attributes newest first
    ([addAttributeToXMLTag] makes each attribute the new head), but a node
    receives them one by one from the head of the tag's list, each again as
    its new head: the node's list is the tag's list reversed, that is, in
    document order.  For [<a x="1" y="2"/>] the tag holds y, x and the
    node holds x, y. *)
Theorem attribute_order_tag_reversed_node_document_order :
  (∀ a tag, tag_attr (addAttributeToXMLTag (Some a) tag) = a :: tag_attr tag)
  ∧ (∀ tag n,
      initXMLNodeFromXMLTag_loop (tag_attr tag) tag n
      = Ok (set_attr (rev (tag_attr tag) ++ node_attr n) n))
  ∧ readXMLTag doc_two_attributes
    = Ok (Ptr {| tag_name := Some "a"%string;
                 tag_attr := [attribute "y" "2"; attribute "x" "1"];
                 tag_type := UNIQUE |}, [])
  ∧ parseXMLFile doc_two_attributes
    = Ok (Ptr (0%nat,
               [set_attr [attribute "x" "1"; attribute "y" "2"]
                  (set_name (Some "a"%string) initXMLNode)]), []).
Proof.
  split; [apply addAttributeToXMLTag_head|].
  split; [intros; by apply initXMLNodeFromXMLTag_loop_rev|].
  split; vm_compute; reflexivity.
Qed.

(** C1 as stated fails: the node parsed from [<a x="1" y="2"/>] does not
    list y before x. *)
Lemma attribute_order_node_not_reversed :
  ¬ ∃ h n rest,
      parseXMLFile doc_two_attributes = Ok (Ptr (0%nat, h), rest)
      ∧ h !! 0%nat = Some n
      ∧ node_attr n = [attribute "y" "2"; attribute "x" "1"].
Proof.
  intros (h & n & rest & Hparse & Hn & Hattr).
  vm_compute in Hparse. injection Hparse as <- <-.
  cbn in Hn. injection Hn as <-. discriminate Hattr.
Qed.

(** * A unique first tag (xml.c) *)

(** C5.  Whatever follows it, [<a k="v"/>] as first tag gives at once the
    one-node tree: name a, the single attribute k = v, no value, no child,
    no sibling; the stream is left right after the tag. *)
Theorem parse_unique_tag_single_node (rest : FILE) :
  parseXMLFile (doc_unique ++ rest)
  = Ok (Ptr (0%nat,
             [{| node_name := Some "a"%string; node_value := None;
                 node_attr := [attribute "k" "v"];
                 node_parent := None; node_previous := None;
                 node_next := None; node_first := None;
                 node_current := None; node_last := None; node_cc := 0 |}]),
        rest).
Proof. vm_compute. reflexivity. Qed.

(** * Runs that return *)

Lemma bind_Ok_inv {A B} (m : outcome A) (f : A → outcome B) (b : B) :
  m ≫= f = Ok b → ∃ a, m = Ok a ∧ f a = Ok b.
Proof. destruct m; cbn; intros; [eauto | done..]. Qed.

Ltac bind_inv H :=
  let a := fresh "r" in
  let Ha := fresh "E" in
  apply bind_Ok_inv in H as (a & Ha & H).

(** * Characters *)

Lemma chr_range a : 0 ≤ chr a < 256.
Proof.
  unfold chr. pose proof (N_ascii_bounded a) as Hb. lia.
Qed.

Lemma chr_inj a b : chr a = chr b → a = b.
Proof.
  unfold chr. intros H. apply N2Z.inj in H.
  rewrite <- (ascii_N_embedding a), <- (ascii_N_embedding b). by rewrite H.
Qed.

Lemma chr_eqb_false a b : a ≠ b → (chr a =? chr b) = false.
Proof. intros H. apply Z.eqb_neq. intros E. by apply chr_inj in E. Qed.

Lemma chr_eqb_EOF a : (chr a =? EOF) = false.
Proof. apply Z.eqb_neq. pose proof (chr_range a). unfold EOF. lia. Qed.

Lemma EOF_eqb_chr a : (EOF =? chr a) = false.
Proof. apply Z.eqb_neq. pose proof (chr_range a). unfold EOF. lia. Qed.

Lemma poke_in_bounds buf i c :
  (i < XML_BUFFER_LENGTH)%nat → poke buf i c = Ok (<[i:=c]> buf).
Proof. intros H. unfold poke. by apply Nat.ltb_lt in H as ->. Qed.

Lemma poke_out_of_bounds buf i c :
  (XML_BUFFER_LENGTH ≤ i)%nat → poke buf i c = Undefined OutOfBoundsWrite.
Proof. intros H. unfold poke. by apply Nat.ltb_ge in H as ->. Qed.

(** * End of input inside an attribute (attribute.c) *)

(** The character in hand is not the stop character and the stop character
    never comes: the loop stores until it leaves the buffer. *)
Lemma readXMLAttribute_loop_overrun stop k :
  ∀ fuel file c buf i,
    (i + k = XML_BUFFER_LENGTH)%nat → (k < fuel)%nat →
    c = EOF ∨ (∃ a, c = chr a ∧ a ≠ stop) →
    stop ∉ file →
    readXMLAttribute_loop fuel (chr stop) file c buf i
    = Undefined OutOfBoundsWrite.
Proof.
  induction k as [|k IH]; intros fuel file c buf i Hik Hfuel Hc Hfile;
    (destruct fuel as [|fuel]; [lia|]); cbn [readXMLAttribute_loop].
  all: assert ((c =? chr stop) = false) as ->
    by (destruct Hc as [->|(a & -> & Ha)];
        [apply EOF_eqb_chr | by apply chr_eqb_false]).
  - rewrite poke_out_of_bounds by lia. done.
  - rewrite poke_in_bounds by lia. cbn.
    destruct file as [|a file]; cbn.
    + apply IH; [lia | lia | by left | done].
    + apply not_elem_of_cons in Hfile as [Ha Hfile].
      apply IH; [lia | lia | right; eauto | done].
Qed.

(** A stream without '=' makes [readXMLAttribute] store past the end of
    its buffer, whatever its length. *)
Lemma readXMLAttribute_without_equals file :
  "="%char ∉ file → readXMLAttribute file = Undefined OutOfBoundsWrite.
Proof.
  intros Hfile. unfold readXMLAttribute.
  destruct file as [|a file]; cbn [fgetc].
  - rewrite (readXMLAttribute_loop_overrun "=" XML_BUFFER_LENGTH);
      [done | lia | unfold attr_fuel; lia | by left | done].
  - apply not_elem_of_cons in Hfile as [Ha Hfile].
    rewrite (readXMLAttribute_loop_overrun "=" XML_BUFFER_LENGTH);
      [done | lia | unfold attr_fuel; lia | right; eauto | done].
Qed.

(** C3, evaluated on the code.  For every stream that ends before an '='
    (the stream [k], for one) [readXMLAttribute] does not return [NULL]: it
    goes on storing the [EOF] it reads until it leaves [strBuffer]; the
    same happens with k= followed by an opening quote and v, where the
    input ends before the closing quote.  The sibling [readXMLTag] does
    stop at [EOF]: on [<a] it returns [NULL]. *)
Theorem readXMLAttribute_reads_past_end_of_input :
  (∀ file, "="%char ∉ file →
           readXMLAttribute file = Undefined OutOfBoundsWrite)
  ∧ readXMLAttribute (str "k") = Undefined OutOfBoundsWrite
  ∧ readXMLAttribute (str "k=" ++ dquote :: str "v")
    = Undefined OutOfBoundsWrite
  ∧ readXMLTag (str "<a") = Ok (NULL (Some EOFInTag), []).
Proof.
  split; [apply readXMLAttribute_without_equals|].
  repeat split; vm_compute; reflexivity.
Qed.

Lemma readXMLAttribute_reads_past_end_of_input_witness :
  readXMLAttribute (str "key") = Undefined OutOfBoundsWrite.
Proof.
  apply (proj1 readXMLAttribute_reads_past_end_of_input).
  cbn. intros Hin. repeat (apply elem_of_cons in Hin as [Hin|Hin]; [done|]).
  by apply elem_of_nil in Hin.
Defined.

(** * Predicate queries (xml.c) *)

(** C2, evaluated at the failing input.  The siblings [<item id="1"/>]
    and [<item id="2"/>] are nodes 1 and 2 of the parsed document; the
    query [item?id=2] started at the first sibling returns [NULL], not
    node 2, and so does [item?id=9]. *)
Theorem getXMLNode_predicate_never_matches :
  (∃ r, tree_of doc_items !! 0%nat = Some r ∧ node_first r = Some 1%nat)
  ∧ (node_attr <$> tree_of doc_items !! 1%nat) = Some [attribute "id" "1"]
  ∧ (node_attr <$> tree_of doc_items !! 2%nat) = Some [attribute "id" "2"]
  ∧ (node_next <$> tree_of doc_items !! 1%nat) = Some (Some 2%nat)
  ∧ getXMLNode (str "item?id=2") (tree_of doc_items) (Some 1%nat) = Ok None
  ∧ getXMLNode (str "item?id=9") (tree_of doc_items) (Some 1%nat) = Ok None.
Proof.
  split; [eexists; split; vm_compute; reflexivity|].
  repeat split; vm_compute; reflexivity.
Qed.

(** * Oversized tag names (tag.c) *)

Lemma name_char_continues a :
  name_char a →
  negb (chr a =? chr " ") && negb (chr a =? chr ">")
  && negb (chr a =? chr "/") && negb (chr a =? EOF) = true.
Proof.
  intros (H1 & H2 & H3).
  by rewrite !chr_eqb_false, chr_eqb_EOF by done.
Qed.

(** Entered with index [i] and enough name characters ahead, the name loop
    stores cells [i .. XML_BUFFER_LENGTH - 1] only and gives up. *)
Lemma readXMLTag_name_full body :
  ∀ fuel rest a buf i,
    name_char a → Forall name_char body →
    (i < XML_BUFFER_LENGTH)%nat →
    (XML_BUFFER_LENGTH ≤ S i + length body)%nat →
    (XML_BUFFER_LENGTH - i ≤ fuel)%nat →
    readXMLTag_name fuel (body ++ rest) (chr a) buf i
    = Ok (None, drop (XML_BUFFER_LENGTH - i) (body ++ rest)).
Proof.
  induction body as [|b body IH]; intros fuel rest a buf i Ha Hbody Hi Hlen Hfuel;
    (destruct fuel as [|fuel]; [lia|]); cbn [readXMLTag_name];
    rewrite name_char_continues by done;
    rewrite poke_in_bounds by done; cbn [mbind outcome_bind].
  - cbn in Hlen. assert (XML_BUFFER_LENGTH - i = 1)%nat as -> by lia.
    cbn [app]. destruct rest as [|r rest]; cbn [fgetc];
      (destruct (Nat.leb_spec XML_BUFFER_LENGTH (S i)); [|lia]); done.
  - cbn [app fgetc]. cbn in Hlen. apply Forall_cons in Hbody as [Hb Hbody].
    destruct (Nat.leb_spec XML_BUFFER_LENGTH (S i)).
    + by assert (XML_BUFFER_LENGTH - i = 1)%nat as -> by lia.
    + rewrite IH by (done || lia).
      by assert (XML_BUFFER_LENGTH - i = S (XML_BUFFER_LENGTH - S i))%nat
        as -> by lia.
Qed.

(** C4.  A tag whose name has at least [XML_BUFFER_LENGTH] characters, with
    or without the leading '<', opening or closing: [readXMLTag] runs
    without any store outside [strBuffer] (the outcome is [Ok], not
    [Undefined OutOfBoundsWrite]), stops once the index has reached the
    capacity (one character of look-ahead past the first
    [XML_BUFFER_LENGTH] name characters is consumed) and returns [NULL]
    with the buffer-full diagnostic. *)
Theorem readXMLTag_oversized_name (lt closing : bool) (name rest : FILE) :
  Forall name_char name →
  (lt = false → closing = false → head name ≠ Some "<"%char) →
  (XML_BUFFER_LENGTH ≤ length name)%nat →
  readXMLTag ((if lt then ["<"%char] else [])
              ++ (if closing then ["/"%char] else []) ++ name ++ rest)
  = Ok (NULL (Some StrBufferFull),
        drop (S XML_BUFFER_LENGTH) (name ++ rest))
  ∧ kind_of StrBufferFull = BufferOverflow.
Proof.
  intros Hname Hhead Hlen. split; [|reflexivity].
  pose proof XML_BUFFER_LENGTH_eq as HL.
  destruct name as [|c0 name]; [cbn in Hlen; lia|].
  apply Forall_cons in Hname as [Hc0 Hname].
  assert (lt = false → closing = false → c0 ≠ "<"%char) as Hc0lt
    by (intros Hlt Hcl ->; by apply Hhead).
  pose proof Hc0 as (Hc0a & Hc0b & Hc0c).
  cbn [length] in Hlen.
  unfold readXMLTag.
  destruct lt, closing;
    repeat first
      [ progress cbn [app fgetc mbind outcome_bind]
      | rewrite (chr_eqb_false "/" "<") by done
      | rewrite (chr_eqb_false c0 "<") by (by apply Hc0lt)
      | rewrite (chr_eqb_false c0 "/") by done
      | rewrite Z.eqb_refl ].
  1,3: rewrite (readXMLTag_name_full name) by (done || lia);
       cbn [mbind outcome_bind]; do 2 f_equal;
       by assert (XML_BUFFER_LENGTH - 0 = S (XML_BUFFER_LENGTH - 1))%nat
         as -> by lia.
  all: rewrite poke_in_bounds by lia; cbn [mbind outcome_bind];
       destruct name as [|c1 name]; [cbn in Hlen; lia|];
       apply Forall_cons in Hname as [Hc1 Hname]; cbn [app fgetc];
       cbn [length] in Hlen;
       rewrite (readXMLTag_name_full name) by (done || lia);
       cbn [mbind outcome_bind]; do 2 f_equal;
       by assert (S XML_BUFFER_LENGTH = S (S (XML_BUFFER_LENGTH - 1)))%nat
         as -> by lia.
Qed.

Lemma readXMLTag_oversized_name_witness :
  readXMLTag ([] ++ [] ++ replicate 200 "n"%char ++ str ">")
  = Ok (NULL (Some StrBufferFull),
        drop (S XML_BUFFER_LENGTH) (replicate 200 "n"%char ++ str ">"))
  ∧ kind_of StrBufferFull = BufferOverflow.
Proof.
  apply (readXMLTag_oversized_name false false (replicate 200 "n"%char)
           (str ">")).
  - apply Forall_replicate. by repeat split.
  - by vm_compute.
  - rewrite XML_BUFFER_LENGTH_eq, length_replicate. lia.
Defined.

(** * The child list of a node (node.c) *)

Section chains.
Context (h : heap).

Lemma chain_head o l : chain h o l → o = head l.
Proof. by destruct 1. Qed.

Lemma chain_valid o l x : chain h o l → x ∈ l → is_Some (h !! x).
Proof.
  induction 1 as [|a n l Ha _ IH]; intros Hx; [by apply elem_of_nil in Hx|].
  apply elem_of_cons in Hx as [->|Hx]; eauto.
Qed.

Lemma chain_det o l1 l2 : chain h o l1 → chain h o l2 → l1 = l2.
Proof.
  intros H1. revert l2. induction H1 as [|a n l Ha _ IH]; intros l2 H2.
  - by inversion H2.
  - inversion H2 as [|a' n' l' Ha' Hl']; subst.
    rewrite Ha in Ha'. injection Ha' as <-. f_equal. by apply IH.
Qed.

(** A chain is unchanged by updates that keep the [next] of its nodes. *)
Lemma chain_frame (h' : heap) o l :
  chain h o l →
  (∀ x n, x ∈ l → h !! x = Some n →
          ∃ n', h' !! x = Some n' ∧ node_next n' = node_next n) →
  chain h' o l.
Proof.
  induction 1 as [|a n l Ha _ IH]; intros Hf; [constructor|].
  destruct (Hf a n) as (n' & Ha' & Hn'); [by left | done |].
  econstructor; [done|]. rewrite Hn'. apply IH.
  intros x nx Hx. apply Hf. by right.
Qed.

(** Redirecting the [next] of the last node to a new node [c]. *)
Lemma chain_snoc (h' : heap) o l l0 c nc :
  chain h o l → NoDup l → last l = Some l0 → c ∉ l →
  (∀ x n, x ∈ l → h !! x = Some n →
          ∃ n', h' !! x = Some n'
                ∧ node_next n' = if decide (x = l0) then Some c
                                 else node_next n) →
  h' !! c = Some nc → node_next nc = None →
  chain h' o (l ++ [c]).
Proof.
  intros Hch. revert l0.
  induction Hch as [|a n l Ha Hl IH]; intros l0 Hnd Hlast Hc Hf Hc' Hnc;
    [done|].
  apply NoDup_cons in Hnd as [Ha_l Hnd].
  apply not_elem_of_cons in Hc as [Hca Hc].
  destruct (Hf a n) as (n' & Ha' & Hn'); [by left | done |].
  cbn [app]. econstructor; [done|]. rewrite Hn'.
  destruct l as [|b l].
  - injection Hlast as <-. rewrite decide_True by done.
    inversion Hl as [Hnext|]; subst. cbn.
    econstructor; [done|]. rewrite Hnc. constructor.
  - rewrite last_cons_cons in Hlast.
    assert (a ≠ l0) as Hal0.
    { intros ->. apply Ha_l. by apply last_Some_elem_of. }
    rewrite decide_False by done.
    apply (IH l0); try done. intros x nx Hx. apply Hf. by right.
Qed.
End chains.

(** Growing the arena does not disturb the chains. *)
Lemma chain_app h k o l : chain h o l → chain (h ++ k) o l.
Proof.
  induction 1; econstructor; eauto using lookup_app_l_Some.
Qed.

Lemma node_ok_consistent h p n : node_ok h p n → children_consistent h n.
Proof.
  intros (l & Hch & Hcc & Hlast & _). exists l.
  eauto using chain_head.
Qed.

(** Updates that keep the links of every node keep the invariant. *)
Lemma tree_inv_frame h h' :
  tree_inv h →
  (∀ x, option_Forall2 same_links (h !! x) (h' !! x)) →
  tree_inv h'.
Proof.
  intros Hinv Hsame p n' Hp.
  pose proof (Hsame p) as Hsp. rewrite Hp in Hsp.
  inversion Hsp as [n ? (Hpar & Hnext & Hfirst & Hlast & Hcc) Hhp|]; subst.
  symmetry in Hhp.
  destruct (Hinv p n Hhp) as (l & Hch & Hlen & Hl & Hnd & Hpars).
  exists l. rewrite <- Hfirst, <- Hcc, <- Hlast. repeat split; try done.
  - apply (chain_frame h); [done|]. intros x nx Hx Hnx.
    pose proof (Hsame x) as Hsx. rewrite Hnx in Hsx.
    inversion Hsx as [? nx' (_ & Hn & _) |]; subst. eauto.
  - intros c Hc. specialize (Hpars c Hc).
    pose proof (Hsame c) as Hsc.
    destruct (h !! c) as [nc|]; [|done].
    inversion Hsc as [? nc' (Hpc & _) |]; subst. cbn in *. congruence.
Qed.

(** * [addXMLNodeToParent] *)

Lemma load_Some h p n : h !! p = Some n → load h p = Ok n.
Proof. unfold load. by intros ->. Qed.

Lemma store_lookup h p f n :
  h !! p = Some n →
  ∃ h', store p f h = Ok h'
        ∧ ∀ x, h' !! x = (if decide (x = p) then f else id) <$> h !! x.
Proof.
  intros Hp. unfold store. rewrite (load_Some _ _ _ Hp). cbn.
  eexists; split; [done|]. intros x. case_decide as Hx.
  - subst x. rewrite list_lookup_insert_eq by eauto using lookup_lt_Some.
    by rewrite Hp.
  - rewrite list_lookup_insert_ne by done. by destruct (h !! x).
Qed.

(** The guards passed, the arena after the call is the arena before with
    [link] applied to every node. *)
Lemma addXMLNodeToParent_link h p c np nc :
  h !! p = Some np → h !! c = Some nc →
  node_parent nc = None → node_previous nc = None → node_next nc = None →
  (∀ l0, node_last np = Some l0 → is_Some (h !! l0)) →
  ∃ h', addXMLNodeToParent (Some p) (Some c) h = Ok h'
        ∧ ∀ x, h' !! x = link p c (node_last np) x <$> h !! x.
Proof.
  intros Hp Hc Hpar Hprev Hnext Hlast. unfold addXMLNodeToParent.
  rewrite (load_Some _ _ _ Hc). cbn.
  rewrite decide_False by (by rewrite Hpar; intros []).
  rewrite decide_False by (rewrite Hprev, Hnext; by intros [[]|[]]).
  destruct (store_lookup h c (set_parent (Some p)) nc Hc) as (h1 & -> & H1).
  cbn.
  assert (∃ n1, h1 !! p = Some n1 ∧ node_last n1 = node_last np
                ∧ node_cc n1 = node_cc np) as (n1 & Hp1 & Hl1 & Hcc1).
  { rewrite H1, Hp. case_decide; eexists; (split; [done|]); done. }
  destruct (store_lookup h1 p (λ n, set_cc (node_cc n + 1) n) n1 Hp1)
    as (h2 & -> & H2). cbn.
  assert (∃ n2, h2 !! p = Some n2 ∧ node_last n2 = node_last np)
    as (n2 & Hp2 & Hl2).
  { rewrite H2, Hp1. rewrite decide_True by done. eexists. split; [done|].
    done. }
  rewrite (load_Some _ _ _ Hp2). cbn. rewrite Hl2.
  destruct (node_last np) as [l0|] eqn:El0.
  - (* other children in parent node *)
    assert (∃ nl, h2 !! l0 = Some nl) as (nl & Hnl).
    { destruct (Hlast l0 eq_refl) as [nl0 Hnl0].
      rewrite H2, H1, Hnl0. repeat case_decide; eexists; done. }
    destruct (store_lookup h2 l0 (set_next (Some c)) nl Hnl)
      as (h3 & -> & H3). cbn.
    assert (∃ n3, h3 !! p = Some n3 ∧ node_last n3 = Some l0)
      as (n3 & Hp3 & Hl3).
    { rewrite H3, Hp2. case_decide; eexists; (split; [done|]); done. }
    rewrite (load_Some _ _ _ Hp3). cbn. rewrite Hl3.
    assert (∃ nc3, h3 !! c = Some nc3) as (nc3 & Hc3).
    { rewrite H3, H2, H1, Hc. repeat case_decide; eexists; done. }
    destruct (store_lookup h3 c (set_previous (Some l0)) nc3 Hc3)
      as (h4 & -> & H4). cbn.
    assert (∃ n4, h4 !! p = Some n4) as (n4 & Hp4).
    { rewrite H4, Hp3. case_decide; eexists; done. }
    destruct (store_lookup h4 p (set_last (Some c)) n4 Hp4)
      as (h5 & -> & H5).
    eexists; split; [done|]. intros x.
    rewrite H5, H4, H3, H2, H1. unfold link.
    destruct (h !! x) as [n|]; [|by repeat case_decide].
    repeat case_decide; try done; subst; done.
  - (* no child in parent node *)
    destruct (store_lookup h2 p (set_first (Some c)) n2 Hp2)
      as (h3 & -> & H3). cbn.
    assert (∃ n3, h3 !! p = Some n3) as (n3 & Hp3).
    { rewrite H3, Hp2. case_decide; eexists; done. }
    destruct (store_lookup h3 p (set_current (Some c)) n3 Hp3)
      as (h4 & -> & H4). cbn.
    assert (∃ n4, h4 !! p = Some n4) as (n4 & Hp4).
    { rewrite H4, Hp3. case_decide; eexists; done. }
    destruct (store_lookup h4 p (set_last (Some c)) n4 Hp4)
      as (h5 & -> & H5).
    eexists; split; [done|]. intros x.
    rewrite H5, H4, H3, H2, H1. unfold link.
    destruct (h !! x) as [n|]; [|by repeat case_decide].
    repeat case_decide; try done; subst; done.
Qed.

Lemma link_parent p c l0 x n :
  node_parent (link p c l0 x n)
  = if decide (x = c) then Some p else node_parent n.
Proof. unfold link. destruct l0; repeat case_decide; done. Qed.

Lemma link_next p c l0 x n :
  node_next (link p c l0 x n)
  = if decide (l0 = Some x) then Some c else node_next n.
Proof.
  unfold link. destruct l0; repeat case_decide; try done; congruence.
Qed.

Lemma link_first p c l0 x n :
  node_first (link p c l0 x n)
  = if decide (x = p ∧ l0 = None) then Some c else node_first n.
Proof.
  unfold link. destruct l0; repeat case_decide; try done;
    intuition congruence.
Qed.

Lemma link_last p c l0 x n :
  node_last (link p c l0 x n)
  = if decide (x = p) then Some c else node_last n.
Proof. unfold link. destruct l0; repeat case_decide; done. Qed.

Lemma link_cc p c l0 x n :
  node_cc (link p c l0 x n)
  = if decide (x = p) then node_cc n + 1 else node_cc n.
Proof. unfold link. destruct l0; repeat case_decide; done. Qed.

Lemma link_name p c l0 x n : node_name (link p c l0 x n) = node_name n.
Proof. unfold link. destruct l0; repeat case_decide; done. Qed.

(** Linking a parentless node [c] under another node [p] keeps the
    invariant and appends [c] to the children of [p]. *)
Lemma link_tree_inv h h' p c np nc :
  tree_inv h → p ≠ c →
  h !! p = Some np → h !! c = Some nc →
  node_parent nc = None → node_next nc = None →
  (∀ x, h' !! x = link p c (node_last np) x <$> h !! x) →
  tree_inv h'
  ∧ ∀ l, chain h (node_first np) l →
         ∃ np', h' !! p = Some np'
                ∧ chain h' (node_first np') (l ++ [c])
                ∧ node_last np' = Some c
                ∧ node_cc np' = node_cc np + 1.
Proof.
  intros Hinv Hpc Hp Hc Hpar Hnext Hlink.
  destruct (Hinv p np Hp) as (lp & Hchp & Hccp & Hlastp & Hndp & Hparp).
  assert (∀ q nq (lq : list nat), h !! q = Some nq →
            (∀ y, y ∈ lq → node_parent <$> h !! y = Some (Some q)) →
            c ∉ lq) as Hfresh.
  { intros q nq lq _ Hq Hin. specialize (Hq c Hin).
    rewrite Hc in Hq. cbn in Hq. congruence. }
  assert (h' !! c = Some (link p c (node_last np) c nc)) as Hc'
    by (by rewrite Hlink, Hc).
  assert (node_next (link p c (node_last np) c nc) = None) as Hnc'.
  { rewrite link_next, Hnext. case_decide as E; [|done].
    exfalso. apply (Hfresh p np lp Hp Hparp).
    apply last_Some_elem_of. congruence. }
  assert (∀ y, y ∈ lp →
            node_parent <$> h' !! y = Some (Some p)) as Hparp'.
  { intros y Hy. rewrite Hlink. specialize (Hparp y Hy).
    destruct (h !! y) as [ny|]; [|done]. cbn in *.
    rewrite link_parent. case_decide; congruence. }
  assert (chain h' (node_first (link p c (node_last np) p np)) (lp ++ [c])
          ∧ node_last (link p c (node_last np) p np) = last (lp ++ [c])
          ∧ node_cc (link p c (node_last np) p np)
            = Z.of_nat (length (lp ++ [c]))) as (Hch' & Hlast' & Hcc').
  { rewrite link_first, link_last, link_cc.
    rewrite !(decide_True (P := p = p)) by done.
    rewrite last_snoc, length_app, Hccp. cbn [length].
    split; [|split; [done | lia]].
    destruct (node_last np) as [l0|] eqn:El0.
    - rewrite decide_False by (intros [_ ?]; congruence).
      eapply (chain_snoc h h' _ lp l0 c _ Hchp Hndp);
        [done | exact (Hfresh p np lp Hp Hparp) | | exact Hc' | exact Hnc'].
      intros y ny Hy Hny. rewrite Hlink, Hny. cbn. eexists; split; [done|].
      rewrite link_next. repeat case_decide; congruence.
    - rewrite decide_True by done. symmetry in Hlastp.
      apply last_None in Hlastp as ->. cbn.
      econstructor; [done|]. rewrite Hnc'. constructor. }
  split.
  - intros q nq' Hq'. rewrite Hlink in Hq'.
    destruct (h !! q) as [nq|] eqn:Hq; [|done]. injection Hq' as <-.
    destruct (decide (q = p)) as [->|Hqp].
    + rewrite Hp in Hq. injection Hq as <-.
      exists (lp ++ [c]). repeat split; try done.
      * apply NoDup_app. repeat split; [done| |apply NoDup_singleton].
        intros y Hy Hyc. apply list_elem_of_singleton in Hyc as ->.
        exact (Hfresh p np lp Hp Hparp Hy).
      * intros y Hy. apply elem_of_app in Hy as [Hy|Hy]; [by apply Hparp'|].
        apply list_elem_of_singleton in Hy as ->. rewrite Hc'. cbn.
        by rewrite link_parent, decide_True.
    + destruct (Hinv q nq Hq) as (lq & Hchq & Hccq & Hlastq & Hndq & Hparq).
      exists lq.
      rewrite link_first, link_last, link_cc.
      rewrite !decide_False by (try intros [? _]; done).
      repeat split; try done.
      * apply (chain_frame h); [done|]. intros y ny Hy Hny.
        rewrite Hlink, Hny. cbn. eexists; split; [done|].
        rewrite link_next. case_decide as E; [|done]. exfalso.
        pose proof (Hparq y Hy) as Hyq.
        assert (y ∈ lp) as Hyp by (apply last_Some_elem_of; congruence).
        pose proof (Hparp y Hyp) as Hyp'. congruence.
      * intros y Hy. rewrite Hlink. pose proof (Hparq y Hy) as Hyq.
        destruct (h !! y) as [ny|] eqn:Hny; [|done]. cbn in *.
        rewrite link_parent. case_decide as E; [|done]. subst y.
        exfalso. exact (Hfresh q nq lq Hq Hparq Hy).
  - intros l Hl. rewrite (chain_det h _ _ _ Hl Hchp).
    exists (link p c (node_last np) p np). rewrite Hlink, Hp. cbn.
    split; [done|]. split; [done|].
    by rewrite link_last, link_cc, !decide_True.
Qed.

(** * The arena built by [parseXMLFile] *)

Lemma built_frame h h' :
  built h →
  (∀ x, option_Forall2
          (λ n n', same_links n n' ∧ node_name n = node_name n')
          (h !! x) (h' !! x)) →
  built h'.
Proof.
  intros (Hinv & Hbelow & Hnamed & Hroot) Hsame.
  assert (∀ x n', h' !! x = Some n' →
            ∃ n, h !! x = Some n ∧ same_links n n'
                 ∧ node_name n = node_name n') as Hback.
  { intros x n' Hx. pose proof (Hsame x) as Hs. rewrite Hx in Hs.
    inversion Hs as [n ? [? ?] Hn|]; subst. eauto. }
  repeat split.
  - apply (tree_inv_frame h); [done|]. intros x.
    destruct (Hsame x) as [n n' [? _]|]; by constructor.
  - intros x n' q Hx Hq. destruct (Hback x n' Hx) as (n & Hn & (Hp & _) & _).
    apply (Hbelow x n q Hn). congruence.
  - intros x n' Hx. destruct (Hback x n' Hx) as (n & Hn & _ & Hname).
    rewrite <- Hname. by apply (Hnamed x n).
  - intros x n' Hx Hq. destruct (Hback x n' Hx) as (n & Hn & (Hp & _) & _).
    apply (Hroot x n Hn). congruence.
Qed.

Lemma initXMLNodeFromXMLTag_fresh h tag h1 :
  initXMLNodeFromXMLTag (length h) tag (h ++ [initXMLNode]) = Ok h1 →
  ∃ n, h1 = h ++ [n] ∧ unlinked n.
Proof.
  unfold initXMLNodeFromXMLTag. intros H.
  rewrite (load_Some _ _ initXMLNode) in H by (by apply list_lookup_middle).
  cbn in H. unfold setXMLNodeName in H.
  destruct (tag_name tag) as [s|]; [|done]. cbn in H.
  rewrite initXMLNodeFromXMLTag_loop_rev in H by done. cbn in H.
  unfold store in H.
  rewrite (load_Some _ _ initXMLNode) in H by (by apply list_lookup_middle).
  cbn in H. injection H as <-.
  eexists. split.
  - rewrite <- (Nat.add_0_r (length h)) at 1. by rewrite insert_app_r.
  - repeat split; cbn; eauto.
Qed.

Lemma tree_inv_alloc h n :
  tree_inv h → unlinked n → tree_inv (h ++ [n]).
Proof.
  intros Hinv (_ & _ & _ & _ & Hfirst & Hlast & Hcc) p np Hp.
  apply lookup_app_Some in Hp as [Hp|[_ Hp]].
  - destruct (Hinv p np Hp) as (l & Hch & Hlen & Hl & Hnd & Hpar).
    exists l. repeat split; try done; [by apply chain_app|].
    intros c Hc. specialize (Hpar c Hc).
    destruct (h !! c) as [nc|] eqn:E; [|done].
    by rewrite (lookup_app_l_Some _ _ _ _ E).
  - apply list_lookup_singleton_Some in Hp as [_ <-].
    exists []. rewrite Hfirst, Hlast, Hcc.
    repeat split; [constructor | constructor | by intros c ?%elem_of_nil].
Qed.

(** Allocating a node, naming it and linking it under a node of the arena
    keeps everything the builder maintains. *)
Lemma attach_fresh_built h cur n h2 :
  built h → (cur < length h)%nat → unlinked n →
  addXMLNodeToParent (Some cur) (Some (length h)) (h ++ [n]) = Ok h2 →
  built h2 ∧ length h2 = S (length h).
Proof.
  intros (Hinv & Hbelow & Hnamed & Hroot) Hcur Hn Hadd.
  pose proof Hn as (Hname & Hpar & Hprev & Hnext & _).
  pose proof (tree_inv_alloc h n Hinv Hn) as Hinv1.
  destruct (lookup_lt_is_Some_2 h cur Hcur) as [np Hnp].
  pose proof (lookup_app_l_Some _ [n] _ _ Hnp) as Hnp1.
  assert ((h ++ [n]) !! length h = Some n) as Hc1
    by (by apply list_lookup_middle).
  destruct (addXMLNodeToParent_link _ cur (length h) np n Hnp1 Hc1
              Hpar Hprev Hnext) as (h2' & Hadd' & Hlink).
  { intros l0 Hl0.
    destruct (Hinv1 cur np Hnp1) as (l & Hch & _ & Hlast & _).
    eapply chain_valid; [exact Hch|].
    apply last_Some_elem_of. congruence. }
  rewrite Hadd' in Hadd. injection Hadd as ->.
  destruct (link_tree_inv _ h2 cur (length h) np n Hinv1) as [Hinv2 _];
    try done; [lia|].
  assert (∀ x n2, h2 !! x = Some n2 →
            ∃ n1, (h ++ [n]) !! x = Some n1
                  ∧ n2 = link cur (length h) (node_last np) x n1) as Hback.
  { intros x n2 Hx. rewrite Hlink in Hx.
    destruct ((h ++ [n]) !! x) as [n1|]; [|done]. injection Hx as <-. eauto. }
  split; [repeat split; [done|..]|].
  - intros x n2 q Hx Hq. destruct (Hback x n2 Hx) as (n1 & Hn1 & ->).
    rewrite link_parent in Hq. case_decide as E.
    + injection Hq as <-. lia.
    + apply lookup_app_Some in Hn1 as [Hn1|[_ Hn1]]; [by eapply Hbelow|].
      apply list_lookup_singleton_Some in Hn1 as [_ <-]. congruence.
  - intros x n2 Hx. destruct (Hback x n2 Hx) as (n1 & Hn1 & ->).
    rewrite link_name.
    apply lookup_app_Some in Hn1 as [Hn1|[_ Hn1]]; [by eapply Hnamed|].
    by apply list_lookup_singleton_Some in Hn1 as [_ <-].
  - intros x n2 Hx Hq. destruct (Hback x n2 Hx) as (n1 & Hn1 & ->).
    rewrite link_parent in Hq. case_decide as E; [done|].
    apply lookup_app_Some in Hn1 as [Hn1|[Hge Hn1]]; [by eapply Hroot|].
    apply list_lookup_singleton_Some in Hn1 as [Hx0 _]. lia.
  - apply Nat.le_antisymm.
    + apply Nat.nlt_ge. intros Hlt.
      destruct (lookup_lt_is_Some_2 h2 (S (length h))) as [n2 Hn2]; [lia|].
      destruct (Hback _ _ Hn2) as (n1 & Hn1 & _).
      apply lookup_lt_Some in Hn1. rewrite length_app in Hn1. cbn in Hn1. lia.
    + apply Nat.nlt_ge. intros Hlt.
      assert (h2 !! length h = None) as Hnone
        by (apply lookup_ge_None; lia).
      rewrite Hlink, Hc1 in Hnone. done.
Qed.

Lemma store_value_built h n v h' :
  built h → store n (setXMLNodeValue v) h = Ok h' →
  built h' ∧ length h' = length h.
Proof.
  intros Hb H. unfold store in H. bind_inv H. unfold load in E.
  destruct (h !! n) as [nd|] eqn:Hn; [|done]. injection E as <-.
  injection H as <-. split; [|apply length_insert].
  apply (built_frame h); [done|]. intros x.
  destruct (decide (x = n)) as [->|Hx].
  - rewrite list_lookup_insert_eq by eauto using lookup_lt_Some.
    rewrite Hn. by constructor.
  - rewrite list_lookup_insert_ne by done.
    destruct (h !! x); by constructor.
Qed.

Lemma readXMLNodeValue_built n file h h' file' :
  built h → readXMLNodeValue n file h = Ok (h', file') →
  built h' ∧ length h' = length h.
Proof.
  intros Hb H. unfold readXMLNodeValue in H.
  bind_inv H. destruct r as [[[buf i]|] file1]; cbn in H;
    [|by injection H as <- <-].
  bind_inv H. destruct r as [[[buf' i']|] file2]; cbn in H;
    [|by injection H as <- <-].
  bind_inv H. bind_inv H. injection H as <- <-.
  by eapply store_value_built.
Qed.

(** The loop keeps the arena well built and can only be left on a node
    without a parent, that is, on the first node. *)
Lemma parseXMLFile_loop_built fuel :
  ∀ file h root cur cur' h' rest,
    built h → (cur < length h)%nat →
    parseXMLFile_loop fuel file h root cur = Ok (Ptr (cur', h'), rest) →
    built h' ∧ cur' = 0%nat.
Proof.
  induction fuel as [|fuel IH]; intros file h root cur cur' h' rest Hb Hcur H;
    [done|].
  unfold parseXMLFile_loop in H; fold parseXMLFile_loop in H.
  bind_inv H. destruct r as [h1 file1]. cbn in H.
  destruct (readXMLNodeValue_built _ _ _ _ _ Hb E) as [Hb1 Hlen1].
  bind_inv H. destruct r as [[tag|d] file2]; cbn in H; [|done].
  destruct (tag_type tag).
  - (* OPENING *)
    cbn in H. bind_inv H. bind_inv H.
    apply initXMLNodeFromXMLTag_fresh in E1 as (n & -> & Hn).
    destruct (attach_fresh_built h1 cur n r0 Hb1) as [Hb2 Hlen2];
      [lia | done | done |].
    apply (IH _ _ _ _ _ _ _ Hb2) in H; [done | lia].
  - (* CLOSING *)
    bind_inv H. unfold load in E1.
    destruct (h1 !! cur) as [nd|] eqn:Hnd; [|done]. injection E1 as <-.
    destruct (node_parent nd) as [p|] eqn:Hp.
    + apply (IH _ _ _ _ _ _ _ Hb1) in H; [done|].
      destruct Hb1 as (_ & Hbelow & _). specialize (Hbelow cur nd p Hnd Hp).
      lia.
    + injection H as <- <- <-. split; [done|].
      destruct Hb1 as (_ & _ & _ & Hroot). by eapply Hroot.
  - (* UNIQUE *)
    cbn in H. bind_inv H. bind_inv H.
    apply initXMLNodeFromXMLTag_fresh in E1 as (n & -> & Hn).
    destruct (attach_fresh_built h1 cur n r0 Hb1) as [Hb2 Hlen2];
      [lia | done | done |].
    apply (IH _ _ _ _ _ _ _ Hb2) in H; [done | lia].
  - (* UNKNOWN *)
    apply (IH _ _ _ _ _ _ _ Hb1) in H; [done | lia].
Qed.

Lemma built_root n : unlinked n → built [n].
Proof.
  intros Hn. pose proof Hn as (Hname & Hpar & _).
  split; [apply (tree_inv_alloc [] n); [by intros p np ?|done]|].
  repeat split.
  - intros x nx q Hx Hq.
    apply list_lookup_singleton_Some in Hx as [_ <-]. congruence.
  - intros x nx Hx. by apply list_lookup_singleton_Some in Hx as [_ <-].
  - intros x nx Hx _. by apply list_lookup_singleton_Some in Hx as [-> _].
Qed.

Lemma parseXMLFile_built file root h rest :
  parseXMLFile file = Ok (Ptr (root, h), rest) → built h ∧ root = 0%nat.
Proof.
  intros H. unfold parseXMLFile in H.
  bind_inv H. destruct r as [[tag|d] file1]; cbn in H; [|done].
  case_decide; [done|]. cbn in H. case_decide.
  - bind_inv H. injection H as <- <- <-.
    apply (initXMLNodeFromXMLTag_fresh []) in E0 as (n & -> & Hn).
    split; [by apply built_root | done].
  - bind_inv H. bind_inv H.
    apply (initXMLNodeFromXMLTag_fresh []) in E0 as (n & -> & Hn).
    destruct r0 as [[[cur h1]|d] file2]; cbn in H; [|done].
    case_decide; [done|]. injection H as <- <- <-.
    apply parseXMLFile_loop_built in E1 as [Hb _];
      [done | by apply built_root | cbn; lia].
Qed.

(** C8.  In the arena of every successful parse, for every node, walking
    [next] from [first] gives a list whose length is [cc], whose head is
    [first] and whose final element is [last].  Each append keeps this: on
    an arena where it holds (with the children of a node distinct and
    pointing back to it), attaching an unlinked node [c] under another node
    [p] makes the children of [p] the former ones followed by [c], [c] the
    last child, [cc] one more, and the property holds again everywhere. *)
Theorem parsed_tree_children_consistent :
  (∀ file root h rest,
      parseXMLFile file = Ok (Ptr (root, h), rest) →
      ∀ p n, h !! p = Some n → children_consistent h n)
  ∧ (∀ h p c np nc l,
      tree_inv h → p ≠ c →
      h !! p = Some np → h !! c = Some nc →
      node_parent nc = None → node_previous nc = None →
      node_next nc = None →
      chain h (node_first np) l →
      ∃ h' np',
        addXMLNodeToParent (Some p) (Some c) h = Ok h'
        ∧ h' !! p = Some np'
        ∧ chain h' (node_first np') (l ++ [c])
        ∧ node_last np' = Some c
        ∧ node_cc np' = node_cc np + 1
        ∧ tree_inv h'
        ∧ ∀ q nq, h' !! q = Some nq → children_consistent h' nq).
Proof.
  split.
  - intros file root h rest H p n Hp.
    apply parseXMLFile_built in H as [(Hinv & _) _].
    eapply node_ok_consistent. by apply Hinv.
  - intros h p c np nc l Hinv Hpc Hp Hc Hpar Hprev Hnext Hl.
    destruct (addXMLNodeToParent_link h p c np nc Hp Hc Hpar Hprev Hnext)
      as (h' & Hadd & Hlink).
    { intros l0 Hl0. destruct (Hinv p np Hp) as (lp & Hch & _ & Hlast & _).
      eapply chain_valid; [exact Hch|].
      apply last_Some_elem_of. congruence. }
    destruct (link_tree_inv h h' p c np nc Hinv Hpc Hp Hc Hpar Hnext Hlink)
      as [Hinv' Happ].
    destruct (Happ l Hl) as (np' & Hp' & Hch' & Hlast' & Hcc').
    exists h', np'. repeat split; try done.
    intros q nq Hq. eapply node_ok_consistent. by apply Hinv'.
Qed.

Lemma parsed_tree_children_consistent_witness :
  ∃ n, tree_of doc_items !! 0%nat = Some n
       ∧ node_cc n = 2
       ∧ children_consistent (tree_of doc_items) n.
Proof.
  eexists. split; [vm_compute; reflexivity|]. split; [reflexivity|].
  apply (proj1 parsed_tree_children_consistent doc_items 0%nat
           (tree_of doc_items) [] ltac:(vm_compute; reflexivity) 0%nat).
  vm_compute. reflexivity.
Defined.

(** * Single parent and acyclicity *)

Lemma parents_below_acyclic h : parents_below h → acyclic h.
Proof.
  intros Hbelow.
  assert (∀ x a, tc (parent_of h) x a → (a < x)%nat) as Hlt.
  { induction 1 as [x a Hxa|x y a Hxy _ IH].
    - unfold parent_of in Hxa. destruct (h !! x) as [n|] eqn:Hx; [|done].
      injection Hxa as Hn. by eapply Hbelow.
    - unfold parent_of in Hxy. destruct (h !! x) as [n|] eqn:Hx; [|done].
      injection Hxy as Hn. specialize (Hbelow x n y Hx Hn). lia. }
  intros x Hx. apply Hlt in Hx. lia.
Qed.

(** Adding the edge from [c] to [p] to an acyclic parent relation in which
    [c] has no parent creates a cycle only through a path from [p] to
    [c]. *)
Lemma acyclic_add_edge (R R' : relation nat) (p c : nat) :
  (∀ x y, R' x y → (x = c ∧ y = p) ∨ R x y) →
  (∀ x, ¬ tc R x x) → ¬ rtc R p c →
  ∀ x, ¬ tc R' x x.
Proof.
  intros Hedge Hacyc Hpc.
  assert (∀ y, rtc R' p y → rtc R p y) as Hfrom_p.
  { apply rtc_ind_r; [done|]. intros y z Hpy Hyz IH.
    destruct (Hedge _ _ Hyz) as [[-> ->]|Hyz']; [done|].
    by eapply rtc_r. }
  assert (∀ x y, tc R' x y → tc R x y ∨ (rtc R x c ∧ rtc R p y)) as Hsplit.
  { induction 1 as [x y Hxy|x y z Hxy Hyz IH].
    - destruct (Hedge _ _ Hxy) as [[-> ->]|Hxy']; [by right|].
      left. by apply tc_once.
    - destruct (Hedge _ _ Hxy) as [[-> ->]|Hxy'].
      + right. split; [done|]. by apply Hfrom_p, tc_rtc.
      + destruct IH as [IH|[IH1 IH2]].
        * left. by eapply tc_l.
        * right. split; [by eapply rtc_l|done]. }
  intros x Hx. destruct (Hsplit x x Hx) as [Hx'|[Hxc Hpx]].
  - by apply (Hacyc x).
  - apply Hpc. by etrans.
Qed.

Lemma addXMLNodeToParent_guard h p c nc :
  h !! c = Some nc →
  node_parent nc ≠ None ∨ node_previous nc ≠ None ∨ node_next nc ≠ None →
  addXMLNodeToParent (Some p) (Some c) h = Ok h.
Proof.
  intros Hc Hg. unfold addXMLNodeToParent.
  rewrite (load_Some _ _ _ Hc). cbn.
  case_decide; [done|]. case_decide; [done|].
  exfalso. destruct Hg as [Hg|Hg]; tauto.
Qed.

(** A call that returns either left the arena as it was or attached the
    child, which had no parent nor sibling. *)
Lemma addXMLNodeToParent_Ok_inv h q c h' :
  addXMLNodeToParent (Some q) (Some c) h = Ok h' →
  h' = h
  ∨ ∃ np nc,
      h !! q = Some np ∧ h !! c = Some nc
      ∧ node_parent nc = None ∧ node_previous nc = None
      ∧ node_next nc = None
      ∧ ∀ x, h' !! x = link q c (node_last np) x <$> h !! x.
Proof.
  intros H. pose proof H as H0. unfold addXMLNodeToParent in H.
  apply bind_Ok_inv in H as (nc & Hc & H). unfold load in Hc.
  destruct (h !! c) as [nc'|] eqn:Ec; [|done]. injection Hc as ->.
  case_decide as Hpar; [left; by injection H|].
  case_decide as Hsib; [left; by injection H|].
  assert (node_parent nc = None) as Hpar'
    by (destruct (node_parent nc); [by destruct Hpar|done]).
  assert (node_previous nc = None) as Hprev
    by (destruct (node_previous nc); [destruct Hsib; by left|done]).
  assert (node_next nc = None) as Hnext
    by (destruct (node_next nc); [destruct Hsib; by right|done]).
  right.
  destruct (store_lookup h c (set_parent (Some q)) nc Ec) as (h1 & E1 & H1).
  rewrite E1 in H. cbn [mbind outcome_bind] in H.
  destruct (h !! q) as [np|] eqn:Eq.
  - assert (∃ n1, h1 !! q = Some n1 ∧ node_last n1 = node_last np)
      as (n1 & Hq1 & Hl1).
    { rewrite H1, Eq. case_decide; eexists; (split; [done|]); done. }
    destruct (store_lookup h1 q (λ n, set_cc (node_cc n + 1) n) n1 Hq1)
      as (h2 & E2 & H2).
    rewrite E2 in H. cbn [mbind outcome_bind] in H.
    assert (∃ n2, h2 !! q = Some n2 ∧ node_last n2 = node_last np)
      as (n2 & Hq2 & Hl2).
    { rewrite H2, Hq1. rewrite decide_True by done. by eexists. }
    rewrite (load_Some _ _ _ Hq2) in H. cbn [mbind outcome_bind] in H.
    rewrite Hl2 in H.
    assert (∀ l0, node_last np = Some l0 → is_Some (h !! l0)) as Hlast.
    { intros l0 El0. rewrite El0 in H.
      destruct (h !! l0) as [nl|] eqn:Enl; [by eexists|].
      assert (h2 !! l0 = None) as Hnone.
      { rewrite H2, H1, Enl. done. }
      apply bind_Ok_inv in H as (h3 & E3 & _). unfold store, load in E3.
      by rewrite Hnone in E3. }
    destruct (addXMLNodeToParent_link h q c np nc Eq Ec Hpar' Hprev Hnext
                Hlast) as (h'' & Hadd & Hlink).
    rewrite Hadd in H0. injection H0 as <-. by exists np, nc.
  - assert (h1 !! q = None) as Hnone by (by rewrite H1, Eq).
    apply bind_Ok_inv in H as (h2 & E2 & _). unfold store, load in E2.
    by rewrite Hnone in E2.
Qed.

(** A node that has a parent keeps it through any call. *)
Lemma addXMLNodeToParent_keeps_parent parent child h h' x p :
  addXMLNodeToParent parent child h = Ok h' →
  parent_of h x p → parent_of h' x p.
Proof.
  intros H Hx. destruct parent as [q|]; [|by injection H as <-].
  destruct child as [c|]; [|by injection H as <-].
  apply addXMLNodeToParent_Ok_inv in H
    as [->|(np & nc & Hq & Hc & Hpar & _ & _ & Hlink)]; [done|].
  unfold parent_of in *. rewrite Hlink.
  destruct (h !! x) as [n|] eqn:En; [|done]. cbn in Hx |- *.
  rewrite link_parent. case_decide as E; [|done].
  subst x. rewrite Hc in En. injection En as <-. congruence.
Qed.

(** C10, as the code has it.  A [NULL] argument, or a child that already
    has a parent, a previous or a next sibling, leaves the arena untouched.
    Otherwise the child is attached: its parent becomes [p] and no other
    parent pointer changes.  A node that has a parent keeps that parent
    through every sequence of calls of [addXMLNodeToParent], whatever their
    arguments: a node is under one parent at a time.
    [deleteXMLNodeFromParent] detaches it, and it can then be attached
    again, under another node.  The function does not look at where [p]
    sits: the parent relation stays acyclic when the child is neither [p]
    itself nor an ancestor of [p]; this is the case all along a parse,
    where every child is newly created, so that no node of a parsed tree is
    its own ancestor. *)
Theorem addXMLNodeToParent_links_once :
  (∀ h c, addXMLNodeToParent None c h = Ok h)
  ∧ (∀ h p, addXMLNodeToParent (Some p) None h = Ok h)
  ∧ (∀ h p c nc,
      h !! c = Some nc →
      node_parent nc ≠ None ∨ node_previous nc ≠ None ∨ node_next nc ≠ None →
      addXMLNodeToParent (Some p) (Some c) h = Ok h)
  ∧ (∀ h p c np nc,
      h !! p = Some np → h !! c = Some nc →
      node_parent nc = None → node_previous nc = None →
      node_next nc = None →
      (∀ l0, node_last np = Some l0 → is_Some (h !! l0)) →
      ∃ h',
        addXMLNodeToParent (Some p) (Some c) h = Ok h'
        ∧ parent_of h' c p
        ∧ (∀ x, x ≠ c → node_parent <$> h' !! x = node_parent <$> h !! x)
        ∧ (∀ q, addXMLNodeToParent (Some q) (Some c) h' = Ok h')
        ∧ (acyclic h → p ≠ c → ¬ ancestor h c p → acyclic h'))
  ∧ (∀ calls h h' c p,
      parent_of h c p → add_calls calls h = Ok h' → parent_of h' c p)
  ∧ (∃ h1 h2 h3,
      addXMLNodeToParent (Some 0%nat) (Some 2%nat) three_unlinked = Ok h1
      ∧ parent_of h1 2%nat 0%nat
      ∧ deleteXMLNodeFromParent (Some 2%nat) h1 = Ok h2
      ∧ addXMLNodeToParent (Some 1%nat) (Some 2%nat) h2 = Ok h3
      ∧ parent_of h3 2%nat 1%nat)
  ∧ (∀ file root h rest,
      parseXMLFile file = Ok (Ptr (root, h), rest) → acyclic h).
Proof.
  split; [done|]. split; [done|].
  split; [apply addXMLNodeToParent_guard|]. split; [|split; [|split]].
  - intros h p c np nc Hp Hc Hpar Hprev Hnext Hlast.
    destruct (addXMLNodeToParent_link h p c np nc Hp Hc Hpar Hprev Hnext
                Hlast) as (h' & Hadd & Hlink).
    assert (h' !! c = Some (link p c (node_last np) c nc)) as Hc'
      by (by rewrite Hlink, Hc).
    assert (parent_of h' c p) as Hcp.
    { unfold parent_of. rewrite Hc'. cbn.
      by rewrite link_parent, decide_True. }
    assert (∀ x, x ≠ c → node_parent <$> h' !! x = node_parent <$> h !! x)
      as Hother.
    { intros x Hx. rewrite Hlink. destruct (h !! x) as [n|]; [|done]. cbn.
      by rewrite link_parent, decide_False. }
    exists h'. repeat split; try done.
    + intros q. eapply addXMLNodeToParent_guard; [exact Hc'|].
      left. by rewrite link_parent, decide_True.
    + intros Hacyc Hpc Hanc. unfold acyclic, ancestor in *.
      apply (acyclic_add_edge (parent_of h) (parent_of h') p c);
        [|exact Hacyc|].
      * intros x y Hxy. destruct (decide (x = c)) as [->|Hx].
        -- left. unfold parent_of in Hxy, Hcp. split; congruence.
        -- right. unfold parent_of in *. by rewrite <- Hother.
      * intros [->|Hpc']%rtc_tc; [done|]. by apply Hanc.
  - induction calls as [|[parent child] calls IH]; intros h h' c p Hc H.
    + by injection H as <-.
    + cbn [add_calls] in H. apply bind_Ok_inv in H as (h1 & Hadd & H).
      apply (IH h1 h' c p); [|done].
      by apply (addXMLNodeToParent_keeps_parent _ _ _ _ _ _ Hadd).
  - do 3 eexists.
    split; [vm_compute; reflexivity|]. split; [vm_compute; reflexivity|].
    split; [vm_compute; reflexivity|]. split; vm_compute; reflexivity.
  - intros file root h rest H.
    apply parseXMLFile_built in H as [(_ & Hbelow & _) _].
    by apply parents_below_acyclic.
Qed.

Lemma addXMLNodeToParent_links_once_witness :
  (∃ h',
    addXMLNodeToParent (Some 0%nat) (Some 1%nat) two_unlinked = Ok h'
    ∧ parent_of h' 1%nat 0%nat
    ∧ (∀ x, x ≠ 1%nat →
            node_parent <$> h' !! x = node_parent <$> two_unlinked !! x)
    ∧ (∀ q, addXMLNodeToParent (Some q) (Some 1%nat) h' = Ok h')
    ∧ (acyclic two_unlinked → 0%nat ≠ 1%nat →
       ¬ ancestor two_unlinked 1%nat 0%nat → acyclic h'))
  ∧ parent_of (tree_of doc_items) 2%nat 0%nat
  ∧ ∃ h', add_calls [(Some 1%nat, Some 2%nat); (Some 2%nat, Some 0%nat);
                     (Some 1%nat, Some 2%nat)] (tree_of doc_items)
          = Ok h'
          ∧ parent_of h' 0%nat 2%nat ∧ parent_of h' 2%nat 0%nat.
Proof.
  split; [|split; [vm_compute; reflexivity|]].
  - eapply (proj1 (proj2 (proj2 (proj2 addXMLNodeToParent_links_once)))
              two_unlinked 0%nat 1%nat);
      try (vm_compute; reflexivity).
    intros l0 Hl0. discriminate Hl0.
  - eexists. split; [vm_compute; reflexivity|].
    split; [vm_compute; reflexivity|].
    eapply (proj1 (proj2 (proj2 (proj2 (proj2
              addXMLNodeToParent_links_once))))
              [(Some 1%nat, Some 2%nat); (Some 2%nat, Some 0%nat);
               (Some 1%nat, Some 2%nat)] (tree_of doc_items));
      vm_compute; reflexivity.
Defined.

(** C10 as stated fails: the guards do not keep a node from becoming its
    own ancestor.  An unlinked node can be attached under itself, and the
    root of the tree parsed from [<a><b/></a>] can be attached under its
    own child. *)
Lemma addXMLNodeToParent_can_close_a_cycle :
  (acyclic [initXMLNode]
   ∧ ∃ h', addXMLNodeToParent (Some 0%nat) (Some 0%nat) [initXMLNode] = Ok h'
           ∧ h' ≠ [initXMLNode]
           ∧ ancestor h' 0%nat 0%nat)
  ∧ (acyclic (tree_of (str "<a><b/></a>"))
     ∧ ∃ h', addXMLNodeToParent (Some 1%nat) (Some 0%nat)
               (tree_of (str "<a><b/></a>")) = Ok h'
             ∧ h' ≠ tree_of (str "<a><b/></a>")
             ∧ ancestor h' 0%nat 0%nat).
Proof.
  split; split.
  - apply parents_below_acyclic. intros x n q Hx Hq.
    apply list_lookup_singleton_Some in Hx as [_ <-]. done.
  - eexists. split; [vm_compute; reflexivity|]. split; [by vm_compute|].
    apply tc_once. vm_compute. reflexivity.
  - assert (parseXMLFile (str "<a><b/></a>")
            = Ok (Ptr (0%nat, tree_of (str "<a><b/></a>")), [])) as H
      by (vm_compute; reflexivity).
    apply parseXMLFile_built in H as [(_ & Hbelow & _) _].
    by apply parents_below_acyclic.
  - eexists. split; [vm_compute; reflexivity|]. split; [by vm_compute|].
    eapply tc_l; [|apply tc_once]; vm_compute; reflexivity.
Qed.

(** * Value queries (xml.c) *)

Lemma new_buffer_length : length new_buffer = XML_BUFFER_LENGTH.
Proof. exact (length_replicate XML_BUFFER_LENGTH NUL). Qed.

Lemma path_at_middle pre x rest :
  path_at (pre ++ x :: rest) (length pre) = Ok x.
Proof. unfold path_at. by rewrite list_lookup_middle. Qed.

Lemma path_at_end path : path_at path (length path) = Ok NUL.
Proof.
  unfold path_at. rewrite (lookup_ge_None_2 path) by done.
  by rewrite decide_True.
Qed.

Lemma cstr_terminated seg :
  ∀ buf k, take k buf = seg → Forall (λ a, a ≠ NUL) seg →
           (k < length buf)%nat →
           cstr (<[k:=NUL]> buf) = string_of_list_ascii seg.
Proof.
  induction seg as [|a seg IH]; intros buf k Htake Hnz Hk.
  - destruct buf as [|b buf]; [cbn in Hk; lia|].
    destruct k; [|done]. cbn. by rewrite decide_True.
  - destruct buf as [|b buf]; [by rewrite take_nil in Htake|].
    destruct k; [done|].
    cbn in Htake. injection Htake as -> Htake.
    apply Forall_cons in Hnz as [Ha Hnz]. cbn in Hk |- *.
    rewrite decide_False by done. f_equal. apply IH; [done | done | lia].
Qed.

Lemma chain_suffix h o l a :
  chain h o l → a ∈ l →
  ∃ l2, chain h (Some a) (a :: l2) ∧ (S (length l2) ≤ length l)%nat.
Proof.
  induction 1 as [|a' n l Ha Hl IH]; intros Hin; [by apply elem_of_nil in Hin|].
  apply elem_of_cons in Hin as [->|Hin].
  - exists l. split; [by econstructor | done].
  - destruct (IH Hin) as (l2 & Hl2 & Hlen). exists l2. split; [done|].
    cbn. lia.
Qed.

Lemma chain_NoDup h o l : chain h o l → NoDup l.
Proof.
  induction 1 as [|a n l Ha Hl IH]; [constructor|].
  apply NoDup_cons. split; [|done]. intros Hin.
  destruct (chain_suffix h _ l a Hl Hin) as (l2 & Hl2 & Hlen).
  assert (a :: l2 = a :: l) as E
    by (eapply chain_det; [exact Hl2 | by econstructor]).
  injection E as ->. lia.
Qed.

Lemma chain_length h o l : chain h o l → (length l ≤ length h)%nat.
Proof.
  intros Hch. trans (length (seq 0 (length h))); [|by rewrite length_seq].
  apply submseteq_length, NoDup_submseteq; [by eapply chain_NoDup|].
  intros x Hx. apply elem_of_seq.
  destruct (chain_valid h o l x Hch Hx) as [n Hn].
  apply lookup_lt_Some in Hn. lia.
Qed.

(** The sibling scan of [getXMLValue] returns the first node of the list
    with that name. *)
Lemma getXMLValue_find_spec h s :
  all_named h →
  ∀ n l fuel, chain h n l → (length l < fuel)%nat →
              getXMLValue_find fuel h s n = Ok (first_named h s l).
Proof.
  intros Hnamed n l fuel Hch. revert fuel.
  induction Hch as [|a nd l Ha Hl IH]; intros fuel Hfuel;
    (destruct fuel as [|fuel]; [lia|]); cbn [getXMLValue_find]; [done|].
  rewrite (load_Some _ _ _ Ha). cbn [mbind outcome_bind].
  destruct (Hnamed a nd Ha) as [t Ht]. rewrite Ht. cbn.
  unfold first_named. cbn [List.find]. rewrite Ha. cbn. rewrite Ht.
  destruct (decide (s = t)) as [->|Hst].
  - rewrite bool_decide_false by (by intros []).
    by rewrite bool_decide_true.
  - rewrite bool_decide_true by done.
    rewrite bool_decide_false by congruence.
    apply IH. cbn in Hfuel. lia.
Qed.

Lemma segment_char_test a :
  segment_char a →
  bool_decide (a ≠ "/"%char) && bool_decide (a ≠ ":"%char)
  && bool_decide (a ≠ "$"%char) && bool_decide (a ≠ NUL) = true.
Proof. intros (H1 & H2 & H3 & H4). by rewrite !bool_decide_true. Qed.

Lemma delimiter_test d :
  ¬ segment_char d →
  bool_decide (d ≠ "/"%char) && bool_decide (d ≠ ":"%char)
  && bool_decide (d ≠ "$"%char) && bool_decide (d ≠ NUL) = false.
Proof.
  intros Hd. repeat case_bool_decide; try done.
  exfalso. apply Hd. by repeat split.
Qed.

(** The segment loop copies the segment at the index it was given and
    stops on the delimiter. *)
Lemma getXMLValue_segment_spec seg :
  ∀ fuel pre d rest buf iBuf,
    Forall segment_char seg → ¬ segment_char d →
    (iBuf + length seg < XML_BUFFER_LENGTH)%nat →
    (iBuf + length seg < length buf)%nat →
    (length seg < fuel)%nat →
    ∃ buf',
      getXMLValue_segment fuel (pre ++ seg ++ d :: rest) (length pre)
                          (hd d seg) buf iBuf
      = Ok (buf', (iBuf + length seg)%nat, (length pre + length seg)%nat, d)
      ∧ length buf' = length buf
      ∧ take (iBuf + length seg) buf' = take iBuf buf ++ seg.
Proof.
  induction seg as [|a seg IH];
    intros fuel pre d rest buf iBuf Hseg Hd Hcap Hlen Hfuel;
    (destruct fuel as [|fuel]; [cbn in Hfuel; lia|]);
    cbn [getXMLValue_segment hd].
  - rewrite delimiter_test by done. exists buf.
    rewrite !Nat.add_0_r, app_nil_r. done.
  - apply Forall_cons in Hseg as [Ha Hseg]. cbn [length] in *.
    rewrite segment_char_test by done.
    rewrite poke_in_bounds by lia. cbn [mbind outcome_bind].
    replace (pre ++ (a :: seg) ++ d :: rest)
      with ((pre ++ [a]) ++ seg ++ d :: rest) by (by rewrite <- app_assoc).
    replace (S (length pre)) with (length (pre ++ [a]))
      by (rewrite length_app; cbn; lia).
    assert (path_at ((pre ++ [a]) ++ seg ++ d :: rest) (length (pre ++ [a]))
            = Ok (hd d seg)) as ->
      by (destruct seg; apply path_at_middle).
    cbn [mbind outcome_bind].
    destruct (IH fuel (pre ++ [a]) d rest (<[iBuf:=a]> buf) (S iBuf))
      as (buf' & -> & Hlen' & Htake);
      try done; rewrite ?length_insert; try lia.
    exists buf'. rewrite length_insert in Hlen'.
    replace (iBuf + S (length seg))%nat with (S iBuf + length seg)%nat by lia.
    rewrite length_app. cbn [length].
    replace (length pre + 1 + length seg)%nat
      with (length pre + S (length seg))%nat by lia.
    split; [done|]. split; [done|]. rewrite Htake.
    rewrite (take_S_r _ _ a)
      by (apply list_lookup_insert_eq; lia).
    rewrite take_insert_ge by lia. by rewrite <- app_assoc.
Qed.

(** One turn of the [while(value == NULL)] loop on a segment ended by '/'
    or '$'. *)
Lemma getXMLValue_loop_step h fuel pre seg d rest n l :
  all_named h → segment_ok seg → d = "/"%char ∨ d = "$"%char →
  chain h n l →
  getXMLValue_loop (S fuel) h (pre ++ seg ++ d :: rest) (length pre) n
  = match first_named h (string_of_list_ascii seg) l with
    | None => Ok (NULL (Some NoChildWithName))
    | Some a =>
      match h !! a with
      | None => Undefined InvalidPointer
      | Some nd =>
        if decide (d = "/"%char) then
          getXMLValue_loop fuel h (pre ++ seg ++ d :: rest)
            (S (length pre + length seg)) (node_first nd)
        else
          match node_value nd with
          | Some value => Ok (Ptr value)
          | None =>
            getXMLValue_loop fuel h (pre ++ seg ++ d :: rest)
              (S (length pre + length seg)) (Some a)
          end
      end
    end.
Proof.
  intros Hnamed [Hseg Hshort] Hd Hch.
  assert (¬ segment_char d) as Hdelim
    by (intros (? & ? & ? & ?); by destruct Hd).
  assert (d ≠ NUL) as Hnul by (by destruct Hd as [->| ->]).
  unfold getXMLValue_loop; fold getXMLValue_loop.
  assert (path_at (pre ++ seg ++ d :: rest) (length pre) = Ok (hd d seg))
    as -> by (destruct seg; apply path_at_middle).
  cbn [mbind outcome_bind].
  destruct (getXMLValue_segment_spec seg path_fuel pre d rest new_buffer 0)
    as (buf' & -> & Hlen' & Htake);
    try done; rewrite ?new_buffer_length; unfold path_fuel; try lia.
  cbn [mbind outcome_bind]. cbn [Nat.add] in *.
  rewrite new_buffer_length in Hlen'.
  rewrite poke_in_bounds by lia. cbn [mbind outcome_bind].
  rewrite decide_False by done.
  rewrite take_0 in Htake. cbn [app] in Htake.
  assert (Forall (λ a, a ≠ NUL) seg) as Hnz
    by (eapply Forall_impl; [exact Hseg | by intros ? (_ & _ & _ & ?)]).
  rewrite (cstr_terminated seg _ _ Htake Hnz) by lia.
  rewrite (getXMLValue_find_spec h _ Hnamed n l) by
    (try done; pose proof (chain_length h n l Hch); lia).
  cbn [mbind outcome_bind].
  destruct (first_named h (string_of_list_ascii seg) l) as [a|]; [|done].
  unfold load. destruct (h !! a) as [nd|]; [|done]. cbn [mbind outcome_bind].
  destruct Hd as [-> | ->].
  - by rewrite !decide_True.
  - rewrite (decide_False (P := "$"%char = "/"%char)) by done.
    by rewrite decide_True.
Qed.

Lemma getXMLValue_loop_end h fuel path n :
  getXMLValue_loop (S fuel) h path (length path) n
  = Ok (NULL (Some PathWithoutSelector)).
Proof.
  unfold getXMLValue_loop; fold getXMLValue_loop.
  rewrite path_at_end. cbn [mbind outcome_bind].
  unfold path_fuel. cbn [getXMLValue_segment].
  rewrite delimiter_test by (by intros (_ & _ & _ & ?)).
  cbn [mbind outcome_bind].
  rewrite poke_in_bounds by (rewrite XML_BUFFER_LENGTH_eq; lia).
  cbn [mbind outcome_bind]. by rewrite decide_True.
Qed.

Lemma first_named_elem h s l a : first_named h s l = Some a → a ∈ l.
Proof.
  unfold first_named. intros H. apply find_some in H as [H _].
  by apply list_elem_of_In.
Qed.

Lemma path_of_length segs : (length segs ≤ S (length (path_of segs)))%nat.
Proof.
  induction segs as [|s [|s' segs] IH]; cbn [path_of length] in *; [lia..|].
  rewrite length_app. cbn [length]. lia.
Qed.

Lemma getXMLValue_loop_resolves h a nd :
  all_named h → h !! a = Some nd →
  ∀ segs n, resolves h segs n a → Forall segment_ok segs →
  ∀ pre fuel, (length segs < fuel)%nat →
    getXMLValue_loop fuel h (pre ++ path_of segs ++ ["$"%char]) (length pre) n
    = Ok (match node_value nd with
          | Some value => Ptr value
          | None => NULL (Some PathWithoutSelector)
          end).
Proof.
  intros Hnamed Ha segs n Hres.
  induction Hres as [seg n l a Hch Hfind|seg segs n l a' nd' a Hch Hfind Ha'
                                          Hne Hres IH];
    intros Hok pre fuel Hfuel; apply Forall_cons in Hok as [Hseg Hok];
    (destruct fuel as [|fuel]; [cbn in Hfuel; lia|]).
  - cbn [path_of].
    rewrite (getXMLValue_loop_step h fuel pre seg "$" [] n l) by auto.
    rewrite Hfind, Ha. rewrite decide_False by done.
    destruct (node_value nd); [done|].
    destruct fuel as [|fuel]; [cbn in Hfuel; lia|].
    replace (S (length pre + length seg))
      with (length (pre ++ seg ++ ["$"%char]))
      by (rewrite !length_app; cbn; lia).
    apply getXMLValue_loop_end.
  - assert (path_of (seg :: segs) = seg ++ "/"%char :: path_of segs) as ->
      by (by destruct segs).
    rewrite <- (app_assoc seg). cbn [app].
    rewrite (getXMLValue_loop_step h fuel pre seg "/" _ n l) by auto.
    rewrite Hfind, Ha'. rewrite decide_True by done.
    specialize (IH Ha Hok (pre ++ seg ++ ["/"%char]) fuel).
    rewrite !length_app in IH. cbn [length] in IH.
    replace (length pre + (length seg + 1))%nat
      with (S (length pre + length seg)) in IH by lia.
    rewrite <- IH by (cbn in Hfuel; lia).
    f_equal. rewrite <- !app_assoc. done.
Qed.

(** C9.  When the segments of a path resolve to a node and the path ends
    in '$', [getXMLValue] returns that node's stored value; when the node
    has none the call still returns, with [NULL] (through the exit that
    reports the end of the path), and the tree is not touched. *)
Theorem getXMLValue_dollar_returns_value h root segs a nd :
  all_named h → Forall segment_ok segs →
  resolves h segs root a → h !! a = Some nd →
  getXMLValue (path_of segs ++ ["$"%char]) h root
  = Ok (match node_value nd with
        | Some value => Ptr value
        | None => NULL (Some PathWithoutSelector)
        end)
  ∧ ∃ r, getXMLValue (path_of segs ++ ["$"%char]) h root = Ok r
         ∧ to_option r = node_value nd.
Proof.
  intros Hnamed Hok Hres Ha.
  assert (getXMLValue (path_of segs ++ ["$"%char]) h root
          = Ok (match node_value nd with
                | Some value => Ptr value
                | None => NULL (Some PathWithoutSelector)
                end)) as E.
  { unfold getXMLValue.
    apply (getXMLValue_loop_resolves h a nd Hnamed Ha segs root Hres Hok []).
    rewrite length_app. cbn [length]. pose proof (path_of_length segs). lia. }
  split; [done|]. eexists. split; [exact E|]. by destruct (node_value nd).
Qed.

Lemma tree_of_doc_values_named : all_named (tree_of doc_values).
Proof.
  assert (parseXMLFile doc_values
          = Ok (Ptr (0%nat, tree_of doc_values), [])) as H
    by (vm_compute; reflexivity).
  by apply parseXMLFile_built in H as [(_ & _ & Hnamed & _) _].
Qed.

Lemma getXMLValue_dollar_returns_value_witness :
  getXMLValue (path_of [str "root"; str "foo"] ++ ["$"%char])
              (tree_of doc_values) (Some 0%nat)
  = Ok (NULL (Some PathWithoutSelector))
  ∧ ∃ r, getXMLValue (path_of [str "root"; str "foo"] ++ ["$"%char])
                     (tree_of doc_values) (Some 0%nat) = Ok r
         ∧ to_option r = None.
Proof.
  apply (getXMLValue_dollar_returns_value (tree_of doc_values) (Some 0%nat)
           [str "root"; str "foo"] 1%nat
           (set_last (Some 2%nat) (set_current (Some 2%nat)
              (set_first (Some 2%nat) (set_cc 1 (set_parent (Some 0%nat)
                 (set_name (Some "foo"%string) initXMLNode))))))).
  - exact tree_of_doc_values_named.
  - repeat constructor; try (intros Hc; discriminate Hc);
      rewrite XML_BUFFER_LENGTH_eq; cbn; lia.
  - eapply (resolves_step _ _ _ _ [0%nat] 0%nat);
      [ | vm_compute; reflexivity | vm_compute; reflexivity | done | ].
    + eapply chain_cons; [vm_compute; reflexivity|]. constructor.
    + eapply (resolves_last _ _ _ [1%nat]); [|vm_compute; reflexivity].
      eapply chain_cons; [vm_compute; reflexivity|]. constructor.
  - vm_compute. reflexivity.
Defined.

(** C7.  On the tree parsed from
    [<root><foo><bar baz="1">hi</bar></foo></root>] the three queries
    give hi, 1 and [NULL] (no child with this name: not found); names are
    compared exactly, [Root] does not match [root].  In general a segment
    ended by '/' is looked up in the sibling list of the current node: the
    first node with exactly that name is taken and the loop goes on from
    its [first] child with the rest of the path; with no such sibling the
    query returns [NULL]. *)
Theorem getXMLValue_scans_siblings :
  (parseXMLFile doc_values = Ok (Ptr (0%nat, tree_of doc_values), [])
   ∧ getXMLValue (str "root/foo/bar$") (tree_of doc_values) (Some 0%nat)
     = Ok (Ptr "hi"%string)
   ∧ getXMLValue (str "root/foo/bar:baz") (tree_of doc_values) (Some 0%nat)
     = Ok (Ptr "1"%string)
   ∧ getXMLValue (str "root/foo/missing$") (tree_of doc_values) (Some 0%nat)
     = Ok (NULL (Some NoChildWithName))
   ∧ kind_of NoChildWithName = NotFound
   ∧ getXMLValue (str "Root/foo/bar$") (tree_of doc_values) (Some 0%nat)
     = Ok (NULL (Some NoChildWithName)))
  ∧ (∀ h fuel pre seg rest n l,
      all_named h → segment_ok seg → chain h n l →
      getXMLValue_loop (S fuel) h (pre ++ seg ++ "/"%char :: rest)
                       (length pre) n
      = match first_named h (string_of_list_ascii seg) l with
        | None => Ok (NULL (Some NoChildWithName))
        | Some a =>
          getXMLValue_loop fuel h (pre ++ seg ++ "/"%char :: rest)
            (S (length pre + length seg)) (h !! a ≫= node_first)
        end).
Proof.
  split; [repeat split; vm_compute; reflexivity|].
  intros h fuel pre seg rest n l Hnamed Hseg Hch.
  rewrite (getXMLValue_loop_step h fuel pre seg "/" rest n l) by auto.
  destruct (first_named h (string_of_list_ascii seg) l) as [a|] eqn:Hfind;
    [|done].
  apply first_named_elem in Hfind.
  destruct (chain_valid h n l a Hch Hfind) as [nd ->].
  by rewrite decide_True.
Qed.

Lemma getXMLValue_scans_siblings_witness :
  getXMLValue_loop 4 (tree_of doc_values)
    ([] ++ str "root" ++ "/"%char :: str "foo/bar$") (length (@nil ascii))
    (Some 0%nat)
  = match first_named (tree_of doc_values)
            (string_of_list_ascii (str "root")) [0%nat] with
    | None => Ok (NULL (Some NoChildWithName))
    | Some a =>
      getXMLValue_loop 3 (tree_of doc_values)
        ([] ++ str "root" ++ "/"%char :: str "foo/bar$")
        (S (length (@nil ascii) + length (str "root")))
        (tree_of doc_values !! a ≫= node_first)
    end.
Proof.
  apply (proj2 getXMLValue_scans_siblings).
  - exact tree_of_doc_values_named.
  - split; [|rewrite XML_BUFFER_LENGTH_eq; cbn; lia].
    repeat constructor; intros Hc; discriminate Hc.
  - eapply chain_cons; [vm_compute; reflexivity|]. constructor.
Defined.

(** * The fuel given to the loops is enough *)

Lemma bounded_mono {A} n n' (m : outcome (A * FILE)) :
  bounded n m → (n ≤ n')%nat → bounded n' m.
Proof. destruct m as [[a file]| |]; cbn; [lia | done | done]. Qed.

(** A step that threads the stream. *)
Lemma bounded_bind {A B} n1 n (m : outcome (A * FILE))
    (f : A * FILE → outcome (B * FILE)) :
  bounded n1 m →
  (∀ a file, m = Ok (a, file) → (length file ≤ n1)%nat → bounded n (f (a, file))) →
  bounded n (m ≫= f).
Proof. destruct m as [[a file]| |]; cbn; [auto | done | done]. Qed.

(** A step that does not touch the stream and has no loop. *)
Lemma bounded_bind_pure {A B} n (m : outcome A) (f : A → outcome (B * FILE)) :
  m ≠ OutOfFuel → (∀ a, m = Ok a → bounded n (f a)) → bounded n (m ≫= f).
Proof. destruct m; cbn; [auto | done | done]. Qed.

Lemma poke_fuel buf i c : poke buf i c ≠ OutOfFuel.
Proof. unfold poke. by case_match. Qed.

Lemma load_fuel h p : load h p ≠ OutOfFuel.
Proof. unfold load. by case_match. Qed.

Lemma store_fuel h p f : store p f h ≠ OutOfFuel.
Proof. unfold store, load. by case_match. Qed.

Lemma bind_fuel {A B} (m : outcome A) (f : A → outcome B) :
  m ≠ OutOfFuel → (∀ a, m = Ok a → f a ≠ OutOfFuel) → m ≫= f ≠ OutOfFuel.
Proof. destruct m; cbn; [auto | done | done]. Qed.

Lemma fgetc_length file c file' :
  fgetc file = (c, file') → (length file' ≤ length file)%nat.
Proof. destruct file; cbn; intros [= <- <-]; cbn; lia. Qed.

Lemma readXMLAttribute_loop_bounded fuel :
  ∀ stop file c buf i,
    (i ≤ XML_BUFFER_LENGTH)%nat → (XML_BUFFER_LENGTH < fuel + i)%nat →
    bounded (length file) (readXMLAttribute_loop fuel stop file c buf i).
Proof.
  induction fuel as [|fuel IH]; intros stop file c buf i Hi Hfuel; [lia|].
  cbn [readXMLAttribute_loop]. case_match; [cbn; lia|].
  unfold poke. destruct (i <? XML_BUFFER_LENGTH)%nat eqn:Hlt; [|done].
  cbn [mbind outcome_bind]. apply Nat.ltb_lt in Hlt.
  destruct (fgetc file) as [c' file'] eqn:Hget.
  apply fgetc_length in Hget.
  eapply bounded_mono; [apply IH; lia | done].
Qed.

Lemma readXMLAttribute_bounded file :
  bounded (length file - 1) (readXMLAttribute file).
Proof.
  destruct (decide ("="%char ∈ file)) as [Hin|Hnin];
    [|by rewrite readXMLAttribute_without_equals].
  destruct file as [|a file]; [by apply elem_of_nil in Hin|].
  cbn [length]. rewrite Nat.sub_1_r. cbn [pred].
  unfold readXMLAttribute. cbn [fgetc]. unfold attr_fuel.
  eapply bounded_bind; [apply readXMLAttribute_loop_bounded; lia|].
  intros [buf i] file1 _ Hlen1. cbn beta iota.
  apply bounded_bind_pure; [apply poke_fuel|]. intros buf1 _.
  destruct (fgetc file1) as [c2 file2] eqn:Hget2.
  apply fgetc_length in Hget2. case_match; [cbn; lia|].
  destruct (fgetc file2) as [c3 file3] eqn:Hget3.
  apply fgetc_length in Hget3.
  eapply bounded_bind; [apply readXMLAttribute_loop_bounded; lia|].
  intros [buf4 i4] file4 _ Hlen4. cbn beta iota.
  apply bounded_bind_pure; [apply poke_fuel|]. intros buf5 _. cbn. lia.
Qed.

Lemma readXMLTag_name_bounded fuel :
  ∀ file c buf i,
    (i ≤ XML_BUFFER_LENGTH)%nat → (XML_BUFFER_LENGTH < fuel + i)%nat →
    bounded (length file) (readXMLTag_name fuel file c buf i).
Proof.
  induction fuel as [|fuel IH]; intros file c buf i Hi Hfuel; [lia|].
  cbn [readXMLTag_name]. case_match; [|cbn; lia].
  unfold poke. destruct (i <? XML_BUFFER_LENGTH)%nat eqn:Hlt; [|done].
  cbn [mbind outcome_bind]. apply Nat.ltb_lt in Hlt.
  destruct (fgetc file) as [c' file'] eqn:Hget.
  apply fgetc_length in Hget. case_match; [cbn; lia|].
  eapply bounded_mono; [apply IH; lia | done].
Qed.

Lemma readXMLTag_attrs_bounded fuel :
  ∀ file c tag,
    (length file < fuel)%nat →
    bounded (length file) (readXMLTag_attrs fuel file c tag).
Proof.
  induction fuel as [|fuel IH]; intros file c tag Hfuel; [lia|].
  cbn [readXMLTag_attrs]. case_match; [|cbn; lia].
  eapply bounded_bind; [apply readXMLAttribute_bounded|].
  intros attr file1 Hattr Hlen1. cbn beta iota.
  destruct (fgetc file1) as [c2 file2] eqn:Hget2.
  apply fgetc_length in Hget2.
  assert (file ≠ []) as Hne.
  { intros ->. rewrite readXMLAttribute_without_equals in Hattr; [done|].
    apply not_elem_of_nil. }
  assert (0 < length file)%nat by (destruct file; [done | cbn; lia]).
  eapply bounded_mono; [apply IH; lia | lia].
Qed.

Ltac read_char :=
  match goal with
  | |- context [fgetc ?f] =>
    let H := fresh "Hget" in
    destruct (fgetc f) as [? ?] eqn:H; apply fgetc_length in H
  end.

Lemma readXMLTag_bounded file : bounded (length file) (readXMLTag file).
Proof.
  pose proof XML_BUFFER_LENGTH_eq as HL.
  unfold readXMLTag. read_char.
  assert (∃ c1 file1,
            (if z =? chr "<" then fgetc l else (z, l)) = (c1, file1)
            ∧ (length file1 ≤ length file)%nat) as (c1 & file1 & -> & Hlen1).
  { case_match; [|eauto]. read_char. eexists _, _. split; [done|lia]. }
  apply bounded_bind_pure.
  { case_match; [done|]. apply bind_fuel; [apply poke_fuel|done]. }
  intros [[tag buf] i] Hpre.
  assert (i ≤ 1)%nat as Hi.
  { revert Hpre. case_match; [intros [= <- <- <-]; lia|].
    unfold poke. case_match; [|done]. intros [= <- <- <-]. lia. }
  clear Hpre. read_char.
  eapply bounded_bind; [apply readXMLTag_name_bounded; lia|].
  intros [[[c2 buf2] i2]|] file2 _ Hlen2; [|cbn; lia].
  apply bounded_bind_pure; [apply poke_fuel|]. intros buf3 _. cbn zeta.
  match goal with
  | |- bounded _ (match ?x with _ => _ end) =>
    assert (∀ r f, x = (r, f) → (length f ≤ length file)%nat) as Hafter;
      [|destruct x as [[[c3 tag3]|d] file3] eqn:Hx;
        specialize (Hafter _ _ eq_refl)]
  end.
  { intros r f. repeat (read_char || case_match); intros [= <- <-]; lia. }
  2: { cbn. lia. }
  clear Hx. apply bounded_bind_pure.
  { case_match; [|done].
    apply bind_fuel.
    - pose proof (readXMLTag_attrs_bounded (S (length file3)) file3 c3 tag3
                    ltac:(lia)) as Hb.
      intros E. by rewrite E in Hb.
    - intros [[c4 tag4] file4] _. repeat (read_char || case_match); done. }
  intros [[c5 tag5] file5] Hattrs.
  assert (length file5 ≤ length file)%nat as Hlen5.
  { revert Hattrs. case_match; [|intros [= <- <- <-]; lia].
    pose proof (readXMLTag_attrs_bounded (S (length file3)) file3 c3 tag3
                  ltac:(lia)) as Hb.
    destruct (readXMLTag_attrs _ _ _ _) as [[[c4 tag4] file4]| |]; [|done..].
    cbn in Hb. cbn [mbind outcome_bind].
    repeat (read_char || case_match); intros [= <- <- <-]; lia. }
  clear Hattrs. case_match; cbn; lia.
Qed.

Lemma readXMLNodeValue_skip_bounded fuel :
  ∀ file buf,
    (length file < fuel)%nat →
    bounded (length file - 1) (readXMLNodeValue_skip fuel file buf).
Proof.
  induction fuel as [|fuel IH]; intros file buf Hfuel; [lia|].
  cbn [readXMLNodeValue_skip].
  destruct file as [|a file]; cbn [fgetc length] in *;
    [rewrite Z.eqb_refl; cbn; lia|].
  rewrite chr_eqb_EOF, Nat.sub_1_r. cbn [pred].
  case_match; [cbn; lia|]. case_match.
  - apply bounded_bind_pure; [apply poke_fuel|]. intros buf' _. cbn. lia.
  - eapply bounded_mono; [apply IH; lia | lia].
Qed.

Lemma readXMLNodeValue_read_bounded fuel :
  ∀ file buf i,
    (length file < fuel)%nat →
    bounded (length file) (readXMLNodeValue_read fuel file buf i).
Proof.
  induction fuel as [|fuel IH]; intros file buf i Hfuel; [lia|].
  cbn [readXMLNodeValue_read].
  destruct file as [|a file]; cbn [fgetc length] in *;
    [rewrite Z.eqb_refl; cbn; lia|].
  rewrite chr_eqb_EOF. case_match; [cbn; lia|]. case_match.
  - apply bounded_bind_pure; [apply poke_fuel|]. intros buf' _.
    eapply bounded_mono; [apply IH; lia | lia].
  - eapply bounded_mono; [apply IH; lia | lia].
Qed.

Lemma readXMLNodeValue_bounded n file h :
  bounded (length file - 1) (readXMLNodeValue n file h).
Proof.
  unfold readXMLNodeValue.
  eapply bounded_bind; [apply readXMLNodeValue_skip_bounded; lia|].
  intros [[buf i]|] file1 _ Hlen1; [|cbn; lia].
  eapply bounded_bind; [apply readXMLNodeValue_read_bounded; lia|].
  intros [[buf2 i2]|] file2 _ Hlen2; [|cbn; lia].
  apply bounded_bind_pure; [apply poke_fuel|]. intros buf3 _.
  apply bounded_bind_pure; [apply store_fuel|]. intros h' _. cbn. lia.
Qed.

Lemma initXMLNodeFromXMLTag_loop_fuel pending :
  ∀ tag n, initXMLNodeFromXMLTag_loop pending tag n ≠ OutOfFuel.
Proof.
  induction pending as [|a pending IH]; intros tag n; [done|].
  cbn [initXMLNodeFromXMLTag_loop].
  destruct (deleteAttributeFromXMLTag tag) as [deleted tag'].
  apply bind_fuel; [|auto].
  unfold addAttributeToXMLNode. by repeat case_match.
Qed.

Lemma initXMLNodeFromXMLTag_fuel n tag h :
  initXMLNodeFromXMLTag n tag h ≠ OutOfFuel.
Proof.
  unfold initXMLNodeFromXMLTag.
  apply bind_fuel; [apply load_fuel|]. intros _ _.
  apply bind_fuel; [unfold setXMLNodeName; by case_match|]. intros nd _.
  apply bind_fuel; [apply initXMLNodeFromXMLTag_loop_fuel|]. intros nd' _.
  apply store_fuel.
Qed.

Lemma addXMLNodeToParent_fuel parent child h :
  addXMLNodeToParent parent child h ≠ OutOfFuel.
Proof.
  unfold addXMLNodeToParent.
  destruct parent as [p|], child as [c|]; try done.
  apply bind_fuel; [apply load_fuel|]. intros nc _.
  case_decide; [done|]. case_decide; [done|].
  apply bind_fuel; [apply store_fuel|]. intros h1 _.
  apply bind_fuel; [apply store_fuel|]. intros h2 _.
  apply bind_fuel; [apply load_fuel|]. intros np _.
  destruct (node_last np) as [l|].
  - apply bind_fuel; [apply store_fuel|]. intros h3 _.
    apply bind_fuel; [apply load_fuel|]. intros np3 _.
    apply bind_fuel; [apply store_fuel|]. intros h4 _. apply store_fuel.
  - apply bind_fuel; [apply store_fuel|]. intros h3 _.
    apply bind_fuel; [apply store_fuel|]. intros h4 _. apply store_fuel.
Qed.

Lemma parseXMLFile_loop_bounded fuel :
  ∀ file h root cur,
    (length file < fuel)%nat →
    bounded (length file) (parseXMLFile_loop fuel file h root cur).
Proof.
  induction fuel as [|fuel IH]; intros file h root cur Hfuel; [lia|].
  unfold parseXMLFile_loop; fold parseXMLFile_loop.
  destruct file as [|a file]; [by vm_compute|].
  eapply bounded_bind; [apply readXMLNodeValue_bounded|].
  cbn [length] in *. rewrite Nat.sub_1_r. cbn [pred].
  intros h1 file1 _ Hlen1.
  eapply bounded_bind; [apply readXMLTag_bounded|].
  intros [tag|d] file2 _ Hlen2; [|cbn; lia].
  destruct (tag_type tag).
  - cbn [createXMLNode].
    apply bounded_bind_pure; [apply initXMLNodeFromXMLTag_fuel|].
    intros h2 _.
    apply bounded_bind_pure; [apply addXMLNodeToParent_fuel|]. intros h3 _.
    eapply bounded_mono; [apply IH; lia | lia].
  - apply bounded_bind_pure; [apply load_fuel|]. intros n _.
    destruct (node_parent n); [|cbn; lia].
    eapply bounded_mono; [apply IH; lia | lia].
  - cbn [createXMLNode].
    apply bounded_bind_pure; [apply initXMLNodeFromXMLTag_fuel|].
    intros h2 _.
    apply bounded_bind_pure; [apply addXMLNodeToParent_fuel|]. intros h3 _.
    eapply bounded_mono; [apply IH; lia | lia].
  - eapply bounded_mono; [apply IH; lia | lia].
Qed.

(** Whatever the stream, [parseXMLFile] comes to an end within the fuel
    its loops are given: it returns (a tree or [NULL], and what is left of
    the stream) or it has stored outside a buffer. *)
Lemma parseXMLFile_bounded file : bounded (length file) (parseXMLFile file).
Proof.
  unfold parseXMLFile.
  eapply bounded_bind; [apply readXMLTag_bounded|].
  intros [tag|d] file1 _ Hlen1; [|cbn; lia].
  case_decide; [cbn; lia|]. cbn [createXMLNode]. case_decide.
  - apply bounded_bind_pure; [apply initXMLNodeFromXMLTag_fuel|].
    intros h _. cbn. lia.
  - apply bounded_bind_pure; [apply initXMLNodeFromXMLTag_fuel|].
    intros h _.
    eapply bounded_bind; [apply parseXMLFile_loop_bounded; lia|].
    intros [[cur h1]|d] file2 _ Hlen2; [|cbn; lia].
    case_decide; cbn; lia.
Qed.

(** * Reading well-formed text (attribute.c, tag.c) *)

Lemma to_char_chr a : to_char (chr a) = a.
Proof.
  unfold to_char, chr. pose proof (N_ascii_bounded a) as Hb.
  rewrite Z.mod_small by lia. rewrite N2Z.id. apply ascii_N_embedding.
Qed.

(** The loop of [readXMLAttribute] on a text that has its stop character:
    the text before it is copied at the index given. *)
Lemma readXMLAttribute_loop_stops stop body :
  ∀ fuel rest buf i,
    stop ∉ body →
    (i + length body ≤ XML_BUFFER_LENGTH)%nat →
    (i + length body ≤ length buf)%nat →
    (length body < fuel)%nat →
    ∃ c file,
      fgetc (body ++ stop :: rest) = (c, file)
      ∧ ∃ buf',
          readXMLAttribute_loop fuel (chr stop) file c buf i
          = Ok (buf', (i + length body)%nat, rest)
          ∧ length buf' = length buf
          ∧ take (i + length body) buf' = take i buf ++ body.
Proof.
  induction body as [|a body IH]; intros fuel rest buf i Hstop Hcap Hlen Hfuel;
    (destruct fuel as [|fuel]; [cbn in Hfuel; lia|]);
    cbn [app fgetc length] in *; eexists _, _; (split; [done|]);
    cbn [readXMLAttribute_loop].
  - rewrite Z.eqb_refl. exists buf. rewrite Nat.add_0_r, app_nil_r. done.
  - apply not_elem_of_cons in Hstop as [Ha Hstop].
    rewrite chr_eqb_false by done. rewrite to_char_chr.
    rewrite poke_in_bounds by lia. cbn [mbind outcome_bind].
    destruct (IH fuel rest (<[i:=a]> buf) (S i))
      as (c & file & Hget & buf' & E & Hlen' & Htake);
      try done; rewrite ?length_insert; try lia.
    exists buf'. rewrite Hget, E, Hlen', length_insert.
    replace (i + S (length body))%nat with (S i + length body)%nat by lia.
    split; [done|]. split; [done|]. rewrite Htake.
    rewrite (take_S_r _ _ a) by (apply list_lookup_insert_eq; lia).
    rewrite take_insert_ge by lia. by rewrite <- app_assoc.
Qed.

Lemma Forall_not_NUL {P : ascii → Prop} (l : list ascii) :
  Forall (λ a, P a ∧ a ≠ NUL) l → Forall (λ a, a ≠ NUL) l.
Proof. intros H. eapply Forall_impl; [exact H|]. by intros a [_ ?]. Qed.

Lemma Forall_not_elem {P : ascii → Prop} (l : list ascii) x :
  Forall (λ a, a ≠ x ∧ P a) l → x ∉ l.
Proof.
  intros H Hin. rewrite Forall_forall in H. by destruct (H x Hin).
Qed.

(** [readXMLAttribute] on [name="value"]: the attribute, and the stream
    right after the closing quote. *)
Lemma readXMLAttribute_reads a rest :
  wf_attr a →
  readXMLAttribute (a.1 ++ "="%char :: dquote :: a.2 ++ dquote :: rest)
  = Ok (Ptr (attr_of a), rest).
Proof.
  destruct a as [name value]. intros [[Hn Hnlen] [Hv Hvlen]]. cbn [fst snd] in *.
  unfold readXMLAttribute, attr_fuel.
  destruct (readXMLAttribute_loop_stops "=" name (S (S XML_BUFFER_LENGTH))
              (dquote :: value ++ dquote :: rest) new_buffer 0)
    as (c1 & file1 & -> & buf1 & -> & Hlen1 & Htake1);
    [exact (Forall_not_elem (P := λ a, a ≠ NUL) _ _ Hn) | lia
    | rewrite new_buffer_length; lia | lia |].
  cbn [mbind outcome_bind Nat.add] in *. rewrite new_buffer_length in Hlen1.
  rewrite poke_in_bounds by lia. cbn [mbind outcome_bind fgetc].
  rewrite Z.eqb_refl. cbn [negb].
  rewrite take_0 in Htake1. cbn [app] in Htake1.
  rewrite (cstr_terminated name _ _ Htake1
             (Forall_not_NUL (P := λ a, a ≠ "="%char) _ Hn)) by lia.
  destruct (readXMLAttribute_loop_stops dquote value
              (S (S XML_BUFFER_LENGTH)) rest
              (<[length name:=NUL]> buf1) 0)
    as (c2 & file2 & -> & buf2 & -> & Hlen2 & Htake2);
    [exact (Forall_not_elem (P := λ a, a ≠ NUL) _ _ Hv) | lia
    | rewrite length_insert; lia | lia |].
  cbn [mbind outcome_bind Nat.add] in *. rewrite length_insert in Hlen2.
  rewrite poke_in_bounds by lia. cbn [mbind outcome_bind].
  rewrite take_0 in Htake2. cbn [app] in Htake2.
  rewrite (cstr_terminated value _ _ Htake2
             (Forall_not_NUL (P := λ a, a ≠ dquote) _ Hv)) by lia.
  done.
Qed.

(** The name loop of [readXMLTag] on a name followed by one of the three
    characters that end it. *)
Lemma readXMLTag_name_stops body :
  ∀ fuel rest t buf i,
    Forall (λ a, name_char a ∧ a ≠ NUL) body →
    t = " "%char ∨ t = ">"%char ∨ t = "/"%char →
    (i + length body < XML_BUFFER_LENGTH)%nat →
    (i + length body ≤ length buf)%nat →
    (length body < fuel)%nat →
    ∃ c file,
      fgetc (body ++ t :: rest) = (c, file)
      ∧ ∃ buf',
          readXMLTag_name fuel file c buf i
          = Ok (Some (chr t, buf', (i + length body)%nat), rest)
          ∧ length buf' = length buf
          ∧ take (i + length body) buf' = take i buf ++ body.
Proof.
  induction body as [|a body IH]; intros fuel rest t buf i Hbody Ht Hcap Hlen Hfuel;
    (destruct fuel as [|fuel]; [cbn in Hfuel; lia|]);
    cbn [app fgetc length] in *; eexists _, _; (split; [done|]);
    cbn [readXMLTag_name].
  - exists buf. rewrite Nat.add_0_r, app_nil_r.
    by destruct Ht as [->| [->| ->]].
  - apply Forall_cons in Hbody as [[Ha _] Hbody].
    rewrite name_char_continues by done. rewrite to_char_chr.
    rewrite poke_in_bounds by lia. cbn [mbind outcome_bind].
    destruct (IH fuel rest t (<[i:=a]> buf) (S i))
      as (c & file & Hget & buf' & E & Hlen' & Htake);
      try done; rewrite ?length_insert; try lia.
    exists buf'. rewrite Hget.
    destruct (Nat.leb_spec XML_BUFFER_LENGTH (S i)); [lia|].
    rewrite E, Hlen', length_insert.
    replace (i + S (length body))%nat with (S i + length body)%nat by lia.
    split; [done|]. split; [done|]. rewrite Htake.
    rewrite (take_S_r _ _ a) by (apply list_lookup_insert_eq; lia).
    rewrite take_insert_ge by lia. by rewrite <- app_assoc.
Qed.

Lemma attrs_text_cons a l : attrs_text (a :: l) = attr_text a ++ attrs_text l.
Proof. done. Qed.

(** The attribute loop of [readXMLTag] on printed attributes: each one is
    read and becomes the head of the tag's list. *)
Lemma readXMLTag_attrs_reads attrs :
  ∀ fuel tag t rest,
    Forall wf_attr attrs → t ≠ " "%char → (length attrs < fuel)%nat →
    ∃ c file,
      fgetc (attrs_text attrs ++ t :: rest) = (c, file)
      ∧ readXMLTag_attrs fuel file c tag
        = Ok (chr t,
              {| tag_name := tag_name tag;
                 tag_attr := rev (attr_of <$> attrs) ++ tag_attr tag;
                 tag_type := tag_type tag |}, rest).
Proof.
  induction attrs as [|a attrs IH]; intros fuel tag t rest Hwf Ht Hfuel;
    (destruct fuel as [|fuel]; [cbn in Hfuel; lia|]).
  - cbn [attrs_text fmap list_fmap concat app fgetc].
    eexists _, _; split; [done|]. cbn [readXMLTag_attrs].
    rewrite chr_eqb_false by done. by destruct tag.
  - apply Forall_cons in Hwf as [Ha Hwf].
    rewrite attrs_text_cons. unfold attr_text at 1.
    cbn [app fgetc]. eexists _, _; split; [done|]. cbn [readXMLTag_attrs].
    rewrite Z.eqb_refl. rewrite <- !app_assoc. cbn [app].
    rewrite <- !app_assoc. cbn [app].
    rewrite readXMLAttribute_reads by done. cbn [mbind outcome_bind to_option].
    destruct (IH fuel (addAttributeToXMLTag (Some (attr_of a)) tag) t rest)
      as (c & file & -> & ->); [done|done|cbn in Hfuel; lia|].
    rewrite addAttributeToXMLTag_head. cbn [fmap list_fmap rev].
    rewrite <- app_assoc. cbn [app].
    unfold addAttributeToXMLTag. by destruct (tag_attr tag).
Qed.

Lemma attrs_text_length attrs : (length attrs ≤ length (attrs_text attrs))%nat.
Proof.
  induction attrs as [|a attrs IH]; [done|].
  rewrite attrs_text_cons, length_app. unfold attr_text. cbn [length]. lia.
Qed.

Lemma take_1_insert (a : ascii) buf :
  (0 < length buf)%nat → take 1 (<[0%nat:=a]> buf) = [a].
Proof. by destruct buf; [cbn; lia|]. Qed.

(** The '<' of a tag is optional for [readXMLTag]. *)
Lemma readXMLTag_lead a file :
  a ≠ "<"%char → readXMLTag ("<"%char :: a :: file) = readXMLTag (a :: file).
Proof.
  intros Ha. unfold readXMLTag. cbn [fgetc].
  by rewrite Z.eqb_refl, (chr_eqb_false a "<") by done.
Qed.

(** The name loop of [readXMLTag], entered after the first character of the
    name was stored, and the terminator put after the name. *)
Lemma readXMLTag_name_first a0 name t tail :
  name_char a0 → a0 ≠ NUL →
  Forall (λ a, name_char a ∧ a ≠ NUL) name →
  (S (length name) < XML_BUFFER_LENGTH)%nat →
  t = " "%char ∨ t = ">"%char ∨ t = "/"%char →
  ∃ c file, fgetc (name ++ t :: tail) = (c, file)
    ∧ ∃ buf', readXMLTag_name (S XML_BUFFER_LENGTH) file c
                (<[0%nat:=a0]> new_buffer) 1
              = Ok (Some (chr t, buf', S (length name)), tail)
      ∧ poke buf' (S (length name)) NUL
        = Ok (<[S (length name):=NUL]> buf')
      ∧ cstr (<[S (length name):=NUL]> buf')
        = string_of_list_ascii (a0 :: name).
Proof.
  intros _ Hnul Hname Hlen Ht.
  destruct (readXMLTag_name_stops name (S XML_BUFFER_LENGTH) tail t
              (<[0%nat:=a0]> new_buffer) 1)
    as (c & file & Hget & buf' & E & Hlen' & Htake);
    [done|done|lia|rewrite length_insert, new_buffer_length; lia|lia|].
  exists c, file. split; [done|]. exists buf'. split; [done|].
  rewrite length_insert, new_buffer_length in Hlen'.
  split; [by rewrite poke_in_bounds by lia|].
  rewrite take_1_insert in Htake by (rewrite new_buffer_length; lia).
  apply (cstr_terminated (a0 :: name) _ _ Htake); [|lia].
  apply Forall_cons. split; [done|].
  exact (Forall_not_NUL (P := name_char) _ Hname).
Qed.

(** [readXMLTag] on a name followed by a space: the attribute loop is run,
    and the character it stops at decides. *)
Lemma readXMLTag_after_space a0 name file t tag rest :
  wf_tag_name (a0 :: name) →
  readXMLTag_attrs (S (length file)) file (chr " ")
    (setXMLTagName (string_of_list_ascii (a0 :: name)) createXMLTag)
  = Ok (chr t, tag, rest) →
  readXMLTag ("<"%char :: a0 :: name ++ " "%char :: file)
  = if decide (t = ">"%char) then Ok (Ptr (setXMLTagType OPENING tag), rest)
    else if decide (t = "/"%char) then
      if decide (head rest = Some ">"%char)
      then Ok (Ptr (setXMLTagType UNIQUE tag), drop 1 rest)
      else Ok (NULL (Some BadlyParsed), drop 1 rest)
    else Ok (NULL (Some BadlyParsed), rest).
Proof.
  intros (_ & Hname & Hlen) E.
  apply Forall_cons in Hname as [[Hchar Hnul] Hname].
  cbn [length] in Hlen. pose proof Hchar as (Hsp & Hgt & Hsl).
  unfold readXMLTag. cbn [app fgetc].
  rewrite Z.eqb_refl. cbn [fgetc]. rewrite (chr_eqb_false a0 "/") by done.
  rewrite to_char_chr, poke_in_bounds by lia. cbn [mbind outcome_bind].
  destruct (readXMLTag_name_first a0 name " " file)
    as (c & file' & -> & buf' & -> & Hpoke & Hstr); [done..|by auto|].
  cbn [mbind outcome_bind]. rewrite Hpoke. cbn [mbind outcome_bind].
  rewrite Hstr.
  replace (chr " " =? chr ">") with false by reflexivity.
  replace (chr " " =? chr "/") with false by reflexivity.
  rewrite Z.eqb_refl. cbn [tag_type setXMLTagName createXMLTag].
  rewrite decide_True by done. rewrite E. cbn [mbind outcome_bind].
  destruct (decide (t = ">"%char)) as [->|Hgt'].
  { by rewrite Z.eqb_refl. }
  rewrite (chr_eqb_false t ">") by done.
  destruct (decide (t = "/"%char)) as [->|Hsl'].
  - rewrite Z.eqb_refl.
    destruct rest as [|r rest];
      cbn [fgetc head drop mbind outcome_bind].
    + rewrite decide_False by done. by rewrite EOF_eqb_chr.
    + destruct (decide (r = ">"%char)) as [->|Hr].
      * by rewrite decide_True, Z.eqb_refl.
      * rewrite decide_False by congruence. by rewrite chr_eqb_false.
  - rewrite (chr_eqb_false t "/") by done. cbn [mbind outcome_bind].
    by rewrite (chr_eqb_false t ">") by done.
Qed.

Lemma readXMLTag_reads_lead a0 name attrs unique rest :
  wf_tag_name (a0 :: name) →
  Forall wf_attr attrs →
  readXMLTag (tag_text true (a0 :: name) attrs unique ++ rest)
  = Ok (Ptr (tag_of (a0 :: name) attrs (if unique then UNIQUE else OPENING)),
        rest).
Proof.
  intros (_ & Hname & Hlen) Hattrs.
  apply Forall_cons in Hname as [[Hchar Hnul] Hname].
  pose proof Hchar as (Hsp & Hgt & Hsl).
  cbn [length] in Hlen.
  unfold readXMLTag, tag_text. cbn [app fgetc].
  rewrite Z.eqb_refl. cbn [fgetc]. rewrite (chr_eqb_false a0 "/") by done.
  rewrite to_char_chr, poke_in_bounds by lia. cbn [mbind outcome_bind].
  rewrite <- !app_assoc.
  pose proof (λ t tail, readXMLTag_name_first a0 name t tail Hchar Hnul Hname
                Hlen) as Hloop.
  destruct attrs as [|a attrs]; [destruct unique|].
  - cbn [app attrs_text fmap list_fmap concat].
    destruct (Hloop "/"%char (">"%char :: rest)) as
      (c & file & -> & buf' & -> & Hpoke & Hstr); [by auto|].
    cbn [mbind outcome_bind]. rewrite Hpoke. cbn [mbind outcome_bind].
    rewrite Hstr. reflexivity.
  - cbn [app attrs_text fmap list_fmap concat].
    destruct (Hloop ">"%char rest) as
      (c & file & -> & buf' & -> & Hpoke & Hstr); [by auto|].
    cbn [mbind outcome_bind]. rewrite Hpoke. cbn [mbind outcome_bind].
    rewrite Hstr. reflexivity.
  - pose proof (attrs_text_length attrs) as Hfuel.
    assert (∀ t tail, t ≠ " "%char →
      ∃ file, attrs_text (a :: attrs) ++ t :: tail = " "%char :: file
        ∧ readXMLTag_attrs (S (length file)) file (chr " ")
            (setXMLTagName (string_of_list_ascii (a0 :: name)) createXMLTag)
          = Ok (chr t, tag_of (a0 :: name) (a :: attrs) UNKNOWN, tail))
      as Hattr.
    { intros t tail Ht.
      assert (∃ file, attrs_text (a :: attrs) ++ t :: tail = " "%char :: file)
        as [file Hfile]
        by (rewrite attrs_text_cons; unfold attr_text; cbn [app]; eauto).
      destruct (readXMLTag_attrs_reads (a :: attrs) (S (length file))
                  (setXMLTagName (string_of_list_ascii (a0 :: name))
                     createXMLTag) t tail)
        as (c & file' & Hget & E); [done|done| |].
      { apply (f_equal length) in Hfile. rewrite length_app in Hfile.
        pose proof (attrs_text_length (a :: attrs)).
        cbn [length] in *. lia. }
      rewrite Hfile in Hget. cbn [fgetc] in Hget. injection Hget as <- <-.
      exists file. split; [done|]. rewrite E.
      unfold tag_of. cbn [tag_name tag_attr tag_type setXMLTagName createXMLTag].
      by rewrite app_nil_r. }
    destruct unique.
    + destruct (Hattr "/"%char (">"%char :: rest)) as (file & Hfile & E);
        [done|].
      replace (attrs_text (a :: attrs) ++ ["/"%char; ">"%char] ++ rest)
        with (" "%char :: file) by done.
      destruct (Hloop " "%char file) as
        (c & file' & -> & buf' & -> & Hpoke & Hstr); [by auto|].
      cbn [mbind outcome_bind]. rewrite Hpoke. cbn [mbind outcome_bind].
      rewrite Hstr.
      replace (chr " " =? chr ">") with false by reflexivity.
      replace (chr " " =? chr "/") with false by reflexivity.
      rewrite Z.eqb_refl. cbn [tag_type setXMLTagName createXMLTag].
      rewrite decide_True by done. rewrite E. cbn [mbind outcome_bind].
      reflexivity.
    + destruct (Hattr ">"%char rest) as (file & Hfile & E); [done|].
      replace (attrs_text (a :: attrs) ++ [">"%char] ++ rest)
        with (" "%char :: file) by done.
      destruct (Hloop " "%char file) as
        (c & file' & -> & buf' & -> & Hpoke & Hstr); [by auto|].
      cbn [mbind outcome_bind]. rewrite Hpoke. cbn [mbind outcome_bind].
      rewrite Hstr.
      replace (chr " " =? chr ">") with false by reflexivity.
      replace (chr " " =? chr "/") with false by reflexivity.
      rewrite Z.eqb_refl. cbn [tag_type setXMLTagName createXMLTag].
      rewrite decide_True by done. rewrite E. cbn [mbind outcome_bind].
      reflexivity.
Qed.

(** [readXMLTag] on the text of an opening or unique tag. *)
Lemma readXMLTag_reads_tag lead name attrs unique rest :
  wf_tag_name name →
  (lead = false → head name ≠ Some "<"%char) →
  Forall wf_attr attrs →
  readXMLTag (tag_text lead name attrs unique ++ rest)
  = Ok (Ptr (tag_of name attrs (if unique then UNIQUE else OPENING)), rest).
Proof.
  intros Hname Hlead Hattrs.
  destruct name as [|a0 name]; [by destruct Hname|].
  rewrite <- (readXMLTag_reads_lead a0 name attrs unique rest) by done.
  destruct lead; [done|]. unfold tag_text. cbn [app].
  rewrite readXMLTag_lead; [done|]. intros ->. by apply Hlead.
Qed.

(** [readXMLTag] on the text of a closing tag. *)
Lemma readXMLTag_reads_closing lead name rest :
  Forall (λ a, name_char a ∧ a ≠ NUL) name →
  (length name < XML_BUFFER_LENGTH)%nat →
  readXMLTag (closing_text lead name ++ rest)
  = Ok (Ptr (tag_of name [] CLOSING), rest).
Proof.
  intros Hname Hlen.
  assert (readXMLTag (closing_text true name ++ rest)
          = Ok (Ptr (tag_of name [] CLOSING), rest)) as Hlead.
  { unfold readXMLTag, closing_text. cbn [app fgetc].
    rewrite Z.eqb_refl. cbn [fgetc]. rewrite Z.eqb_refl.
    cbn [mbind outcome_bind]. rewrite <- app_assoc. cbn [app].
    destruct (readXMLTag_name_stops name (S XML_BUFFER_LENGTH) rest ">"
                new_buffer 0)
      as (c & file & -> & buf' & -> & Hlen' & Htake);
      [done|by auto|lia|rewrite new_buffer_length; lia|lia|].
    cbn [Nat.add] in *. rewrite new_buffer_length in Hlen'.
    cbn [mbind outcome_bind]. rewrite poke_in_bounds by lia.
    cbn [mbind outcome_bind]. rewrite take_0 in Htake. cbn [app] in Htake.
    rewrite (cstr_terminated name _ _ Htake
               (Forall_not_NUL (P := name_char) _ Hname)) by lia.
    reflexivity. }
  destruct lead; [done|]. rewrite <- Hlead. unfold closing_text. cbn [app].
  by rewrite readXMLTag_lead.
Qed.

(** * Reading a value (node.c) *)

Lemma in_range_not_NUL lo a :
  chr lo ≠ 0 → in_range lo (chr a) = true → a ≠ NUL.
Proof.
  intros Hlo H ->. unfold in_range in H. rewrite to_char_chr in H.
  apply andb_prop in H as [H _]. apply Z.leb_le in H.
  pose proof (chr_range lo). change (chr NUL) with 0 in H. lia.
Qed.

Lemma value_first_not_NUL a : value_first a = true → a ≠ NUL.
Proof. by apply in_range_not_NUL. Qed.

Lemma value_char_not_NUL a : value_char a = true → a ≠ NUL.
Proof. by apply in_range_not_NUL. Qed.

(** The first loop of [readXMLNodeValue] passes over everything that is
    neither '<' nor a character from '!' to '~'. *)
Lemma readXMLNodeValue_skip_passes skipped :
  ∀ fuel file buf,
    Forall (λ a, a ≠ "<"%char ∧ value_first a = false) skipped →
    readXMLNodeValue_skip (length skipped + fuel) (skipped ++ file) buf
    = readXMLNodeValue_skip fuel file buf.
Proof.
  induction skipped as [|a skipped IH]; intros fuel file buf Hskip; [done|].
  apply Forall_cons in Hskip as [[Ha Hfirst] Hskip].
  cbn [length Nat.add app readXMLNodeValue_skip fgetc].
  rewrite chr_eqb_EOF, to_char_chr. rewrite decide_False by done.
  unfold value_first in Hfirst. rewrite Hfirst. by apply IH.
Qed.

(** The second loop: the characters from ' ' to '~' are stored, the others
    are dropped, up to the character that ends the value. *)
Lemma readXMLNodeValue_read_stops body :
  ∀ fuel t rest buf i,
    Forall (λ a, ¬ value_end a) body → value_end t →
    (i + length (filter (λ a, value_char a) body) < XML_BUFFER_LENGTH)%nat →
    (i + length (filter (λ a, value_char a) body) ≤ length buf)%nat →
    (length body < fuel)%nat →
    ∃ buf',
      readXMLNodeValue_read fuel (body ++ t :: rest) buf i
      = Ok (Some (buf', (i + length (filter (λ a, value_char a) body))%nat),
            rest)
      ∧ length buf' = length buf
      ∧ take (i + length (filter (λ a, value_char a) body)) buf'
        = take i buf ++ filter (λ a, value_char a) body.
Proof.
  induction body as [|a body IH]; intros fuel t rest buf i Hbody Ht Hcap Hlen Hfuel;
    (destruct fuel as [|fuel]; [cbn in Hfuel; lia|]);
    cbn [app readXMLNodeValue_read fgetc]; rewrite chr_eqb_EOF, to_char_chr.
  - rewrite decide_True by done. exists buf.
    rewrite filter_nil. cbn [length]. by rewrite Nat.add_0_r, app_nil_r.
  - apply Forall_cons in Hbody as [Ha Hbody].
    rewrite decide_False by done. cbn [length] in Hfuel.
    destruct (value_char a) eqn:Hkeep.
    + rewrite filter_cons_True in Hcap, Hlen |- * by by apply Is_true_true_2.
      cbn [length] in *. unfold value_char in Hkeep. rewrite Hkeep.
      rewrite poke_in_bounds by lia. cbn [mbind outcome_bind].
      destruct (IH fuel t rest (<[i:=a]> buf) (S i))
        as (buf' & E & Hlen' & Htake);
        try done; rewrite ?length_insert; try lia.
      exists buf'. rewrite E, Hlen', length_insert.
      replace (i + S (length (filter (λ a, value_char a) body)))%nat
        with (S i + length (filter (λ a, value_char a) body))%nat by lia.
      split; [done|]. split; [done|]. rewrite Htake.
      rewrite (take_S_r _ _ a) by (apply list_lookup_insert_eq; lia).
      rewrite take_insert_ge by lia. by rewrite <- app_assoc.
    + rewrite filter_cons_False in Hcap, Hlen |- * by by apply Is_true_false_2.
      unfold value_char in Hkeep. rewrite Hkeep.
      apply IH; try done. lia.
Qed.

Lemma filter_value_char_not_NUL body :
  Forall (λ a, a ≠ NUL) (filter (λ a, value_char a) body).
Proof.
  apply Forall_forall. intros x Hx. apply list_elem_of_filter in Hx as [Hx _].
  apply value_char_not_NUL. by apply Is_true_true_1.
Qed.

(** [readXMLNodeValue] on a text that holds a value: what comes before the
    first character from '!' to '~' is passed over, the value is that
    character and, of what follows up to the end of the value, the
    characters from ' ' to '~'. *)
Lemma readXMLNodeValue_reads n skipped c0 body t rest h :
  Forall (λ a, a ≠ "<"%char ∧ value_first a = false) skipped →
  c0 ≠ "<"%char → value_first c0 = true →
  Forall (λ a, ¬ value_end a) body → value_end t →
  (S (length (filter (λ a, value_char a) body)) < XML_BUFFER_LENGTH)%nat →
  readXMLNodeValue n (skipped ++ c0 :: body ++ t :: rest) h
  = h' ← store n (setXMLNodeValue
                    (string_of_list_ascii
                       (c0 :: filter (λ a, value_char a) body))) h;
    Ok (h', rest).
Proof.
  intros Hskip Hc0 Hfirst Hbody Ht Hcap. unfold readXMLNodeValue.
  rewrite length_app.
  replace (S (length skipped + length (c0 :: body ++ t :: rest)))
    with (length skipped + S (length (c0 :: body ++ t :: rest)))%nat by lia.
  rewrite readXMLNodeValue_skip_passes by done.
  cbn [readXMLNodeValue_skip fgetc]. rewrite chr_eqb_EOF, to_char_chr.
  rewrite decide_False by done. unfold value_first in Hfirst. rewrite Hfirst.
  rewrite poke_in_bounds by lia. cbn [mbind outcome_bind].
  destruct (readXMLNodeValue_read_stops body (S (length (body ++ t :: rest)))
              t rest (<[0%nat:=c0]> new_buffer) 1)
    as (buf' & -> & Hlen' & Htake);
    [done|done|cbn [Nat.add]; lia
    |rewrite length_insert, new_buffer_length; cbn [Nat.add]; lia
    |rewrite length_app; lia|].
  cbn [Nat.add] in *. rewrite length_insert, new_buffer_length in Hlen'.
  cbn [mbind outcome_bind]. rewrite poke_in_bounds by lia.
  cbn [mbind outcome_bind].
  rewrite take_1_insert in Htake by (rewrite new_buffer_length; lia).
  rewrite (cstr_terminated (c0 :: filter (λ a, value_char a) body) _ _ Htake);
    [done| |lia].
  apply Forall_cons. split; [|apply filter_value_char_not_NUL].
  apply value_first_not_NUL. by unfold value_first.
Qed.

(** Without such a character before the next '<', or before the end of the
    stream, the node is left as it is. *)
Lemma readXMLNodeValue_none n skipped rest h :
  Forall (λ a, a ≠ "<"%char ∧ value_first a = false) skipped →
  readXMLNodeValue n (skipped ++ "<"%char :: rest) h = Ok (h, rest)
  ∧ readXMLNodeValue n skipped h = Ok (h, []).
Proof.
  intros Hskip. unfold readXMLNodeValue. split.
  - rewrite length_app.
    replace (S (length skipped + length ("<"%char :: rest)))
      with (length skipped + S (length ("<"%char :: rest)))%nat by lia.
    by rewrite readXMLNodeValue_skip_passes by done.
  - rewrite <- (app_nil_r skipped) at 2.
    replace (S (length skipped)) with (length skipped + 1)%nat by lia.
    by rewrite readXMLNodeValue_skip_passes by done.
Qed.

(** * Texts that do not fit the scratch buffer (attribute.c, node.c) *)

(** The loop of [readXMLAttribute] on a text of at least as many characters
    as the buffer has cells left: it stores outside the buffer, or leaves
    the index at the capacity. *)
Lemma readXMLAttribute_loop_long stop body :
  ∀ fuel rest buf i,
    stop ∉ body →
    (i ≤ XML_BUFFER_LENGTH)%nat →
    (XML_BUFFER_LENGTH ≤ i + length body)%nat →
    (XML_BUFFER_LENGTH - i < fuel)%nat →
    ∃ c file,
      fgetc (body ++ rest) = (c, file)
      ∧ (readXMLAttribute_loop fuel (chr stop) file c buf i
         = Undefined OutOfBoundsWrite
         ∨ ∃ buf' file',
             readXMLAttribute_loop fuel (chr stop) file c buf i
             = Ok (buf', XML_BUFFER_LENGTH, file')).
Proof.
  induction body as [|a body IH]; intros fuel rest buf i Hstop Hi Hlen Hfuel;
    (destruct fuel as [|fuel]; [lia|]).
  - cbn [length app] in *. assert (i = XML_BUFFER_LENGTH) as -> by lia.
    destruct (fgetc rest) as [c file]. exists c, file. split; [done|].
    cbn [readXMLAttribute_loop]. destruct (c =? chr stop); [by eauto|].
    left. by rewrite poke_out_of_bounds.
  - cbn [length app fgetc] in *. eexists _, _. split; [done|].
    apply not_elem_of_cons in Hstop as [Ha Hstop].
    cbn [readXMLAttribute_loop]. rewrite chr_eqb_false by done.
    destruct (decide (i = XML_BUFFER_LENGTH)) as [->|Hne].
    + left. by rewrite poke_out_of_bounds.
    + rewrite poke_in_bounds by lia. cbn [mbind outcome_bind].
      destruct (IH fuel rest (<[i:=to_char (chr a)]> buf) (S i))
        as (c & file & -> & Hloop); [done|lia|lia|lia|done].
Qed.

(** An attribute whose name, or whose value, has as many characters as the
    buffer has cells, or more, makes [readXMLAttribute] store outside the
    buffer. *)
Lemma readXMLAttribute_long_name name rest :
  "="%char ∉ name → (XML_BUFFER_LENGTH ≤ length name)%nat →
  readXMLAttribute (name ++ rest) = Undefined OutOfBoundsWrite.
Proof.
  intros Hname Hlen. unfold readXMLAttribute, attr_fuel.
  destruct (readXMLAttribute_loop_long "=" name (S (S XML_BUFFER_LENGTH)) rest
              new_buffer 0)
    as (c & file & -> & [->|(buf' & file' & ->)]); [done|lia|lia|lia|done|].
  cbn [mbind outcome_bind]. by rewrite poke_out_of_bounds.
Qed.

Lemma readXMLAttribute_long_value name value rest :
  wf_attr_name name →
  dquote ∉ value → (XML_BUFFER_LENGTH ≤ length value)%nat →
  readXMLAttribute (name ++ "="%char :: dquote :: value ++ rest)
  = Undefined OutOfBoundsWrite.
Proof.
  intros [Hn Hnlen] Hvalue Hlen. unfold readXMLAttribute, attr_fuel.
  destruct (readXMLAttribute_loop_stops "=" name (S (S XML_BUFFER_LENGTH))
              (dquote :: value ++ rest) new_buffer 0)
    as (c1 & file1 & -> & buf1 & -> & Hlen1 & Htake1);
    [exact (Forall_not_elem (P := λ a, a ≠ NUL) _ _ Hn) | lia
    | rewrite new_buffer_length; lia | lia |].
  cbn [mbind outcome_bind Nat.add] in *.
  rewrite poke_in_bounds by lia. cbn [mbind outcome_bind fgetc].
  rewrite Z.eqb_refl. cbn [negb].
  destruct (readXMLAttribute_loop_long dquote value (S (S XML_BUFFER_LENGTH))
              rest (<[length name:=NUL]> buf1) 0)
    as (c & file & -> & [->|(buf' & file' & ->)]); [done|lia|lia|lia|done|].
  cbn [mbind outcome_bind]. by rewrite poke_out_of_bounds.
Qed.

Lemma readXMLNodeValue_read_long body :
  ∀ fuel t rest buf i,
    Forall (λ a, ¬ value_end a) body → value_end t →
    (i ≤ XML_BUFFER_LENGTH)%nat →
    (XML_BUFFER_LENGTH ≤ i + length (filter (λ a, value_char a) body))%nat →
    (length body < fuel)%nat →
    readXMLNodeValue_read fuel (body ++ t :: rest) buf i
    = Undefined OutOfBoundsWrite
    ∨ ∃ buf', readXMLNodeValue_read fuel (body ++ t :: rest) buf i
              = Ok (Some (buf', XML_BUFFER_LENGTH), rest).
Proof.
  induction body as [|a body IH]; intros fuel t rest buf i Hbody Ht Hi Hlen Hfuel;
    (destruct fuel as [|fuel]; [cbn in Hfuel; lia|]);
    cbn [app readXMLNodeValue_read fgetc]; rewrite chr_eqb_EOF, to_char_chr.
  - rewrite decide_True by done. rewrite filter_nil in Hlen.
    cbn [length] in Hlen. assert (i = XML_BUFFER_LENGTH) as -> by lia.
    by eauto.
  - apply Forall_cons in Hbody as [Ha Hbody].
    rewrite decide_False by done. cbn [length] in Hfuel.
    destruct (value_char a) eqn:Hkeep.
    + rewrite filter_cons_True in Hlen by by apply Is_true_true_2.
      cbn [length] in Hlen. unfold value_char in Hkeep. rewrite Hkeep.
      destruct (decide (i = XML_BUFFER_LENGTH)) as [->|Hne].
      * left. by rewrite poke_out_of_bounds.
      * rewrite poke_in_bounds by lia. cbn [mbind outcome_bind].
        apply IH; try done; lia.
    + rewrite filter_cons_False in Hlen by by apply Is_true_false_2.
      unfold value_char in Hkeep. rewrite Hkeep.
      apply IH; try done. lia.
Qed.

(** A value of as many characters as the buffer has cells, or more, makes
    [readXMLNodeValue] store outside the buffer. *)
Lemma readXMLNodeValue_long n skipped c0 body t rest h :
  Forall (λ a, a ≠ "<"%char ∧ value_first a = false) skipped →
  c0 ≠ "<"%char → value_first c0 = true →
  Forall (λ a, ¬ value_end a) body → value_end t →
  (XML_BUFFER_LENGTH ≤ S (length (filter (λ a, value_char a) body)))%nat →
  readXMLNodeValue n (skipped ++ c0 :: body ++ t :: rest) h
  = Undefined OutOfBoundsWrite.
Proof.
  intros Hskip Hc0 Hfirst Hbody Ht Hcap. unfold readXMLNodeValue.
  rewrite length_app.
  replace (S (length skipped + length (c0 :: body ++ t :: rest)))
    with (length skipped + S (length (c0 :: body ++ t :: rest)))%nat by lia.
  rewrite readXMLNodeValue_skip_passes by done.
  cbn [readXMLNodeValue_skip fgetc]. rewrite chr_eqb_EOF, to_char_chr.
  rewrite decide_False by done. unfold value_first in Hfirst. rewrite Hfirst.
  rewrite poke_in_bounds by (rewrite XML_BUFFER_LENGTH_eq; lia).
  cbn [mbind outcome_bind].
  destruct (readXMLNodeValue_read_long body (S (length (body ++ t :: rest)))
              t rest (<[0%nat:=c0]> new_buffer) 1)
    as [->|[buf' ->]];
    [done|done|rewrite XML_BUFFER_LENGTH_eq; lia|cbn [Nat.add]; lia
    |rewrite length_app; lia|done|].
  cbn [mbind outcome_bind]. by rewrite poke_out_of_bounds.
Qed.

(** * Reaching the next tag (tag.c) *)

Lemma reachNextXMLTag_loop_passes pre :
  ∀ fuel file,
    "<"%char ∉ pre →
    reachNextXMLTag_loop (length pre + fuel) (pre ++ file)
    = reachNextXMLTag_loop fuel file.
Proof.
  induction pre as [|a pre IH]; intros fuel file Hpre; [done|].
  apply not_elem_of_cons in Hpre as [Ha Hpre].
  cbn [length Nat.add app reachNextXMLTag_loop fgetc].
  rewrite chr_eqb_false, chr_eqb_EOF by done. cbn [negb andb]. by apply IH.
Qed.

(** * Malformed attributes (attribute.c, tag.c) *)

(** The value of an attribute has to start with a double quote: otherwise
    [readXMLAttribute] returns [NULL], having consumed the character (if
    any) that follows '='. *)
Lemma readXMLAttribute_unquoted name tail :
  wf_attr_name name →
  head tail ≠ Some dquote →
  readXMLAttribute (name ++ "="%char :: tail)
  = Ok (NULL (Some BadlyParsed), drop 1 tail).
Proof.
  intros [Hn Hnlen] Hc. unfold readXMLAttribute, attr_fuel.
  destruct (readXMLAttribute_loop_stops "=" name (S (S XML_BUFFER_LENGTH))
              tail new_buffer 0)
    as (c1 & file1 & -> & buf1 & -> & Hlen1 & Htake1);
    [exact (Forall_not_elem (P := λ a, a ≠ NUL) _ _ Hn) | lia
    | rewrite new_buffer_length; lia | lia |].
  cbn [mbind outcome_bind Nat.add] in *.
  rewrite poke_in_bounds by lia. cbn [mbind outcome_bind].
  destruct tail as [|c tail]; cbn [fgetc drop head] in *.
  - by rewrite EOF_eqb_chr.
  - rewrite chr_eqb_false; [done|]. by intros ->.
Qed.

(** * From a tag to a node (node.c) *)

Lemma initXMLNodeFromXMLTag_tag_of n name attrs type h :
  (n < length h)%nat →
  initXMLNodeFromXMLTag n (tag_of name attrs type) h
  = Ok (<[n := leaf name attrs None]> h).
Proof.
  intros Hn. unfold initXMLNodeFromXMLTag.
  destruct (lookup_lt_is_Some_2 h n Hn) as [nd Hnd].
  rewrite (load_Some _ _ _ Hnd). cbn [mbind outcome_bind tag_of tag_name
    tag_attr setXMLNodeName].
  rewrite initXMLNodeFromXMLTag_loop_rev by done.
  cbn [mbind outcome_bind]. unfold store. rewrite (load_Some _ _ _ Hnd).
  cbn [mbind outcome_bind]. rewrite rev_involutive.
  by rewrite app_nil_r.
Qed.

(** An attribute whose value is one character without quotes is left out
    of the tag, and the tag is returned all the same. *)
Lemma readXMLTag_drops_unquoted name k c rest :
  wf_tag_name name → wf_attr_name k → c ≠ dquote →
  readXMLTag ("<"%char :: name ++ " "%char :: k ++ "="%char :: c
              :: ">"%char :: rest)
  = Ok (Ptr (tag_of name [] OPENING), rest).
Proof.
  intros Hname Hk Hc. destruct name as [|a0 name]; [by destruct Hname|].
  cbn [app].
  rewrite (readXMLTag_after_space a0 name _ ">"
             (setXMLTagName (string_of_list_ascii (a0 :: name)) createXMLTag)
             rest Hname); [by rewrite decide_True|].
  cbn [readXMLTag_attrs]. rewrite Z.eqb_refl.
  rewrite readXMLAttribute_unquoted by (done || (cbn; congruence)).
  cbn [mbind outcome_bind to_option addAttributeToXMLTag drop fgetc].
  rewrite length_app. cbn [length].
  replace (length k + S (S (S (length rest))))%nat
    with (S (length k + S (S (length rest))))%nat by lia.
  cbn [readXMLTag_attrs]. by replace (chr ">" =? chr " ") with false.
Qed.

(** * Leaf documents (xml.c) *)

Lemma value_char_not_end a :
  value_char a = true → a ≠ "<"%char → ¬ value_end a.
Proof.
  intros Hkeep Hlt [->|[->| ->]]; [done|by vm_compute in Hkeep..].
Qed.

Lemma wf_value_body body :
  Forall (λ a, value_char a = true ∧ a ≠ "<"%char) body →
  Forall (λ a, ¬ value_end a) body
  ∧ filter (λ a, value_char a) body = body.
Proof.
  induction 1 as [|a body [Hkeep Hlt] _ [IH1 IH2]]; [done|]. split.
  - apply Forall_cons. split; [by apply value_char_not_end|done].
  - rewrite filter_cons_True by by apply Is_true_true_2. by rewrite IH2.
Qed.

Lemma readXMLNodeValue_reads_wf n v t rest h :
  wf_value v → value_end t →
  readXMLNodeValue n (v ++ t :: rest) h
  = h' ← store n (setXMLNodeValue (string_of_list_ascii v)) h; Ok (h', rest).
Proof.
  destruct v as [|c0 body]; [done|]. intros (Hfirst & Hc0 & Hbody & Hlen) Ht.
  destruct (wf_value_body body Hbody) as [Hend Hfilter].
  rewrite <- Hfilter at 2.
  apply (readXMLNodeValue_reads n [] c0 body t rest h); try done.
  by rewrite Hfilter.
Qed.

(** A document made of one opening tag, an optional value and a closing
    tag: the name of the closing tag is not looked at. *)
Lemma parseXMLFile_leaf name attrs value other rest :
  wf_tag_name name → Forall wf_attr attrs →
  from_option wf_value True value → wf_closing_name other →
  parseXMLFile (tag_text true name attrs false ++ value_text value
                ++ closing_text true other ++ rest)
  = Ok (Ptr (0%nat, [leaf name attrs value]), rest).
Proof.
  intros Hname Hattrs Hvalue [Hother Hlen]. unfold parseXMLFile.
  rewrite readXMLTag_reads_tag by done.
  cbn [mbind outcome_bind tag_of tag_type createXMLNode length].
  rewrite decide_False, decide_False by done.
  change {| tag_name := Some (string_of_list_ascii name);
            tag_attr := rev (attr_of <$> attrs); tag_type := OPENING |}
    with (tag_of name attrs OPENING).
  rewrite initXMLNodeFromXMLTag_tag_of by (cbn; lia).
  cbn [mbind outcome_bind app list_insert insert].
  unfold parseXMLFile_loop; fold parseXMLFile_loop.
  assert (readXMLNodeValue 0 (value_text value ++ closing_text true other
                              ++ rest) [leaf name attrs None]
          = Ok ([leaf name attrs value], closing_text false other ++ rest))
    as ->.
  { change (closing_text true other ++ rest)
      with ("<"%char :: closing_text false other ++ rest).
    destruct value as [v|]; cbn [value_text default app from_option] in *.
    - by rewrite readXMLNodeValue_reads_wf by (done || by left).
    - by destruct (readXMLNodeValue_none 0 []
                     (closing_text false other ++ rest)
                     [leaf name attrs None]) as [E _]. }
  cbn [mbind outcome_bind].
  rewrite readXMLTag_reads_closing by done.
  cbn [mbind outcome_bind tag_of tag_type]. unfold load.
  cbn [lookup list_lookup leaf node_parent mbind outcome_bind].
  by rewrite decide_False by (intros H; by apply H).
Qed.

(** * A value cut by the end of the stream (node.c) *)

Lemma readXMLNodeValue_read_eof body :
  ∀ fuel buf i,
    Forall (λ a, ¬ value_end a) body →
    (i + length (filter (λ a, value_char a) body) ≤ XML_BUFFER_LENGTH)%nat →
    (length body < fuel)%nat →
    readXMLNodeValue_read fuel body buf i = Ok (None, []).
Proof.
  induction body as [|a body IH]; intros fuel buf i Hbody Hcap Hfuel;
    (destruct fuel as [|fuel]; [cbn in Hfuel; lia|]);
    cbn [readXMLNodeValue_read fgetc]; [done|].
  rewrite chr_eqb_EOF, to_char_chr.
  apply Forall_cons in Hbody as [Ha Hbody].
  rewrite decide_False by done. cbn [length] in Hfuel.
  destruct (value_char a) eqn:Hkeep.
  - rewrite filter_cons_True in Hcap by by apply Is_true_true_2.
    cbn [length] in Hcap. unfold value_char in Hkeep. rewrite Hkeep.
    rewrite poke_in_bounds by lia. cbn [mbind outcome_bind].
    apply IH; try done; lia.
  - rewrite filter_cons_False in Hcap by by apply Is_true_false_2.
    unfold value_char in Hkeep. rewrite Hkeep.
    apply IH; try done. lia.
Qed.

Lemma readXMLNodeValue_cut n skipped c0 body h :
  Forall (λ a, a ≠ "<"%char ∧ value_first a = false) skipped →
  c0 ≠ "<"%char → value_first c0 = true →
  Forall (λ a, ¬ value_end a) body →
  (S (length (filter (λ a, value_char a) body)) ≤ XML_BUFFER_LENGTH)%nat →
  readXMLNodeValue n (skipped ++ c0 :: body) h = Ok (h, []).
Proof.
  intros Hskip Hc0 Hfirst Hbody Hcap. unfold readXMLNodeValue.
  rewrite length_app.
  replace (S (length skipped + length (c0 :: body)))
    with (length skipped + S (length (c0 :: body)))%nat by lia.
  rewrite readXMLNodeValue_skip_passes by done.
  cbn [readXMLNodeValue_skip fgetc]. rewrite chr_eqb_EOF, to_char_chr.
  rewrite decide_False by done. unfold value_first in Hfirst. rewrite Hfirst.
  rewrite poke_in_bounds by lia. cbn [mbind outcome_bind].
  by rewrite readXMLNodeValue_read_eof by (done || cbn [Nat.add]; lia).
Qed.

(** * What the readers accept, and what they do with the rest *)

(** Side conditions on a text that is written out. *)
Ltac wf_now :=
  repeat first
    [ done
    | split
    | apply Forall_cons
    | apply Forall_nil
    | by intros [?|[?|?]]
    | by (rewrite XML_BUFFER_LENGTH_eq; cbn; lia)
    | by (vm_compute; lia) ].

(** X1.  [readXMLAttribute] on a name, '=', and a value between double
    quotes, whatever follows: the attribute read has exactly that name and
    that value, and the stream is left right after the closing quote.  The
    name may hold anything but '=' and NUL, the value anything but a double
    quote and NUL, each shorter than the scratch buffer.  When what follows
    '=' is not a double quote, [NULL] is returned ("Badly parsed XML
    file.") and the stream is left one character after '='. *)
Theorem readXMLAttribute_reads_quoted_pair :
  ∀ a rest,
    wf_attr a →
    readXMLAttribute (a.1 ++ "="%char :: dquote :: a.2 ++ dquote :: rest)
    = Ok (Ptr (attr_of a), rest)
    ∧ ∀ tail, head tail ≠ Some dquote →
              readXMLAttribute (a.1 ++ "="%char :: tail)
              = Ok (NULL (Some BadlyParsed), drop 1 tail).
Proof.
  intros a rest Ha. split; [by apply readXMLAttribute_reads|].
  intros tail Htail. apply readXMLAttribute_unquoted; [apply Ha|done].
Qed.

Lemma readXMLAttribute_reads_quoted_pair_witness :
  readXMLAttribute (str "key=" ++ quoted "some value" ++ str " next")
  = Ok (Ptr (attribute "key" "some value"), str " next")
  ∧ ∀ tail, head tail ≠ Some dquote →
            readXMLAttribute (str "key=" ++ tail)
            = Ok (NULL (Some BadlyParsed), drop 1 tail).
Proof.
  exact (readXMLAttribute_reads_quoted_pair (str "key", str "some value")
           (str " next") ltac:(wf_now)).
Defined.

(** X2.  The scratch buffer of [readXMLAttribute] has [XML_BUFFER_LENGTH]
    cells and neither loop tests the index: a name of that many characters
    or more (before any '='), or a value of that many characters or more
    (before any double quote), is stored past the end of the buffer,
    whatever follows. *)
Theorem readXMLAttribute_overlong_overflows :
  (∀ name rest,
      "="%char ∉ name → (XML_BUFFER_LENGTH ≤ length name)%nat →
      readXMLAttribute (name ++ rest) = Undefined OutOfBoundsWrite)
  ∧ (∀ name value rest,
      wf_attr_name name →
      dquote ∉ value → (XML_BUFFER_LENGTH ≤ length value)%nat →
      readXMLAttribute (name ++ "="%char :: dquote :: value ++ rest)
      = Undefined OutOfBoundsWrite).
Proof.
  split.
  - apply readXMLAttribute_long_name.
  - apply readXMLAttribute_long_value.
Qed.

Lemma readXMLAttribute_overlong_overflows_witness :
  readXMLAttribute (replicate 200 "n"%char ++ "="%char :: quoted "v")
  = Undefined OutOfBoundsWrite
  ∧ readXMLAttribute (str "k" ++ "="%char :: dquote
                      :: replicate 200 "v"%char ++ [dquote])
    = Undefined OutOfBoundsWrite.
Proof.
  split.
  - apply (proj1 readXMLAttribute_overlong_overflows).
    + intros [H _]%elem_of_replicate. discriminate H.
    + by rewrite length_replicate, XML_BUFFER_LENGTH_eq.
  - apply (proj2 readXMLAttribute_overlong_overflows).
    + wf_now.
    + intros [H _]%elem_of_replicate. discriminate H.
    + by rewrite length_replicate, XML_BUFFER_LENGTH_eq.
Defined.

(** X3.  [readXMLTag] on the text of an opening or unique tag: a name, any
    number of attributes written as space, name, '=', quoted value, then
    '>' or '/' and '>'; with or without the leading '<' (without it the
    name must not start with '<').  The tag returned has that name, the
    type [OPENING] or [UNIQUE], and the attributes in reverse order of the
    text; the stream is left right after '>'.  [initXMLNodeFromXMLTag]
    then gives the node that name and the attributes in the order of the
    text, every link [NULL]. *)
Theorem readXMLTag_reads_opening_and_unique :
  ∀ lead name attrs unique rest,
    wf_tag_name name →
    (lead = false → head name ≠ Some "<"%char) →
    Forall wf_attr attrs →
    readXMLTag (tag_text lead name attrs unique ++ rest)
    = Ok (Ptr {| tag_name := Some (string_of_list_ascii name);
                 tag_attr := rev (attr_of <$> attrs);
                 tag_type := if unique then UNIQUE else OPENING |}, rest)
    ∧ ∀ h n,
        (n < length h)%nat →
        initXMLNodeFromXMLTag n
          {| tag_name := Some (string_of_list_ascii name);
             tag_attr := rev (attr_of <$> attrs);
             tag_type := if unique then UNIQUE else OPENING |} h
        = Ok (<[n := mkNode (Some (string_of_list_ascii name)) None
                        (attr_of <$> attrs) None None None None None None 0]>
                h).
Proof.
  intros lead name attrs unique rest Hname Hlead Hattrs. split.
  - by apply readXMLTag_reads_tag.
  - intros h n Hn.
    apply (initXMLNodeFromXMLTag_tag_of n name attrs
             (if unique then UNIQUE else OPENING) h Hn).
Qed.

Lemma readXMLTag_reads_opening_and_unique_witness :
  readXMLTag (str "<item id=" ++ quoted "1" ++ str " k=" ++ quoted "a b"
              ++ str "/>" ++ str "<next>")
  = Ok (Ptr {| tag_name := Some "item"%string;
               tag_attr := [attribute "k" "a b"; attribute "id" "1"];
               tag_type := UNIQUE |}, str "<next>")
  ∧ ∀ h n,
      (n < length h)%nat →
      initXMLNodeFromXMLTag n
        {| tag_name := Some "item"%string;
           tag_attr := [attribute "k" "a b"; attribute "id" "1"];
           tag_type := UNIQUE |} h
      = Ok (<[n := mkNode (Some "item"%string) None
                      [attribute "id" "1"; attribute "k" "a b"]
                      None None None None None None 0]> h).
Proof.
  exact (readXMLTag_reads_opening_and_unique true (str "item")
           [(str "id", str "1"); (str "k", str "a b")] true (str "<next>")
           ltac:(wf_now) ltac:(done) ltac:(wf_now)).
Defined.

(** X4.  [readXMLTag] on the text of a closing tag, '/', a name (which may
    be empty) and '>', with or without the leading '<': the tag returned
    has that name, the type [CLOSING] and no attribute, and the stream is
    left right after '>'. *)
Theorem readXMLTag_reads_closing_tag :
  ∀ lead name rest,
    wf_closing_name name →
    readXMLTag (closing_text lead name ++ rest)
    = Ok (Ptr {| tag_name := Some (string_of_list_ascii name);
                 tag_attr := []; tag_type := CLOSING |}, rest).
Proof.
  intros lead name rest [Hname Hlen].
  by apply readXMLTag_reads_closing.
Qed.

Lemma readXMLTag_reads_closing_tag_witness :
  readXMLTag (str "/item>" ++ str "<next>")
  = Ok (Ptr {| tag_name := Some "item"%string;
               tag_attr := []; tag_type := CLOSING |}, str "<next>").
Proof.
  exact (readXMLTag_reads_closing_tag false (str "item") (str "<next>")
           ltac:(wf_now)).
Defined.

(** X5.  An attribute whose value is a single character without quotes
    does not make [readXMLTag] fail: [readXMLAttribute] returns [NULL]
    after consuming that character, [addAttributeToXMLTag] ignores the
    [NULL], and the tag is returned as an opening tag without the
    attribute. *)
Theorem readXMLTag_unquoted_attribute_dropped :
  ∀ name k c rest,
    wf_tag_name name → wf_attr_name k → c ≠ dquote →
    readXMLTag ("<"%char :: name ++ " "%char :: k ++ "="%char :: c
                :: ">"%char :: rest)
    = Ok (Ptr {| tag_name := Some (string_of_list_ascii name);
                 tag_attr := []; tag_type := OPENING |}, rest).
Proof.
  intros name k c rest Hname Hk Hc.
  by apply readXMLTag_drops_unquoted.
Qed.

Lemma readXMLTag_unquoted_attribute_dropped_witness :
  readXMLTag (str "<a k=v>text")
  = Ok (Ptr {| tag_name := Some "a"%string;
               tag_attr := []; tag_type := OPENING |}, str "text").
Proof.
  exact (readXMLTag_unquoted_attribute_dropped (str "a") (str "k") "v"
           (str "text") ltac:(wf_now) ltac:(wf_now) ltac:(done)).
Defined.

(** X6.  [readXMLNodeValue] on a text that holds a value.  Everything
    before the first character from '!' to '~' is passed over (blanks,
    line ends, bytes above '~'); the value starts there and ends at the
    next '<', line feed or carriage return, which is consumed; of the
    characters in between only those from ' ' to '~' are kept (a tab is
    dropped).  The node receives exactly that string. *)
Theorem readXMLNodeValue_reads_value :
  ∀ n skipped c0 body t rest h,
    Forall (λ a, a ≠ "<"%char ∧ value_first a = false) skipped →
    c0 ≠ "<"%char → value_first c0 = true →
    Forall (λ a, ¬ value_end a) body → value_end t →
    (S (length (filter (λ a, value_char a) body)) < XML_BUFFER_LENGTH)%nat →
    readXMLNodeValue n (skipped ++ c0 :: body ++ t :: rest) h
    = h' ← store n (setXMLNodeValue
                      (string_of_list_ascii
                         (c0 :: filter (λ a, value_char a) body))) h;
      Ok (h', rest).
Proof. apply readXMLNodeValue_reads. Qed.

Lemma readXMLNodeValue_reads_value_witness :
  readXMLNodeValue 0 (" "%char :: "010"%char :: "h"%char
                      :: "i"%char :: "009"%char :: " "%char :: "u"%char
                      :: "<"%char :: str "/a>") [initXMLNode]
  = Ok ([set_value (Some "hi u"%string) initXMLNode], str "/a>").
Proof.
  exact (readXMLNodeValue_reads_value 0 [" "%char; "010"%char] "h"
           ["i"%char; "009"%char; " "%char; "u"%char] "<" (str "/a>")
           [initXMLNode] ltac:(wf_now) ltac:(done) ltac:(done) ltac:(wf_now)
           ltac:(by left) ltac:(wf_now)).
Defined.

(** X7.  When [readXMLNodeValue] leaves the node as it is.  With no
    character from '!' to '~' before the next '<', the stream is left right
    after that '<' (so the tag that follows is read without it); with none
    before the end of the stream, the stream is exhausted.  And a value
    that the end of the stream cuts, before any '<' or line end, is read
    into the buffer but never stored in the node. *)
Theorem readXMLNodeValue_leaves_node :
  ∀ n skipped h,
    Forall (λ a, a ≠ "<"%char ∧ value_first a = false) skipped →
    (∀ rest, readXMLNodeValue n (skipped ++ "<"%char :: rest) h = Ok (h, rest))
    ∧ readXMLNodeValue n skipped h = Ok (h, [])
    ∧ ∀ c0 body,
        c0 ≠ "<"%char → value_first c0 = true →
        Forall (λ a, ¬ value_end a) body →
        (S (length (filter (λ a, value_char a) body))
         ≤ XML_BUFFER_LENGTH)%nat →
        readXMLNodeValue n (skipped ++ c0 :: body) h = Ok (h, []).
Proof.
  intros n skipped h Hskip. split; [|split].
  - intros rest. by apply readXMLNodeValue_none.
  - by apply (readXMLNodeValue_none n skipped []).
  - intros c0 body Hc0 Hfirst Hbody Hcap. by apply readXMLNodeValue_cut.
Qed.

Lemma readXMLNodeValue_leaves_node_witness :
  (∀ rest, readXMLNodeValue 0 (" "%char :: "010"%char :: "<"%char :: rest)
             [initXMLNode] = Ok ([initXMLNode], rest))
  ∧ readXMLNodeValue 0 [" "%char; "010"%char] [initXMLNode]
    = Ok ([initXMLNode], [])
  ∧ ∀ c0 body,
      c0 ≠ "<"%char → value_first c0 = true →
      Forall (λ a, ¬ value_end a) body →
      (S (length (filter (λ a, value_char a) body)) ≤ XML_BUFFER_LENGTH)%nat →
      readXMLNodeValue 0 (" "%char :: "010"%char :: c0 :: body) [initXMLNode]
      = Ok ([initXMLNode], []).
Proof.
  exact (readXMLNodeValue_leaves_node 0 [" "%char; "010"%char] [initXMLNode]
           ltac:(wf_now)).
Defined.

(** X8.  The scratch buffer of [readXMLNodeValue] has [XML_BUFFER_LENGTH]
    cells and the index is not tested: a value of that many characters or
    more is stored past the end of the buffer. *)
Theorem readXMLNodeValue_overlong_overflows :
  ∀ n skipped c0 body t rest h,
    Forall (λ a, a ≠ "<"%char ∧ value_first a = false) skipped →
    c0 ≠ "<"%char → value_first c0 = true →
    Forall (λ a, ¬ value_end a) body → value_end t →
    (XML_BUFFER_LENGTH ≤ S (length (filter (λ a, value_char a) body)))%nat →
    readXMLNodeValue n (skipped ++ c0 :: body ++ t :: rest) h
    = Undefined OutOfBoundsWrite.
Proof. apply readXMLNodeValue_long. Qed.

Lemma readXMLNodeValue_overlong_overflows_witness :
  readXMLNodeValue 0 ([] ++ "v"%char :: replicate 199 "v"%char
                      ++ "<"%char :: str "/a>") [initXMLNode]
  = Undefined OutOfBoundsWrite.
Proof.
  apply (readXMLNodeValue_overlong_overflows 0 [] "v" (replicate 199 "v"%char)
           "<" (str "/a>") [initXMLNode]);
    first [ done | by left | by vm_compute
          | apply Forall_replicate; by intros [?|[?|?]] ].
Defined.

(** X9.  [reachNextXMLTag] consumes the stream up to and including the
    next '<', and nothing after it; when there is no '<' it consumes the
    whole stream and reports the end of the file. *)
Theorem reachNextXMLTag_stops_after_chevron :
  ∀ pre,
    "<"%char ∉ pre →
    (∀ rest, reachNextXMLTag (pre ++ "<"%char :: rest) = Ok (false, rest))
    ∧ reachNextXMLTag pre = Ok (true, []).
Proof.
  intros pre Hpre. unfold reachNextXMLTag. split.
  - intros rest. rewrite length_app.
    replace (S (length pre + length ("<"%char :: rest)))
      with (length pre + S (length ("<"%char :: rest)))%nat by lia.
    by rewrite reachNextXMLTag_loop_passes.
  - rewrite <- (app_nil_r pre) at 2.
    replace (S (length pre)) with (length pre + 1)%nat by lia.
    by rewrite reachNextXMLTag_loop_passes.
Qed.

Lemma reachNextXMLTag_stops_after_chevron_witness :
  (∀ rest, reachNextXMLTag (str "text " ++ "<"%char :: rest)
           = Ok (false, rest))
  ∧ reachNextXMLTag (str "text ") = Ok (true, []).
Proof.
  apply (reachNextXMLTag_stops_after_chevron (str "text ")).
  cbn. intros Hin. repeat (apply elem_of_cons in Hin as [Hin|Hin]; [done|]).
  by apply elem_of_nil in Hin.
Defined.

(** X10.  A document made of an opening tag, an optional value and a
    closing tag is parsed into one node with that name, those attributes
    (in the order of the text) and that value, and the stream is left
    right after the closing tag.  The name in the closing tag plays no
    part: any name closes the node. *)
Theorem parseXMLFile_closing_name_ignored :
  ∀ name attrs value other rest,
    wf_tag_name name → Forall wf_attr attrs →
    from_option wf_value True value → wf_closing_name other →
    parseXMLFile (tag_text true name attrs false ++ value_text value
                  ++ closing_text true other ++ rest)
    = Ok (Ptr (0%nat,
               [mkNode (Some (string_of_list_ascii name))
                       (string_of_list_ascii <$> value)
                       (attr_of <$> attrs) None None None None None None 0]),
          rest).
Proof. apply parseXMLFile_leaf. Qed.

Lemma parseXMLFile_closing_name_ignored_witness :
  parseXMLFile (str "<a k=" ++ quoted "v" ++ str ">some text</b>"
                ++ str "<!-- rest -->")
  = Ok (Ptr (0%nat,
             [mkNode (Some "a"%string) (Some "some text"%string)
                     [attribute "k" "v"] None None None None None None 0]),
        str "<!-- rest -->").
Proof.
  exact (parseXMLFile_closing_name_ignored (str "a") [(str "k", str "v")]
           (Some (str "some text")) (str "b") (str "<!-- rest -->")
           ltac:(wf_now) ltac:(wf_now) ltac:(wf_now) ltac:(wf_now)).
Defined.

(** * One turn of the tree builder (xml.c) *)

Lemma readXMLNodeValue_effect n file h h' file' :
  readXMLNodeValue n file h = Ok (h', file') →
  h' = h ∨ ∃ nd v, h !! n = Some nd ∧ h' = <[n := setXMLNodeValue v nd]> h.
Proof.
  intros H. unfold readXMLNodeValue in H.
  bind_inv H. destruct r as [[[buf i]|] file1]; cbn in H;
    [|injection H as <- <-; by left].
  bind_inv H. destruct r as [[[buf' i']|] file2]; cbn in H;
    [|injection H as <- <-; by left].
  bind_inv H. bind_inv H. injection H as <- <-.
  unfold store, load in E2.
  destruct (h !! n) as [nd|] eqn:Hn; [|done]. cbn in E2.
  injection E2 as <-. right. eauto.
Qed.

(** The node made of a tag, before it is linked. *)
Lemma initXMLNodeFromXMLTag_new h tag h1 :
  initXMLNodeFromXMLTag (length h) tag (h ++ [initXMLNode]) = Ok h1 →
  ∃ s, tag_name tag = Some s
       ∧ h1 = h ++ [set_attr (rev (tag_attr tag))
                      (set_name (Some s) initXMLNode)].
Proof.
  unfold initXMLNodeFromXMLTag. intros H.
  rewrite (load_Some _ _ initXMLNode) in H by (by apply list_lookup_middle).
  cbn in H. unfold setXMLNodeName in H.
  destruct (tag_name tag) as [s|]; [|done]. cbn in H.
  rewrite initXMLNodeFromXMLTag_loop_rev in H by done. cbn in H.
  unfold store in H.
  rewrite (load_Some _ _ initXMLNode) in H by (by apply list_lookup_middle).
  cbn in H. injection H as <-. exists s. split; [done|].
  rewrite app_nil_r.
  rewrite <- (Nat.add_0_r (length h)) at 1. by rewrite insert_app_r.
Qed.

(** A new node made of a tag and added to the open node [cur]. *)
Lemma attach_effect h cur tag h1 h2 :
  built h → (cur < length h)%nat →
  initXMLNodeFromXMLTag (length h) tag (h ++ [initXMLNode]) = Ok h1 →
  addXMLNodeToParent (Some cur) (Some (length h)) h1 = Ok h2 →
  ∃ s np,
    tag_name tag = Some s ∧ h !! cur = Some np
    ∧ length h2 = S (length h) ∧ built h2
    ∧ ∀ x, h2 !! x
           = link cur (length h) (node_last np) x
             <$> (h ++ [set_attr (rev (tag_attr tag))
                          (set_name (Some s) initXMLNode)]) !! x.
Proof.
  intros Hb Hcur Hinit Hadd.
  pose proof Hinit as Hfresh.
  apply initXMLNodeFromXMLTag_fresh in Hfresh as (n & Hh1 & Hn).
  apply initXMLNodeFromXMLTag_new in Hinit as (s & Hs & ->).
  apply app_inv_head in Hh1. injection Hh1 as Hn'. subst n.
  destruct (attach_fresh_built h cur _ h2 Hb Hcur Hn Hadd) as [Hb2 Hlen2].
  destruct (lookup_lt_is_Some_2 h cur Hcur) as [np Hnp].
  exists s, np. repeat (split; [done|]).
  pose proof Hb as (Hinv & _).
  pose proof Hn as (_ & Hpar & Hprev & Hnext & _).
  set (n := set_attr (rev (tag_attr tag)) (set_name (Some s) initXMLNode)) in *.
  pose proof (tree_inv_alloc h n Hinv Hn) as Hinv1.
  pose proof (lookup_app_l_Some _ [n] _ _ Hnp) as Hnp1.
  assert ((h ++ [n]) !! length h = Some n) as Hc1
    by (by apply list_lookup_middle).
  destruct (addXMLNodeToParent_link _ cur (length h) np n Hnp1 Hc1
              Hpar Hprev Hnext) as (h2' & Hadd' & Hlink).
  { intros l0 Hl0.
    destruct (Hinv1 cur np Hnp1) as (l & Hch & _ & Hlast & _).
    eapply chain_valid; [exact Hch|].
    apply last_Some_elem_of. congruence. }
  rewrite Hadd' in Hadd. by injection Hadd as ->.
Qed.

(** An invariant of the arena that values and new nodes keep holds of
    every tree the loop returns. *)
Lemma parseXMLFile_loop_keeps (I : list XML_Node → Prop) :
  (∀ h n nd v, I h → built h → h !! n = Some nd →
               I (<[n := setXMLNodeValue v nd]> h)) →
  (∀ h cur file tag file' s np h2,
      I h → built h → (cur < length h)%nat →
      readXMLTag file = Ok (Ptr tag, file') →
      tag_name tag = Some s → h !! cur = Some np →
      length h2 = S (length h) →
      (∀ x, h2 !! x
            = link cur (length h) (node_last np) x
              <$> (h ++ [set_attr (rev (tag_attr tag))
                           (set_name (Some s) initXMLNode)]) !! x) →
      I h2) →
  ∀ fuel file h root cur cur' h' rest,
    I h → built h → (cur < length h)%nat →
    parseXMLFile_loop fuel file h root cur = Ok (Ptr (cur', h'), rest) →
    I h'.
Proof.
  intros Hvalue Hattach.
  induction fuel as [|fuel IH]; intros file h root cur cur' h' rest HI Hb Hcur H;
    [done|].
  unfold parseXMLFile_loop in H; fold parseXMLFile_loop in H.
  bind_inv H. destruct r as [h1 file1]. cbn in H.
  destruct (readXMLNodeValue_built _ _ _ _ _ Hb E) as [Hb1 Hlen1].
  assert (I h1) as HI1.
  { apply readXMLNodeValue_effect in E as [->|(nd & v & Hnd & ->)]; [done|].
    by apply Hvalue. }
  assert (cur < length h1)%nat as Hcur1 by lia.
  bind_inv H. destruct r as [[tag|d] file2]; cbn in H; [|done].
  destruct (tag_type tag).
  - cbn in H. bind_inv H. bind_inv H.
    destruct (attach_effect h1 cur tag r r0 Hb1)
      as (s & np & Hs & Hnp & Hlen2 & Hb2 & Hlink); [lia|done|done|].
    apply (IH _ _ _ _ _ _ _ (Hattach _ _ _ _ _ _ _ _ HI1 Hb1 Hcur1 E0
                               Hs Hnp Hlen2 Hlink) Hb2) in H; [done|lia].
  - bind_inv H. unfold load in E1.
    destruct (h1 !! cur) as [nd|] eqn:Hnd; [|done]. injection E1 as <-.
    destruct (node_parent nd) as [p|] eqn:Hp.
    + apply (IH _ _ _ _ _ _ _ HI1 Hb1) in H; [done|].
      destruct Hb1 as (_ & Hbelow & _). specialize (Hbelow cur nd p Hnd Hp).
      lia.
    + by injection H as <- <- <-.
  - cbn in H. bind_inv H. bind_inv H.
    destruct (attach_effect h1 cur tag r r0 Hb1)
      as (s & np & Hs & Hnp & Hlen2 & Hb2 & Hlink); [lia|done|done|].
    apply (IH _ _ _ _ _ _ _ (Hattach _ _ _ _ _ _ _ _ HI1 Hb1 Hcur1 E0
                               Hs Hnp Hlen2 Hlink) Hb2) in H; [done|lia].
  - apply (IH _ _ _ _ _ _ _ HI1 Hb1) in H; [done | lia].
Qed.

Lemma parseXMLFile_keeps (I : list XML_Node → Prop) :
  (∀ file tag file' s,
      readXMLTag file = Ok (Ptr tag, file') → tag_name tag = Some s →
      I [set_attr (rev (tag_attr tag)) (set_name (Some s) initXMLNode)]) →
  (∀ h n nd v, I h → built h → h !! n = Some nd →
               I (<[n := setXMLNodeValue v nd]> h)) →
  (∀ h cur file tag file' s np h2,
      I h → built h → (cur < length h)%nat →
      readXMLTag file = Ok (Ptr tag, file') →
      tag_name tag = Some s → h !! cur = Some np →
      length h2 = S (length h) →
      (∀ x, h2 !! x
            = link cur (length h) (node_last np) x
              <$> (h ++ [set_attr (rev (tag_attr tag))
                           (set_name (Some s) initXMLNode)]) !! x) →
      I h2) →
  ∀ file root h rest,
    parseXMLFile file = Ok (Ptr (root, h), rest) → I h.
Proof.
  intros Hroot Hvalue Hattach file root h rest H. unfold parseXMLFile in H.
  bind_inv H. destruct r as [[tag|d] file1]; cbn in H; [|done].
  case_decide; [done|]. cbn in H. case_decide.
  - bind_inv H. injection H as <- <- <-.
    pose proof E0 as Hnew.
    apply (initXMLNodeFromXMLTag_new []) in Hnew as (s & Hs & ->).
    by eapply Hroot.
  - bind_inv H. bind_inv H.
    pose proof E0 as Hnew.
    apply (initXMLNodeFromXMLTag_new []) in Hnew as (s & Hs & ->).
    apply (initXMLNodeFromXMLTag_fresh []) in E0 as (n & Hn & Hunl).
    destruct r0 as [[[cur h1]|d] file2]; cbn in H; [|done].
    case_decide; [done|]. injection H as <- <- <-.
    eapply (parseXMLFile_loop_keeps I Hvalue Hattach) in E1; [done|..].
    + by eapply Hroot.
    + rewrite Hn. by apply built_root.
    + cbn. lia.
Qed.

(** * The shape of a parsed tree (xml.c) *)

Lemma parseXMLFile_nonempty file root h rest :
  parseXMLFile file = Ok (Ptr (root, h), rest) → (0 < length h)%nat.
Proof.
  apply (parseXMLFile_keeps (λ h, (0 < length h)%nat)).
  - intros. cbn. lia.
  - intros. rewrite length_insert. lia.
  - intros. lia.
Qed.

Lemma built_connected h :
  built h →
  ∀ x, (x < length h)%nat → x ≠ 0%nat → ancestor h 0%nat x.
Proof.
  intros (_ & Hbelow & _ & Hroot) x.
  induction x as [x IH] using lt_wf_ind. intros Hx Hx0.
  destruct (lookup_lt_is_Some_2 h x Hx) as [n Hn].
  destruct (node_parent n) as [q|] eqn:Hq;
    [|by specialize (Hroot x n Hn Hq)].
  pose proof (Hbelow x n q Hn Hq) as Hlt.
  assert (parent_of h x q) as Hpar by (unfold parent_of; by rewrite Hn, <- Hq).
  unfold ancestor. destruct (decide (q = 0%nat)) as [->|Hq0].
  - by apply tc_once.
  - eapply tc_l; [exact Hpar|]. apply IH; [done|lia|done].
Qed.

(** X11.  The arena of a tree returned by [parseXMLFile]: the root is its
    first node and has no parent; every other node has a parent, allocated
    before it, and reaches the root by following [parent]; every node has
    a name. *)
Theorem parsed_tree_is_rooted :
  ∀ file root h rest,
    parseXMLFile file = Ok (Ptr (root, h), rest) →
    root = 0%nat
    ∧ (∃ r, h !! 0%nat = Some r ∧ node_parent r = None)
    ∧ (∀ x n, h !! x = Some n → x ≠ 0%nat →
              (∃ q, node_parent n = Some q ∧ (q < x)%nat)
              ∧ ancestor h 0%nat x)
    ∧ (∀ x n, h !! x = Some n → is_Some (node_name n)).
Proof.
  intros file root h rest H.
  pose proof (parseXMLFile_nonempty _ _ _ _ H) as Hlen.
  apply parseXMLFile_built in H as [Hb ->].
  pose proof Hb as (_ & Hbelow & Hnamed & Hroot).
  split; [done|]. split; [|split; [|done]].
  - destruct (lookup_lt_is_Some_2 h 0 Hlen) as [r Hr]. exists r.
    split; [done|]. destruct (node_parent r) as [q|] eqn:Hq; [|done].
    specialize (Hbelow 0%nat r q Hr Hq). lia.
  - intros x n Hn Hx. split.
    + destruct (node_parent n) as [q|] eqn:Hq.
      * exists q. split; [done|]. by eapply Hbelow.
      * by specialize (Hroot x n Hn Hq).
    + apply built_connected; [done| |done]. by eapply lookup_lt_Some.
Qed.

Lemma parsed_tree_is_rooted_witness :
  0%nat = 0%nat
  ∧ (∃ r, tree_of doc_values !! 0%nat = Some r ∧ node_parent r = None)
  ∧ (∀ x n, tree_of doc_values !! x = Some n → x ≠ 0%nat →
            (∃ q, node_parent n = Some q ∧ (q < x)%nat)
            ∧ ancestor (tree_of doc_values) 0%nat x)
  ∧ (∀ x n, tree_of doc_values !! x = Some n → is_Some (node_name n)).
Proof.
  apply (parsed_tree_is_rooted doc_values 0%nat (tree_of doc_values) []).
  vm_compute. reflexivity.
Defined.

(** * Termination (tag.c, attribute.c, node.c, xml.c) *)

Lemma reachNextXMLTag_loop_bounded fuel :
  ∀ file, (length file < fuel)%nat →
          bounded (length file) (reachNextXMLTag_loop fuel file).
Proof.
  induction fuel as [|fuel IH]; intros file Hfuel; [lia|].
  cbn [reachNextXMLTag_loop]. destruct file as [|a file]; cbn [fgetc].
  - by vm_compute.
  - cbn [length] in *. destruct (_ && _); [|cbn; lia].
    eapply bounded_mono; [apply IH; lia | lia].
Qed.

(** X12.  Every loop of the readers and of the tree builder ends, whatever
    the stream holds: [readXMLAttribute], [readXMLTag], [readXMLNodeValue],
    [reachNextXMLTag] and [parseXMLFile] each return, or store outside a
    buffer, within the turns the stream and the buffers allow; and what
    they leave of the stream is no longer than what they were given. *)
Theorem readers_and_builder_terminate :
  ∀ file,
    bounded (length file) (readXMLAttribute file)
    ∧ bounded (length file) (readXMLTag file)
    ∧ (∀ n h, bounded (length file) (readXMLNodeValue n file h))
    ∧ bounded (length file) (reachNextXMLTag file)
    ∧ bounded (length file) (parseXMLFile file).
Proof.
  intros file. repeat split.
  - eapply bounded_mono; [apply readXMLAttribute_bounded|lia].
  - apply readXMLTag_bounded.
  - intros n h. eapply bounded_mono; [apply readXMLNodeValue_bounded|lia].
  - apply reachNextXMLTag_loop_bounded. lia.
  - apply parseXMLFile_bounded.
Qed.

(** * Attribute queries (xml.c) *)

Lemma getXMLValue_attrname_spec an :
  ∀ fuel pre buf iBuf,
    Forall (λ a, a ≠ NUL) an →
    (iBuf + length an < XML_BUFFER_LENGTH)%nat →
    (iBuf + length an ≤ length buf)%nat →
    (length an < fuel)%nat →
    ∃ buf',
      getXMLValue_attrname fuel (pre ++ an) (length pre) buf iBuf
      = Ok (buf', (iBuf + length an)%nat, (length pre + length an)%nat)
      ∧ length buf' = length buf
      ∧ take (iBuf + length an) buf' = take iBuf buf ++ an.
Proof.
  induction an as [|a an IH]; intros fuel pre buf iBuf Hnz Hcap Hlen Hfuel;
    (destruct fuel as [|fuel]; [cbn in Hfuel; lia|]);
    cbn [getXMLValue_attrname].
  - rewrite app_nil_r, path_at_end. cbn [mbind outcome_bind].
    rewrite bool_decide_eq_false_2 by (by intros H; apply H).
    exists buf. cbn [length]. by rewrite !Nat.add_0_r, app_nil_r.
  - apply Forall_cons in Hnz as [Ha Hnz]. cbn [length] in *.
    rewrite path_at_middle. cbn [mbind outcome_bind].
    rewrite bool_decide_eq_true_2 by done.
    rewrite poke_in_bounds by lia. cbn [mbind outcome_bind].
    destruct (IH fuel (pre ++ [a]) (<[iBuf:=a]> buf) (S iBuf))
      as (buf' & E & Hlen' & Htake);
      try done; rewrite ?length_insert; try lia.
    rewrite length_app in E. cbn [length] in E.
    rewrite <- app_assoc in E. cbn [app] in E.
    replace (length pre + 1)%nat with (S (length pre)) in E by lia.
    exists buf'. rewrite E, Hlen', length_insert.
    replace (iBuf + S (length an))%nat with (S iBuf + length an)%nat by lia.
    replace (length pre + S (length an))%nat
      with (S (length pre) + length an)%nat by lia.
    split; [done|]. split; [done|]. rewrite Htake.
    rewrite (take_S_r _ _ a) by (apply list_lookup_insert_eq; lia).
    rewrite take_insert_ge by lia. by rewrite <- app_assoc.
Qed.

Lemma getXMLValue_findattr_spec name attrs :
  attrs_named attrs →
  getXMLValue_findattr name attrs = Ok (find_attr name attrs).
Proof.
  unfold find_attr. induction 1 as [|a attrs [s Hs] _ IH]; [done|].
  cbn [getXMLValue_findattr List.find]. rewrite Hs. cbn.
  destruct (decide (name = s)) as [->|Hne].
  - rewrite bool_decide_eq_false_2 by (by intros H; apply H).
    by rewrite bool_decide_eq_true_2.
  - rewrite bool_decide_eq_true_2 by done.
    by rewrite bool_decide_eq_false_2 by congruence.
Qed.

Lemma getXMLValue_loop_attr h fuel pre seg an n l :
  all_named h → segment_ok seg → wf_path_attr an → chain h n l →
  getXMLValue_loop (S fuel) h (pre ++ seg ++ ":"%char :: an) (length pre) n
  = match first_named h (string_of_list_ascii seg) l with
    | None => Ok (NULL (Some NoChildWithName))
    | Some a =>
      match h !! a with
      | None => Undefined InvalidPointer
      | Some nd =>
        attr ← getXMLValue_findattr (string_of_list_ascii an) (node_attr nd);
        match attr with
        | None => Ok (NULL (Some NoAttributeWithName))
        | Some attr =>
          match attr_value attr with
          | Some value => Ok (Ptr value)
          | None =>
            getXMLValue_loop fuel h (pre ++ seg ++ ":"%char :: an)
              (length (pre ++ seg ++ ":"%char :: an)) (Some a)
          end
        end
      end
    end.
Proof.
  intros Hnamed [Hseg Hshort] [Han Hanlen] Hch.
  assert (¬ segment_char ":") as Hdelim by (by intros (? & ? & ? & ?)).
  unfold getXMLValue_loop; fold getXMLValue_loop.
  assert (path_at (pre ++ seg ++ ":"%char :: an) (length pre)
          = Ok (hd ":"%char seg))
    as -> by (destruct seg; apply path_at_middle).
  cbn [mbind outcome_bind].
  destruct (getXMLValue_segment_spec seg path_fuel pre ":" an new_buffer 0)
    as (buf' & -> & Hlen' & Htake);
    try done; rewrite ?new_buffer_length; unfold path_fuel; try lia.
  cbn [mbind outcome_bind]. cbn [Nat.add] in *.
  rewrite new_buffer_length in Hlen'.
  rewrite poke_in_bounds by lia. cbn [mbind outcome_bind].
  rewrite decide_False by done.
  rewrite take_0 in Htake. cbn [app] in Htake.
  assert (Forall (λ a, a ≠ NUL) seg) as Hnz
    by (eapply Forall_impl; [exact Hseg | by intros ? (_ & _ & _ & ?)]).
  rewrite (cstr_terminated seg _ _ Htake Hnz) by lia.
  rewrite (getXMLValue_find_spec h _ Hnamed n l) by
    (try done; pose proof (chain_length h n l Hch); lia).
  cbn [mbind outcome_bind].
  destruct (first_named h (string_of_list_ascii seg) l) as [a|]; [|done].
  unfold load. destruct (h !! a) as [nd|]; [|done]. cbn [mbind outcome_bind].
  rewrite (decide_False (P := ":"%char = "/"%char)) by done.
  rewrite (decide_False (P := ":"%char = "$"%char)) by done.
  rewrite decide_True by done.
  replace (pre ++ seg ++ ":"%char :: an)
    with ((pre ++ seg ++ [":"%char]) ++ an)
    by (by rewrite <- !app_assoc).
  replace (S (length pre + length seg))
    with (length (pre ++ seg ++ [":"%char]))
    by (rewrite !length_app; cbn [length]; lia).
  destruct (getXMLValue_attrname_spec an (S (S XML_BUFFER_LENGTH))
              (pre ++ seg ++ [":"%char]) (<[length seg:=NUL]> buf') 0)
    as (buf2 & -> & Hlen2 & Htake2);
    [done|lia|rewrite length_insert; lia|lia|].
  cbn [mbind outcome_bind Nat.add] in *. rewrite length_insert in Hlen2.
  rewrite poke_in_bounds by lia. cbn [mbind outcome_bind].
  rewrite take_0 in Htake2. cbn [app] in Htake2.
  rewrite (cstr_terminated an _ _ Htake2 Han) by lia.
  by rewrite (length_app (pre ++ seg ++ [":"%char]) an).
Qed.

Lemma getXMLValue_loop_attr_resolves h a nd an :
  all_named h → h !! a = Some nd → attrs_named (node_attr nd) →
  wf_path_attr an →
  ∀ segs n, resolves h segs n a → Forall segment_ok segs →
  ∀ pre fuel, (length segs < fuel)%nat →
    getXMLValue_loop fuel h (pre ++ path_of segs ++ ":"%char :: an)
                     (length pre) n
    = Ok (attr_result (string_of_list_ascii an) (node_attr nd)).
Proof.
  intros Hnamed Ha Hattrs Han segs n Hres.
  induction Hres as [seg n l a Hch Hfind|seg segs n l a' nd' a Hch Hfind Ha'
                                          Hne Hres IH];
    intros Hok pre fuel Hfuel; apply Forall_cons in Hok as [Hseg Hok];
    (destruct fuel as [|fuel]; [cbn in Hfuel; lia|]).
  - cbn [path_of].
    rewrite (getXMLValue_loop_attr h fuel pre seg an n l) by auto.
    rewrite Hfind, Ha. rewrite getXMLValue_findattr_spec by done.
    cbn [mbind outcome_bind]. unfold attr_result.
    destruct (find_attr _ (node_attr nd)) as [attr|]; [|done].
    destruct (attr_value attr); [done|].
    destruct fuel as [|fuel]; [cbn in Hfuel; lia|].
    apply getXMLValue_loop_end.
  - assert (path_of (seg :: segs) = seg ++ "/"%char :: path_of segs) as ->
      by (by destruct segs).
    rewrite <- (app_assoc seg). cbn [app].
    rewrite (getXMLValue_loop_step h fuel pre seg "/" _ n l) by auto.
    rewrite Hfind, Ha'. rewrite decide_True by done.
    specialize (IH Ha Hok (pre ++ seg ++ ["/"%char]) fuel).
    rewrite !length_app in IH. cbn [length] in IH.
    replace (length pre + (length seg + 1))%nat
      with (S (length pre + length seg)) in IH by lia.
    rewrite <- IH by (cbn in Hfuel; lia).
    f_equal. rewrite <- !app_assoc. done.
Qed.

(** X13.  An attribute query: the segments of the path select a node as
    for a value query, and what follows ':' up to the end of the path is
    the attribute's name (it may hold '/', '$' or ':').  The attributes of
    the node are searched from the head of its list and the value of the
    first one with that name is returned; when none has it, [NULL] is
    returned ("Didn't find an attribute with this name"). *)
Theorem getXMLValue_colon_returns_attribute :
  ∀ h root segs a nd an,
    all_named h → Forall segment_ok segs →
    resolves h segs root a → h !! a = Some nd →
    attrs_named (node_attr nd) → wf_path_attr an →
    getXMLValue (path_of segs ++ ":"%char :: an) h root
    = Ok (match find_attr (string_of_list_ascii an) (node_attr nd) with
          | None => NULL (Some NoAttributeWithName)
          | Some attr =>
            match attr_value attr with
            | Some value => Ptr value
            | None => NULL (Some PathWithoutSelector)
            end
          end).
Proof.
  intros h root segs a nd an Hnamed Hok Hres Ha Hattrs Han.
  unfold getXMLValue.
  apply (getXMLValue_loop_attr_resolves h a nd an Hnamed Ha Hattrs Han segs
           root Hres Hok []).
  rewrite length_app. cbn [length]. pose proof (path_of_length segs). lia.
Qed.

Lemma getXMLValue_colon_returns_attribute_witness :
  getXMLValue (path_of [str "root"; str "foo"; str "bar"]
               ++ ":"%char :: str "baz") (tree_of doc_values) (Some 0%nat)
  = Ok (Ptr "1"%string).
Proof.
  etrans.
  { apply (getXMLValue_colon_returns_attribute (tree_of doc_values)
             (Some 0%nat) [str "root"; str "foo"; str "bar"] 2%nat
             (default initXMLNode (tree_of doc_values !! 2%nat)) (str "baz")).
    - exact tree_of_doc_values_named.
    - repeat constructor; try (intros Hc; discriminate Hc);
        rewrite XML_BUFFER_LENGTH_eq; cbn; lia.
    - eapply (resolves_step _ _ _ _ [0%nat] 0%nat);
        [ | vm_compute; reflexivity | vm_compute; reflexivity | done | ].
      + eapply chain_cons; [vm_compute; reflexivity|]. constructor.
      + eapply (resolves_step _ _ _ _ [1%nat] 1%nat);
          [ | vm_compute; reflexivity | vm_compute; reflexivity | done | ].
        * eapply chain_cons; [vm_compute; reflexivity|]. constructor.
        * eapply (resolves_last _ _ _ [2%nat]); [|vm_compute; reflexivity].
          eapply chain_cons; [vm_compute; reflexivity|]. constructor.
    - vm_compute. reflexivity.
    - vm_compute. repeat constructor. by eexists.
    - wf_now. }
  vm_compute. reflexivity.
Defined.

(** * Paths without a selector, and segments too long (xml.c) *)

Lemma path_at_in path i c :
  path_at path i = Ok c → c ∈ path ∨ c = NUL.
Proof.
  unfold path_at. destruct (path !! i) as [x|] eqn:Hx.
  - intros [= <-]. left. by eapply list_elem_of_lookup_2.
  - case_decide; [intros [= <-]; by right|done].
Qed.

Lemma path_at_Ok path i :
  (i ≤ length path)%nat → ∃ c, path_at path i = Ok c.
Proof.
  intros Hi. unfold path_at. destruct (path !! i) as [x|] eqn:Hx; [by eauto|].
  apply lookup_ge_None in Hx. rewrite decide_True by lia. by eauto.
Qed.

Lemma getXMLValue_segment_char fuel :
  ∀ path iPath c buf iBuf buf' iBuf' iPath' c',
    getXMLValue_segment fuel path iPath c buf iBuf
    = Ok (buf', iBuf', iPath', c') →
    c ∈ path ∨ c = NUL → c' ∈ path ∨ c' = NUL.
Proof.
  induction fuel as [|fuel IH];
    intros path iPath c buf iBuf buf' iBuf' iPath' c' H Hc; [done|].
  cbn [getXMLValue_segment] in H. destruct (_ && _).
  - bind_inv H. bind_inv H. apply path_at_in in E0. by eapply IH.
  - by injection H as <- <- <- <-.
Qed.

Lemma getXMLValue_loop_no_selector fuel :
  ∀ h path iPath n v,
    ":"%char ∉ path → "$"%char ∉ path →
    getXMLValue_loop fuel h path iPath n ≠ Ok (Ptr v).
Proof.
  induction fuel as [|fuel IH]; intros h path iPath n v Hcolon Hdollar H;
    [done|].
  unfold getXMLValue_loop in H; fold getXMLValue_loop in H.
  bind_inv H. apply path_at_in in E. bind_inv H.
  destruct r0 as [[[buf iBuf] iPath'] c]. cbn in H.
  apply getXMLValue_segment_char in E0; [|done].
  bind_inv H. case_decide; [done|]. bind_inv H.
  destruct r1 as [a|]; [|done]. bind_inv H.
  assert (c ∈ path) as Hin by (by destruct E0).
  case_decide; [by eapply IH|].
  case_decide; [by subst c|]. case_decide; [by subst c|].
  by eapply IH.
Qed.

Lemma getXMLValue_segment_long seg :
  ∀ fuel pre rest c buf iBuf,
    Forall segment_char seg →
    path_at (pre ++ seg ++ rest) (length pre) = Ok c →
    (iBuf ≤ XML_BUFFER_LENGTH)%nat →
    (XML_BUFFER_LENGTH ≤ iBuf + length seg)%nat →
    (XML_BUFFER_LENGTH - iBuf < fuel)%nat →
    getXMLValue_segment fuel (pre ++ seg ++ rest) (length pre) c buf iBuf
    = Undefined OutOfBoundsWrite
    ∨ ∃ buf' iPath' c',
        getXMLValue_segment fuel (pre ++ seg ++ rest) (length pre) c buf iBuf
        = Ok (buf', XML_BUFFER_LENGTH, iPath', c').
Proof.
  induction seg as [|a seg IH];
    intros fuel pre rest c buf iBuf Hseg Hc Hi Hlen Hfuel;
    (destruct fuel as [|fuel]; [lia|]); cbn [getXMLValue_segment].
  - cbn [length] in Hlen. assert (iBuf = XML_BUFFER_LENGTH) as -> by lia.
    destruct (_ && _); [|by eauto 6].
    left. by rewrite poke_out_of_bounds.
  - apply Forall_cons in Hseg as [Ha Hseg]. cbn [length] in Hlen.
    cbn [app] in Hc. rewrite path_at_middle in Hc. injection Hc as <-.
    rewrite segment_char_test by done.
    destruct (decide (iBuf = XML_BUFFER_LENGTH)) as [->|Hne].
    { left. by rewrite poke_out_of_bounds. }
    rewrite poke_in_bounds by lia. cbn [mbind outcome_bind].
    replace (pre ++ (a :: seg) ++ rest)
      with ((pre ++ [a]) ++ seg ++ rest) by (by rewrite <- app_assoc).
    replace (S (length pre)) with (length (pre ++ [a]))
      by (rewrite length_app; cbn; lia).
    destruct (path_at_Ok ((pre ++ [a]) ++ seg ++ rest) (length (pre ++ [a])))
      as [c' Hc']; [rewrite !length_app; lia|].
    rewrite Hc'. cbn [mbind outcome_bind].
    apply IH; try done; lia.
Qed.

Lemma getXMLValue_long_segment seg rest h root :
  Forall segment_char seg → (XML_BUFFER_LENGTH ≤ length seg)%nat →
  getXMLValue (seg ++ rest) h root = Undefined OutOfBoundsWrite.
Proof.
  intros Hseg Hlen. unfold getXMLValue.
  unfold getXMLValue_loop; fold getXMLValue_loop.
  destruct (path_at_Ok (seg ++ rest) 0) as [c Hc]; [lia|].
  rewrite Hc. cbn [mbind outcome_bind].
  destruct (getXMLValue_segment_long seg path_fuel [] rest c new_buffer 0)
    as [E|(buf' & iPath' & c' & E)];
    [done|done|lia|lia|unfold path_fuel; lia|..];
    cbn [app length] in E; rewrite E.
  - done.
  - cbn [mbind outcome_bind]. by rewrite poke_out_of_bounds.
Qed.

(** X14.  A path that holds neither ':' nor '$' never makes [getXMLValue]
    return a value, whatever the tree: the function gives [NULL] (or runs
    into undefined behaviour); a node alone is not a value. *)
Theorem getXMLValue_needs_selector :
  ∀ path h root v,
    ":"%char ∉ path → "$"%char ∉ path →
    getXMLValue path h root ≠ Ok (Ptr v).
Proof.
  intros path h root v Hcolon Hdollar. unfold getXMLValue.
  by apply getXMLValue_loop_no_selector.
Qed.

Lemma getXMLValue_needs_selector_witness :
  getXMLValue (str "root/foo/bar") (tree_of doc_values) (Some 0%nat)
  ≠ Ok (Ptr "hi"%string).
Proof.
  apply (getXMLValue_needs_selector (str "root/foo/bar") (tree_of doc_values)
           (Some 0%nat) "hi"%string).
  - cbn. intros Hin.
    repeat (apply elem_of_cons in Hin as [Hin|Hin]; [done|]).
    by apply elem_of_nil in Hin.
  - cbn. intros Hin.
    repeat (apply elem_of_cons in Hin as [Hin|Hin]; [done|]).
    by apply elem_of_nil in Hin.
Defined.

(** X15.  The scratch buffer of [getXMLValue] has [XML_BUFFER_LENGTH]
    cells and the segment loop does not test the index: a path whose first
    segment has that many characters or more is stored past the end of the
    buffer, before the tree is looked at. *)
Theorem getXMLValue_overlong_segment_overflows :
  ∀ seg rest h root,
    Forall segment_char seg → (XML_BUFFER_LENGTH ≤ length seg)%nat →
    getXMLValue (seg ++ rest) h root = Undefined OutOfBoundsWrite.
Proof. intros seg rest h root. apply getXMLValue_long_segment. Qed.

Lemma getXMLValue_overlong_segment_overflows_witness :
  getXMLValue (replicate 200 "a"%char ++ str "$") (tree_of doc_values)
              (Some 0%nat)
  = Undefined OutOfBoundsWrite.
Proof.
  apply (getXMLValue_overlong_segment_overflows (replicate 200 "a"%char)
           (str "$") (tree_of doc_values) (Some 0%nat)).
  - apply Forall_replicate. by repeat split.
  - by rewrite length_replicate, XML_BUFFER_LENGTH_eq.
Defined.

(** * Attribute names have no '=' (attribute.c, tag.c, xml.c) *)

Lemma cstr_insert_NUL buf :
  ∀ i x, (i < length buf)%nat →
         x ∈ list_ascii_of_string (cstr (<[i:=NUL]> buf)) → x ∈ take i buf.
Proof.
  induction buf as [|b buf IH]; intros i x Hi Hx; [cbn in Hi; lia|].
  destruct i as [|i]; cbn in Hx.
  - rewrite decide_True in Hx by done. by apply elem_of_nil in Hx.
  - case_decide; [by apply elem_of_nil in Hx|].
    cbn in Hx. apply elem_of_cons in Hx as [->|Hx]; cbn [take].
    + by left.
    + right. apply IH; [cbn in Hi; lia|done].
Qed.

Lemma readXMLAttribute_loop_plain fuel (stop : ascii) :
  ∀ file c buf i buf' i' file',
    readXMLAttribute_loop fuel (chr stop) file c buf i = Ok (buf', i', file') →
    (c = EOF ∨ ∃ a, c = chr a) →
    length buf = XML_BUFFER_LENGTH → (i ≤ XML_BUFFER_LENGTH)%nat →
    stop ≠ "255"%char →
    Forall (λ a, a ≠ stop) (take i buf) →
    Forall (λ a, a ≠ stop) (take i' buf')
    ∧ length buf' = XML_BUFFER_LENGTH ∧ (i' ≤ XML_BUFFER_LENGTH)%nat.
Proof.
  induction fuel as [|fuel IH];
    intros file c buf i buf' i' file' H Hc Hlen Hi Hstop Hpre; [done|].
  cbn [readXMLAttribute_loop] in H. destruct (c =? chr stop) eqn:Hcs.
  - by injection H as <- <- <-.
  - bind_inv H. unfold poke in E.
    destruct (i <? XML_BUFFER_LENGTH)%nat eqn:Hlt; [|done].
    injection E as <-. apply Nat.ltb_lt in Hlt.
    destruct (fgetc file) as [c1 file1] eqn:Hget.
    apply IH in H; [done|..].
    + destruct file as [|a file]; cbn in Hget; injection Hget as <- <-; eauto.
    + by rewrite length_insert.
    + lia.
    + done.
    + rewrite (take_S_r _ _ (to_char c))
        by (apply list_lookup_insert_eq; lia).
      rewrite take_insert_ge by lia. apply Forall_app. split; [done|].
      apply Forall_singleton. destruct Hc as [->|[a ->]]; [done|].
      rewrite to_char_chr. intros ->. by rewrite Z.eqb_refl in Hcs.
Qed.

Lemma readXMLAttribute_plain file attr file' :
  readXMLAttribute file = Ok (Ptr attr, file') → plain_name attr.
Proof.
  unfold readXMLAttribute. intros H.
  destruct (fgetc file) as [c file1] eqn:Hget.
  bind_inv H. destruct r as [[buf i] file2].
  apply (readXMLAttribute_loop_plain _ "=") in E as (Hplain & Hlen & Hi);
    [|destruct file; cbn in Hget; injection Hget as <- <-; by eauto
     |apply new_buffer_length|lia|done|by rewrite take_0].
  cbn in H. bind_inv H. unfold poke in E.
  destruct (i <? XML_BUFFER_LENGTH)%nat eqn:Hlt; [|done].
  injection E as <-. apply Nat.ltb_lt in Hlt.
  destruct (fgetc file2) as [c2 file3]. destruct (negb _); [done|].
  destruct (fgetc file3) as [c3 file4].
  bind_inv H. destruct r as [[buf3 i3] file5]. cbn in H. bind_inv H.
  injection H as <- <-.
  eexists. split; [done|]. intros Hin.
  apply cstr_insert_NUL in Hin; [|lia].
  rewrite Forall_forall in Hplain. by apply (Hplain _ Hin).
Qed.

Lemma addAttributeToXMLTag_plain attr tag :
  from_option plain_name True attr →
  Forall plain_name (tag_attr tag) →
  Forall plain_name (tag_attr (addAttributeToXMLTag attr tag)).
Proof.
  intros Hattr Htag. destruct attr as [a|]; [|done].
  rewrite addAttributeToXMLTag_head. by apply Forall_cons.
Qed.

Lemma readXMLTag_attrs_plain fuel :
  ∀ file c tag c' tag' file',
    readXMLTag_attrs fuel file c tag = Ok (c', tag', file') →
    Forall plain_name (tag_attr tag) →
    Forall plain_name (tag_attr tag').
Proof.
  induction fuel as [|fuel IH]; intros file c tag c' tag' file' H Htag;
    [done|].
  cbn [readXMLTag_attrs] in H. destruct (c =? chr " ").
  - bind_inv H. destruct r as [attr file1]. cbn in H.
    destruct (fgetc file1) as [c1 file2].
    apply IH in H; [done|]. apply addAttributeToXMLTag_plain; [|done].
    destruct attr as [a|]; [|done]. by eapply readXMLAttribute_plain.
  - by injection H as <- <- <-.
Qed.

Lemma readXMLTag_plain file tag file' :
  readXMLTag file = Ok (Ptr tag, file') → Forall plain_name (tag_attr tag).
Proof.
  unfold readXMLTag. intros H.
  destruct (fgetc file) as [c0 file0].
  destruct (if c0 =? chr "<" then fgetc file0 else (c0, file0))
    as [c1 file1].
  bind_inv H. destruct r as [[tag0 buf0] i0].
  assert (tag_attr tag0 = []) as Htag0.
  { destruct (c1 =? chr "/"); [by injection E as <- <- <-|].
    bind_inv E. by injection E as <- <- <-. }
  clear E. cbn [mbind outcome_bind] in H. destruct (fgetc file1) as [c2 file2].
  bind_inv H. clear E.
  destruct r as [[[[c3 buf3] i3]|] file3]; cbn [mbind outcome_bind] in H;
    [|done].
  bind_inv H. clear E.
  set (tag1 := setXMLTagName (cstr r) tag0) in *.
  assert (tag_attr tag1 = []) as Htag1 by done.
  clearbody tag1.
  match type of H with
  | match ?e with _ => _ end = _ =>
    destruct e as [[[c4 tag2]|d] file4] eqn:Hafter; [|done]
  end.
  assert (tag_attr tag2 = []) as Htag2.
  { clear H. repeat (case_match; simplify_eq; try done). }
  clear Hafter. bind_inv H. destruct r0 as [[c5 tag3] file5].
  assert (Forall plain_name (tag_attr tag3)) as Htag3.
  { clear H. case_decide.
    - apply bind_Ok_inv in E as ([[c6 tag4] file6] & Eattrs & E).
      apply readXMLTag_attrs_plain in Eattrs; [|by rewrite Htag2].
      repeat (case_match; simplify_eq; try done).
    - injection E as <- <- <-. by rewrite Htag2. }
  cbn [mbind outcome_bind] in H.
  destruct (negb _); [done|]. by injection H as <- <-.
Qed.

Lemma link_attr p c l0 x n : node_attr (link p c l0 x n) = node_attr n.
Proof.
  unfold link. destruct l0; repeat case_decide; by destruct n.
Qed.

Lemma parseXMLFile_attrs_plain file root h rest :
  parseXMLFile file = Ok (Ptr (root, h), rest) → attrs_plain h.
Proof.
  apply (parseXMLFile_keeps attrs_plain).
  - intros file0 tag file' s Htag Hs x n Hx.
    apply list_lookup_singleton_Some in Hx as [_ <-]. cbn [node_attr set_attr].
    apply Forall_rev. by eapply readXMLTag_plain.
  - intros h0 n nd v Hplain _ Hn x n' Hx.
    destruct (decide (x = n)) as [->|Hne].
    + rewrite list_lookup_insert_eq in Hx by eauto using lookup_lt_Some.
      injection Hx as <-. by apply (Hplain n nd).
    + rewrite list_lookup_insert_ne in Hx by done. by apply (Hplain x).
  - intros h0 cur file0 tag file' s np h2 Hplain _ _ Htag Hs Hnp _ Hlink x n Hx.
    rewrite Hlink in Hx.
    destruct ((h0 ++ _) !! x) as [n1|] eqn:Hn1; [|done].
    injection Hx as <-. rewrite link_attr.
    apply lookup_app_Some in Hn1 as [Hn1|[_ Hn1]]; [by apply (Hplain x)|].
    apply list_lookup_singleton_Some in Hn1 as [_ <-].
    cbn [node_attr set_attr]. apply Forall_rev. by eapply readXMLTag_plain.
Qed.

(** * Node queries on a parsed tree (xml.c) *)

Lemma getXMLNode_copy_ends fuel stop bound :
  ∀ path iPath buf iBuf buf' iBuf' iPath' c',
    getXMLNode_copy fuel stop bound path iPath buf iBuf
    = Ok (buf', iBuf', iPath', c') →
    length buf = XML_BUFFER_LENGTH → (iBuf ≤ XML_BUFFER_LENGTH)%nat →
    Forall (λ a, a ≠ NUL) (take iBuf buf) → c' ≠ NUL →
    length buf' = XML_BUFFER_LENGTH ∧ (iBuf' ≤ XML_BUFFER_LENGTH)%nat
    ∧ Forall (λ a, a ≠ NUL) (take iBuf' buf')
    ∧ c' ∈ take iBuf' buf'.
Proof.
  induction fuel as [|fuel IH];
    intros path iPath buf iBuf buf' iBuf' iPath' c' H Hlen Hi Hnz Hc';
    [done|].
  cbn [getXMLNode_copy] in H. bind_inv H. bind_inv H. unfold poke in E0.
  destruct (iBuf <? XML_BUFFER_LENGTH)%nat eqn:Hlt; [|done].
  injection E0 as <-. apply Nat.ltb_lt in Hlt.
  assert (take (S iBuf) (<[iBuf:=r]> buf) = take iBuf buf ++ [r]) as Htake.
  { rewrite (take_S_r _ _ r) by (apply list_lookup_insert_eq; lia).
    by rewrite take_insert_ge by lia. }
  destruct (bool_decide (r ≠ stop) && bool_decide (r ≠ NUL) && bound (S iBuf))
    eqn:Hgo.
  - apply IH in H; [done|by rewrite length_insert|lia| |done].
    rewrite Htake. apply Forall_app. split; [done|]. apply Forall_singleton.
    apply andb_prop in Hgo as [Hgo _]. apply andb_prop in Hgo as [_ Hgo].
    by apply bool_decide_eq_true_1 in Hgo.
  - injection H as <- <- <- <-. rewrite length_insert.
    split; [done|]. split; [lia|]. rewrite Htake. split.
    + apply Forall_app. split; [done|]. by apply Forall_singleton.
    + apply elem_of_app. right. by apply list_elem_of_singleton.
Qed.

Lemma getXMLNode_attrs_plain attrs ab vb :
  Forall plain_name attrs → "="%char ∈ list_ascii_of_string ab →
  getXMLNode_attrs attrs ab vb false = Ok (false, []).
Proof.
  intros Hattrs Hab. induction Hattrs as [|a attrs (s & Hs & Hplain) _ IH];
    [done|].
  cbn [getXMLNode_attrs]. rewrite Hs. cbn.
  rewrite bool_decide_eq_true_2 by (by intros ->). by cbn.
Qed.

(** * Removing a child (node.c) *)

Lemma store_Some h x f n :
  h !! x = Some n → store x f h = Ok (<[x := f n]> h).
Proof. intros H. unfold store. by rewrite (load_Some _ _ _ H). Qed.

Lemma lookup_insert_valid (h : list XML_Node) i j x n :
  h !! i = Some n →
  (<[i:=x]> h) !! j = if decide (j = i) then Some x else h !! j.
Proof.
  intros Hi. case_decide as E.
  - subst j. apply list_lookup_insert_eq. by eapply lookup_lt_Some.
  - by apply list_lookup_insert_ne.
Qed.

(** Lookups in an arena written as a sequence of stores. *)
Ltac lookup_stores :=
  first
    [ eassumption
    | erewrite lookup_insert_valid by lookup_stores;
      first [ rewrite decide_True by done | rewrite decide_False by done ];
      first [ reflexivity | lookup_stores ] ].

Ltac run_stores :=
  repeat first
    [ progress cbn [mbind outcome_bind]
    | progress
        (unfold set_name, set_value, set_attr, set_parent, set_previous,
           set_next, set_first, set_current, set_last, set_cc;
         cbn [node_name node_value node_attr node_parent node_previous
              node_next node_first node_current node_last node_cc])
    | erewrite load_Some by lookup_stores
    | erewrite store_Some by lookup_stores
    | rewrite decide_True by done
    | rewrite decide_False by done ].

(** The arena is the same at [j] after a sequence of stores. *)
Ltac same_lookup :=
  repeat (erewrite lookup_insert_valid by lookup_stores;
          first [ rewrite decide_True by done | rewrite decide_False by done ]);
  first [ done
        | match goal with
          | H : ?h !! ?j = Some _ |- _ = ?h !! ?j =>
            rewrite H; do 2 f_equal; lia
          end ].

Lemma delete_after_add_first h p c np nc :
  p ≠ c → h !! p = Some np → h !! c = Some nc →
  node_parent nc = None → node_previous nc = None → node_next nc = None →
  node_last np = None → node_first np = None → node_current np = None →
  ∃ h1, addXMLNodeToParent (Some p) (Some c) h = Ok h1
        ∧ deleteXMLNodeFromParent (Some c) h1 = Ok h.
Proof.
  intros Hpc Hp Hc Hpar Hprev Hnext Hlast Hfirst Hcur.
  assert (c ≠ p) as Hcp by done.
  destruct np, nc. cbn in Hpar, Hprev, Hnext, Hlast, Hfirst, Hcur. subst.
  unfold addXMLNodeToParent. run_stores.
  eexists. split; [done|].
  unfold deleteXMLNodeFromParent. run_stores.
  f_equal. apply list_eq. intros j.
  destruct (decide (j = p)) as [->|Hjp];
    [|destruct (decide (j = c)) as [->|Hjc]]; same_lookup.
Qed.

Lemma delete_after_add_last h p c l np nc nl :
  p ≠ c → l ≠ c → h !! p = Some np → h !! c = Some nc → h !! l = Some nl →
  node_parent nc = None → node_previous nc = None → node_next nc = None →
  node_last np = Some l → node_next nl = None →
  node_first np ≠ Some c → node_current np ≠ Some c →
  ∃ h1, addXMLNodeToParent (Some p) (Some c) h = Ok h1
        ∧ deleteXMLNodeFromParent (Some c) h1 = Ok h.
Proof.
  intros Hpc Hlc Hp Hc Hl Hpar Hprev Hnext Hlast Hlnext Hfirst Hcur.
  assert (c ≠ p) as Hcp by done. assert (c ≠ l) as Hcl by done.
  destruct (decide (l = p)) as [->|Hlp].
  - rewrite Hp in Hl. injection Hl as <-.
    destruct np, nc.
    cbn in Hpar, Hprev, Hnext, Hlast, Hlnext, Hfirst, Hcur. subst.
    unfold addXMLNodeToParent. run_stores.
    eexists. split; [done|].
    unfold deleteXMLNodeFromParent. run_stores.
    f_equal. apply list_eq. intros j.
    destruct (decide (j = p)) as [->|Hjp];
      [|destruct (decide (j = c)) as [->|Hjc]]; same_lookup.
  - assert (p ≠ l) as Hpl by done.
    destruct np, nc, nl.
    cbn in Hpar, Hprev, Hnext, Hlast, Hlnext, Hfirst, Hcur. subst.
    unfold addXMLNodeToParent. run_stores.
    eexists. split; [done|].
    unfold deleteXMLNodeFromParent. run_stores.
    f_equal. apply list_eq. intros j.
    destruct (decide (j = p)) as [->|Hjp];
      [|destruct (decide (j = c)) as [->|Hjc];
        [|destruct (decide (j = l)) as [->|Hjl]]]; same_lookup.
Qed.

(** X17.  [deleteXMLNodeFromParent] undoes [addXMLNodeToParent].  When a
    node [c] without parent nor siblings is added to another node [p] that
    does not refer to it, and then deleted from its parent, every node of
    the arena is back to what it was: the count, [first], [current] and
    [last] of [p], the [next] of the former last child, and the links of
    [c].  (The parent is assumed consistent: without a last child it has
    no first nor current child; its last child, if any, has no next
    sibling.)  A [NULL] node, or a node without parent, is left alone. *)
Theorem deleteXMLNodeFromParent_undoes_add :
  (∀ h, deleteXMLNodeFromParent None h = Ok h)
  ∧ (∀ h c nc,
      h !! c = Some nc → node_parent nc = None →
      deleteXMLNodeFromParent (Some c) h = Ok h)
  ∧ (∀ h p c np nc,
      p ≠ c → h !! p = Some np → h !! c = Some nc →
      node_parent nc = None → node_previous nc = None →
      node_next nc = None →
      node_first np ≠ Some c → node_current np ≠ Some c →
      (node_last np = None →
       node_first np = None ∧ node_current np = None) →
      (∀ l, node_last np = Some l →
            l ≠ c ∧ ∃ nl, h !! l = Some nl ∧ node_next nl = None) →
      ∃ h1, addXMLNodeToParent (Some p) (Some c) h = Ok h1
            ∧ deleteXMLNodeFromParent (Some c) h1 = Ok h).
Proof.
  split; [done|]. split.
  - intros h c nc Hc Hpar. unfold deleteXMLNodeFromParent.
    rewrite (load_Some _ _ _ Hc). cbn [mbind outcome_bind]. by rewrite Hpar.
  - intros h p c np nc Hpc Hp Hc Hpar Hprev Hnext Hfirst Hcur Hempty Hlast.
    destruct (node_last np) as [l|] eqn:El.
    + destruct (Hlast l eq_refl) as (Hlc & nl & Hl & Hlnext).
      by eapply delete_after_add_last.
    + destruct (Hempty eq_refl) as [Hf Hcu].
      by eapply delete_after_add_first.
Qed.

Lemma deleteXMLNodeFromParent_undoes_add_witness :
  ∃ h1, addXMLNodeToParent (Some 0%nat) (Some 1%nat) two_unlinked = Ok h1
        ∧ deleteXMLNodeFromParent (Some 1%nat) h1 = Ok two_unlinked.
Proof.
  apply (proj2 (proj2 deleteXMLNodeFromParent_undoes_add) two_unlinked
           0%nat 1%nat (set_name (Some "a"%string) initXMLNode)
           (set_name (Some "b"%string) initXMLNode)); try done.
Defined.

(** * Loading a file (xml.c) *)

Lemma fgets_loop_line line :
  ∀ n doc, "010"%char ∉ line → (length line < n)%nat →
           fgets_loop n (line ++ "010"%char :: doc)
           = (line ++ ["010"%char], doc).
Proof.
  induction line as [|a line IH]; intros n doc Hline Hn;
    (destruct n as [|n]; [cbn in Hn; lia|]); cbn [app fgets_loop].
  - by rewrite decide_True.
  - apply not_elem_of_cons in Hline as [Ha Hline].
    rewrite decide_False by done. rewrite IH by (done || cbn in Hn; lia).
    done.
Qed.

Lemma fgets_loop_full line :
  ∀ doc, "010"%char ∉ line →
         fgets_loop (length line) (line ++ doc) = (line, doc).
Proof.
  induction line as [|a line IH]; intros doc Hline; cbn [app fgets_loop length].
  - by destruct doc.
  - apply not_elem_of_cons in Hline as [Ha Hline].
    rewrite decide_False by done. by rewrite IH.
Qed.

Lemma cstr_string line :
  Forall (λ a, a ≠ NUL) line →
  cstr (line ++ [NUL]) = string_of_list_ascii line.
Proof.
  induction 1 as [|a line Ha _ IH]; cbn.
  - by rewrite decide_True.
  - rewrite decide_False by done. by rewrite IH.
Qed.

(** X18.  [loadXMLFile] does not use what [checkFirstLineXMLFile]
    returns.  The first line of the file (up to its line feed, or its first
    [XML_BUFFER_LENGTH - 1] characters when it is longer) is consumed by
    the check and the rest is parsed, whether or not that line is the XML
    declaration; the check itself returns 1 exactly for the declaration.
    When the file cannot be opened, the [NULL] stream is handed to
    [parseXMLFile]. *)
Theorem loadXMLFile_discards_first_line :
  loadXMLFile None = Undefined InvalidPointer
  ∧ (∀ line doc,
      "010"%char ∉ line → (S (length line) < XML_BUFFER_LENGTH)%nat →
      loadXMLFile (Some (line ++ "010"%char :: doc)) = parseXMLFile doc
      ∧ (Forall (λ a, a ≠ NUL) line →
         (checkFirstLineXMLFile (Some (line ++ "010"%char :: doc))).1 = 1
         ↔ line ++ ["010"%char] = XML_FIRST_LINE))
  ∧ (∀ line doc,
      "010"%char ∉ line → S (length line) = XML_BUFFER_LENGTH →
      loadXMLFile (Some (line ++ doc)) = parseXMLFile doc).
Proof.
  split; [done|]. split.
  - intros line doc Hline Hlen.
    assert (fgets XML_BUFFER_LENGTH (line ++ "010"%char :: doc)
            = (Some (line ++ ["010"%char]), doc)) as Hgets.
    { unfold fgets.
      destruct (line ++ "010"%char :: doc) as [|a l] eqn:E;
        [by destruct line|].
      rewrite <- E. by rewrite fgets_loop_line by (done || lia). }
    split.
    + unfold loadXMLFile, checkFirstLineXMLFile. by rewrite Hgets.
    + intros Hnz. unfold checkFirstLineXMLFile. rewrite Hgets. cbn [fst].
      rewrite cstr_string
        by (apply Forall_app; split; [done|by apply Forall_singleton]).
      case_decide as E; split; try done.
      * intros _. apply (f_equal list_ascii_of_string) in E.
        by rewrite !list_ascii_of_string_of_list_ascii in E.
      * intros E'. by rewrite E' in E.
  - intros line doc Hline Hlen.
    unfold loadXMLFile, checkFirstLineXMLFile, fgets.
    destruct (line ++ doc) as [|a l] eqn:E.
    { destruct line; [cbn in Hlen|done].
      by rewrite XML_BUFFER_LENGTH_eq in Hlen. }
    rewrite <- E, <- Hlen. cbn [Nat.sub]. rewrite Nat.sub_0_r.
    by rewrite fgets_loop_full.
Qed.

Lemma loadXMLFile_discards_first_line_witness :
  loadXMLFile (Some (str "<a>" ++ "010"%char :: str "<b/></a>"))
  = parseXMLFile (str "<b/></a>")
  ∧ (Forall (λ a, a ≠ NUL) (str "<a>") →
     (checkFirstLineXMLFile
        (Some (str "<a>" ++ "010"%char :: str "<b/></a>"))).1 = 1
     ↔ str "<a>" ++ ["010"%char] = XML_FIRST_LINE).
Proof.
  apply (proj1 (proj2 loadXMLFile_discards_first_line) (str "<a>")
           (str "<b/></a>")).
  - cbn. intros Hin.
    repeat (apply elem_of_cons in Hin as [Hin|Hin]; [done|]).
    by apply elem_of_nil in Hin.
  - rewrite XML_BUFFER_LENGTH_eq. cbn. lia.
Defined.

(** * Documents as trees: the arena of a tree *)

Lemma xml_ind (P : xml → Prop) :
  (∀ name attrs value children,
      Forall P children → P (Elem name attrs value children)) →
  ∀ t, P t.
Proof.
  intros H. fix IH 1. intros [name attrs value children]. apply H.
  revert children. fix IHc 1. intros [|c children]; constructor.
  - apply IH.
  - apply IHc.
Qed.

Lemma graft_Elem name attrs value children cur h :
  graft (Elem name attrs value children) cur h
  = (h1 ← initXMLNodeFromXMLTag (length h) (tag_of name attrs OPENING)
            (h ++ [initXMLNode]);
     h2 ← addXMLNodeToParent (Some cur) (Some (length h)) h1;
     h3 ← match value with
          | Some v =>
            store (length h) (setXMLNodeValue (string_of_list_ascii v)) h2
          | None => Ok h2
          end;
     grafts children (length h) h3).
Proof.
  cbn [graft createXMLNode].
  destruct (initXMLNodeFromXMLTag _ _ _) as [h1| |]; [|done..].
  cbn [mbind outcome_bind].
  destruct (addXMLNodeToParent _ _ _) as [h2| |]; [|done..].
  cbn [mbind outcome_bind].
  destruct (match value with Some _ => _ | None => _ end) as [h3| |];
    [|done..].
  cbn [mbind outcome_bind]. clear. revert h3.
  induction children as [|c children IH]; intros h3; [done|].
  cbn [grafts]. destruct (graft c (length h) h3) as [h4| |]; [|done..].
  cbn [mbind outcome_bind]. apply IH.
Qed.

Lemma size_pos t : (0 < size t)%nat.
Proof. destruct t. cbn. lia. Qed.

Lemma list_sum_cons x l : list_sum (x :: l) = (x + list_sum l)%nat.
Proof. done. Qed.

Lemma size_Elem name attrs value children :
  size (Elem name attrs value children) = S (list_sum (size <$> children)).
Proof. done. Qed.

Lemma layout_range children :
  ∀ a y, y ∈ layout a children →
         (a ≤ y < a + list_sum (size <$> children))%nat.
Proof.
  induction children as [|c children IH]; intros a y Hy;
    [by apply elem_of_nil in Hy|].
  cbn [layout] in Hy. rewrite fmap_cons, list_sum_cons.
  pose proof (size_pos c).
  apply elem_of_cons in Hy as [->|Hy]; [lia|].
  apply IH in Hy. lia.
Qed.

(** [repr] looks at the name, value, attributes and first child of the
    node, and at nothing outside the subtree. *)
Lemma repr_frame h h' t :
  ∀ a,
    repr h t a →
    (∀ n, h !! a = Some n →
          ∃ n', h' !! a = Some n' ∧ node_name n' = node_name n
                ∧ node_value n' = node_value n ∧ node_attr n' = node_attr n
                ∧ node_first n' = node_first n) →
    (∀ x, (a < x < a + size t)%nat → h' !! x = h !! x) →
    repr h' t a.
Proof.
  induction t as [name attrs value children IH] using xml_ind.
  intros a Hrepr Hroot Hin.
  inversion Hrepr as [? ? ? ? ? n Hn Hname Hvalue Hattr Hch Hall]; subst.
  destruct (Hroot n Hn) as (n' & Hn' & En & Ev & Ea & Ef).
  rewrite size_Elem in Hin.
  apply (repr_Elem h' name attrs value children a n'); try congruence.
  - rewrite Ef. apply (chain_frame h); [done|].
    intros x nx Hx Hnx. apply layout_range in Hx.
    exists nx. split; [|done]. rewrite Hin by lia. done.
  - clear Hch Hrepr Hroot Hn Hn' Hname Hvalue Hattr En Ev Ea Ef.
    assert (∀ x, (S a ≤ x < S a + list_sum (size <$> children))%nat →
                 h' !! x = h !! x) as Hin' by (intros; apply Hin; lia).
    clear Hin. revert Hall Hin'. generalize (S a) as b.
    induction IH as [|c children IHc _ IHcs]; intros b Hall Hin';
      cbn [layout] in *; [constructor|].
    apply Forall2_cons in Hall as [Hc Hall].
    rewrite fmap_cons, list_sum_cons in Hin'. pose proof (size_pos c).
    constructor.
    + apply IHc; [done| |].
      * intros nc Hnc. exists nc. rewrite Hin' by lia. done.
      * intros x Hx. apply Hin'. lia.
    + apply IHcs; [done|]. intros x Hx. apply Hin'. lia.
Qed.

Lemma link_value p c l0 x n : node_value (link p c l0 x n) = node_value n.
Proof. unfold link. destruct l0; repeat case_decide; by destruct n. Qed.

Lemma link_previous p c l0 x n :
  node_previous (link p c l0 x n)
  = if decide (x = c) then
      match l0 with Some l => Some l | None => node_previous n end
    else node_previous n.
Proof. unfold link. destruct l0; repeat case_decide; by destruct n. Qed.

Lemma link_other p c l0 x n :
  x ≠ p → x ≠ c → l0 ≠ Some x → link p c l0 x n = n.
Proof.
  intros Hp Hc Hl. unfold link. destruct l0 as [l|].
  - rewrite !decide_False by congruence. done.
  - by rewrite !decide_False by congruence.
Qed.

Lemma link_same_but_children p c l0 x n :
  x ≠ c → l0 ≠ Some x → same_but_children n (link p c l0 x n).
Proof.
  intros Hc Hl. unfold same_but_children.
  rewrite link_name, link_value, link_attr, link_parent, link_previous,
    link_next.
  by rewrite !decide_False by done.
Qed.

Lemma layout_app xs ys :
  ∀ b, layout b (xs ++ ys)
       = layout b xs ++ layout (b + list_sum (size <$> xs)) ys.
Proof.
  induction xs as [|x xs IH]; intros b; cbn [app layout].
  - by rewrite Nat.add_0_r.
  - rewrite IH, fmap_cons, list_sum_cons. by rewrite Nat.add_assoc.
Qed.

Lemma list_sum_app_size (xs ys : list xml) :
  list_sum (size <$> xs ++ ys)
  = (list_sum (size <$> xs) + list_sum (size <$> ys))%nat.
Proof. by rewrite fmap_app, list_sum_app. Qed.

(** A list of subtrees laid out from [b] is kept by updates outside their
    range. *)
Lemma reprs_frame h h' children :
  ∀ b,
    Forall2 (repr h) children (layout b children) →
    (∀ x, (b ≤ x < b + list_sum (size <$> children))%nat →
          h' !! x = h !! x) →
    Forall2 (repr h') children (layout b children).
Proof.
  induction children as [|c children IH]; intros b Hall Hin;
    cbn [layout] in *; [constructor|].
  apply Forall2_cons in Hall as [Hc Hall].
  rewrite fmap_cons, list_sum_cons in Hin. pose proof (size_pos c).
  constructor.
  - apply (repr_frame h); [done| |].
    + intros nc Hnc. exists nc. rewrite Hin by lia. done.
    + intros x Hx. apply Hin. lia.
  - apply IH; [done|]. intros x Hx. apply Hin. lia.
Qed.

Lemma length_layout children : ∀ b, length (layout b children) = length children.
Proof.
  induction children as [|c children IH]; intros b; [done|].
  cbn [layout length]. by rewrite IH.
Qed.

Lemma built_last h c nc l :
  built h → h !! c = Some nc → chain h (node_first nc) l →
  node_last nc = last l.
Proof.
  intros (Hinv & _) Hc Hch.
  destruct (Hinv c nc Hc) as (l' & Hch' & _ & Hlast & _).
  by rewrite (chain_det h _ _ _ Hch Hch').
Qed.

Lemma same_but_children_trans n1 n2 n3 :
  same_but_children n1 n2 → same_but_children n2 n3 →
  same_but_children n1 n3.
Proof. unfold same_but_children. intuition congruence. Qed.

(** Grafting one more child under [c], after the children [done]. *)
Lemma graft_next_child h h1 c nc done t :
  built h → (c < length h)%nat → h !! c = Some nc →
  chain h (node_first nc) (layout (S c) done) →
  Forall2 (repr h) done (layout (S c) done) →
  length h = (S c + list_sum (size <$> done))%nat →
  grafted t c h h1 →
  ∃ nc1,
    h1 !! c = Some nc1 ∧ same_but_children nc nc1
    ∧ (∀ x, (x < c)%nat → h1 !! x = h !! x)
    ∧ chain h1 (node_first nc1) (layout (S c) (done ++ [t]))
    ∧ Forall2 (repr h1) (done ++ [t]) (layout (S c) (done ++ [t])).
Proof.
  intros Hb Hc Hnc Hch Hdone Hlen
    (Hb1 & Hlen1 & Hrepr1 & np & nr & Hnp & Hold & Hnr & Hpar & Hnext).
  rewrite Hnc in Hnp. injection Hnp as <-.
  set (L := layout (S c) done) in *. set (a := length h) in *.
  pose proof (built_last h c nc L Hb Hnc Hch) as Hlast.
  assert (∀ y, y ∈ L → (S c ≤ y < a)%nat) as HL
    by (intros y Hy; apply layout_range in Hy; lia).
  assert (∀ x, (x ≤ c)%nat → node_last nc ≠ Some x) as Hl0.
  { intros x Hx E. rewrite Hlast in E. apply last_Some_elem_of in E.
    apply HL in E. lia. }
  assert (layout (S c) (done ++ [t]) = L ++ [a]) as HLt.
  { rewrite layout_app. cbn [layout]. by rewrite <- Hlen. }
  rewrite HLt.
  exists (link c a (node_last nc) c nc).
  split; [by rewrite Hold, Hnc by done|].
  split; [apply link_same_but_children; [lia|apply Hl0; lia]|].
  split.
  { intros x Hx. rewrite Hold by lia.
    destruct (h !! x) as [n|]; [|done]. cbn.
    rewrite link_other; [done|lia|lia|apply Hl0; lia]. }
  split.
  - rewrite link_first. destruct (last L) as [r|] eqn:Er.
    + rewrite Hlast, decide_False by (by intros [_ ?]).
      apply (chain_snoc h h1 _ L r a nr); try done.
      * by eapply chain_NoDup.
      * intros Ha. apply HL in Ha. lia.
      * intros x n Hx Hn. rewrite Hold by (apply HL in Hx; lia).
        rewrite Hn. cbn. eexists. split; [done|].
        rewrite link_next, Hlast.
        destruct (decide (x = r)) as [->|Hxr].
        -- by rewrite decide_True.
        -- by rewrite decide_False by congruence.
    + rewrite Hlast, decide_True by done.
      apply last_None in Er. rewrite Er. cbn [app].
      econstructor; [done|]. rewrite Hnext. constructor.
  - apply Forall2_app; [|by repeat constructor].
    destruct (decide (done = [])) as [->|Hne]; [constructor|].
    destruct (exists_last Hne) as (done' & d & ->). clear Hne.
    unfold L in *. rewrite layout_app in *. cbn [layout] in *.
    set (L' := layout (S c) done') in *.
    set (r := (S c + list_sum (size <$> done'))%nat) in *.
    rewrite last_snoc in Hlast.
    rewrite list_sum_app_size in Hlen.
    change (list_sum (size <$> [d])) with (size d + 0)%nat in Hlen.
    apply Forall2_app_inv in Hdone as [Hdone' Hd];
      [|unfold L'; by rewrite length_layout].
    apply Forall2_cons in Hd as [Hd _].
    apply Forall2_app; [|constructor; [|constructor]].
    + apply (reprs_frame h); [done|]. intros x Hx.
      rewrite Hold by lia. destruct (h !! x) as [n|]; [|done]. cbn.
      rewrite link_other; [done|lia|lia|]. rewrite Hlast.
      intros [= E]. unfold r in E. lia.
    + pose proof (size_pos d).
      assert (c < r ∧ r < a ∧ a = r + size d)%nat as (Hcr & Hra & Har)
        by (unfold r; lia).
      clearbody r. apply (repr_frame h); [done| |].
      * intros n Hn. rewrite Hold, Hn by lia. cbn. eexists. split; [done|].
        rewrite link_name, link_value, link_attr, link_first.
        rewrite decide_False by (intros [? _]; lia). done.
      * intros x Hx. rewrite Hold by lia.
        destruct (h !! x) as [n|]; [|done]. cbn.
        rewrite link_other; [done|lia|lia|]. rewrite Hlast.
        intros [= E]. lia.
Qed.

Lemma grafts_spec children :
  Forall graft_ok children →
  ∀ c done h nc,
    built h → (c < length h)%nat → h !! c = Some nc →
    chain h (node_first nc) (layout (S c) done) →
    Forall2 (repr h) done (layout (S c) done) →
    length h = (S c + list_sum (size <$> done))%nat →
    ∃ h' nc',
      grafts children c h = Ok h' ∧ built h'
      ∧ length h' = (length h + list_sum (size <$> children))%nat
      ∧ (∀ x, (x < c)%nat → h' !! x = h !! x)
      ∧ h' !! c = Some nc' ∧ same_but_children nc nc'
      ∧ chain h' (node_first nc') (layout (S c) (done ++ children))
      ∧ Forall2 (repr h') (done ++ children)
          (layout (S c) (done ++ children)).
Proof.
  induction 1 as [|t children Hok _ IH];
    intros c done h nc Hb Hc Hnc Hch Hdone Hlen.
  - exists h, nc. rewrite app_nil_r. cbn [grafts].
    change (list_sum (size <$> [])) with 0%nat.
    split; [done|]. split; [done|]. split; [lia|]. split; [done|].
    split; [done|]. split; [done|]. done.
  - destruct (Hok c h Hb Hc) as (h1 & Hg & Hgrafted).
    destruct (graft_next_child h h1 c nc done t Hb Hc Hnc Hch Hdone Hlen
                Hgrafted) as (nc1 & Hnc1 & Hsame1 & Hlow1 & Hch1 & Hdone1).
    destruct Hgrafted as (Hb1 & Hlen1 & _).
    destruct (IH c (done ++ [t]) h1 nc1) as
      (h' & nc' & Hgs & Hb' & Hlen' & Hlow' & Hnc' & Hsame' & Hch' & Hdone');
      try done; [lia| |].
    { rewrite Hlen1, Hlen, list_sum_app_size.
      change (list_sum (size <$> [t])) with (size t + 0)%nat. lia. }
    exists h', nc'. cbn [grafts]. rewrite Hg. cbn [mbind outcome_bind].
    rewrite <- app_assoc in Hch', Hdone'. cbn [app] in Hch', Hdone'.
    split; [done|]. split; [done|]. split.
    { rewrite Hlen', Hlen1, fmap_cons, list_sum_cons. lia. }
    split.
    { intros x Hx. rewrite Hlow' by done. by apply Hlow1. }
    split; [done|]. split; [by eapply same_but_children_trans|]. done.
Qed.

Lemma attach_exists h cur tag h1 :
  built h → (cur < length h)%nat →
  initXMLNodeFromXMLTag (length h) tag (h ++ [initXMLNode]) = Ok h1 →
  ∃ h2, addXMLNodeToParent (Some cur) (Some (length h)) h1 = Ok h2.
Proof.
  intros Hb Hcur Hinit.
  apply initXMLNodeFromXMLTag_fresh in Hinit as (n & -> & Hn).
  pose proof Hb as (Hinv & _).
  pose proof Hn as (_ & Hpar & Hprev & Hnext & _).
  pose proof (tree_inv_alloc h n Hinv Hn) as Hinv1.
  destruct (lookup_lt_is_Some_2 h cur Hcur) as [np Hnp].
  pose proof (lookup_app_l_Some _ [n] _ _ Hnp) as Hnp1.
  assert ((h ++ [n]) !! length h = Some n) as Hc1
    by (by apply list_lookup_middle).
  destruct (addXMLNodeToParent_link _ cur (length h) np n Hnp1 Hc1
              Hpar Hprev Hnext) as (h2 & Hadd & _); [|by eauto].
  intros l0 Hl0.
  destruct (Hinv1 cur np Hnp1) as (l & Hch & _ & Hlast & _).
  eapply chain_valid; [exact Hch|].
  apply last_Some_elem_of. congruence.
Qed.

Lemma built_last_valid h cur np l0 :
  built h → h !! cur = Some np → node_last np = Some l0 →
  (l0 < length h)%nat.
Proof.
  intros (Hinv & _) Hnp Hl0.
  destruct (Hinv cur np Hnp) as (l & Hch & _ & Hlast & _).
  apply lookup_lt_is_Some. eapply chain_valid; [exact Hch|].
  apply last_Some_elem_of. congruence.
Qed.

Lemma graft_spec t : graft_ok t.
Proof.
  induction t as [name attrs value children IH] using xml_ind.
  intros cur h Hb Hcur. rewrite graft_Elem.
  set (c := length h).
  assert (initXMLNodeFromXMLTag c (tag_of name attrs OPENING)
            (h ++ [initXMLNode])
          = Ok (h ++ [leaf name attrs None])) as Hinit.
  { rewrite initXMLNodeFromXMLTag_tag_of
      by (rewrite length_app; cbn; unfold c; lia).
    f_equal. unfold c. rewrite <- (Nat.add_0_r (length h)) at 1.
    by rewrite insert_app_r. }
  rewrite Hinit. cbn [mbind outcome_bind].
  destruct (attach_exists h cur _ _ Hb Hcur Hinit) as [h2 Hadd].
  fold c in Hadd. rewrite Hadd. cbn [mbind outcome_bind].
  destruct (attach_effect h cur _ _ h2 Hb Hcur Hinit Hadd)
    as (s & np & Hs & Hnp & Hlen2 & Hb2 & Hlink).
  cbn [tag_of tag_name tag_attr] in Hs, Hlink. injection Hs as <-.
  rewrite rev_involutive in Hlink.
  change (set_attr (attr_of <$> attrs)
            (set_name (Some (string_of_list_ascii name)) initXMLNode))
    with (leaf name attrs None) in Hlink.
  fold c in Hlink, Hlen2.
  assert (node_last np ≠ Some c) as Hl0.
  { intros E. apply (built_last_valid h cur np c Hb Hnp) in E.
    unfold c in E. lia. }
  assert (h2 !! c = Some (link cur c (node_last np) c (leaf name attrs None)))
    as Hc2.
  { rewrite Hlink. unfold c. by rewrite list_lookup_middle. }
  set (n2 := link cur c (node_last np) c (leaf name attrs None)) in *.
  assert (∃ h3 n3,
    match value with
    | Some v => store c (setXMLNodeValue (string_of_list_ascii v)) h2
    | None => Ok h2
    end = Ok h3
    ∧ built h3 ∧ length h3 = S c ∧ h3 !! c = Some n3
    ∧ (∀ x, x ≠ c → h3 !! x = h2 !! x)
    ∧ node_value n3 = string_of_list_ascii <$> value
    ∧ node_name n3 = node_name n2 ∧ node_attr n3 = node_attr n2
    ∧ node_parent n3 = node_parent n2 ∧ node_next n3 = node_next n2
    ∧ node_first n3 = node_first n2)
    as (h3 & n3 & -> & Hb3 & Hlen3 & Hc3 & Hother3 & Hval3 & Hname3 & Hattr3
        & Hpar3 & Hnext3 & Hfirst3).
  { destruct value as [v|].
    - rewrite (store_Some _ _ _ _ Hc2).
      eexists _, _. split; [done|].
      destruct (store_value_built h2 c (string_of_list_ascii v) _ Hb2
                  (store_Some _ _ _ _ Hc2)) as [Hb3 Hlen3].
      split; [done|]. split; [by rewrite Hlen3|].
      split; [apply list_lookup_insert_eq; by eapply lookup_lt_Some|].
      split; [intros x Hx; by apply list_lookup_insert_ne|].
      done.
    - exists h2, n2. repeat (split; [done|]).
      split; [|done]. unfold n2. by rewrite link_value. }
  cbn [mbind outcome_bind].
  destruct (grafts_spec children IH c [] h3 n3)
    as (h' & nc' & -> & Hb' & Hlen' & Hlow' & Hnc' & Hsame' & Hch' & Hall');
    [done|lia|done| |constructor|cbn; lia|].
  { rewrite Hfirst3. unfold n2. rewrite link_first.
    rewrite decide_False by (intros [? _]; unfold c in *; lia).
    constructor. }
  cbn [app] in Hch', Hall'.
  destruct Hsame' as (Ename & Evalue & Eattr & Epar & _ & Enext).
  exists h'. split; [done|]. split; [done|]. split.
  { rewrite size_Elem, Hlen', Hlen3. unfold c. lia. }
  split.
  { apply (repr_Elem h' name attrs value children c nc'); try done.
    - rewrite Ename, Hname3. unfold n2. by rewrite link_name.
    - by rewrite Evalue.
    - rewrite Eattr, Hattr3. unfold n2. by rewrite link_attr. }
  exists np, nc'. split; [done|]. split.
  { intros x Hx. fold c in Hx. rewrite Hlow' by done.
    rewrite Hother3 by lia. rewrite Hlink.
    by rewrite lookup_app_l by done. }
  split; [done|]. split.
  - rewrite Epar, Hpar3. unfold n2. by rewrite link_parent, decide_True.
  - rewrite Enext, Hnext3. unfold n2. rewrite link_next.
    by rewrite decide_False by done.
Qed.

(** * Documents as trees: reading the text back (xml.c) *)

Lemma text_of_Elem name attrs value children :
  text_of (Elem name attrs value children)
  = "<"%char :: tag_text false name attrs false
    ++ inner value children name.
Proof.
  cbn [text_of]. unfold tag_text, inner. cbn [app].
  by rewrite <- !app_assoc.
Qed.

Lemma readXMLNodeValue_sep value c X h :
  from_option wf_value True value →
  readXMLNodeValue c (value_text value ++ "010"%char :: "<"%char :: X) h
  = (h3 ← value_step value c h;
     Ok (h3, if value is Some _ then "<"%char :: X else X)).
Proof.
  intros Hvalue. destruct value as [v|]; cbn [value_text default value_step].
  - rewrite readXMLNodeValue_reads_wf; [done|done|]. right. by left.
  - cbn [app].
    destruct (readXMLNodeValue_none c ["010"%char] X h) as [E _];
      [by repeat constructor|].
    cbn [app] in E. by rewrite E.
Qed.

Lemma grafts_keeps children :
  ∀ c h,
    built h → (c < length h)%nat →
    ∃ h', grafts children c h = Ok h' ∧ built h'
          ∧ (length h ≤ length h')%nat
          ∧ ∀ x n, h !! x = Some n →
                   ∃ n', h' !! x = Some n'
                         ∧ node_parent n' = node_parent n.
Proof.
  induction children as [|t children IH]; intros c h Hb Hc.
  - exists h. cbn [grafts]. by eauto 10.
  - destruct (graft_spec t c h Hb Hc)
      as (h1 & Hg & Hb1 & Hlen1 & _ & np & nr & Hnp & Hold & _).
    destruct (IH c h1 Hb1) as (h' & Hgs & Hb' & Hlen' & Hkeep); [lia|].
    exists h'. cbn [grafts]. rewrite Hg. cbn [mbind outcome_bind].
    split; [done|]. split; [done|]. split; [lia|].
    intros x n Hn. pose proof (lookup_lt_Some _ _ _ Hn) as Hx.
    destruct (Hkeep x (link c (length h) (node_last np) x n))
      as (n' & Hn' & Hpar); [by rewrite Hold, Hn|].
    exists n'. split; [done|]. rewrite Hpar, link_parent.
    by rewrite decide_False by lia.
Qed.

Lemma value_step_built value c h :
  built h → (c < length h)%nat →
  ∃ h3, value_step value c h = Ok h3 ∧ built h3 ∧ length h3 = length h.
Proof.
  intros Hb Hc. destruct value as [v|]; cbn [value_step]; [|by eauto].
  destruct (lookup_lt_is_Some_2 h c Hc) as [n Hn].
  rewrite (store_Some _ _ _ _ Hn). eexists. split; [done|].
  by apply (store_value_built h c (string_of_list_ascii v) _ Hb
              (store_Some _ _ _ _ Hn)).
Qed.

Lemma inner_nil value name K :
  inner value [] name ++ K
  = value_text value ++ "010"%char :: "<"%char
    :: closing_text false name ++ "010"%char :: K.
Proof.
  unfold inner, closing_text. cbn [fmap list_fmap concat app].
  rewrite <- !app_assoc. cbn [app]. by rewrite <- !app_assoc.
Qed.

Lemma inner_cons value name_t attrs_t value_t children_t children name K :
  inner value (Elem name_t attrs_t value_t children_t :: children) name ++ K
  = value_text value ++ "010"%char :: "<"%char
    :: tag_text false name_t attrs_t false
    ++ inner value_t children_t name_t
    ++ concat (text_of <$> children) ++ closing_text true name
    ++ "010"%char :: K.
Proof.
  unfold inner at 1. rewrite fmap_cons, text_of_Elem. cbn [concat app].
  rewrite <- !app_assoc. cbn [app]. by rewrite <- !app_assoc.
Qed.

Lemma inner_None children name K :
  inner None children name ++ K
  = "010"%char :: concat (text_of <$> children) ++ closing_text true name
    ++ "010"%char :: K.
Proof.
  unfold inner. cbn [value_text default app]. by rewrite <- !app_assoc.
Qed.

Lemma loop_ok_nil : loop_ok [].
Proof.
  intros value name c h root K Hvalue [Hname Hlen] Hb Hc.
  exists 1%nat. intros fuel. cbn [Nat.add]. rewrite inner_nil.
  unfold parseXMLFile_loop; fold parseXMLFile_loop.
  rewrite readXMLNodeValue_sep by done.
  destruct (value_step value c h) as [h3| |]; [|done..].
  cbn [mbind outcome_bind grafts].
  assert (readXMLTag
            (if value is Some _
             then "<"%char :: closing_text false name ++ "010"%char :: K
             else closing_text false name ++ "010"%char :: K)
          = Ok (Ptr (tag_of name [] CLOSING), "010"%char :: K)) as ->.
  { destruct value.
    - by apply (readXMLTag_reads_closing true).
    - by apply (readXMLTag_reads_closing false). }
  done.
Qed.

Lemma wf_tag_name_closing name : wf_tag_name name → wf_closing_name name.
Proof. by intros (_ & ? & ?). Qed.

Lemma loop_ok_cons name_t attrs_t value_t children_t children :
  wf_xml (Elem name_t attrs_t value_t children_t) →
  loop_ok children_t → loop_ok children →
  loop_ok (Elem name_t attrs_t value_t children_t :: children).
Proof.
  intros Hwf Hok_t Hok value name c h root K Hvalue Hname Hb Hc.
  inversion Hwf as [? ? ? ? Hname_t Hhead_t Hattrs_t Hvalue_t _]; subst.
  set (t := Elem name_t attrs_t value_t children_t).
  destruct (value_step_built value c h Hb Hc) as (h3 & Hv & Hb3 & Hlen3).
  destruct (graft_spec t c h3 Hb3) as (h4 & Hg & Hgrafted); [lia|].
  pose proof Hgrafted
    as (Hb4 & Hlen4 & _ & np & nr & Hnp & _ & Hnr & Hpar & _).
  pose proof Hg as Hg'. unfold t in Hg'. rewrite graft_Elem in Hg'.
  apply bind_Ok_inv in Hg' as (h1 & Hinit & Hg').
  apply bind_Ok_inv in Hg' as (ha & Hadd & Hg').
  destruct (attach_effect h3 c _ h1 ha Hb3 ltac:(lia) Hinit Hadd)
    as (_ & _ & _ & _ & Hlena & Hba & _).
  destruct (Hok_t value_t name_t (length h3) ha root
              (concat (text_of <$> children) ++ closing_text true name
               ++ "010"%char :: K) Hvalue_t
              (wf_tag_name_closing _ Hname_t) Hba ltac:(lia))
    as (n_t & Heq_t).
  destruct (Hok None name c h4 root K I Hname Hb4 ltac:(lia))
    as (n_r & Heq_r).
  exists (S (n_t + n_r)). intros fuel. cbn [Nat.add]. subst t.
  rewrite inner_cons.
  unfold parseXMLFile_loop; fold parseXMLFile_loop.
  rewrite readXMLNodeValue_sep by done. rewrite Hv.
  cbn [mbind outcome_bind grafts]. rewrite Hg. cbn [mbind outcome_bind].
  assert (readXMLTag
            (if value is Some _
             then "<"%char :: tag_text false name_t attrs_t false
                  ++ inner value_t children_t name_t
                  ++ concat (text_of <$> children) ++ closing_text true name
                  ++ "010"%char :: K
             else tag_text false name_t attrs_t false
                  ++ inner value_t children_t name_t
                  ++ concat (text_of <$> children) ++ closing_text true name
                  ++ "010"%char :: K)
          = Ok (Ptr (tag_of name_t attrs_t OPENING),
                inner value_t children_t name_t
                ++ concat (text_of <$> children) ++ closing_text true name
                ++ "010"%char :: K)) as ->.
  { destruct value.
    - by apply (readXMLTag_reads_tag true name_t attrs_t false).
    - by apply (readXMLTag_reads_tag false name_t attrs_t false). }
  cbn [mbind outcome_bind tag_of tag_type createXMLNode].
  change {| tag_name := Some (string_of_list_ascii name_t);
            tag_attr := rev (attr_of <$> attrs_t); tag_type := OPENING |}
    with (tag_of name_t attrs_t OPENING).
  rewrite Hinit. cbn [mbind outcome_bind]. rewrite Hadd.
  cbn [mbind outcome_bind].
  rewrite <- Nat.add_assoc, Heq_t.
  apply bind_Ok_inv in Hg' as (hb & Hvt & Hgs).
  change (value_step value_t (length h3) ha = Ok hb) in Hvt.
  rewrite Hvt. cbn [mbind outcome_bind]. rewrite Hgs.
  cbn [mbind outcome_bind]. unfold after_closing at 1.
  rewrite (load_Some _ _ _ Hnr). cbn [mbind outcome_bind]. rewrite Hpar.
  rewrite <- inner_None. by rewrite Heq_r.
Qed.

(** More fuel does not change a run of the loop that came to an end. *)
Lemma parseXMLFile_loop_mono fuel :
  ∀ fuel' file h root cur,
    (fuel ≤ fuel')%nat →
    parseXMLFile_loop fuel file h root cur ≠ OutOfFuel →
    parseXMLFile_loop fuel' file h root cur
    = parseXMLFile_loop fuel file h root cur.
Proof.
  induction fuel as [|fuel IH]; intros fuel' file h root cur Hle Hend;
    [done|].
  destruct fuel' as [|fuel']; [lia|]. revert Hend.
  unfold parseXMLFile_loop; fold parseXMLFile_loop.
  destruct (readXMLNodeValue cur file h) as [[h1 file1]|u|];
    cbn [mbind outcome_bind]; [|done..].
  destruct (readXMLTag file1) as [[[tag|d] file2]|u|];
    cbn [mbind outcome_bind]; [|done..].
  destruct (tag_type tag); cbn [createXMLNode].
  - destruct (initXMLNodeFromXMLTag _ _ _) as [h2|u|];
      cbn [mbind outcome_bind]; [|done..].
    destruct (addXMLNodeToParent _ _ _) as [h3|u|];
      cbn [mbind outcome_bind]; [|done..].
    apply IH. lia.
  - destruct (load h1 cur) as [n|u|]; cbn [mbind outcome_bind]; [|done..].
    destruct (node_parent n); [|done]. apply IH. lia.
  - destruct (initXMLNodeFromXMLTag _ _ _) as [h2|u|];
      cbn [mbind outcome_bind]; [|done..].
    destruct (addXMLNodeToParent _ _ _) as [h3|u|];
      cbn [mbind outcome_bind]; [|done..].
    apply IH. lia.
  - apply IH. lia.
Qed.

Lemma loop_ok_all children : Forall wf_xml children → loop_ok children.
Proof.
  revert children.
  assert (∀ t, wf_xml t → ∀ children, wf_xml t → loop_ok children →
               loop_ok (t :: children)) as Hstep.
  { induction t as [name attrs value cs IH] using xml_ind.
    intros Hwf children _ Hok. apply loop_ok_cons; [done| |done].
    inversion Hwf as [? ? ? ? _ _ _ _ Hcs]; subst.
    clear Hwf. induction Hcs as [|t cs Ht Hcs IHcs]; [apply loop_ok_nil|].
    apply Forall_cons in IH as [IHt IH]. by apply IHt; [| |apply IHcs]. }
  induction 1 as [|t children Ht _ IH]; [apply loop_ok_nil|].
  by apply Hstep.
Qed.

(** Parsing the text of an element gives the element back. *)
Lemma parseXMLFile_text_of t K :
  wf_xml t →
  ∃ h, parseXMLFile (text_of t ++ K) = Ok (Ptr (0%nat, h), "010"%char :: K)
       ∧ repr h t 0 ∧ length h = size t
       ∧ built h ∧ chain h (Some 0%nat) [0%nat].
Proof.
  intros Hwf. pose proof Hwf as Hwf'.
  destruct t as [name attrs value children].
  inversion Hwf' as [? ? ? ? Hname Hhead Hattrs Hvalue Hcs]; subst.
  clear Hwf'.
  set (h0 := [leaf name attrs None]).
  assert (built h0) as Hb0.
  { apply built_root. repeat split; by eauto. }
  destruct (value_step_built value 0 h0 Hb0) as (h3 & Hv & Hb3 & Hlen3);
    [cbn; lia|].
  assert (h3 !! 0%nat = Some (leaf name attrs value)) as Hn3.
  { destruct value as [v|]; cbn [value_step] in Hv.
    - unfold h0 in Hv. rewrite (store_Some _ _ _ (leaf name attrs None)) in Hv
        by done.
      by injection Hv as <-.
    - by injection Hv as <-. }
  destruct (grafts_spec children (Forall_impl _ _ _ Hcs (λ t _, graft_spec t))
              0%nat [] h3 _ Hb3 ltac:(rewrite Hlen3; cbn; lia) Hn3)
    as (h' & n' & Hgs & Hb' & Hlen' & _ & Hn' & Hsame & Hch & Hrepr).
  { constructor. }
  { constructor. }
  { rewrite Hlen3. by cbn. }
  destruct Hsame as (Hnm & Hval & Hattr & Hpar & _ & Hnext).
  exists h'. split; [|split; [|split; [|split; [done|]]]].
  - destruct (loop_ok_all children Hcs value name 0%nat h0 0%nat K Hvalue
                (wf_tag_name_closing _ Hname) Hb0 ltac:(cbn; lia))
      as (n & Hloop).
    set (file := inner value children name ++ K).
    assert (parseXMLFile_loop (S (length file)) file h0 0 0
            = Ok (Ptr (0%nat, h'), "010"%char :: K)) as Hrun.
    { pose proof (parseXMLFile_loop_bounded (S (length file)) file h0 0%nat
                    0%nat ltac:(lia)) as Hend.
      rewrite <- (parseXMLFile_loop_mono (S (length file))
                    (n + S (length file)) file h0 0%nat 0%nat ltac:(lia))
        by (intros E; by rewrite E in Hend).
      unfold file. rewrite Hloop, Hv. cbn [mbind outcome_bind].
      rewrite Hgs. cbn [mbind outcome_bind]. unfold after_closing.
      rewrite (load_Some _ _ _ Hn'). cbn [mbind outcome_bind].
      by rewrite Hpar. }
    rewrite text_of_Elem. unfold parseXMLFile.
    change ("<"%char :: tag_text false name attrs false
            ++ inner value children name)
      with (tag_text true name attrs false ++ inner value children name).
    rewrite <- app_assoc.
    rewrite (readXMLTag_reads_tag true name attrs false) by done.
    cbn [mbind outcome_bind tag_of tag_type createXMLNode].
    rewrite decide_False by done. rewrite decide_False by done.
    change {| tag_name := Some (string_of_list_ascii name);
              tag_attr := rev (attr_of <$> attrs); tag_type := OPENING |}
      with (tag_of name attrs OPENING).
    rewrite initXMLNodeFromXMLTag_tag_of by (cbn; lia).
    cbn [mbind outcome_bind app length]. fold file.
    change (<[0%nat:=leaf name attrs None]> [initXMLNode]) with h0.
    rewrite Hrun. cbn [mbind outcome_bind].
    by rewrite decide_False by (intros H; by apply H).
  - by apply (repr_Elem h' name attrs value children 0%nat n').
  - rewrite Hlen', Hlen3. by rewrite size_Elem.
  - apply (chain_cons h' 0%nat n' [] Hn'). rewrite Hnext. constructor.
Qed.

(** * Documents as trees: printing *)

Lemma printXMLNode_attrs_text attrs :
  printXMLNode_attrs (attr_of <$> attrs) = Ok (attrs_text attrs).
Proof.
  induction attrs as [|[an av] attrs IH]; [done|].
  rewrite fmap_cons. cbn [printXMLNode_attrs attr_of attribute attr_name
    attr_value printf_s mbind outcome_bind fst snd].
  rewrite IH. cbn [mbind outcome_bind].
  rewrite !list_ascii_of_string_of_list_ascii.
  unfold attrs_text. rewrite fmap_cons. cbn [concat]. unfold attr_text.
  cbn [fst snd]. repeat (rewrite <- ?app_assoc; cbn [app]). done.
Qed.

Lemma printXMLNode_children_text h children :
  Forall (λ t, ∀ p fuel, repr h t p → (2 * size t ≤ fuel)%nat →
                         printXMLNode fuel h (Some p) 2 = Ok (text_of t))
         children →
  ∀ o a fuel,
    chain h o (layout a children) →
    Forall2 (repr h) children (layout a children) →
    (1 + 2 * list_sum (size <$> children) ≤ fuel)%nat →
    printXMLNode_children fuel h o = Ok (concat (text_of <$> children)).
Proof.
  induction 1 as [|t children Ht _ IH]; intros o a fuel Hch Hrepr Hfuel.
  - cbn [layout] in Hch. inversion Hch; subst.
    destruct fuel as [|fuel]; [lia|]. done.
  - cbn [layout] in Hch, Hrepr. rewrite fmap_cons, list_sum_cons in Hfuel.
    inversion Hch as [|? n ? Hn Hnext]; subst.
    apply Forall2_cons in Hrepr as [Hrt Hrepr].
    destruct fuel as [|fuel]; [lia|].
    pose proof (size_pos t).
    unfold printXMLNode_children; fold printXMLNode_children;
      fold printXMLNode.
    rewrite (Ht a fuel Hrt) by lia. cbn [mbind outcome_bind].
    rewrite (load_Some _ _ _ Hn). cbn [mbind outcome_bind].
    rewrite (IH _ _ fuel Hnext Hrepr) by lia. done.
Qed.

Lemma printXMLNode_text t :
  ∀ h p fuel,
    repr h t p → (2 * size t ≤ fuel)%nat →
    printXMLNode fuel h (Some p) 2 = Ok (text_of t).
Proof.
  induction t as [name attrs value children IH] using xml_ind.
  intros h p fuel Hrepr Hfuel.
  inversion Hrepr as [? ? ? ? ? n Hn Hname Hvalue Hattr Hch Hcs]; subst.
  rewrite size_Elem in Hfuel. destruct fuel as [|fuel]; [lia|].
  unfold printXMLNode; fold printXMLNode_children; fold printXMLNode.
  rewrite (load_Some _ _ _ Hn). cbn [mbind outcome_bind].
  rewrite Hname, Hattr, Hvalue. cbn [printf_s mbind outcome_bind].
  rewrite printXMLNode_attrs_text. cbn [mbind outcome_bind].
  rewrite decide_False by (intros H; by apply H).
  rewrite (printXMLNode_children_text h children
             (Forall_impl _ _ _ IH (λ t Ht, Ht h)) _ (S p) fuel Hch Hcs)
    by lia.
  cbn [mbind outcome_bind]. rewrite list_ascii_of_string_of_list_ascii.
  f_equal. rewrite text_of_Elem. unfold inner, tag_text, closing_text.
  destruct value as [v|]; cbn [fmap option_fmap option_map value_text default];
    rewrite ?list_ascii_of_string_of_list_ascii;
    repeat (rewrite <- ?app_assoc; cbn [app]); done.
Qed.

Lemma repr_arena_nested : repr arena_nested doc_nested 0.
Proof.
  eapply repr_Elem; [reflexivity..| |]; cbn [layout size list_sum fmap
    list_fmap Nat.add].
  - repeat (econstructor; try reflexivity).
  - repeat constructor.
    + eapply repr_Elem; [reflexivity..| |]; constructor.
    + eapply repr_Elem; [reflexivity..| |]; constructor.
Qed.

Lemma wf_doc_nested : wf_xml doc_nested.
Proof. repeat (constructor; wf_now). Qed.

(** X19.  The text of an element, as [printXMLNode] writes it in its
    complete mode, is parsed back to that element: whatever follows the
    text, [parseXMLFile] returns a tree whose root, at the first cell of the
    arena, holds the element with its name, attributes, value and children
    in order; the arena has one node per element, and the stream is left at
    the line feed after the last closing tag. *)
Theorem parseXMLFile_reads_text_of_tree t K :
  wf_xml t →
  ∃ h, parseXMLFile (text_of t ++ K) = Ok (Ptr (0%nat, h), "010"%char :: K)
       ∧ repr h t 0 ∧ length h = size t.
Proof.
  intros Hwf.
  destruct (parseXMLFile_text_of t K Hwf) as (h & Hparse & Hrepr & Hlen & _).
  by exists h.
Qed.

Lemma parseXMLFile_reads_text_of_tree_witness :
  ∃ h, parseXMLFile (text_of doc_nested ++ str "<!-- end -->")
       = Ok (Ptr (0%nat, h), "010"%char :: str "<!-- end -->")
       ∧ repr h doc_nested 0 ∧ length h = size doc_nested.
Proof.
  apply (parseXMLFile_reads_text_of_tree doc_nested (str "<!-- end -->")).
  repeat (constructor; wf_now).
Defined.

(** X20.  [printXMLNode] in its complete mode (2), on a node that holds an
    element with its descendants, writes the opening tag with the
    attributes, the value, a line feed, each child in order in the same
    way, and the closing tag followed by a line feed; twice as many turns
    as the element has nodes are enough. *)
Theorem printXMLNode_writes_tree t h p fuel :
  repr h t p → (2 * size t ≤ fuel)%nat →
  printXMLNode fuel h (Some p) 2 = Ok (text_of t).
Proof. apply printXMLNode_text. Qed.

Lemma printXMLNode_writes_tree_witness :
  printXMLNode 6 arena_nested (Some 0%nat) 2
  = Ok (str "<a k=" ++ quoted "v" ++ ">"%char :: "010"%char
        :: str "<b>x y" ++ "010"%char :: str "</b>" ++ "010"%char
        :: str "<c>" ++ "010"%char :: str "</c>" ++ "010"%char
        :: str "</a>" ++ ["010"%char]).
Proof.
  exact (printXMLNode_writes_tree doc_nested arena_nested 0%nat 6%nat
           repr_arena_nested ltac:(vm_compute; lia)).
Defined.

(** X21.  Writing a tree and reading it back: what [printXMLNode] writes in
    its complete mode for a node that holds an element is parsed by
    [parseXMLFile] to a tree that holds the same element, whatever follows
    in the stream; and printing that tree writes the same text again. *)
Theorem printXMLNode_then_parseXMLFile t h p fuel K :
  repr h t p → wf_xml t → (2 * size t ≤ fuel)%nat →
  ∃ out h',
    printXMLNode fuel h (Some p) 2 = Ok out
    ∧ parseXMLFile (out ++ K) = Ok (Ptr (0%nat, h'), "010"%char :: K)
    ∧ repr h' t 0
    ∧ printXMLNode fuel h' (Some 0%nat) 2 = Ok out.
Proof.
  intros Hrepr Hwf Hfuel.
  destruct (parseXMLFile_text_of t K Hwf) as (h' & Hparse & Hrepr' & _).
  exists (text_of t), h'. split; [by apply printXMLNode_text|].
  split; [done|]. split; [done|]. by apply printXMLNode_text.
Qed.

Lemma printXMLNode_then_parseXMLFile_witness :
  ∃ out h',
    printXMLNode 6 arena_nested (Some 0%nat) 2 = Ok out
    ∧ parseXMLFile (out ++ str "<!-- end -->")
      = Ok (Ptr (0%nat, h'), "010"%char :: str "<!-- end -->")
    ∧ repr h' doc_nested 0
    ∧ printXMLNode 6 h' (Some 0%nat) 2 = Ok out.
Proof.
  exact (printXMLNode_then_parseXMLFile doc_nested arena_nested 0%nat 6%nat
           (str "<!-- end -->") repr_arena_nested wf_doc_nested
           ltac:(vm_compute; lia)).
Defined.

(** * Documents as trees: queries *)

Lemma string_of_list_ascii_inj l1 l2 :
  string_of_list_ascii l1 = string_of_list_ascii l2 → l1 = l2.
Proof.
  intros H. apply (f_equal list_ascii_of_string) in H.
  by rewrite !list_ascii_of_string_of_list_ascii in H.
Qed.

Lemma first_named_repr h seg ts l :
  Forall2 (repr h) ts l →
  match List.find (λ t, bool_decide (name_of t = seg)) ts with
  | Some u => ∃ a, first_named h (string_of_list_ascii seg) l = Some a
                   ∧ repr h u a
  | None => first_named h (string_of_list_ascii seg) l = None
  end.
Proof.
  unfold first_named.
  induction 1 as [|t a ts l Hrepr _ IH]; [done|]. cbn [List.find].
  inversion Hrepr as [name ? ? ? ? n Hn Hname _ _ _ _]; subst.
  cbn [name_of]. rewrite Hn. cbn [fmap option_fmap option_map].
  rewrite Hname. destruct (decide (name = seg)) as [->|Hne].
  - rewrite !bool_decide_eq_true_2 by done. by exists a.
  - rewrite !bool_decide_eq_false_2; [done| |done].
    intros [= E]. by apply string_of_list_ascii_inj in E.
Qed.

Lemma select_cons seg segs ts :
  select (seg :: segs) ts
  = match List.find (λ t, bool_decide (name_of t = seg)) ts with
    | None => None
    | Some t =>
      match segs with
      | [] => Some t
      | _ :: _ => select segs (children_of t)
      end
    end.
Proof. done. Qed.

(** The descent of [getXMLValue] through the segments of a path, on the
    arena of a document: [F] is what the last segment's node answers to
    what follows the segments in the path. *)
Lemma getXMLValue_loop_select h (F : xml → nullable string) tail :
  all_named h →
  (∀ seg ts l o pre fuel,
      segment_ok seg → chain h o l → Forall2 (repr h) ts l →
      (1 < fuel)%nat →
      getXMLValue_loop fuel h (pre ++ seg ++ tail) (length pre) o
      = Ok (match List.find (λ t, bool_decide (name_of t = seg)) ts with
            | Some u => F u
            | None => NULL (Some NoChildWithName)
            end)) →
  ∀ segs ts l o pre fuel,
    segs ≠ [] → Forall segment_ok segs →
    chain h o l → Forall2 (repr h) ts l →
    (length segs < fuel)%nat →
    getXMLValue_loop fuel h (pre ++ path_of segs ++ tail) (length pre) o
    = Ok (match select segs ts with
          | Some u => F u
          | None => NULL (Some NoChildWithName)
          end).
Proof.
  intros Hnamed Hlast segs.
  induction segs as [|seg segs IH]; intros ts l o pre fuel Hne Hok Hch Hts
    Hfuel; [done|].
  apply Forall_cons in Hok as [Hseg Hok].
  destruct segs as [|seg' segs].
  - cbn [path_of select]. rewrite (Hlast seg ts l o pre fuel) by
      (done || cbn in Hfuel; lia).
    by destruct (List.find _ ts).
  - change (path_of (seg :: seg' :: segs))
      with (seg ++ "/"%char :: path_of (seg' :: segs)).
    rewrite <- (app_assoc seg). cbn [app].
    destruct fuel as [|fuel]; [cbn in Hfuel; lia|].
    rewrite (getXMLValue_loop_step h fuel pre seg "/" _ o l) by auto.
    pose proof (first_named_repr h seg ts l Hts) as Hfind.
    rewrite (select_cons seg (seg' :: segs)).
    destruct (List.find _ ts) as [t|]; [|by rewrite Hfind].
    destruct Hfind as (a & -> & Hrepr).
    inversion Hrepr as [? ? ? children ? nd Hnd _ _ _ Hchc Hcs]; subst.
    rewrite Hnd. rewrite decide_True by done. cbn [children_of].
    specialize (IH children (layout (S a) children) (node_first nd)
                  (pre ++ seg ++ ["/"%char]) fuel ltac:(done) Hok Hchc Hcs
                  ltac:(cbn in Hfuel |- *; lia)).
    rewrite !length_app in IH. cbn [length] in IH.
    replace (length pre + (length seg + 1))%nat
      with (S (length pre + length seg)) in IH by lia.
    etrans; [|exact IH]. f_equal. rewrite <- !app_assoc. done.
Qed.

Lemma find_attr_attr_of an attrs :
  find_attr (string_of_list_ascii an) (attr_of <$> attrs)
  = attr_of <$> List.find (λ a, bool_decide (a.1 = an)) attrs.
Proof.
  unfold find_attr. induction attrs as [|[n v] attrs IH]; [done|].
  rewrite fmap_cons. cbn [List.find attr_of attribute attr_name fst].
  destruct (decide (n = an)) as [->|Hne].
  - by rewrite !bool_decide_eq_true_2.
  - rewrite !bool_decide_eq_false_2; [done|done|].
    intros [= E]. by apply string_of_list_ascii_inj in E.
Qed.

Lemma attrs_named_attr_of attrs : attrs_named (attr_of <$> attrs).
Proof. apply Forall_fmap, Forall_true. intros a. by eexists. Qed.

Lemma getXMLValue_value_select h :
  all_named h →
  ∀ segs ts l o, segs ≠ [] → Forall segment_ok segs →
    chain h o l → Forall2 (repr h) ts l →
    getXMLValue (path_of segs ++ ["$"%char]) h o
    = Ok (match select segs ts with
          | Some u =>
            match value_of u with
            | Some v => Ptr (string_of_list_ascii v)
            | None => NULL (Some PathWithoutSelector)
            end
          | None => NULL (Some NoChildWithName)
          end).
Proof.
  intros Hnamed segs ts l o Hne Hok Hch Hts. unfold getXMLValue.
  apply (getXMLValue_loop_select h
           (λ u, match value_of u with
                 | Some v => Ptr (string_of_list_ascii v)
                 | None => NULL (Some PathWithoutSelector)
                 end) ["$"%char] Hnamed) with (pre := []) (l := l);
    try done.
  - clear -Hnamed. intros seg ts l o pre fuel Hseg Hch Hts Hfuel.
    destruct fuel as [|fuel]; [lia|].
    rewrite (getXMLValue_loop_step h fuel pre seg "$" [] o l) by auto.
    pose proof (first_named_repr h seg ts l Hts) as Hfind.
    destruct (List.find _ ts) as [t|]; [|by rewrite Hfind].
    destruct Hfind as (a & -> & Hrepr).
    inversion Hrepr as [? ? value ? ? nd Hnd _ Hvalue _ _ _]; subst.
    rewrite Hnd. rewrite decide_False by done. rewrite Hvalue.
    cbn [value_of]. destruct value as [v|]; [done|].
    cbn [fmap option_fmap option_map].
    destruct fuel as [|fuel]; [lia|].
    replace (S (length pre + length seg))
      with (length (pre ++ seg ++ ["$"%char]))
      by (rewrite !length_app; cbn; lia).
    apply getXMLValue_loop_end.
  - rewrite length_app. cbn [length]. pose proof (path_of_length segs). lia.
Qed.

Lemma getXMLValue_attr_select h an :
  all_named h → wf_path_attr an →
  ∀ segs ts l o, segs ≠ [] → Forall segment_ok segs →
    chain h o l → Forall2 (repr h) ts l →
    getXMLValue (path_of segs ++ ":"%char :: an) h o
    = Ok (match select segs ts with
          | Some u =>
            match attribute_of an (attrs_of u) with
            | Some v => Ptr (string_of_list_ascii v)
            | None => NULL (Some NoAttributeWithName)
            end
          | None => NULL (Some NoChildWithName)
          end).
Proof.
  intros Hnamed Han segs ts l o Hne Hok Hch Hts. unfold getXMLValue.
  apply (getXMLValue_loop_select h
           (λ u, match attribute_of an (attrs_of u) with
                 | Some v => Ptr (string_of_list_ascii v)
                 | None => NULL (Some NoAttributeWithName)
                 end) (":"%char :: an) Hnamed) with (pre := []) (l := l);
    try done.
  - clear -Hnamed Han. intros seg ts l o pre fuel Hseg Hch Hts Hfuel.
    destruct fuel as [|fuel]; [lia|].
    rewrite (getXMLValue_loop_attr h fuel pre seg an o l) by auto.
    pose proof (first_named_repr h seg ts l Hts) as Hfind.
    destruct (List.find _ ts) as [t|]; [|by rewrite Hfind].
    destruct Hfind as (a & -> & Hrepr).
    inversion Hrepr as [? attrs ? ? ? nd Hnd _ _ Hattr _ _]; subst.
    rewrite Hnd, Hattr.
    rewrite getXMLValue_findattr_spec by apply attrs_named_attr_of.
    cbn [mbind outcome_bind attrs_of]. rewrite find_attr_attr_of.
    unfold attribute_of.
    by destruct (List.find _ attrs) as [[n v]|].
  - rewrite length_app. cbn [length]. pose proof (path_of_length segs). lia.
Qed.

Lemma segments_a_b : Forall segment_ok [str "a"; str "b"].
Proof.
  repeat constructor; try (intros Hc; discriminate Hc);
    rewrite XML_BUFFER_LENGTH_eq; cbn; lia.
Qed.

(** X22.  Queries on a parsed document.  For the tree [parseXMLFile] makes
    of the text of an element, and a path of one segment or more:
    with '$' after the segments, [getXMLValue] returns the value of the
    element the segments select (at each level the first element with the
    segment's name, the first segment naming the root), [NULL] ("Path
    without selector") when that element has no value, [NULL] ("no child
    with this name") when no element is selected; with ':' and a name after
    the segments, it returns the value of the first attribute of that name
    of the selected element, [NULL] when it has none. *)
Theorem getXMLValue_on_parsed_document t segs K :
  wf_xml t → segs ≠ [] → Forall segment_ok segs →
  ∃ h rest,
    parseXMLFile (text_of t ++ K) = Ok (Ptr (0%nat, h), rest)
    ∧ getXMLValue (path_of segs ++ ["$"%char]) h (Some 0%nat)
      = Ok (match select segs [t] with
            | Some u =>
              match value_of u with
              | Some v => Ptr (string_of_list_ascii v)
              | None => NULL (Some PathWithoutSelector)
              end
            | None => NULL (Some NoChildWithName)
            end)
    ∧ ∀ an, wf_path_attr an →
        getXMLValue (path_of segs ++ ":"%char :: an) h (Some 0%nat)
        = Ok (match select segs [t] with
              | Some u =>
                match attribute_of an (attrs_of u) with
                | Some v => Ptr (string_of_list_ascii v)
                | None => NULL (Some NoAttributeWithName)
                end
              | None => NULL (Some NoChildWithName)
              end).
Proof.
  intros Hwf Hne Hok.
  destruct (parseXMLFile_text_of t K Hwf)
    as (h & Hparse & Hrepr & _ & (_ & _ & Hnamed & _) & Hch).
  exists h, ("010"%char :: K). split; [done|]. split.
  - apply (getXMLValue_value_select h Hnamed segs [t] [0%nat]); try done.
    by repeat constructor.
  - intros an Han.
    apply (getXMLValue_attr_select h an Hnamed Han segs [t] [0%nat]);
      try done.
    by repeat constructor.
Qed.

Lemma getXMLValue_on_parsed_document_witness :
  ∃ h rest,
    parseXMLFile (text_of doc_nested ++ []) = Ok (Ptr (0%nat, h), rest)
    ∧ getXMLValue (str "a/b$") h (Some 0%nat) = Ok (Ptr "x y"%string)
    ∧ ∀ an, wf_path_attr an →
        getXMLValue (str "a/b:" ++ an) h (Some 0%nat)
        = Ok (NULL (Some NoAttributeWithName)).
Proof.
  exact (getXMLValue_on_parsed_document doc_nested [str "a"; str "b"] []
           wf_doc_nested ltac:(done) segments_a_b).
Defined.

(** X23.  Typed queries on a parsed document.  [getXMLString] returns what
    the path finds in the document, and its default, which may be [NULL],
    when the path finds nothing.  [getXMLBool] returns 1 when what the path
    finds is exactly [true], 0 when it is exactly [false], and its default
    for any other text and when the path finds nothing.  The path is one
    segment or more followed by '$' (the value of the selected element) or
    by ':' and an attribute name. *)
Theorem typed_queries_on_parsed_document t segs K :
  wf_xml t → segs ≠ [] → Forall segment_ok segs →
  ∃ h rest,
    parseXMLFile (text_of t ++ K) = Ok (Ptr (0%nat, h), rest)
    ∧ ∀ path found,
        query_finds segs [t] path found →
        (∀ d, getXMLString path h (Some 0%nat) d
              = Ok (match found with
                    | Some v => Some (string_of_list_ascii v)
                    | None => d
                    end))
        ∧ (∀ d, getXMLBool path h (Some 0%nat) d
                = Ok (match found with
                      | Some v =>
                        if decide (v = str "true") then 1
                        else if decide (v = str "false") then 0
                        else d
                      | None => d
                      end)).
Proof.
  intros Hwf Hne Hok.
  destruct (parseXMLFile_text_of t K Hwf)
    as (h & Hparse & Hrepr & _ & (_ & _ & Hnamed & _) & Hch).
  exists h, ("010"%char :: K). split; [done|].
  assert (Forall2 (repr h) [t] [0%nat]) as Hts by (by repeat constructor).
  assert (∀ v, (string_of_list_ascii v = "true"%string ↔ v = str "true")
               ∧ (string_of_list_ascii v = "false"%string ↔ v = str "false"))
    as Hstr.
  { intros v. split; (split; [|by intros ->]); intros E;
      apply string_of_list_ascii_inj; by rewrite E. }
  assert (∀ path found,
            getXMLValue path h (Some 0%nat)
            = Ok (match found with
                  | Some v => Ptr (string_of_list_ascii v)
                  | None => NULL (Some PathWithoutSelector)
                  end)
            ∨ (found = None ∧ ∃ e, getXMLValue path h (Some 0%nat)
                                   = Ok (NULL e)) →
            (∀ d, getXMLString path h (Some 0%nat) d
                  = Ok (match found with
                        | Some v => Some (string_of_list_ascii v)
                        | None => d
                        end))
            ∧ (∀ d, getXMLBool path h (Some 0%nat) d
                    = Ok (match found with
                          | Some v =>
                            if decide (v = str "true") then 1
                            else if decide (v = str "false") then 0
                            else d
                          | None => d
                          end))) as Htyped.
  { intros path found [E|(-> & e & E)];
      (split; intros d; unfold getXMLString, getXMLBool; rewrite E;
       cbn [mbind outcome_bind]); try done.
    - by destruct found.
    - destruct found as [v|]; [|done].
      destruct (Hstr v) as [Htrue Hfalse].
      repeat case_decide; try done; tauto. }
  intros path found [|an Han]; apply Htyped.
  - rewrite (getXMLValue_value_select h Hnamed segs [t] [0%nat]) by done.
    unfold found_value. destruct (select segs [t]) as [u|]; cbn.
    + left. by destruct (value_of u).
    + right. eauto.
  - rewrite (getXMLValue_attr_select h an Hnamed Han segs [t] [0%nat])
      by done.
    unfold found_attribute. destruct (select segs [t]) as [u|]; cbn.
    + destruct (attribute_of an (attrs_of u)); [by left|right; eauto].
    + right. eauto.
Qed.

Lemma typed_queries_on_parsed_document_witness :
  ∃ h rest,
    parseXMLFile (text_of doc_flag ++ []) = Ok (Ptr (0%nat, h), rest)
    ∧ getXMLBool (str "opt:on") h (Some 0%nat) 7 = Ok 1
    ∧ getXMLBool (str "opt$") h (Some 0%nat) 7 = Ok 0
    ∧ getXMLBool (str "opt:off") h (Some 0%nat) 7 = Ok 7
    ∧ getXMLString (str "opt:on") h (Some 0%nat) None = Ok (Some "true"%string).
Proof.
  destruct (typed_queries_on_parsed_document doc_flag [str "opt"] [])
    as (h & rest & Hparse & Hq).
  - repeat (constructor; wf_now).
  - done.
  - repeat constructor; try (intros Hc; discriminate Hc);
      rewrite XML_BUFFER_LENGTH_eq; cbn; lia.
  - exists h, rest. split; [exact Hparse|].
    assert (wf_path_attr (str "on")) as Hon by wf_now.
    assert (wf_path_attr (str "off")) as Hoff by wf_now.
    split; [exact (proj2 (Hq _ _ (finds_attribute _ _ _ Hon)) 7)|].
    split; [exact (proj2 (Hq _ _ (finds_value _ _)) 7)|].
    split; [exact (proj2 (Hq _ _ (finds_attribute _ _ _ Hoff)) 7)|].
    exact (proj1 (Hq _ _ (finds_attribute _ _ _ Hon)) None).
Defined.

(** * Sibling lists are linked both ways (node.c, xml.c) *)

Lemma link_current p c l0 x n :
  node_current (link p c l0 x n)
  = if decide (x = p ∧ l0 = None) then Some c else node_current n.
Proof.
  unfold link. destruct l0; repeat case_decide; try (by destruct n);
    intuition congruence.
Qed.

Lemma chain_last_next h o l a :
  chain h o l → last l = Some a →
  ∃ na, h !! a = Some na ∧ node_next na = None.
Proof.
  induction 1 as [|b n l Hb Hch IH]; [done|]. intros Hlast.
  destruct l as [|b' l].
  - injection Hlast as <-. inversion Hch. by exists n.
  - apply IH. by rewrite last_cons_cons in Hlast.
Qed.

Lemma built_last_next h p np l :
  built h → h !! p = Some np → node_last np = Some l →
  ∃ nl, h !! l = Some nl ∧ node_next nl = None.
Proof.
  intros (Hinv & _) Hp Hl.
  destruct (Hinv p np Hp) as (ch & Hch & _ & Hlast & _).
  apply (chain_last_next h _ ch l Hch). congruence.
Qed.

Lemma built_first_last h p np :
  built h → h !! p = Some np → node_last np = None → node_first np = None.
Proof.
  intros (Hinv & _) Hp Hl.
  destruct (Hinv p np Hp) as (ch & Hch & _ & Hlast & _).
  rewrite Hl in Hlast. symmetry in Hlast. apply last_None in Hlast.
  subst ch. by inversion Hch.
Qed.

Lemma back_linked_value h n nd v :
  back_linked h → h !! n = Some nd →
  back_linked (<[n := setXMLNodeValue v nd]> h).
Proof.
  intros Hbl Hn x nx Hx.
  assert (∀ y, node_previous <$> (<[n := setXMLNodeValue v nd]> h) !! y
               = node_previous <$> h !! y
               ∧ node_next <$> (<[n := setXMLNodeValue v nd]> h) !! y
                 = node_next <$> h !! y) as Hsame.
  { intros y. destruct (decide (y = n)) as [->|Hne].
    - rewrite list_lookup_insert_eq by (by eapply lookup_lt_Some).
      by rewrite Hn.
    - by rewrite list_lookup_insert_ne. }
  assert (∃ nx0, h !! x = Some nx0
                 ∧ node_current nx = node_current nx0
                 ∧ node_first nx = node_first nx0
                 ∧ node_next nx = node_next nx0
                 ∧ node_previous nx = node_previous nx0)
    as (nx0 & Hx0 & -> & -> & -> & ->).
  { destruct (decide (x = n)) as [->|Hne].
    - rewrite list_lookup_insert_eq in Hx by (by eapply lookup_lt_Some).
      injection Hx as <-. by exists nd.
    - rewrite list_lookup_insert_ne in Hx by done. by exists nx. }
  destruct (Hbl x nx0 Hx0) as (Hcur & Hnext & Hprev & Hfirst).
  split; [done|]. split; [|split]; intros y Hy.
  - rewrite (proj1 (Hsame y)). by apply Hnext.
  - rewrite (proj2 (Hsame y)). by apply Hprev.
  - rewrite (proj1 (Hsame y)). by apply Hfirst.
Qed.

Lemma back_linked_link h cur np fresh h2 :
  back_linked h → built h → (cur < length h)%nat →
  h !! cur = Some np →
  node_current fresh = None → node_first fresh = None →
  node_next fresh = None → node_previous fresh = None →
  (∀ x, h2 !! x
        = link cur (length h) (node_last np) x <$> (h ++ [fresh]) !! x) →
  back_linked h2.
Proof.
  intros Hbl Hb Hcur Hnp Hfc Hff Hfn Hfp Hlink.
  set (c := length h) in *. set (l0 := node_last np) in *.
  assert (∀ l, l0 = Some l → (l < c)%nat) as Hl0
    by (intros l Hl; by eapply (built_last_valid h cur np l)).
  assert (∀ y ny, h !! y = Some ny →
                  h2 !! y = Some (link cur c l0 y ny) ∧ y ≠ c) as Hold.
  { intros y ny Hy. pose proof (lookup_lt_Some _ _ _ Hy).
    rewrite Hlink, lookup_app_l, Hy by done. split; [done|]. unfold c. lia. }
  assert (h2 !! c = Some (link cur c l0 c fresh)) as Hnew.
  { rewrite Hlink. unfold c. by rewrite list_lookup_middle. }
  intros x n' Hx.
  destruct (decide (x = c)) as [->|Hxc].
  - rewrite Hnew in Hx. injection Hx as <-.
    rewrite link_current, link_first, link_next, link_previous.
    rewrite !(decide_False (P := c = cur ∧ l0 = None)) by (unfold c; lia).
    rewrite (decide_True (P := c = c)) by done.
    rewrite Hfc, Hff, Hfn, Hfp.
    destruct (decide (l0 = Some c)) as [E|_];
      [apply Hl0 in E; lia|].
    split; [done|]. split; [done|]. split; [|done].
    intros l Hl. destruct l0 as [l'|] eqn:El0; [|done].
    injection Hl as ->.
    destruct (built_last_next h cur np l Hb Hnp El0) as (nl & Hnl & _).
    rewrite (proj1 (Hold l nl Hnl)). cbn. rewrite link_next.
    by rewrite decide_True.
  - assert (∃ n, h !! x = Some n ∧ n' = link cur c l0 x n)
      as (n & Hn & ->).
    { rewrite Hlink in Hx.
      destruct (decide (x < c)%nat) as [Hlt|Hge].
      - rewrite lookup_app_l in Hx by done.
        destruct (h !! x) as [n|]; [|done]. injection Hx as <-. eauto.
      - rewrite lookup_ge_None_2 in Hx; [done|].
        rewrite length_app. cbn. unfold c in *. lia. }
    destruct (Hbl x n Hn) as (Hc & Hnext & Hprev & Hfirst).
    rewrite link_current, link_first, link_next, link_previous.
    rewrite (decide_False (P := x = c)) by done.
    split; [|split; [|split]].
    + case_decide; [done|]. exact Hc.
    + intros y Hy. case_decide as El0.
      * injection Hy as <-. rewrite Hnew. cbn. rewrite link_previous.
        rewrite decide_True by done. by rewrite El0.
      * specialize (Hnext y Hy).
        destruct (h !! y) as [ny|] eqn:Hny; [|done].
        destruct (Hold y ny Hny) as [-> Hyc]. cbn. rewrite link_previous.
        by rewrite decide_False.
    + intros y Hy. specialize (Hprev y Hy).
      destruct (h !! y) as [ny|] eqn:Hny; [|done].
      destruct (Hold y ny Hny) as [-> Hyc]. cbn. rewrite link_next.
      rewrite decide_False; [done|]. intros El0.
      destruct (built_last_next h cur np y Hb Hnp El0) as (nl & Hnl & Hnone).
      rewrite Hny in Hnl. injection Hnl as <-. cbn in Hprev. congruence.
    + intros f Hf. case_decide as Hp.
      * injection Hf as <-. rewrite Hnew. cbn. rewrite link_previous.
        rewrite decide_True by done. destruct Hp as [_ ->]. by rewrite Hfp.
      * specialize (Hfirst f Hf).
        destruct (h !! f) as [nf|] eqn:Hnf; [|done].
        destruct (Hold f nf Hnf) as [-> Hfc']. cbn. rewrite link_previous.
        by rewrite decide_False.
Qed.

Lemma parseXMLFile_back_linked file root h rest :
  parseXMLFile file = Ok (Ptr (root, h), rest) → back_linked h.
Proof.
  apply (parseXMLFile_keeps back_linked).
  - intros _ tag _ s _ _ [|x] n Hx; [|done]. injection Hx as <-.
    by repeat split.
  - intros h0 n nd v Hbl _ Hn. by apply back_linked_value.
  - intros h0 cur _ tag _ s np h2 Hbl Hb Hcur _ _ Hnp _ Hlink.
    by apply (back_linked_link h0 cur np
                (set_attr (rev (tag_attr tag)) (set_name (Some s) initXMLNode))
                h2 Hbl Hb Hcur Hnp).
Qed.

(** X24.  In the tree of a document [parseXMLFile] accepts, the sibling
    lists are linked both ways: the [next] sibling of a node has that node
    as its [previous] sibling and conversely, the [first] child of a node
    has no [previous] sibling, its [last] child no [next] sibling, and
    [current] is the [first] child. *)
Theorem parsed_tree_siblings_linked_both_ways :
  ∀ file root h rest,
    parseXMLFile file = Ok (Ptr (root, h), rest) →
    ∀ x n, h !! x = Some n →
      node_current n = node_first n
      ∧ (∀ y, node_next n = Some y ↔
              ∃ ny, h !! y = Some ny ∧ node_previous ny = Some x)
      ∧ (∀ f, node_first n = Some f →
              ∃ nf, h !! f = Some nf ∧ node_previous nf = None)
      ∧ (∀ l, node_last n = Some l →
              ∃ nl, h !! l = Some nl ∧ node_next nl = None).
Proof.
  intros file root h rest H x n Hx.
  pose proof (parseXMLFile_back_linked _ _ _ _ H) as Hbl.
  pose proof (parseXMLFile_built _ _ _ _ H) as [Hb _].
  destruct (Hbl x n Hx) as (Hc & Hnext & _ & Hfirst).
  split; [done|]. split; [|split].
  - intros y. split.
    + intros Hy. specialize (Hnext y Hy).
      destruct (h !! y) as [ny|]; [|done]. injection Hnext as Hp. eauto.
    + intros (ny & Hny & Hp).
      destruct (Hbl y ny Hny) as (_ & _ & Hprev & _).
      specialize (Hprev x Hp). rewrite Hx in Hprev. by injection Hprev.
  - intros f Hf. specialize (Hfirst f Hf).
    destruct (h !! f) as [nf|]; [|done]. injection Hfirst as Hp. eauto.
  - intros l Hl. by apply (built_last_next h x n l Hb Hx).
Qed.

Lemma parsed_tree_siblings_linked_both_ways_witness :
  parseXMLFile doc_items = Ok (Ptr (0%nat, tree_of doc_items), [])
  ∧ ∀ x n, tree_of doc_items !! x = Some n →
      node_current n = node_first n
      ∧ (∀ y, node_next n = Some y ↔
              ∃ ny, tree_of doc_items !! y = Some ny
                    ∧ node_previous ny = Some x)
      ∧ (∀ f, node_first n = Some f →
              ∃ nf, tree_of doc_items !! f = Some nf
                    ∧ node_previous nf = None)
      ∧ (∀ l, node_last n = Some l →
              ∃ nl, tree_of doc_items !! l = Some nl ∧ node_next nl = None).
Proof.
  split; [vm_compute; reflexivity|].
  apply (parsed_tree_siblings_linked_both_ways doc_items 0%nat
           (tree_of doc_items) []).
  vm_compute. reflexivity.
Defined.

(** * Taking a node out of a sibling list (node.c) *)

Lemma unlink_other p c prev next x n :
  x ≠ p → x ≠ c → prev ≠ Some x → next ≠ Some x →
  unlink p c prev next x n = n.
Proof.
  intros Hp Hc Ha Hb. unfold unlink. by rewrite !decide_False by done.
Qed.

Lemma store_if {P : Prop} (d : {P} + {¬ P}) p f h n :
  h !! p = Some n →
  (if d then store p f h else Ok h)
  = store p (λ n, if d then f n else n) h.
Proof.
  intros Hp. destruct d; [done|].
  rewrite (store_Some _ _ _ _ Hp). by rewrite list_insert_id.
Qed.

(** Lookups in an arena written as a sequence of stores. *)
Ltac heap_lookup :=
  repeat first
    [ rewrite list_lookup_insert_ne by done
    | rewrite list_lookup_insert_eq by (rewrite ?length_insert; done) ];
  first [ eassumption | reflexivity ].

Ltac heap_lookup_at :=
  repeat first
    [ rewrite list_lookup_insert_ne by done
    | rewrite list_lookup_insert_eq by (rewrite ?length_insert; done) ].

(** The tests of [unlink] on addresses, decided from the context. *)
Ltac unlink_tests :=
  repeat match goal with
  | |- context [decide (?x = ?y)] =>
    is_var x; is_var y;
    first [ rewrite (decide_True (P := x = y)) by congruence
          | rewrite (decide_False (P := x = y)) by congruence ]
  | |- context [decide (Some ?x = Some ?y)] =>
    is_var x; is_var y;
    first [ rewrite (decide_True (P := Some x = Some y)) by congruence
          | rewrite (decide_False (P := Some x = Some y)) by congruence ]
  | |- context [decide (None = Some ?y)] =>
    rewrite (decide_False (P := None = Some y)) by done
  end.

(** The arena after the stores against [unlink], at a node of the context
    and elsewhere. *)
Ltac unlink_at H :=
  heap_lookup_at; rewrite H; cbn [fmap option_fmap option_map];
  unfold unlink; unlink_tests; reflexivity.

Ltac unlink_elsewhere h j :=
  heap_lookup_at; destruct (h !! j); [|done];
  cbn [fmap option_fmap option_map]; by rewrite unlink_other by congruence.

Ltac run_delete :=
  repeat first
    [ progress cbn [mbind outcome_bind]
    | erewrite load_Some by heap_lookup
    | progress cbn [node_parent node_previous node_next set_parent]
    | erewrite store_if by heap_lookup
    | erewrite store_Some by heap_lookup ].

Lemma deleteXMLNodeFromParent_effect h p c np nc :
  h !! c = Some nc → node_parent nc = Some p → h !! p = Some np →
  p ≠ c →
  node_previous nc ≠ Some c → node_next nc ≠ Some c →
  node_previous nc ≠ Some p → node_next nc ≠ Some p →
  (∀ a, node_previous nc = Some a → is_Some (h !! a)) →
  (∀ b, node_next nc = Some b → is_Some (h !! b)) →
  (∀ a, node_previous nc = Some a → node_next nc ≠ Some a) →
  ∃ h', deleteXMLNodeFromParent (Some c) h = Ok h'
        ∧ ∀ x, h' !! x
               = unlink p c (node_previous nc) (node_next nc) x <$> h !! x.
Proof.
  intros Hc Hpar Hp Hpc Hac Hbc Hap Hbp Ha Hb Hab.
  assert (c ≠ p) as Hcp by done.
  pose proof (lookup_lt_Some _ _ _ Hc) as Hclt.
  pose proof (lookup_lt_Some _ _ _ Hp) as Hplt.
  destruct nc as [cname cvalue cattr cparent [a|] [b|] cfirst ccur clast ccc];
    cbn in Hpar, Hac, Hbc, Hap, Hbp, Ha, Hb, Hab; subst cparent.
  - destruct (Ha a eq_refl) as [na Hna]. destruct (Hb b eq_refl) as [nb Hnb].
    pose proof (lookup_lt_Some _ _ _ Hna) as Halt.
    pose proof (lookup_lt_Some _ _ _ Hnb) as Hblt.
    assert (a ≠ c) by congruence. assert (b ≠ c) by congruence.
    assert (a ≠ p) by congruence. assert (b ≠ p) by congruence.
    assert (b ≠ a) by (specialize (Hab a eq_refl); congruence).
    assert (c ≠ a) by done. assert (c ≠ b) by done. assert (p ≠ a) by done.
    assert (p ≠ b) by done. assert (a ≠ b) by done.
    clear Ha Hb Hab Hac Hbc Hap Hbp.
    unfold deleteXMLNodeFromParent. run_delete.
    eexists. split; [done|]. intros j.
    destruct (decide (j = p)) as [->|Hjp]; [unlink_at Hp|].
    destruct (decide (j = c)) as [->|Hjc]; [unlink_at Hc|].
    destruct (decide (j = a)) as [->|Hja]; [unlink_at Hna|].
    destruct (decide (j = b)) as [->|Hjb]; [unlink_at Hnb|].
    unlink_elsewhere h j.
  - destruct (Ha a eq_refl) as [na Hna].
    pose proof (lookup_lt_Some _ _ _ Hna) as Halt.
    assert (a ≠ c) by congruence. assert (a ≠ p) by congruence.
    assert (c ≠ a) by done. assert (p ≠ a) by done.
    clear Ha Hb Hab Hac Hbc Hap Hbp.
    unfold deleteXMLNodeFromParent. run_delete.
    eexists. split; [done|]. intros j.
    destruct (decide (j = p)) as [->|Hjp]; [unlink_at Hp|].
    destruct (decide (j = c)) as [->|Hjc]; [unlink_at Hc|].
    destruct (decide (j = a)) as [->|Hja]; [unlink_at Hna|].
    unlink_elsewhere h j.
  - destruct (Hb b eq_refl) as [nb Hnb].
    pose proof (lookup_lt_Some _ _ _ Hnb) as Hblt.
    assert (b ≠ c) by congruence. assert (b ≠ p) by congruence.
    assert (c ≠ b) by done. assert (p ≠ b) by done.
    clear Ha Hb Hab Hac Hbc Hap Hbp.
    unfold deleteXMLNodeFromParent. run_delete.
    eexists. split; [done|]. intros j.
    destruct (decide (j = p)) as [->|Hjp]; [unlink_at Hp|].
    destruct (decide (j = c)) as [->|Hjc]; [unlink_at Hc|].
    destruct (decide (j = b)) as [->|Hjb]; [unlink_at Hnb|].
    unlink_elsewhere h j.
  - clear Ha Hb Hab Hac Hbc Hap Hbp.
    unfold deleteXMLNodeFromParent. run_delete.
    eexists. split; [done|]. intros j.
    destruct (decide (j = p)) as [->|Hjp]; [unlink_at Hp|].
    destruct (decide (j = c)) as [->|Hjc]; [unlink_at Hc|].
    unlink_elsewhere h j.
Qed.

Lemma unlink_next p c prev next x n :
  x ≠ c →
  node_next (unlink p c prev next x n)
  = if decide (prev = Some x) then next else node_next n.
Proof.
  intros Hx. unfold unlink. rewrite !(decide_False (P := x = c)) by done.
  destruct next; repeat case_decide; by destruct n.
Qed.

Lemma unlink_previous p c prev next x n :
  x ≠ c →
  node_previous (unlink p c prev next x n)
  = if decide (next = Some x) then prev else node_previous n.
Proof.
  intros Hx. unfold unlink. rewrite !(decide_False (P := x = c)) by done.
  destruct next; repeat case_decide; by destruct n.
Qed.

Lemma unlink_child p c prev next n :
  c ≠ p →
  node_parent (unlink p c prev next c n) = None
  ∧ node_previous (unlink p c prev next c n) = None
  ∧ node_next (unlink p c prev next c n) = None.
Proof.
  intros Hc. unfold unlink. rewrite !(decide_False (P := c = p)) by done.
  rewrite !(decide_True (P := c = c)) by done.
  by repeat case_decide.
Qed.

Lemma unlink_parent p c prev next n :
  p ≠ c → prev ≠ Some p → next ≠ Some p →
  node_first (unlink p c prev next p n)
  = (if decide (node_first n = Some c) then next else node_first n)
  ∧ node_last (unlink p c prev next p n)
    = (if decide (node_last n = Some c) then prev else node_last n)
  ∧ node_cc (unlink p c prev next p n) = node_cc n - 1.
Proof.
  intros Hp Ha Hb. unfold unlink.
  rewrite !(decide_False (P := p = c)) by done.
  rewrite !(decide_True (P := p = p)) by done.
  rewrite !(decide_False (P := prev = Some p)) by done.
  rewrite !(decide_False (P := next = Some p)) by done.
  destruct n, next; cbn; repeat case_decide; done.
Qed.

Lemma chain_middle h o l1 c l2 :
  chain h o (l1 ++ c :: l2) →
  ∃ nc, h !! c = Some nc ∧ chain h (node_next nc) l2.
Proof.
  revert o. induction l1 as [|a l1 IH]; intros o Hch; cbn [app] in Hch;
    inversion Hch; subst; eauto.
Qed.

(** Taking [c] out of a sibling list: the node before it, if any, points to
    the node after it. *)
Lemma chain_remove h h' o l1 c l2 :
  chain h o (l1 ++ c :: l2) → NoDup (l1 ++ c :: l2) →
  (∀ x n, x ∈ l1 ++ l2 → h !! x = Some n →
          ∃ n', h' !! x = Some n'
                ∧ node_next n' = if decide (last l1 = Some x) then head l2
                                 else node_next n) →
  chain h' (head (l1 ++ l2)) (l1 ++ l2).
Proof.
  revert o. induction l1 as [|a l1 IH]; intros o Hch Hnd Hnext.
  - cbn [app] in *. inversion Hch as [|? nc ? Hc Hch2]; subst.
    rewrite <- (chain_head h _ _ Hch2).
    apply (chain_frame h h' _ _ Hch2). intros x n Hx Hn.
    destruct (Hnext x n Hx Hn) as (n' & Hn' & E). exists n'.
    by rewrite decide_False in E.
  - cbn [app] in *. inversion Hch as [|? na ? Ha Hch2]; subst.
    apply NoDup_cons in Hnd as [Hal Hnd].
    destruct (Hnext a na ltac:(by left) Ha) as (na' & Ha' & Enext).
    cbn [head]. apply (chain_cons h' a na' _ Ha').
    assert ((a ∉ l1) ∧ (a ∉ l2)) as [Hal1 Hal2].
    { split; intros Hin; apply Hal; apply elem_of_app; [by left|].
      right. by right. }
    assert (node_next na' = head (l1 ++ l2)) as ->.
    { rewrite Enext. destruct l1 as [|a' l1].
      - by rewrite decide_True.
      - rewrite decide_False.
        + by rewrite (chain_head h _ _ Hch2).
        + rewrite last_cons_cons. intros E.
          apply last_Some_elem_of in E. done. }
    apply (IH _ Hch2 Hnd). intros x n Hx Hn.
    destruct (Hnext x n ltac:(by right) Hn) as (n' & Hn' & E).
    exists n'. split; [done|]. rewrite E.
    destruct l1 as [|a' l1]; [|by rewrite last_cons_cons].
    cbn [last]. rewrite !decide_False; [done|done|].
    intros [= ->]. by cbn [app] in Hx.
Qed.

(** X25.  [deleteXMLNodeFromParent] takes a node out of the children of its
    parent.  When [c] stands in the sibling list of its parent [p] between
    the nodes [l1] and the nodes [l2], the list being without repetition
    and [previous] of [c] being the node before it, the call leaves [p]
    with the children [l1] then [l2], in that order, with [last] at the end
    of that list and a child count one lower; [c] has no parent nor
    siblings any more; the node that followed [c] has the node that
    preceded it as [previous]; and every node other than [p] and the
    children of [p] is untouched. *)
Theorem deleteXMLNodeFromParent_removes_child h p c np nc l1 l2 :
  h !! c = Some nc → node_parent nc = Some p → h !! p = Some np →
  chain h (node_first np) (l1 ++ c :: l2) →
  NoDup (l1 ++ c :: l2) → p ∉ l1 ++ c :: l2 →
  node_last np = last (l1 ++ c :: l2) →
  node_previous nc = last l1 →
  ∃ h' np' nc',
    deleteXMLNodeFromParent (Some c) h = Ok h'
    ∧ length h' = length h
    ∧ h' !! p = Some np'
    ∧ chain h' (node_first np') (l1 ++ l2)
    ∧ node_last np' = last (l1 ++ l2)
    ∧ node_cc np' = node_cc np - 1
    ∧ h' !! c = Some nc'
    ∧ node_parent nc' = None ∧ node_previous nc' = None
    ∧ node_next nc' = None
    ∧ (∀ b, head l2 = Some b →
            node_previous <$> h' !! b = Some (last l1))
    ∧ (∀ x, x ≠ p → x ∉ l1 ++ c :: l2 → h' !! x = h !! x).
Proof.
  intros Hc Hpar Hp Hch Hnd Hpl Hlast Hprev.
  destruct (chain_middle h _ l1 c l2 Hch) as (nc0 & Hc0 & Hch2).
  rewrite Hc in Hc0. injection Hc0 as <-.
  pose proof (chain_head h _ _ Hch2) as Hnext.
  pose proof (chain_head h _ _ Hch) as Hfirst.
  pose proof Hnd as Hnd'.
  apply NoDup_app in Hnd' as (_ & Hdisj & Hnd2).
  apply NoDup_cons in Hnd2 as [Hcl2 _].
  assert (c ∉ l1) as Hcl1 by (intros Hin; apply (Hdisj c Hin); by left).
  assert (∀ a, last l1 = Some a → a ∈ l1) as Hin1
    by (intros a; apply last_Some_elem_of).
  assert (∀ b, head l2 = Some b → b ∈ l2) as Hin2.
  { intros b Hb. destruct l2; [done|]. injection Hb as ->. by left. }
  assert (∀ x, x ∈ l1 → x ∈ l1 ++ c :: l2) as Hl1
    by (intros x Hx; apply elem_of_app; by left).
  assert (∀ x, x ∈ l2 → x ∈ l1 ++ c :: l2) as Hl2
    by (intros x Hx; apply elem_of_app; right; by right).
  assert (p ≠ c) as Hpc.
  { intros ->. apply Hpl, elem_of_app. right. by left. }
  destruct (deleteXMLNodeFromParent_effect h p c np nc Hc Hpar Hp Hpc)
    as (h' & Hdel & Heff).
  - rewrite Hprev. intros E. by apply Hin1 in E.
  - rewrite Hnext. intros E. by apply Hin2 in E.
  - rewrite Hprev. intros E. by apply Hin1, Hl1 in E.
  - rewrite Hnext. intros E. by apply Hin2, Hl2 in E.
  - rewrite Hprev. intros a E.
    by apply (chain_valid h _ _ a Hch), Hl1, Hin1.
  - rewrite Hnext. intros b E.
    by apply (chain_valid h _ _ b Hch), Hl2, Hin2.
  - rewrite Hprev, Hnext. intros a E1 E2.
    apply (Hdisj a); [by apply Hin1|]. right. by apply Hin2.
  - rewrite Hprev, Hnext in Heff.
    assert (last l1 ≠ Some p) as Hap
      by (intros E; by apply Hin1, Hl1 in E).
    assert (head l2 ≠ Some p) as Hbp
      by (intros E; by apply Hin2, Hl2 in E).
    destruct (unlink_parent p c (last l1) (head l2) np Hpc Hap Hbp)
      as (Hf' & Hl' & Hcc').
    destruct (unlink_child p c (last l1) (head l2) nc (not_eq_sym Hpc))
      as (Hcp' & Hcprev' & Hcnext').
    exists h', (unlink p c (last l1) (head l2) p np),
      (unlink p c (last l1) (head l2) c nc).
    split; [done|]. split.
    { apply Nat.le_antisymm; apply Nat.nlt_ge; intros Hlt.
      - pose proof (Heff (length h)) as E.
        rewrite (lookup_ge_None_2 h) in E by lia.
        destruct (lookup_lt_is_Some_2 h' (length h) Hlt) as [n Hn].
        by rewrite Hn in E.
      - pose proof (Heff (length h')) as E.
        rewrite (lookup_ge_None_2 h') in E by lia.
        destruct (lookup_lt_is_Some_2 h (length h') Hlt) as [n Hn].
        by rewrite Hn in E. }
    split; [by rewrite Heff, Hp|]. split.
    { assert (node_first (unlink p c (last l1) (head l2) p np)
              = head (l1 ++ l2)) as ->.
      { rewrite Hf', Hfirst. destruct l1 as [|a l1]; cbn [app head].
        - by rewrite decide_True.
        - rewrite decide_False; [done|]. intros [= ->]. apply Hcl1. by left. }
      apply (chain_remove h h' _ l1 c l2 Hch Hnd). intros x n Hx Hn.
      exists (unlink p c (last l1) (head l2) x n).
      split; [by rewrite Heff, Hn|]. apply unlink_next.
      intros ->. apply elem_of_app in Hx as [?|?]; done. }
    split.
    { assert (∀ l, l ≠ [] → last (l1 ++ l) = last l) as Hla.
      { intros l Hl. rewrite last_app.
        destruct (last l) eqn:El; [done|]. by apply last_None in El. }
      rewrite Hl', Hlast, (Hla (c :: l2)) by done.
      destruct l2 as [|b l2].
      - cbn [last]. rewrite decide_True by done. by rewrite app_nil_r.
      - rewrite last_cons_cons, (Hla (b :: l2)) by done.
        rewrite decide_False; [done|]. intros E.
        by apply last_Some_elem_of in E. }
    split; [done|]. split; [by rewrite Heff, Hc|].
    split; [done|]. split; [done|]. split; [done|]. split.
    + intros b Hb. pose proof (Hin2 b Hb) as Hbin.
      destruct (chain_valid h _ _ b Hch (Hl2 b Hbin)) as [nb Hnb].
      rewrite Heff, Hnb. cbn. rewrite unlink_previous by (by intros ->).
      by rewrite decide_True.
    + intros x Hxp Hxl. rewrite Heff. destruct (h !! x) as [n|]; [|done].
      cbn. rewrite unlink_other; [done|done| | |].
      * intros ->. apply Hxl, elem_of_app. right. by left.
      * intros E. by apply Hin1, Hl1 in E.
      * intros E. by apply Hin2, Hl2 in E.
Qed.

Lemma deleteXMLNodeFromParent_removes_child_witness :
  ∃ h' np' nc',
    deleteXMLNodeFromParent (Some 1%nat) arena_nested = Ok h'
    ∧ length h' = length arena_nested
    ∧ h' !! 0%nat = Some np'
    ∧ chain h' (node_first np') [2%nat]
    ∧ node_last np' = Some 2%nat
    ∧ node_cc np' = 1
    ∧ h' !! 1%nat = Some nc'
    ∧ node_parent nc' = None ∧ node_previous nc' = None
    ∧ node_next nc' = None
    ∧ (∀ b, Some 2%nat = Some b →
            node_previous <$> h' !! b = Some None)
    ∧ (∀ x, x ≠ 0%nat → x ∉ [1%nat; 2%nat] →
            h' !! x = arena_nested !! x).
Proof.
  exact (deleteXMLNodeFromParent_removes_child arena_nested 0%nat 1%nat
           (default initXMLNode (arena_nested !! 0%nat))
           (default initXMLNode (arena_nested !! 1%nat)) [] [2%nat]
           eq_refl eq_refl eq_refl
           ltac:(repeat (econstructor; try reflexivity))
           ltac:(by apply (bool_decide_unpack _))
           ltac:(by apply (bool_decide_unpack _)) eq_refl eq_refl).
Defined.

(** * The terminal check of the tree builder (xml.c) *)

Lemma parseXMLFile_loop_erase fuel :
  ∀ file h root cur,
    parseXMLFile_loop fuel file h root cur
    = (r ← parseXMLFile_loop_tags fuel file h root cur; Ok r.1).
Proof.
  induction fuel as [|fuel IH]; intros file h root cur; [done|].
  unfold parseXMLFile_loop, parseXMLFile_loop_tags;
    fold parseXMLFile_loop; fold parseXMLFile_loop_tags.
  destruct (readXMLNodeValue cur file h) as [[h1 file1]|u|];
    cbn [mbind outcome_bind]; [|done..].
  destruct (readXMLTag file1) as [[[tag|d] file2]|u|];
    cbn [mbind outcome_bind]; [|done..].
  destruct (tag_type tag); cbn [createXMLNode].
  - destruct (initXMLNodeFromXMLTag _ _ _) as [h2|u|];
      cbn [mbind outcome_bind]; [|done..].
    destruct (addXMLNodeToParent _ _ _) as [h3|u|];
      cbn [mbind outcome_bind]; [|done..].
    rewrite IH. by destruct (parseXMLFile_loop_tags _ _ _ _ _)
      as [[[r f] tags]|u|].
  - destruct (load h1 cur) as [n|u|]; cbn [mbind outcome_bind]; [|done..].
    destruct (node_parent n); [|done].
    rewrite IH. by destruct (parseXMLFile_loop_tags _ _ _ _ _)
      as [[[r f] tags]|u|].
  - destruct (initXMLNodeFromXMLTag _ _ _) as [h2|u|];
      cbn [mbind outcome_bind]; [|done..].
    destruct (addXMLNodeToParent _ _ _) as [h3|u|];
      cbn [mbind outcome_bind]; [|done..].
    rewrite IH. by destruct (parseXMLFile_loop_tags _ _ _ _ _)
      as [[[r f] tags]|u|].
  - rewrite IH. by destruct (parseXMLFile_loop_tags _ _ _ _ _)
      as [[[r f] tags]|u|].
Qed.

Lemma parseXMLFile_erase file :
  parseXMLFile file = (r ← parseXMLFile_tags file; Ok r.1).
Proof.
  unfold parseXMLFile, parseXMLFile_tags.
  destruct (readXMLTag file) as [[[tag|d] file1]|u|];
    cbn [mbind outcome_bind]; [|done..].
  case_decide; [done|]. cbn [createXMLNode]. case_decide.
  - by destruct (initXMLNodeFromXMLTag _ _ _).
  - destruct (initXMLNodeFromXMLTag _ _ _) as [h0|u|];
      cbn [mbind outcome_bind]; [|done..].
    rewrite parseXMLFile_loop_erase.
    destruct (parseXMLFile_loop_tags _ _ _ _ _)
      as [[[[[cur h]|d] f] tags]|u|]; cbn [mbind outcome_bind fst];
      [|done..].
    by case_decide.
Qed.

Lemma up_frame h h' x l :
  up h x l →
  (∀ y n, h !! y = Some n →
          ∃ n', h' !! y = Some n' ∧ node_parent n' = node_parent n) →
  up h' x l.
Proof.
  intros Hup Hf. induction Hup as [x n Hx Hp|x n p l Hx Hp _ IH];
    destruct (Hf x n Hx) as (n' & Hx' & Hp').
  - apply (up_root h' x n' Hx'). congruence.
  - apply (up_step h' x n' p l Hx'); [congruence|done].
Qed.

Lemma up_value h x l n nd v :
  up h x l → h !! n = Some nd → up (<[n := setXMLNodeValue v nd]> h) x l.
Proof.
  intros Hup Hn. apply (up_frame h _ x l Hup). intros y ny Hy.
  destruct (decide (y = n)) as [->|Hne].
  - rewrite list_lookup_insert_eq by (by eapply lookup_lt_Some).
    rewrite Hn in Hy. injection Hy as <-. by eexists.
  - rewrite list_lookup_insert_ne by done. by eexists.
Qed.

(** The new node has the open node as parent, the others keep theirs. *)
Lemma up_attach h cur l fresh np h2 :
  up h cur l → h !! cur = Some np → node_parent fresh = None →
  (∀ x, h2 !! x
        = link cur (length h) (node_last np) x <$> (h ++ [fresh]) !! x) →
  up h2 cur l ∧ up h2 (length h) (cur :: l).
Proof.
  intros Hup Hnp Hfresh Hlink.
  assert (up h2 cur l) as Hup2.
  { apply (up_frame h _ cur l Hup). intros y n Hy.
    pose proof (lookup_lt_Some _ _ _ Hy) as Hlt.
    exists (link cur (length h) (node_last np) y n).
    rewrite Hlink, lookup_app_l, Hy by done. split; [done|].
    rewrite link_parent. by rewrite decide_False by lia. }
  split; [done|].
  apply (up_step h2 _ (link cur (length h) (node_last np) (length h) fresh)
           cur l); [|by rewrite link_parent, decide_True|done].
  by rewrite Hlink, list_lookup_middle.
Qed.

(** One turn of the loop, for the lemmas on its log: the arena after the
    value was read, and the ancestors of the open node in it. *)
Lemma readXMLNodeValue_up cur file h h1 file1 l :
  built h → up h cur l →
  readXMLNodeValue cur file h = Ok (h1, file1) →
  built h1 ∧ length h1 = length h ∧ up h1 cur l.
Proof.
  intros Hb Hup E.
  destruct (readXMLNodeValue_built _ _ _ _ _ Hb E) as [Hb1 Hlen1].
  split; [done|]. split; [done|].
  apply readXMLNodeValue_effect in E as [->|(nd & v & Hnd & ->)]; [done|].
  by apply up_value.
Qed.

Lemma up_valid h x l : up h x l → (x < length h)%nat.
Proof. destruct 1; by eapply lookup_lt_Some. Qed.

Lemma parseXMLFile_loop_tags_balanced fuel :
  ∀ file h root cur l cur' h' rest tags,
    built h → up h cur l →
    parseXMLFile_loop_tags fuel file h root cur
    = Ok (Ptr (cur', h'), rest, tags) →
    cur' = 0%nat ∧ balanced (length l) tags.
Proof.
  induction fuel as [|fuel IH];
    intros file h root cur l cur' h' rest tags Hb Hup H; [done|].
  unfold parseXMLFile_loop_tags in H; fold parseXMLFile_loop_tags in H.
  apply bind_Ok_inv in H as ([h1 file1] & E & H).
  destruct (readXMLNodeValue_up _ _ _ _ _ _ Hb Hup E) as (Hb1 & Hlen1 & Hup1).
  pose proof (up_valid _ _ _ Hup1) as Hcur1.
  apply bind_Ok_inv in H as ([[tag|d] file2] & Etag & H); [|done].
  apply bind_Ok_inv in H as ([[r f] tags'] & Hrec & H).
  injection H as -> -> <-.
  destruct (tag_type tag); cbn [createXMLNode] in Hrec.
  - apply bind_Ok_inv in Hrec as (h2 & Einit & Hrec).
    apply bind_Ok_inv in Hrec as (h3 & Eadd & Hrec).
    destruct (attach_effect h1 cur tag h2 h3 Hb1 Hcur1 Einit Eadd)
      as (s & np & Hs & Hnp & Hlen3 & Hb3 & Hlink).
    destruct (up_attach h1 cur l
                (set_attr (rev (tag_attr tag)) (set_name (Some s) initXMLNode))
                np h3 Hup1 Hnp eq_refl Hlink)
      as [_ Hup3].
    by apply (IH _ _ _ _ _ _ _ _ _ Hb3 Hup3) in Hrec.
  - apply bind_Ok_inv in Hrec as (n & En & Hrec). unfold load in En.
    destruct (h1 !! cur) as [n'|] eqn:Hn; [|done]. injection En as ->.
    inversion Hup1 as [? n1 Hn1 Hp1|? n1 p l' Hn1 Hp1 Hup'];
      subst; rewrite Hn in Hn1; injection Hn1 as <-; rewrite Hp1 in Hrec.
    + injection Hrec as <- <- <- <-. split; [|done].
      destruct Hb1 as (_ & _ & _ & Hroot). by apply (Hroot cur n).
    + by apply (IH _ _ _ _ _ _ _ _ _ Hb1 Hup') in Hrec.
  - apply bind_Ok_inv in Hrec as (h2 & Einit & Hrec).
    apply bind_Ok_inv in Hrec as (h3 & Eadd & Hrec).
    destruct (attach_effect h1 cur tag h2 h3 Hb1 Hcur1 Einit Eadd)
      as (s & np & Hs & Hnp & Hlen3 & Hb3 & Hlink).
    destruct (up_attach h1 cur l
                (set_attr (rev (tag_attr tag)) (set_name (Some s) initXMLNode))
                np h3 Hup1 Hnp eq_refl Hlink)
      as [Hup3 _].
    by apply (IH _ _ _ _ _ _ _ _ _ Hb3 Hup3) in Hrec.
  - by apply (IH _ _ _ _ _ _ _ _ _ Hb1 Hup1) in Hrec.
Qed.

Lemma parseXMLFile_loop_tags_open fuel :
  ∀ file h root cur l d rest tags,
    built h → up h cur l →
    parseXMLFile_loop_tags fuel file h root cur = Ok (NULL d, rest, tags) →
    d = Some TreeNotFinished ∧ ∀ k, ¬ balanced (length l) (take k tags).
Proof.
  induction fuel as [|fuel IH];
    intros file h root cur l d rest tags Hb Hup H; [done|].
  unfold parseXMLFile_loop_tags in H; fold parseXMLFile_loop_tags in H.
  apply bind_Ok_inv in H as ([h1 file1] & E & H).
  destruct (readXMLNodeValue_up _ _ _ _ _ _ Hb Hup E) as (Hb1 & Hlen1 & Hup1).
  pose proof (up_valid _ _ _ Hup1) as Hcur1.
  apply bind_Ok_inv in H as ([[tag|d'] file2] & Etag & H).
  2: { injection H as <- <- <-. split; [done|]. intros k.
       rewrite take_nil. by intros []. }
  apply bind_Ok_inv in H as ([[r f] tags'] & Hrec & H).
  injection H as -> -> <-.
  assert (∀ d',
            (∀ k, ¬ balanced d' (take k tags')) →
            (∀ k, balanced (length l) (take (S k) (tag_type tag :: tags'))
                  → balanced d' (take k tags')) →
            ∀ k, ¬ balanced (length l) (take k (tag_type tag :: tags')))
    as Hstep.
  { intros d' Hno Hto [|k]; [by intros []|]. intros Hk.
    by apply (Hno k), Hto. }
  destruct (tag_type tag); cbn [createXMLNode] in Hrec.
  - apply bind_Ok_inv in Hrec as (h2 & Einit & Hrec).
    apply bind_Ok_inv in Hrec as (h3 & Eadd & Hrec).
    destruct (attach_effect h1 cur tag h2 h3 Hb1 Hcur1 Einit Eadd)
      as (s & np & Hs & Hnp & Hlen3 & Hb3 & Hlink).
    destruct (up_attach h1 cur l
                (set_attr (rev (tag_attr tag)) (set_name (Some s) initXMLNode))
                np h3 Hup1 Hnp eq_refl Hlink)
      as [_ Hup3].
    apply (IH _ _ _ _ _ _ _ _ Hb3 Hup3) in Hrec as [-> Hno].
    split; [done|]. by apply (Hstep (length (cur :: l)) Hno).
  - apply bind_Ok_inv in Hrec as (n & En & Hrec). unfold load in En.
    destruct (h1 !! cur) as [n'|] eqn:Hn; [|done]. injection En as ->.
    inversion Hup1 as [? n1 Hn1 Hp1|? n1 p l' Hn1 Hp1 Hup'];
      subst; rewrite Hn in Hn1; injection Hn1 as <-; rewrite Hp1 in Hrec;
      [done|].
    apply (IH _ _ _ _ _ _ _ _ Hb1 Hup') in Hrec as [-> Hno].
    split; [done|]. by apply (Hstep (length l') Hno).
  - apply bind_Ok_inv in Hrec as (h2 & Einit & Hrec).
    apply bind_Ok_inv in Hrec as (h3 & Eadd & Hrec).
    destruct (attach_effect h1 cur tag h2 h3 Hb1 Hcur1 Einit Eadd)
      as (s & np & Hs & Hnp & Hlen3 & Hb3 & Hlink).
    destruct (up_attach h1 cur l
                (set_attr (rev (tag_attr tag)) (set_name (Some s) initXMLNode))
                np h3 Hup1 Hnp eq_refl Hlink)
      as [Hup3 _].
    apply (IH _ _ _ _ _ _ _ _ Hb3 Hup3) in Hrec as [-> Hno].
    split; [done|]. by apply (Hstep (length l) Hno).
  - apply (IH _ _ _ _ _ _ _ _ Hb1 Hup1) in Hrec as [-> Hno].
    split; [done|]. by apply (Hstep (length l) Hno).
Qed.

(** C6.  [<a><b></a>] leaves the root open: the stream ends, no tag is
    left and [parseXMLFile] returns [NULL] ("tree isn't finished", an
    unbalanced-tags failure).  In general, [parseXMLFile_tags] being
    [parseXMLFile] with the log of the tags it reads: a tree is returned
    only when the first tag is a unique tag, or when the tags read after
    the root's opening tag balance, the last one closing the root; the loop
    is then left with the open node being the root itself, never another
    node.  When the root was opened and no tree is returned, the root was
    never closed, and the failure is the unbalanced-tags one ("tree isn't
    finished"); the message "Last closed node isn't root node" is never
    the one returned. *)
Theorem parse_succeeds_only_at_root :
  (parseXMLFile doc_unbalanced = Ok (NULL (Some TreeNotFinished), [])
   ∧ kind_of TreeNotFinished = UnbalancedTags)
  ∧ (∀ file, parseXMLFile file = (r ← parseXMLFile_tags file; Ok r.1))
  ∧ (∀ file root h rest tags,
      parseXMLFile_tags file = Ok (Ptr (root, h), rest, tags) →
      root = 0%nat
      ∧ (tags = [UNIQUE]
         ∨ ∃ t body, tags = t :: body ∧ t ≠ CLOSING ∧ t ≠ UNIQUE
                     ∧ balanced 0 body))
  ∧ (∀ file tag file1 h0 current h rest,
      readXMLTag file = Ok (Ptr tag, file1) →
      initXMLNodeFromXMLTag 0%nat tag [initXMLNode] = Ok h0 →
      parseXMLFile_loop (S (length file1)) file1 h0 0%nat 0%nat
      = Ok (Ptr (current, h), rest) →
      current = 0%nat)
  ∧ (∀ file d rest tags,
      parseXMLFile_tags file = Ok (NULL d, rest, tags) →
      (d = Some NothingToParse ∧ tags = [])
      ∨ (d = Some FirstTagClosing ∧ tags = [CLOSING])
      ∨ (d = Some TreeNotFinished
         ∧ kind_of TreeNotFinished = UnbalancedTags
         ∧ ∃ t body, tags = t :: body ∧ t ≠ CLOSING ∧ t ≠ UNIQUE
                     ∧ ∀ k, ¬ balanced 0 (take k body))).
Proof.
  split; [split; [vm_compute|]; reflexivity|].
  split; [apply parseXMLFile_erase|].
  assert (∀ tag h0,
            initXMLNodeFromXMLTag 0%nat tag [initXMLNode] = Ok h0 →
            built h0 ∧ up h0 0%nat []) as Hstart.
  { intros tag h0 Hinit.
    apply (initXMLNodeFromXMLTag_fresh []) in Hinit as (n & -> & Hn).
    split; [by apply built_root|].
    apply (up_root _ 0%nat n); [done|]. by destruct Hn as (_ & ? & _). }
  split; [|split].
  - intros file root h rest tags H. unfold parseXMLFile_tags in H.
    apply bind_Ok_inv in H as ([[tag|d] file1] & Etag & H); [|done].
    case_decide as Hc; [done|]. cbn [createXMLNode] in H.
    case_decide as Hu.
    + apply bind_Ok_inv in H as (h0 & Hinit & H).
      injection H as <- <- <- <-. rewrite Hu. split; [done|]. by left.
    + apply bind_Ok_inv in H as (h0 & Hinit & H).
      apply bind_Ok_inv in H as ([[[[cur h1]|d] f] body] & Hloop & H);
        [|done].
      case_decide; [done|]. injection H as <- <- <- <-.
      split; [done|]. right. exists (tag_type tag), body.
      repeat split; try done.
      destruct (Hstart tag h0 Hinit) as [Hb0 Hup0].
      by apply (parseXMLFile_loop_tags_balanced _ _ _ _ _ _ _ _ _ _ Hb0 Hup0)
        in Hloop as [_ Hbal].
  - intros file tag file1 h0 current h rest _ Hinit Hloop.
    destruct (Hstart tag h0 Hinit) as [Hb0 Hup0].
    by apply (parseXMLFile_loop_built _ _ _ _ _ _ _ _ Hb0
                (up_valid _ _ _ Hup0)) in Hloop as [_ ->].
  - intros file d rest tags H. unfold parseXMLFile_tags in H.
    apply bind_Ok_inv in H as ([[tag|d'] file1] & Etag & H).
    2: { injection H as <- <- <-. by left. }
    case_decide as Hc.
    { injection H as <- <- <-. right. left. by rewrite Hc. }
    cbn [createXMLNode] in H. case_decide as Hu.
    { by apply bind_Ok_inv in H as (h0 & Hinit & H). }
    apply bind_Ok_inv in H as (h0 & Hinit & H).
    destruct (Hstart tag h0 Hinit) as [Hb0 Hup0].
    apply bind_Ok_inv in H as ([[[[cur h1]|d'] f] body] & Hloop & H).
    + apply (parseXMLFile_loop_tags_balanced _ _ _ _ _ _ _ _ _ _ Hb0 Hup0)
        in Hloop as [-> _].
      by rewrite decide_False in H by (by intros E; apply E).
    + injection H as <- <- <-.
      apply (parseXMLFile_loop_tags_open _ _ _ _ _ _ _ _ _ Hb0 Hup0)
        in Hloop as [-> Hno].
      right. right. split; [done|]. split; [done|].
      by exists (tag_type tag), body.
Qed.

Lemma parse_succeeds_only_at_root_witness :
  (parseXMLFile_tags (str "<a><b>x</b><c/></a>")
   = Ok (Ptr (0%nat, tree_of (str "<a><b>x</b><c/></a>")), [],
         [OPENING; OPENING; CLOSING; UNIQUE; CLOSING])
   ∧ 0%nat = 0%nat
   ∧ ([OPENING; OPENING; CLOSING; UNIQUE; CLOSING] = [UNIQUE]
      ∨ ∃ t body, [OPENING; OPENING; CLOSING; UNIQUE; CLOSING] = t :: body
                  ∧ t ≠ CLOSING ∧ t ≠ UNIQUE ∧ balanced 0 body))
  ∧ (parseXMLFile_tags doc_unbalanced
     = Ok (NULL (Some TreeNotFinished), [], [OPENING; OPENING; CLOSING])
     ∧ ((Some TreeNotFinished = Some NothingToParse
         ∧ [OPENING; OPENING; CLOSING] = [])
        ∨ (Some TreeNotFinished = Some FirstTagClosing
           ∧ [OPENING; OPENING; CLOSING] = [CLOSING])
        ∨ (Some TreeNotFinished = Some TreeNotFinished
           ∧ kind_of TreeNotFinished = UnbalancedTags
           ∧ ∃ t body, [OPENING; OPENING; CLOSING] = t :: body
                       ∧ t ≠ CLOSING ∧ t ≠ UNIQUE
                       ∧ ∀ k, ¬ balanced 0 (take k body)))).
Proof.
  split; (split; [vm_compute; reflexivity|]).
  - apply (proj1 (proj2 (proj2 parse_succeeds_only_at_root))
             (str "<a><b>x</b><c/></a>") 0%nat
             (tree_of (str "<a><b>x</b><c/></a>")) []).
    vm_compute. reflexivity.
  - apply (proj2 (proj2 (proj2 (proj2 parse_succeeds_only_at_root)))
             doc_unbalanced (Some TreeNotFinished) []).
    vm_compute. reflexivity.
Defined.

(** * Predicate queries on a parsed tree (xml.c) *)

Lemma path_at_seg pre seg rest j a :
  seg !! j = Some a →
  path_at (pre ++ seg ++ rest) (length pre + j) = Ok a.
Proof.
  intros Hj. unfold path_at.
  rewrite lookup_app_r by lia.
  replace (length pre + j - length pre)%nat with j by lia.
  by rewrite (lookup_app_l_Some _ _ _ _ Hj).
Qed.

Lemma path_at_after pre seg rest :
  path_at (pre ++ seg ++ rest) (length pre + length seg) = Ok (hd NUL rest).
Proof.
  destruct rest as [|d rest].
  - rewrite app_nil_r. rewrite <- length_app. apply path_at_end.
  - rewrite app_assoc, <- length_app. apply path_at_middle.
Qed.

(** The name loop copies the name and stops on the '?'. *)
Lemma getXMLNode_name_spec seg :
  ∀ fuel pre rest buf iBuf,
    Forall (λ a, a ≠ "/"%char ∧ a ≠ "?"%char ∧ a ≠ NUL) seg →
    (iBuf + length seg < XML_BUFFER_LENGTH)%nat →
    (length seg < fuel)%nat →
    ∃ buf',
      getXMLNode_name fuel (pre ++ seg ++ "?"%char :: rest) (length pre)
                      (hd "?"%char seg) buf iBuf
      = Ok (buf', (iBuf + length seg)%nat, (length pre + length seg)%nat,
            "?"%char).
Proof.
  induction seg as [|a seg IH];
    intros fuel pre rest buf iBuf Hseg Hcap Hfuel;
    (destruct fuel as [|fuel]; [cbn in Hfuel; lia|]);
    cbn [getXMLNode_name hd].
  - rewrite (bool_decide_eq_false_2 ("?"%char ≠ "?"%char))
      by (by intros H; apply H).
    rewrite andb_false_r. cbn [andb]. exists buf.
    by rewrite !Nat.add_0_r.
  - apply Forall_cons in Hseg as [(Ha1 & Ha2 & Ha3) Hseg].
    cbn [length] in *.
    rewrite !bool_decide_eq_true_2 by done.
    rewrite (proj2 (Nat.ltb_lt _ _)) by lia. cbn [andb].
    rewrite poke_in_bounds by lia. cbn [mbind outcome_bind].
    replace (pre ++ (a :: seg) ++ "?"%char :: rest)
      with ((pre ++ [a]) ++ seg ++ "?"%char :: rest)
      by (by rewrite <- app_assoc).
    replace (S (length pre)) with (length (pre ++ [a]))
      by (rewrite length_app; cbn; lia).
    assert (path_at ((pre ++ [a]) ++ seg ++ "?"%char :: rest)
              (length (pre ++ [a])) = Ok (hd "?"%char seg)) as ->
      by (destruct seg; apply path_at_middle).
    cbn [mbind outcome_bind].
    destruct (IH fuel (pre ++ [a]) rest (<[iBuf:=a]> buf) (S iBuf))
      as (buf' & ->); [done|lia|lia|].
    exists buf'. rewrite length_app. cbn [length].
    replace (S iBuf + length seg)%nat with (iBuf + S (length seg))%nat by lia.
    by replace (length pre + 1 + length seg)%nat
      with (length pre + S (length seg))%nat by lia.
Qed.

(** A copy loop copies up to the stop character, or the terminator, and
    that character too. *)
Lemma getXMLNode_copy_spec stop bound path d seg :
  ∀ fuel i buf iBuf,
    (∀ j a, seg !! j = Some a → path_at path (i + j) = Ok a) →
    path_at path (i + length seg) = Ok d →
    Forall (λ a, a ≠ stop ∧ a ≠ NUL) seg → d = stop ∨ d = NUL →
    (∀ k, (k ≤ S (iBuf + length seg))%nat → bound k = true) →
    (iBuf + length seg < XML_BUFFER_LENGTH)%nat →
    (length seg < fuel)%nat →
    ∃ buf',
      getXMLNode_copy fuel stop bound path i buf iBuf
      = Ok (buf', S (iBuf + length seg), S (i + length seg), d).
Proof.
  induction seg as [|a seg IH];
    intros fuel i buf iBuf Hat Hd Hseg Hstop Hbound Hcap Hfuel;
    (destruct fuel as [|fuel]; [cbn in Hfuel; lia|]);
    cbn [getXMLNode_copy length] in *.
  - rewrite Nat.add_0_r in Hd. rewrite Hd. cbn [mbind outcome_bind].
    rewrite poke_in_bounds by lia. cbn [mbind outcome_bind].
    assert (bool_decide (d ≠ stop) && bool_decide (d ≠ NUL) = false) as ->.
    { destruct Hstop as [->| ->].
      - by rewrite (bool_decide_eq_false_2 (stop ≠ stop))
          by (by intros H; apply H).
      - rewrite (bool_decide_eq_false_2 (NUL ≠ NUL))
          by (by intros H; apply H).
        by rewrite andb_false_r. }
    cbn [andb]. eexists. by rewrite !Nat.add_0_r.
  - apply Forall_cons in Hseg as [[Ha1 Ha2] Hseg].
    pose proof (Hat 0%nat a eq_refl) as Ha0. rewrite Nat.add_0_r in Ha0.
    rewrite Ha0. cbn [mbind outcome_bind].
    rewrite poke_in_bounds by lia. cbn [mbind outcome_bind].
    rewrite !bool_decide_eq_true_2 by done.
    rewrite (Hbound (S iBuf)) by lia. cbn [andb].
    destruct (IH fuel (S i) (<[iBuf:=a]> buf) (S iBuf)) as (buf' & ->).
    + intros j b Hj. replace (S i + j)%nat with (i + S j)%nat by lia.
      by apply Hat.
    + by replace (S i + length seg)%nat with (i + S (length seg))%nat by lia.
    + done.
    + done.
    + intros k Hk. apply Hbound. lia.
    + lia.
    + lia.
    + exists buf'.
      replace (S iBuf + length seg)%nat with (iBuf + S (length seg))%nat
        by lia.
      by replace (S i + length seg)%nat with (i + S (length seg))%nat by lia.
Qed.

(** With an attribute name that holds '=', the sibling scan ends without
    a match. *)
Lemma getXMLNode_match_none h nb ab vb k :
  all_named h → attrs_plain h → "="%char ∈ list_ascii_of_string ab →
  ∀ l n fuel,
    chain h (Some n) l → (length l ≤ fuel)%nat →
    getXMLNode_match fuel h nb ab vb (Some (S k)) n = Ok (false, None).
Proof.
  intros Hnamed Hplain Hab l. induction l as [|a l IH];
    intros n fuel Hch Hfuel; inversion Hch as [|? nd ? Hn Hnext]; subst.
  destruct fuel as [|fuel]; [cbn in Hfuel; lia|].
  cbn [getXMLNode_match]. rewrite (load_Some _ _ _ Hn).
  cbn [mbind outcome_bind].
  destruct (Hnamed _ _ Hn) as [s Hs]. rewrite Hs.
  cbn [strcmp_ne mbind outcome_bind].
  assert ((if bool_decide (nb ≠ s)
           then Ok (false, node_next nd)
           else
             '(nodeFound, attr) ←
               getXMLNode_attrs (node_attr nd) ab vb false;
             match attr with
             | [] => Ok (nodeFound, node_next nd)
             | _ :: _ => Ok (nodeFound, Some a)
             end)
          = Ok (false, node_next nd)) as ->.
  { destruct (bool_decide (nb ≠ s)); [done|].
    by rewrite (getXMLNode_attrs_plain _ _ _ (Hplain _ _ Hn) Hab). }
  cbn [mbind outcome_bind].
  destruct (node_next nd) as [n'|] eqn:En; [|done].
  apply (IH n' fuel); [done|cbn in Hfuel; lia].
Qed.

(** X16.  A query with a predicate finds nothing in a parsed tree.  On the
    tree of a document that [parseXMLFile] accepted, for a path whose first
    segment is a name, '?', an attribute name, '=' and a value, whether the
    path ends there or goes on after a '/', and for any node the search
    starts from, [getXMLNode] returns [NULL]: the attribute name it compares
    holds the '=' of the path, which no attribute read by [readXMLAttribute]
    has in its name (and the first character of the value is skipped).
    This holds even when a sibling has exactly that name, attribute and
    value.  The name, the attribute name and the value are shorter than the
    scratch buffers, and the path, a C string, holds no NUL. *)
Theorem getXMLNode_predicate_finds_nothing :
  ∀ file root h rest name an x v tail start l,
    parseXMLFile file = Ok (Ptr (root, h), rest) →
    chain h start l →
    Forall (λ a, a ≠ "/"%char ∧ a ≠ "?"%char ∧ a ≠ NUL) name →
    (length name < XML_BUFFER_LENGTH)%nat →
    Forall (λ a, a ≠ "="%char ∧ a ≠ NUL) an →
    (S (length an) < XML_BUFFER_LENGTH)%nat →
    x ≠ NUL →
    Forall (λ a, a ≠ "/"%char ∧ a ≠ NUL) v →
    (S (length v) < XML_BUFFER_LENGTH)%nat →
    tail = [] ∨ head tail = Some "/"%char → Forall (λ a, a ≠ NUL) tail →
    getXMLNode (name ++ "?"%char :: an ++ "="%char :: x :: v ++ tail) h start
    = Ok None.
Proof.
  intros file root h rest name an x v tail start l Hparse Hch Hname Hnlen
    Han Halen _ Hv Hvlen Htail _.
  pose proof (parseXMLFile_attrs_plain _ _ _ _ Hparse) as Hplain.
  pose proof (parseXMLFile_built _ _ _ _ Hparse) as [(_ & _ & Hnamed & _) _].
  unfold getXMLNode.
  set (path := name ++ "?"%char :: an ++ "="%char :: x :: v ++ tail).
  destruct start as [n|]; [|done].
  unfold getXMLNode_from; fold getXMLNode_from.
  assert (path_at path 0 = Ok (hd "?"%char name)) as ->.
  { unfold path. destruct name; apply (path_at_middle []). }
  cbn [mbind outcome_bind].
  destruct (getXMLNode_name_spec name path_fuel [] (an ++ "="%char :: x
              :: v ++ tail) new_buffer 0 Hname)
    as (nb & Ename); [lia|unfold path_fuel; lia|].
  cbn [app length Nat.add] in Ename. fold path in Ename. rewrite Ename.
  cbn [mbind outcome_bind].
  rewrite poke_in_bounds by done. cbn [mbind outcome_bind].
  rewrite decide_True by done.
  (* the attribute name, with the '=' *)
  assert (path = (name ++ ["?"%char]) ++ an ++ "="%char :: x :: v ++ tail)
    as Hpath1 by (unfold path; by rewrite <- app_assoc).
  assert (length (name ++ ["?"%char]) = S (length name)) as Hlen1
    by (rewrite length_app; cbn; lia).
  destruct (getXMLNode_copy_spec "="
              (λ _, (length name <? XML_BUFFER_LENGTH)%nat) path "="%char an
              path_fuel (S (length name)) new_buffer 0)
    as (ab & Eattr).
  { intros j a Hj. rewrite Hpath1, <- Hlen1. by apply path_at_seg. }
  { rewrite Hpath1, <- Hlen1. by rewrite path_at_after. }
  { done. }
  { by left. }
  { intros k _. by apply Nat.ltb_lt. }
  { lia. }
  { unfold path_fuel. lia. }
  rewrite Eattr. cbn [mbind outcome_bind Nat.add].
  apply getXMLNode_copy_ends in Eattr as (Hablen & _ & Habnz & Habin);
    [|apply new_buffer_length|lia|by rewrite take_0|done].
  rewrite poke_in_bounds by lia. cbn [mbind outcome_bind].
  rewrite decide_False by (by intros H; apply H).
  (* the value, from its second character *)
  assert (path = (name ++ "?"%char :: an ++ ["="%char; x]) ++ v ++ tail)
    as Hpath2.
  { unfold path. rewrite <- !app_assoc. cbn [app]. by rewrite <- !app_assoc. }
  assert (length (name ++ "?"%char :: an ++ ["="%char; x])
          = S (S (S (length name + length an)))) as Hlen2.
  { rewrite length_app. cbn [length]. rewrite length_app. cbn. lia. }
  destruct (getXMLNode_copy_spec "/" (λ iVaBuf, (iVaBuf <? XML_BUFFER_LENGTH)%nat)
              path (hd NUL tail) v path_fuel
              (S (S (S (length name + length an)))) new_buffer 0)
    as (vb & Evalue).
  { intros j a Hj. rewrite Hpath2, <- Hlen2. by apply path_at_seg. }
  { rewrite Hpath2, <- Hlen2. by rewrite path_at_after. }
  { done. }
  { destruct Htail as [->|Htail]; [by right|]. left.
    destruct tail; [done|]. by injection Htail as ->. }
  { intros k Hk. apply Nat.ltb_lt. cbn in Hk. lia. }
  { lia. }
  { unfold path_fuel. lia. }
  rewrite Evalue. cbn [mbind outcome_bind Nat.add].
  rewrite poke_in_bounds by lia. cbn [mbind outcome_bind].
  rewrite (getXMLNode_match_none h _ _ _ (length an) Hnamed Hplain) with (l := l).
  - done.
  - rewrite (cstr_terminated (take (S (length an)) ab) ab (S (length an)))
      by (done || lia).
    by rewrite list_ascii_of_string_of_list_ascii.
  - done.
  - pose proof (chain_length _ _ _ Hch). lia.
Qed.

Lemma getXMLNode_predicate_finds_nothing_witness :
  (node_attr <$> tree_of doc_items !! 2%nat) = Some [attribute "id" "2"]
  ∧ getXMLNode (str "item?id=2") (tree_of doc_items) (Some 1%nat) = Ok None.
Proof.
  split; [vm_compute; reflexivity|].
  apply (getXMLNode_predicate_finds_nothing doc_items 0%nat
           (tree_of doc_items) [] (str "item") (str "id") "2"%char [] []
           (Some 1%nat) [1%nat; 2%nat]).
  - vm_compute. reflexivity.
  - repeat (econstructor; try (vm_compute; reflexivity)).
  - repeat constructor; by intros Hc.
  - rewrite XML_BUFFER_LENGTH_eq. cbn. lia.
  - repeat constructor; by intros Hc.
  - rewrite XML_BUFFER_LENGTH_eq. cbn. lia.
  - by intros Hc.
  - constructor.
  - rewrite XML_BUFFER_LENGTH_eq. cbn. lia.
  - by left.
  - constructor.
Defined.
